(** * wavebuilder: Waveform, FrequencySpectrum, WaveformTransform, HistoryManager

    A shallow embedding of the signal domain model of the editor
    (domain/Waveform.js, domain/FrequencySpectrum.js,
    domain/WaveformTransform.js) and of its undo/redo manager
    (utils/HistoryManager.js), followed by the properties proved about them.
    Around these: the preset factory (domain/WaveformPresets.js), the WAV
    export (domain/WaveformExporter.js), the sample arithmetic of the two
    canvases (views/TimedomainCanvas.js, views/FrequencyCanvas.js), the
    partials of the audio preview (views/AudioPreview.js) and the undo and
    redo of the editor (WavetableEditor).

    Numbers.  Integer-valued JavaScript numbers (lengths, indices, cursors)
    are [Z]; the 32-bit conversion done by the bitwise operators is written
    out ([ToInt32]).  Sample values, amplitudes and phases are real numbers
    [R]: the arithmetic of the source is read as exact real arithmetic, so
    the rounding of doubles, NaN, the infinities and signed zeros are
    outside the model.  The rounding of a store into a Float32Array is
    written out in [Float32], and [Waveform32] reads setSample and getSample
    with it; the other modules take a stored sample for the real number
    that was written.  [Math.sin], [Math.cos],
    [Math.sqrt], [Math.abs], [Math.max], [Math.min] and [Math.PI] are the
    functions of the Standard Library's Reals.  The bytes of an
    ArrayBuffer are integers in [0, 256), and a string is the list of its
    8-bit characters.

    Exceptions are values of [outcome].  The methods are state-passing
    functions on the fields of their object; where it matters which object
    is mutated or copied (applySmoothing, the snapshots of the history), the
    objects live in an explicit store and are named by references. *)

From Stdlib Require Import ZArith List Reals Lra Lia Ascii.
From stdpp Require Import base list.

#[global] Instance Rle_decision (x y : R) : Decision (x <= y)%R := Rle_dec x y.
#[global] Instance Rlt_decision (x y : R) : Decision (x < y)%R := Rlt_dec x y.
#[global] Instance Rgt_decision (x y : R) : Decision (x > y)%R := Rgt_dec x y.
#[global] Instance Req_decision : EqDecision R := Req_dec_T.
#[global] Instance ascii_decision : EqDecision ascii := ascii_dec.

(** ** Exceptions *)

Inductive error : Type :=
| InvalidLength          (* Error('Sample rate must be a power of 2') *)
| OutOfRange (index : Z) (* Error(`Index ${index} out of bounds`) and
                            Error(`Harmonic index ${index} out of bounds`) *)
| RangeError             (* TypedArray.prototype.set: source does not fit *)
| TypeError.             (* property read on undefined *)

Inductive outcome (A : Type) : Type :=
| Ok (a : A)
| Throw (e : error).
Arguments Ok {A} a.
Arguments Throw {A} e.

Definition bind {A B : Type} (c : outcome A) (k : A -> outcome B) : outcome B :=
  match c with
  | Ok a => k a
  | Throw e => Throw e
  end.

Notation "x <- c ;; k" := (bind c (fun x => k))
  (at level 100, c at next level, right associativity).

(** ** JavaScript operators and built-ins used by the sources *)

Module JS.

(** ToInt32: reduce modulo 2^32 into [-2^31, 2^31). *)
Definition ToInt32 (n : Z) : Z :=
  let m := (n mod 2 ^ 32)%Z in
  if (m >=? 2 ^ 31)%Z then (m - 2 ^ 32)%Z else m.

(** [a & b]: both operands go through ToInt32. *)
Definition bitand (a b : Z) : Z := Z.land (ToInt32 a) (ToInt32 b).

(** [a % b] on integers keeps the sign of the dividend. *)
Definition rem (a b : Z) : Z := Z.rem a b.

(** Truncation toward zero of a real, as [%] on numbers uses it. *)
Definition trunc (r : R) : Z :=
  if decide (0 <= r)%R then Int_part r else (- Int_part (- r))%Z.

(** [x % y] on real operands: [x - trunc(x / y) * y]. *)
Definition fmod (x y : R) : R := (x - IZR (trunc (x / y)) * y)%R.

(** [Math.atan2(y, x)], the angle of the point (x, y) in (-PI, PI]. *)
Definition atan2 (y x : R) : R :=
  if decide (0 < x)%R then atan (y / x)
  else if decide (x < 0)%R then
         (if decide (0 <= y)%R then atan (y / x) + PI else atan (y / x) - PI)%R
  else if decide (0 < y)%R then (PI / 2)%R
  else if decide (y < 0)%R then (- PI / 2)%R
  else 0%R.

(** [for (let i = 0; i < n; i++) body]: the loop state is threaded. *)
Definition for_loop {S : Type} (n : Z) (body : Z -> S -> S) (s : S) : S :=
  fold_left (fun acc i => body (Z.of_nat i) acc) (seq 0 (Z.to_nat n)) s.

(** The same loop with a body that may throw. *)
Definition for_loop_m {S : Type} (n : Z) (body : Z -> S -> outcome S) (s : S)
  : outcome S :=
  fold_left (fun acc i => s' <- acc ;; body (Z.of_nat i) s')
            (seq 0 (Z.to_nat n)) (Ok s).

(** [a[i]] on an array.  A read outside the array gives [undefined] in
    the source; the model returns [d] there.  Every read of a well-formed
    object is inside its array. *)
Definition get {A : Type} (d : A) (a : list A) (i : Z) : A :=
  if (i <? 0)%Z then d else default d (a !! Z.to_nat i).

(** [a[i] = v] on an array of fixed length: a write outside is dropped. *)
Definition put {A : Type} (a : list A) (i : Z) (v : A) : list A :=
  if (i <? 0)%Z then a else <[Z.to_nat i := v]> a.

(** [new Float32Array(n)]: [n] zeros. *)
Definition Float32Array (n : Z) : list R := replicate (Z.to_nat n) 0%R.

(** [target.set(source)]: copy [source] over the front of [target]. *)
Definition set (target source : list R) : outcome (list R) :=
  if (length target <? length source)%nat then Throw RangeError
  else Ok (source ++ drop (length source) target).

(** [a.slice(0, end)]. *)
Definition slice0 {A : Type} (a : list A) (end_ : Z) : list A :=
  let len := Z.of_nat (length a) in
  let final := if (end_ <? 0)%Z then Z.max (len + end_) 0 else Z.min end_ len in
  take (Z.to_nat final) a.

(** [a.shift()], keeping the array that is left. *)
Definition shift {A : Type} (a : list A) : list A := tail a.

(** [Math.floor]. *)
Definition floor (r : R) : Z := Int_part r.

(** [for (let i = start; i < stop; i++) body], with a body that may throw. *)
Definition for_range_m {S : Type} (start stop : Z)
           (body : Z -> S -> outcome S) (s : S) : outcome S :=
  fold_left (fun acc j => s' <- acc ;; body (start + Z.of_nat j)%Z s')
            (seq 0 (Z.to_nat (stop - start))) (Ok s).


(** [a[i]] with [None] for [undefined]. *)
Definition index {A : Type} (a : list A) (i : Z) : option A :=
  if (i <? 0)%Z then None else a !! Z.to_nat i.

(** [new ArrayBuffer(n)] as a DataView sees it: [n] zero bytes. *)
Definition ArrayBuffer (n : Z) : list Z := replicate (Z.to_nat n) 0%Z.

(** The low [count] bytes of an integer, least significant first; a
    negative integer gives its two's complement. *)
Fixpoint bytesLE (count : nat) (v : Z) : list Z :=
  match count with
  | O => []
  | S count' => (v mod 256)%Z :: bytesLE count' (v / 256)%Z
  end.

(** The bytes in the order a DataView setter stores them. *)
Definition ordered (littleEndian : bool) (bytes : list Z) : list Z :=
  if littleEndian then bytes else rev bytes.

(** Storing bytes through a DataView: a RangeError when they do not fit. *)
Definition setBytes (view : list Z) (byteOffset : Z) (bytes : list Z)
  : outcome (list Z) :=
  if (byteOffset <? 0)%Z
     || (Z.of_nat (length view) <? byteOffset + Z.of_nat (length bytes))%Z
  then Throw RangeError
  else Ok (take (Z.to_nat byteOffset) view ++ bytes
           ++ drop (Z.to_nat byteOffset + length bytes) view).

Definition setUint8 (view : list Z) (byteOffset value : Z) : outcome (list Z) :=
  setBytes view byteOffset (bytesLE 1 value).

Definition setUint16 (view : list Z) (byteOffset value : Z)
           (littleEndian : bool) : outcome (list Z) :=
  setBytes view byteOffset (ordered littleEndian (bytesLE 2 value)).

Definition setUint32 (view : list Z) (byteOffset value : Z)
           (littleEndian : bool) : outcome (list Z) :=
  setBytes view byteOffset (ordered littleEndian (bytesLE 4 value)).

(** [setInt16] of a number: it is truncated toward zero and wrapped modulo
    2^16. *)
Definition setInt16 (view : list Z) (byteOffset : Z) (value : R)
           (littleEndian : bool) : outcome (list Z) :=
  setBytes view byteOffset (ordered littleEndian (bytesLE 2 (trunc value))).

(** [string.charCodeAt(i)] on a string of 8-bit characters. *)
Definition charCodeAt (string : list ascii) (i : Z) : Z :=
  Z.of_nat (nat_of_ascii (get zero string i)).

(** [for (let i = start; i < stop; i++) body]. *)
Definition for_range {S : Type} (start stop : Z) (body : Z -> S -> S) (s : S)
  : S :=
  fold_left (fun acc j => body (start + Z.of_nat j)%Z acc)
            (seq 0 (Z.to_nat (stop - start))) s.
End JS.

(** ** Storing into a Float32Array

    An element of a Float32Array holds an IEEE binary32 number: a store
    rounds its value to the nearest such number, the one with the even
    mantissa at a tie.  A binary32 number is m * 2^e with |m| < 2^24 and
    -149 <= e <= 104. *)

Module Float32.

(** [2^e] for an integer exponent. *)
Definition pow2 (e : Z) : R :=
  match e with
  | Z0 => 1
  | Zpos p => IZR (Z.pow_pos 2 p)
  | Zneg p => / IZR (Z.pow_pos 2 p)
  end.

(** The nearest integer, the even one of the two at a tie. *)
Definition nearest_even (r : R) : Z :=
  let f := Int_part r in
  let d := (r - IZR f)%R in
  if decide (d < 1 / 2)%R then f
  else if decide (1 / 2 < d)%R then (f + 1)%Z
  else if Z.even f then f else (f + 1)%Z.

(** The exponent of the last mantissa bit of a magnitude [a]: the [e] with
    2^(e+23) <= a < 2^(e+24), found by stepping up from the binade below 1
    or down from it, and never below -149, where the subnormal numbers
    lie. *)
Fixpoint up (fuel : nat) (a : R) (e : Z) : Z :=
  match fuel with
  | O => e
  | S fuel => if decide (pow2 (e + 24) <= a)%R then up fuel a (e + 1) else e
  end.

Fixpoint down (fuel : nat) (a : R) (e : Z) : Z :=
  match fuel with
  | O => e
  | S fuel => if decide (a < pow2 (e + 23))%R then down fuel a (e - 1) else e
  end.

Definition exponent (a : R) : Z :=
  if decide (1 <= a)%R then up 128 a (-24) else down 125 a (-24).

(** [Math.fround]: the number a Float32Array element holds after a store of
    [x].  A magnitude of 2^128 - 2^103 or more is stored as Infinity, which
    the reals do not have: [fround] is the store for smaller magnitudes. *)
Definition fround (x : R) : R :=
  let e := exponent (Rabs x) in
  (IZR (nearest_even (x / pow2 e)) * pow2 e)%R.

(** The numbers a Float32Array element can hold. *)
Definition representable (x : R) : Prop :=
  exists m e : Z,
    x = (IZR m * pow2 e)%R /\ (Z.abs m < 2 ^ 24)%Z /\ (-149 <= e <= 104)%Z.

End Float32.

(** ** domain/Waveform.js *)

Module Waveform.

Record t : Type := mk { sampleRate : Z; samples : list R }.

Definition isPowerOfTwo (n : Z) : bool :=
  (0 <? n)%Z && (JS.bitand n (n - 1) =? 0)%Z.

Definition constructor (n : Z) : outcome t :=
  if negb (isPowerOfTwo n) then Throw InvalidLength
  else Ok (mk n (JS.Float32Array n)).

Definition getSample (w : t) (index : Z) : outcome R :=
  if (index <? 0)%Z || (index >=? sampleRate w)%Z then Throw (OutOfRange index)
  else Ok (JS.get 0%R (samples w) index).

Definition setSample (w : t) (index : Z) (value : R) : outcome t :=
  if (index <? 0)%Z || (index >=? sampleRate w)%Z then Throw (OutOfRange index)
  else Ok (mk (sampleRate w)
              (JS.put (samples w) index (Rmax (-1) (Rmin 1 value)))).

Definition ensureContinuity (w : t) : t :=
  mk (sampleRate w)
     (JS.put (samples w) (sampleRate w - 1) (JS.get 0%R (samples w) 0)).

Definition smooth (w : t) (amount : R) : outcome t :=
  if bool_decide (amount <= 0)%R || bool_decide (amount > 1)%R then Ok w
  else
    let smoothed :=
      JS.for_loop (sampleRate w)
        (fun i smoothed =>
           let prev := JS.get 0%R (samples w)
                         (JS.rem (i - 1 + sampleRate w) (sampleRate w)) in
           let curr := JS.get 0%R (samples w) i in
           let next := JS.get 0%R (samples w) (JS.rem (i + 1) (sampleRate w)) in
           JS.put smoothed i
             (curr * (1 - amount) + (prev + next) * 0.5 * amount)%R)
        (JS.Float32Array (sampleRate w)) in
    s <- JS.set (samples w) smoothed ;;
    Ok (mk (sampleRate w) s).

Definition normalize (w : t) : t :=
  let max :=
    JS.for_loop (sampleRate w)
      (fun i max => Rmax max (Rabs (JS.get 0%R (samples w) i))) 0%R in
  if bool_decide (max > 0)%R && negb (bool_decide (max = 1%R)) then
    mk (sampleRate w)
       (JS.for_loop (sampleRate w)
          (fun i s => JS.put s i (JS.get 0%R s i / max)%R) (samples w))
  else w.

Definition clone (w : t) : outcome t :=
  cloned <- constructor (sampleRate w) ;;
  s <- JS.set (samples cloned) (samples w) ;;
  Ok (mk (sampleRate cloned) s).

(** The buffer has exactly [sampleRate] entries: true of every object the
    constructor returns and kept by every method. *)
Definition wf (w : t) : Prop := Z.of_nat (length (samples w)) = sampleRate w.

(** A waveform as the constructor admits it. *)
Definition valid (w : t) : Prop := isPowerOfTwo (sampleRate w) = true /\ wf w.

(** Every sample lies in [-1, 1]. *)
Definition in_range (w : t) : Prop :=
  Forall (fun x => -1 <= x <= 1)%R (samples w).

Definition interpolate (w : t) (position : R) : R :=
  let n := IZR (sampleRate w) in
  (* Wrap position to valid range *)
  let position := JS.fmod (JS.fmod position n + n) n in
  let index := JS.floor position in
  let fraction := (position - IZR index)%R in
  let nextIndex := JS.rem (index + 1) (sampleRate w) in
  (JS.get 0 (samples w) index * (1 - fraction)
   + JS.get 0 (samples w) nextIndex * fraction)%R.

End Waveform.

(** ** domain/Waveform.js, with the Float32Array written out

    [samples] is a Float32Array: what setSample stores is the clamped value
    rounded to binary32, and what getSample reads is that number. *)

Module Waveform32.

Definition getSample (w : Waveform.t) (index : Z) : outcome R :=
  if (index <? 0)%Z || (index >=? Waveform.sampleRate w)%Z
  then Throw (OutOfRange index)
  else Ok (JS.get 0%R (Waveform.samples w) index).

Definition setSample (w : Waveform.t) (index : Z) (value : R)
  : outcome Waveform.t :=
  if (index <? 0)%Z || (index >=? Waveform.sampleRate w)%Z
  then Throw (OutOfRange index)
  else Ok (Waveform.mk (Waveform.sampleRate w)
             (JS.put (Waveform.samples w) index
                     (Float32.fround (Rmax (-1) (Rmin 1 value))))).

End Waveform32.

(** ** domain/FrequencySpectrum.js *)

Module FrequencySpectrum.

Record Harmonic : Type := mkH { amplitude : R; phase : R }.

Record t : Type :=
  mk { harmonicCount : Z; fundamentalFrequency : R; harmonics : list Harmonic }.

(** Stands for a read outside the [harmonics] array. *)
Definition hole : Harmonic := mkH 0 0.

(** [harmonics[i] = h] on a plain array: a write past the end extends it. *)
Definition put (a : list Harmonic) (i : Z) (h : Harmonic) : list Harmonic :=
  if (i <? 0)%Z then a
  else if (Z.to_nat i <? length a)%nat then <[Z.to_nat i := h]> a
  else a ++ replicate (Z.to_nat i - length a) hole ++ [h].

Definition constructor (n : Z) : t :=
  mk n 440 (replicate (Z.to_nat n) (mkH 0 0)).

Definition getHarmonic (sp : t) (index : Z) : outcome Harmonic :=
  if (index <? 0)%Z || (index >=? harmonicCount sp)%Z
  then Throw (OutOfRange index)
  else let h := JS.get hole (harmonics sp) index in
       Ok (mkH (amplitude h) (phase h)).

Definition setHarmonic (sp : t) (index : Z) (amplitude phase : R) : outcome t :=
  if (index <? 0)%Z || (index >=? harmonicCount sp)%Z
  then Throw (OutOfRange index)
  else Ok (mk (harmonicCount sp) (fundamentalFrequency sp)
              (put (harmonics sp) index
                   (mkH (Rmax 0 (Rmin 1 amplitude)) (JS.fmod phase (PI * 2))))).

Definition clear (sp : t) : t :=
  mk (harmonicCount sp) (fundamentalFrequency sp)
     (JS.for_loop (harmonicCount sp) (fun i hs => put hs i (mkH 0 0))
                  (harmonics sp)).

Definition normalize (sp : t) : t :=
  let sum :=
    JS.for_loop (harmonicCount sp)
      (fun i sum => (sum + amplitude (JS.get hole (harmonics sp) i))%R) 0%R in
  if bool_decide (sum > 0)%R && negb (bool_decide (sum = 1%R)) then
    mk (harmonicCount sp) (fundamentalFrequency sp)
       (JS.for_loop (harmonicCount sp)
          (fun i hs =>
             let h := JS.get hole hs i in
             put hs i (mkH (amplitude h / sum) (phase h)))
          (harmonics sp))
  else sp.

Definition clone (sp : t) : t :=
  mk (harmonicCount sp) (fundamentalFrequency sp)
     (map (fun h => mkH (amplitude h) (phase h)) (harmonics sp)).

(** The array has exactly [harmonicCount] entries. *)
Definition wf (sp : t) : Prop :=
  Z.of_nat (length (harmonics sp)) = Z.max 0 (harmonicCount sp).

End FrequencySpectrum.

(** ** domain/WaveformTransform.js *)

Module WaveformTransform.

Import FrequencySpectrum.

Definition toTimeDomain (spectrum : FrequencySpectrum.t) (sampleRate : Z)
  : outcome Waveform.t :=
  waveform <- Waveform.constructor sampleRate ;;
  waveform <-
    JS.for_loop_m sampleRate
      (fun sample waveform =>
         let value :=
           JS.for_loop (harmonicCount spectrum)
             (fun harmonic value =>
                let h := JS.get hole (harmonics spectrum) harmonic in
                if bool_decide (amplitude h > 0)%R then
                  let harmonicNum := (harmonic + 1)%Z in
                  let angle :=
                    (2 * PI * IZR harmonicNum * IZR sample / IZR sampleRate
                     + phase h)%R in
                  (value + amplitude h * sin angle)%R
                else value)
             0%R in
         Waveform.setSample waveform sample value)
      waveform ;;
  Ok (Waveform.normalize waveform).

Definition toFrequencyDomain (waveform : Waveform.t) (harmonicCount : Z)
  : outcome FrequencySpectrum.t :=
  let spectrum := FrequencySpectrum.constructor harmonicCount in
  let N := Waveform.sampleRate waveform in
  JS.for_loop_m harmonicCount
    (fun k spectrum =>
       let '(real, imag) :=
         JS.for_loop N
           (fun n '(real, imag) =>
              let angle := (-2 * PI * IZR (k + 1) * IZR n / IZR N)%R in
              let x := JS.get 0%R (Waveform.samples waveform) n in
              ((real + x * cos angle)%R, (imag + x * sin angle)%R))
           (0%R, 0%R) in
       let real := (real / IZR N)%R in
       let imag := (imag / IZR N)%R in
       let amplitude := (2 * sqrt (real * real + imag * imag))%R in
       let phase := JS.atan2 imag real in
       FrequencySpectrum.setHarmonic spectrum k amplitude phase)
    spectrum.

Definition bandLimit (spectrum : FrequencySpectrum.t) (cutoffHarmonic : Z)
  : outcome FrequencySpectrum.t :=
  let limited := FrequencySpectrum.clone spectrum in
  JS.for_range_m cutoffHarmonic (harmonicCount spectrum)
    (fun i limited => FrequencySpectrum.setHarmonic limited i 0 0)
    limited.

End WaveformTransform.

(** ** Waveform objects in a store

    [applySmoothing] is about which object is mutated.  Waveform objects
    live in a store, a reference is the position of its object, and the
    methods of Waveform.js act on the object a reference points to. *)

Module Store.

Definition ref : Type := nat.
Abbreviation heap := (list Waveform.t).
Definition M (A : Type) : Type := heap -> outcome (A * heap).

Definition ret {A : Type} (a : A) : M A := fun h => Ok (a, h).

Definition bindM {A B : Type} (c : M A) (k : A -> M B) : M B :=
  fun h => match c h with
           | Ok (a, h') => k a h'
           | Throw e => Throw e
           end.

Definition lift {A : Type} (c : outcome A) : M A :=
  fun h => match c with Ok a => Ok (a, h) | Throw e => Throw e end.

(** A new object gets the next free position. *)
Definition alloc (w : Waveform.t) : M ref :=
  fun h => Ok (length h, h ++ [w]).

Definition load (r : ref) : M Waveform.t :=
  fun h => match h !! r with
           | Some w => Ok (w, h)
           | None => Throw TypeError
           end.

Definition store (r : ref) (w : Waveform.t) : M unit :=
  fun h => Ok (tt, <[r := w]> h).

(** [this.clone()]: the copy is a new object. *)
Definition clone (this : ref) : M ref :=
  bindM (load this) (fun w =>
  bindM (lift (Waveform.clone w)) (fun cloned =>
  alloc cloned)).

(** [this.smooth(amount)]: the object itself is updated. *)
Definition smooth (this : ref) (amount : R) : M unit :=
  bindM (load this) (fun w =>
  bindM (lift (Waveform.smooth w amount)) (fun w' =>
  store this w')).

(** WaveformTransform.applySmoothing *)
Definition applySmoothing (waveform : ref) (amount : R) : M ref :=
  bindM (clone waveform) (fun smoothed =>
  bindM (smooth smoothed amount) (fun _ =>
  ret smoothed)).

End Store.

(** ** utils/HistoryManager.js *)

Module HistoryManager.

Record WaveformState : Type :=
  mkW { sampleRate : Z; samples : list R }.

Record SpectrumState : Type :=
  mkS { harmonicCount : Z; harmonics : list FrequencySpectrum.Harmonic }.

(** A state as it is pushed ([timestamp] absent) or stored. *)
Record State : Type :=
  mkState { waveform : WaveformState;
            spectrum : SpectrumState;
            timestamp : option Z }.

Record t : Type :=
  mk { maxHistory : Z; history : list State; currentIndex : Z }.

(** The [detail] of a 'historychange' event. *)
Record HistoryChange : Type :=
  mkEvent { ev_canUndo : bool; ev_canRedo : bool;
            ev_historySize : Z; ev_currentIndex : Z }.

Definition constructor (maxHistory : Z) : t := mk maxHistory [] (-1).

(** [now] is the reading of [Date.now()]. *)
Definition cloneState (state : State) (now : Z) : State :=
  mkState
    (mkW (sampleRate (waveform state)) (samples (waveform state)))
    (mkS (harmonicCount (spectrum state))
         (map (fun h => FrequencySpectrum.mkH (FrequencySpectrum.amplitude h)
                                              (FrequencySpectrum.phase h))
              (harmonics (spectrum state))))
    (Some now).

Definition canUndo (h : t) : bool := (0 <? currentIndex h)%Z.

Definition canRedo (h : t) : bool :=
  (currentIndex h <? Z.of_nat (length (history h)) - 1)%Z.

Definition dispatchHistoryChange (h : t) : HistoryChange :=
  mkEvent (canUndo h) (canRedo h) (Z.of_nat (length (history h)))
          (currentIndex h).

(** [this.history[i]], [None] for [undefined]. *)
Definition entry (h : t) (i : Z) : option State :=
  if (i <? 0)%Z then None else history h !! Z.to_nat i.

Definition push (h : t) (state : State) (now : Z) : t * HistoryChange :=
  let sliced := JS.slice0 (history h) (currentIndex h + 1) in
  let pushed := sliced ++ [cloneState state now] in
  let h' :=
    if (Z.of_nat (length pushed) >? maxHistory h)%Z
    then mk (maxHistory h) (JS.shift pushed) (currentIndex h)
    else mk (maxHistory h) pushed (currentIndex h + 1) in
  (h', dispatchHistoryChange h').

(** The result holds the manager, the returned state ([None] for [null])
    and the events dispatched. *)
Definition undo (h : t) (now : Z)
  : outcome (t * option State * list HistoryChange) :=
  if canUndo h then
    let h' := mk (maxHistory h) (history h) (currentIndex h - 1) in
    match entry h' (currentIndex h') with
    | Some s => Ok (h', Some (cloneState s now), [dispatchHistoryChange h'])
    | None => Throw TypeError
    end
  else Ok (h, None, []).

Definition redo (h : t) (now : Z)
  : outcome (t * option State * list HistoryChange) :=
  if canRedo h then
    let h' := mk (maxHistory h) (history h) (currentIndex h + 1) in
    match entry h' (currentIndex h') with
    | Some s => Ok (h', Some (cloneState s now), [dispatchHistoryChange h'])
    | None => Throw TypeError
    end
  else Ok (h, None, []).

Definition getCurrentState (h : t) (now : Z) : outcome (option State) :=
  if (currentIndex h >=? 0)%Z
     && (currentIndex h <? Z.of_nat (length (history h)))%Z
  then match entry h (currentIndex h) with
       | Some s => Ok (Some (cloneState s now))
       | None => Throw TypeError
       end
  else Ok None.

Definition clear (h : t) : t * HistoryChange :=
  let h' := mk (maxHistory h) [] (-1) in
  (h', dispatchHistoryChange h').

(** The managers a program can build: [new HistoryManager(m)] followed by
    calls of its methods. *)
Inductive reachable : t -> Prop :=
| reach_new (m : Z) : reachable (constructor m)
| reach_push h state now : reachable h -> reachable (fst (push h state now))
| reach_undo h now h' r ev :
    reachable h -> undo h now = Ok (h', r, ev) -> reachable h'
| reach_redo h now h' r ev :
    reachable h -> redo h now = Ok (h', r, ev) -> reachable h'
| reach_clear h : reachable h -> reachable (fst (clear h)).

(** The cursor is [-1] or the position of an entry. *)
Definition wf (h : t) : Prop :=
  (-1 <= currentIndex h < Z.of_nat (length (history h)))%Z.

End HistoryManager.

(** ** Snapshots in a store

    A state handed to [push] shares its sample buffer and its harmonic
    objects with the caller.  Here the mutable parts of a state are objects
    of a store: Float32Array buffers, harmonic objects, and arrays of
    harmonic objects.  [cloneState] is the function of HistoryManager.js
    again, with every allocation written out. *)

Module Snapshot.

Import FrequencySpectrum.

Record heap : Type :=
  mkHeap { buffers : list (list R);
           cells : list Harmonic;
           arrays : list (list nat) }.

(** A state whose [samples] and [harmonics] are references. *)
Record t : Type :=
  mk { sampleRate : Z; samples : nat;
       harmonicCount : Z; harmonics : nat;
       timestamp : option Z }.

Definition cloneState (state : t) (now : Z) (H : heap)
  : outcome (t * heap) :=
  match buffers H !! samples state, arrays H !! harmonics state with
  | Some buffer, Some array =>
      match mapM (fun r => cells H !! r) array with
      | Some hs =>
          (* new Float32Array(state.waveform.samples) *)
          let copied := buffer in
          (* state.spectrum.harmonics.map(h => ({ ...h })) *)
          let objects := map (fun h => mkH (amplitude h) (phase h)) hs in
          let mapped := seq (length (cells H)) (length objects) in
          Ok (mk (sampleRate state) (length (buffers H))
                 (harmonicCount state) (length (arrays H))
                 (Some now),
              mkHeap (buffers H ++ [copied])
                     (cells H ++ objects)
                     (arrays H ++ [mapped]))
      | None => Throw TypeError
      end
  | _, _ => Throw TypeError
  end.

(** The data a state holds in a given store, when all its references
    point to objects of the store. *)
Definition view (H : heap) (state : t) : option HistoryManager.State :=
  match buffers H !! samples state, arrays H !! harmonics state with
  | Some buffer, Some array =>
      match mapM (fun r => cells H !! r) array with
      | Some hs =>
          Some (HistoryManager.mkState
                  (HistoryManager.mkW (sampleRate state) buffer)
                  (HistoryManager.mkS (harmonicCount state) hs)
                  (timestamp state))
      | None => None
      end
  | _, _ => None
  end.

(** [H2] keeps the objects allocated after [H0] as they are in [H1]:
    whatever happened between [H1] and [H2] touched only objects that
    were already in [H0]. *)
Definition keeps_new (H0 H1 H2 : heap) : Prop :=
  (forall r, (length (buffers H0) <= r)%nat ->
             buffers H2 !! r = buffers H1 !! r)
  /\ (forall r, (length (cells H0) <= r)%nat -> cells H2 !! r = cells H1 !! r)
  /\ (forall r, (length (arrays H0) <= r)%nat ->
                arrays H2 !! r = arrays H1 !! r).

(** [clone] is a deep clone of [state] taken at [now].  It carries the
    waveform and the spectrum of [state] under the timestamp [now]; and in
    every store where [state] is held through references, cloneState
    returns it in a new buffer and a new array of new harmonic objects,
    leaves [state] as it was, and no later change to an object that
    existed before the call shows through it. *)
Definition deep_clone (state clone : HistoryManager.State) (now : Z) : Prop :=
  HistoryManager.waveform clone = HistoryManager.waveform state
  /\ HistoryManager.spectrum clone = HistoryManager.spectrum state
  /\ HistoryManager.timestamp clone = Some now
  /\ forall H shared,
      view H shared = Some state ->
      exists c H',
        cloneState shared now H = Ok (c, H')
        /\ samples c = length (buffers H)
        /\ harmonics c = length (arrays H)
        /\ view H' c = Some clone
        /\ view H' shared = Some state
        /\ forall H'', keeps_new H H' H'' -> view H'' c = view H' c.

End Snapshot.

(** ** domain/WaveformPresets.js *)

Module WaveformPresets.

Definition sine (sampleRate : Z) : outcome Waveform.t :=
  waveform <- Waveform.constructor sampleRate ;;
  JS.for_loop_m sampleRate
    (fun i waveform =>
       let phase := (IZR i / IZR sampleRate * PI * 2)%R in
       Waveform.setSample waveform i (sin phase))
    waveform.

Definition saw (sampleRate : Z) : outcome Waveform.t :=
  waveform <- Waveform.constructor sampleRate ;;
  waveform <-
    JS.for_loop_m sampleRate
      (fun i waveform =>
         (* Linear ramp from -1 to 1 *)
         Waveform.setSample waveform i (IZR i / IZR sampleRate * 2 - 1)%R)
      waveform ;;
  Ok (Waveform.ensureContinuity waveform).

Definition square (sampleRate : Z) : outcome Waveform.t :=
  waveform <- Waveform.constructor sampleRate ;;
  let halfRate := (IZR sampleRate / 2)%R in
  JS.for_loop_m sampleRate
    (fun i waveform =>
       Waveform.setSample waveform i
         (if bool_decide (IZR i < halfRate)%R then 1 else -1)%R)
    waveform.

Definition triangle (sampleRate : Z) : outcome Waveform.t :=
  waveform <- Waveform.constructor sampleRate ;;
  let quarterRate := (IZR sampleRate / 4)%R in
  JS.for_loop_m sampleRate
    (fun i waveform =>
       let value :=
         if bool_decide (IZR i < quarterRate)%R then
           (IZR i / quarterRate)%R
         else if bool_decide (IZR i < 3 * quarterRate)%R then
           (1 - (IZR i - quarterRate) / quarterRate)%R
         else
           (-1 + (IZR i - 3 * quarterRate) / quarterRate)%R in
       Waveform.setSample waveform i value)
    waveform.

Definition custom (sampleRate : Z) (harmonics : list R) : outcome Waveform.t :=
  waveform <- Waveform.constructor sampleRate ;;
  waveform <-
    JS.for_loop_m sampleRate
      (fun i waveform =>
         let value :=
           JS.for_loop (Z.of_nat (length harmonics))
             (fun h value =>
                if negb (bool_decide (JS.get 0%R harmonics h = 0%R)) then
                  let phase :=
                    (IZR i / IZR sampleRate * PI * 2 * IZR (h + 1))%R in
                  (value + JS.get 0%R harmonics h * sin phase)%R
                else value)
             0%R in
         Waveform.setSample waveform i value)
      waveform ;;
  Ok (Waveform.normalize waveform).

End WaveformPresets.

(** ** views/TimedomainCanvas.js

    The canvas object, cut down to the fields its sample arithmetic uses.
    Event dispatch is left out, and so is [render]: it changes no field,
    and what it reads, the waveform through [interpolate] and the control
    points, cannot throw.  The conversions between screen and sample
    coordinates divide by the display size: they are those of the source on
    a display of positive width and height; on a display of size 0 the
    source gets Infinity or NaN, which the reals do not have. *)

Module TimedomainCanvas.

Record ControlPoint : Type := mkP { sampleIndex : Z; value : R }.

Record t : Type :=
  mk { waveform : Waveform.t;
       controlPoints : list ControlPoint;
       displayWidth : R;
       displayHeight : R }.

(** Stands for a read outside the [controlPoints] array. *)
Definition hole : ControlPoint := mkP 0 0.

Definition sampleToScreen (c : t) (sampleIndex : R) : R :=
  (sampleIndex / IZR (Waveform.sampleRate (waveform c)) * displayWidth c)%R.

Definition screenToSample (c : t) (x : R) : R :=
  (x / displayWidth c * IZR (Waveform.sampleRate (waveform c)))%R.

Definition valueToScreen (c : t) (value : R) : R :=
  (displayHeight c / 2 - value * displayHeight c * 0.4)%R.

Definition screenToValue (c : t) (y : R) : R :=
  (- (y - displayHeight c / 2) / (displayHeight c * 0.4))%R.

Definition initializeControlPoints (c : t) : outcome t :=
  let pointCount := Z.min 64 (Waveform.sampleRate (waveform c)) in
  let step := (IZR (Waveform.sampleRate (waveform c)) / IZR pointCount)%R in
  points <-
    JS.for_loop_m pointCount
      (fun i points =>
         let sampleIndex := JS.floor (IZR i * step) in
         value <- Waveform.getSample (waveform c) sampleIndex ;;
         Ok (points ++ [mkP sampleIndex value]))
      [] ;;
  Ok (mk (waveform c) points (displayWidth c) (displayHeight c)).

(** The search loop leaves at its first hit: [stop] is its [break]. *)
Definition interpolatePointsAt (controlPoints : list ControlPoint)
           (sampleIndex_ : Z) : outcome R :=
  let len := Z.of_nat (length controlPoints) in
  match JS.index controlPoints 0, JS.index controlPoints (len - 1) with
  | Some before, Some after =>
      let '(before, after, _) :=
        JS.for_loop (len - 1)
          (fun i '(before, after, stop) =>
             if (stop : bool) then (before, after, stop)
             else if (sampleIndex (JS.get hole controlPoints i) <=? sampleIndex_)%Z
                     && (sampleIndex (JS.get hole controlPoints (i + 1))
                         >=? sampleIndex_)%Z
                  then (JS.get hole controlPoints i,
                        JS.get hole controlPoints (i + 1), true)
                  else (before, after, false))
          (before, after, false) in
      (* Linear interpolation *)
      let range := (sampleIndex after - sampleIndex before)%Z in
      if (range =? 0)%Z then Ok (value before)
      else
        let t := (IZR (sampleIndex_ - sampleIndex before) / IZR range)%R in
        Ok (value before * (1 - t) + value after * t)%R
  | _, _ => Throw TypeError
  end.

Definition updateWaveformFromPoints (c : t) : outcome t :=
  w <-
    JS.for_loop_m (Waveform.sampleRate (waveform c))
      (fun i w =>
         value <- interpolatePointsAt (controlPoints c) i ;;
         Waveform.setSample w i value)
      (waveform c) ;;
  Ok (mk w (controlPoints c) (displayWidth c) (displayHeight c)).

(** The new waveform replaces the old one and its control points are
    collected; then the canvas is drawn again. *)
Definition updateFromWaveform (c : t) (waveform : Waveform.t) : outcome t :=
  initializeControlPoints
    (mk waveform (controlPoints c) (displayWidth c) (displayHeight c)).

Definition updateWaveformAtPosition (c : t) (x y : R) : outcome t :=
  let sampleIndex := JS.floor (screenToSample c x) in
  let value := screenToValue c y in
  if (sampleIndex >=? 0)%Z
     && (sampleIndex <? Waveform.sampleRate (waveform c))%Z
  then
    w <- Waveform.setSample (waveform c) sampleIndex value ;;
    (* Also set neighboring samples for smoother drawing *)
    let neighbors := 2%Z in
    w <-
      JS.for_range_m (- neighbors) (neighbors + 1)
        (fun i w =>
           let neighborIndex := (sampleIndex + i)%Z in
           if (neighborIndex >=? 0)%Z
              && (neighborIndex <? Waveform.sampleRate w)%Z
           then
             let weight := (1 - Rabs (IZR i) / IZR (neighbors + 1))%R in
             currentValue <- Waveform.getSample w neighborIndex ;;
             Waveform.setSample w neighborIndex
               (currentValue * (1 - weight) + value * weight)%R
           else Ok w)
        w ;;
    Ok (mk w (controlPoints c) (displayWidth c) (displayHeight c))
  else Ok c.

End TimedomainCanvas.

(** ** views/FrequencyCanvas.js

    The canvas object, cut down to the fields its harmonic arithmetic uses.
    [visibleHarmonics] is set to 32 by the constructor and never changed.
    Of the drawing only the reads of the spectrum are kept: they can throw.
    findHarmonicAtPosition divides by the bar width: it is that of the
    source on a display of positive width.
    A method that changes the canvas and then draws returns the canvas as
    the call leaves it together with the way the call ends, so that what a
    throw leaves behind is part of the result. *)

Module FrequencyCanvas.

Record t : Type :=
  mk { spectrum : FrequencySpectrum.t;
       displayWidth : R;
       displayHeight : R }.

Definition visibleHarmonics : Z := 32.

(** [None] stands for [null]. *)
Definition findHarmonicAtPosition (c : t) (x y : R) : option Z :=
  let barWidth := (displayWidth c / IZR visibleHarmonics)%R in
  let harmonic := JS.floor (x / barWidth) in
  if (harmonic >=? 0)%Z && (harmonic <? visibleHarmonics)%Z then
    (* Check if Y is within the bar area (below the center line) *)
    let centerY := (displayHeight c * 0.85)%R in
    if bool_decide (y <= centerY)%R then Some harmonic else None
  else None.

(** Each of the 32 bars is read from the spectrum before it is drawn. *)
Definition drawHarmonicBars (c : t) : outcome unit :=
  JS.for_loop_m visibleHarmonics
    (fun i _ =>
       harmonic <- FrequencySpectrum.getHarmonic (spectrum c) i ;;
       Ok tt)
    tt.

(** drawGrid and drawLabels read no object of the model. *)
Definition render (c : t) : outcome unit := drawHarmonicBars c.

Definition updateHarmonicAtPosition (c : t) (harmonic : Z) (y : R)
  : t * outcome unit :=
  let centerY := (displayHeight c * 0.85)%R in
  let maxBarHeight := (centerY - 20)%R in
  (* Calculate amplitude (0 to 1) *)
  let amplitude := Rmax 0 (Rmin 1 ((centerY - y) / maxBarHeight)) in
  (* Set harmonic amplitude (keep existing phase) *)
  match FrequencySpectrum.getHarmonic (spectrum c) harmonic with
  | Throw e => (c, Throw e)
  | Ok current =>
      match FrequencySpectrum.setHarmonic (spectrum c) harmonic amplitude
                                          (FrequencySpectrum.phase current) with
      | Throw e => (c, Throw e)
      | Ok sp =>
          let c := mk sp (displayWidth c) (displayHeight c) in
          (c, render c)
      end
  end.

Definition updateFromSpectrum (c : t) (spectrum : FrequencySpectrum.t)
  : t * outcome unit :=
  let c := mk spectrum (displayWidth c) (displayHeight c) in
  (c, render c).

End FrequencyCanvas.

(** ** domain/WaveformExporter.js

    The buffer behind the DataView is its list of bytes.  The download that
    toWAV triggers is left out: toWAV here returns the bytes it hands to the
    Blob. *)

Module WaveformExporter.

Definition writeString (view : list Z) (offset : Z) (string : list ascii)
  : outcome (list Z) :=
  JS.for_loop_m (Z.of_nat (length string))
    (fun i view => JS.setUint8 view (offset + i) (JS.charCodeAt string i))
    view.

Definition createWAVBuffer (audioData : list R) (sampleRate : Z)
  : outcome (list Z) :=
  let numChannels := 1%Z in
  let bitsPerSample := 16%Z in
  let bytesPerSample := (bitsPerSample / 8)%Z in
  let blockAlign := (numChannels * bytesPerSample)%Z in
  let byteRate := (sampleRate * blockAlign)%Z in
  let dataSize := (Z.of_nat (length audioData) * bytesPerSample)%Z in
  let view := JS.ArrayBuffer (44 + dataSize) in
  (* WAV header *)
  view <- writeString view 0 ["R"; "I"; "F"; "F"]%char ;;
  view <- JS.setUint32 view 4 (36 + dataSize) true ;;
  view <- writeString view 8 ["W"; "A"; "V"; "E"]%char ;;
  view <- writeString view 12 ["f"; "m"; "t"; " "]%char ;;
  view <- JS.setUint32 view 16 16 true ;;
  view <- JS.setUint16 view 20 1 true ;;
  view <- JS.setUint16 view 22 numChannels true ;;
  view <- JS.setUint32 view 24 sampleRate true ;;
  view <- JS.setUint32 view 28 byteRate true ;;
  view <- JS.setUint16 view 32 blockAlign true ;;
  view <- JS.setUint16 view 34 bitsPerSample true ;;
  view <- writeString view 36 ["d"; "a"; "t"; "a"]%char ;;
  view <- JS.setUint32 view 40 dataSize true ;;
  (* Write audio data *)
  r <-
    JS.for_loop_m (Z.of_nat (length audioData))
      (fun i '(view, offset) =>
         let sample := Rmax (-1) (Rmin 1 (JS.get 0%R audioData i)) in
         view <- JS.setInt16 view offset (sample * 32767)%R true ;;
         Ok (view, (offset + 2)%Z))
      (view, 44%Z) ;;
  Ok (fst r).

Definition toWAV (waveform : Waveform.t) (frequency : R) : outcome (list Z) :=
  let sampleRate := 44100%Z in
  let duration := 1%Z in
  let numSamples := (sampleRate * duration)%Z in
  let cyclesPerSecond := frequency in
  let samplesPerCycle := (IZR sampleRate / cyclesPerSecond)%R in
  let audioData :=
    JS.for_loop numSamples
      (fun i audioData =>
         let position :=
           (JS.fmod (IZR i) samplesPerCycle / samplesPerCycle
            * IZR (Waveform.sampleRate waveform))%R in
         JS.put audioData i (Waveform.interpolate waveform position))
      (JS.Float32Array numSamples) in
  createWAVBuffer audioData sampleRate.

End WaveformExporter.

(** ** WavetableEditor (utils/ThemeManager.js)

    The controller, cut down to the state its undo and redo work on: the
    current waveform and spectrum, the name of the active view, the two
    canvases, the history manager and the flag that suspends recording.
    The audio preview is taken as stopped; the storage, whose methods catch
    their own errors, and the page are left out, and with them the
    'historychange' events.  The canvases hold their waveform and spectrum
    by value.  undo, redo and restoreState return the editor as the call
    leaves it together with the way the call ends, so that what a throw
    leaves behind is part of the result. *)

Module WavetableEditor.

Record t : Type :=
  mk { currentWaveform : Waveform.t;
       currentSpectrum : FrequencySpectrum.t;
       activeView : list ascii;
       timeCanvas : TimedomainCanvas.t;
       frequencyCanvas : FrequencyCanvas.t;
       historyManager : HistoryManager.t;
       isRestoringHistory : bool }.

(** The string 'time'. *)
Definition time : list ascii := ["t"; "i"; "m"; "e"]%char.

(** [now] is the reading of [Date.now()] inside the history manager. *)
Definition pushToHistory (e : t) (now : Z) : t :=
  if isRestoringHistory e then e
  else
    let state :=
      HistoryManager.mkState
        (HistoryManager.mkW (Waveform.sampleRate (currentWaveform e))
                            (Waveform.samples (currentWaveform e)))
        (HistoryManager.mkS
           (FrequencySpectrum.harmonicCount (currentSpectrum e))
           (FrequencySpectrum.harmonics (currentSpectrum e)))
        None in
    mk (currentWaveform e) (currentSpectrum e) (activeView e)
       (timeCanvas e) (frequencyCanvas e)
       (fst (HistoryManager.push (historyManager e) state now))
       (isRestoringHistory e).

Definition restoreState (e : t) (state : HistoryManager.State)
  : t * outcome unit :=
  let restoring currentWaveform currentSpectrum timeCanvas frequencyCanvas :=
    mk currentWaveform currentSpectrum (activeView e) timeCanvas
       frequencyCanvas (historyManager e) true in
  (* Restore waveform *)
  match Waveform.constructor
          (HistoryManager.sampleRate (HistoryManager.waveform state)) with
  | Throw err =>
      (restoring (currentWaveform e) (currentSpectrum e) (timeCanvas e)
                 (frequencyCanvas e),
       Throw err)
  | Ok w =>
      match JS.set (Waveform.samples w)
                   (HistoryManager.samples (HistoryManager.waveform state)) with
      | Throw err =>
          (restoring w (currentSpectrum e) (timeCanvas e) (frequencyCanvas e),
           Throw err)
      | Ok s =>
          let currentWaveform := Waveform.mk (Waveform.sampleRate w) s in
          (* Restore spectrum *)
          let sp :=
            FrequencySpectrum.constructor
              (HistoryManager.harmonicCount (HistoryManager.spectrum state)) in
          let currentSpectrum :=
            FrequencySpectrum.mk
              (FrequencySpectrum.harmonicCount sp)
              (FrequencySpectrum.fundamentalFrequency sp)
              (map (fun h =>
                      FrequencySpectrum.mkH (FrequencySpectrum.amplitude h)
                                            (FrequencySpectrum.phase h))
                   (HistoryManager.harmonics (HistoryManager.spectrum state))) in
          (* Update active view *)
          let '(timeCanvas, frequencyCanvas, updated) :=
            if bool_decide (activeView e = time) then
              match TimedomainCanvas.updateFromWaveform (timeCanvas e)
                                                        currentWaveform with
              | Ok c => (c, frequencyCanvas e, Ok tt)
              | Throw err =>
                  (* not reached: initializeControlPoints reads inside the
                     waveform it is given *)
                  (TimedomainCanvas.mk currentWaveform []
                     (TimedomainCanvas.displayWidth (timeCanvas e))
                     (TimedomainCanvas.displayHeight (timeCanvas e)),
                   frequencyCanvas e, Throw err)
              end
            else
              let '(c, r) :=
                FrequencyCanvas.updateFromSpectrum (frequencyCanvas e)
                                                   currentSpectrum in
              (timeCanvas e, c, r) in
          match updated with
          | Throw err =>
              (restoring currentWaveform currentSpectrum timeCanvas
                         frequencyCanvas,
               Throw err)
          | Ok _ =>
              (mk currentWaveform currentSpectrum (activeView e) timeCanvas
                  frequencyCanvas (historyManager e) false,
               Ok tt)
          end
      end
  end.

(** When the history manager throws it has already moved its cursor. *)
Definition undo (e : t) (now : Z) : t * outcome unit :=
  let h := historyManager e in
  match HistoryManager.undo h now with
  | Throw err =>
      (mk (currentWaveform e) (currentSpectrum e) (activeView e)
          (timeCanvas e) (frequencyCanvas e)
          (HistoryManager.mk (HistoryManager.maxHistory h)
                             (HistoryManager.history h)
                             (HistoryManager.currentIndex h - 1))
          (isRestoringHistory e),
       Throw err)
  | Ok (h, previousState, _) =>
      let e := mk (currentWaveform e) (currentSpectrum e) (activeView e)
                  (timeCanvas e) (frequencyCanvas e) h
                  (isRestoringHistory e) in
      match previousState with
      | Some previousState => restoreState e previousState
      | None => (e, Ok tt)
      end
  end.

Definition redo (e : t) (now : Z) : t * outcome unit :=
  let h := historyManager e in
  match HistoryManager.redo h now with
  | Throw err =>
      (mk (currentWaveform e) (currentSpectrum e) (activeView e)
          (timeCanvas e) (frequencyCanvas e)
          (HistoryManager.mk (HistoryManager.maxHistory h)
                             (HistoryManager.history h)
                             (HistoryManager.currentIndex h + 1))
          (isRestoringHistory e),
       Throw err)
  | Ok (h, nextState, _) =>
      let e := mk (currentWaveform e) (currentSpectrum e) (activeView e)
                  (timeCanvas e) (frequencyCanvas e) h
                  (isRestoringHistory e) in
      match nextState with
      | Some nextState => restoreState e nextState
      | None => (e, Ok tt)
      end
  end.

End WavetableEditor.

(** ** views/AudioPreview.js

    Of the audio preview only the partials handed to the oscillator are
    modelled; playback itself is outside the model. *)

Module AudioPreview.

Definition getPartials (waveform : Waveform.t) : list R :=
  (* Extract first 32 harmonics as partials *)
  let N := Waveform.sampleRate waveform in
  JS.for_range 1 (32 + 1)
    (fun k partials =>
       (* DFT for this harmonic *)
       let '(real, imag) :=
         JS.for_loop N
           (fun n '(real, imag) =>
              let angle := (-2 * PI * IZR k * IZR n / IZR N)%R in
              let x := JS.get 0%R (Waveform.samples waveform) n in
              ((real + x * cos angle)%R, (imag + x * sin angle)%R))
           (0%R, 0%R) in
       let real := (real / IZR N)%R in
       let imag := (imag / IZR N)%R in
       (* Calculate amplitude (normalized) *)
       let amplitude := (2 * sqrt (real * real + imag * imag))%R in
       partials ++ [amplitude])
    [].

End AudioPreview.

(** ** Invariants, closed forms and readers

    What the added properties are stated with: the invariants of the objects
    a program can build, the closed forms of some loops, and the readers of
    a DataView. *)

Module Inv.

(** On a built HistoryManager the history is empty with the cursor at -1,
    or the cursor is on an entry; and the history has at most maxHistory
    entries. *)
Definition settled (h : HistoryManager.t) : Prop :=
  ((HistoryManager.history h = [] /\ HistoryManager.currentIndex h = -1)
   \/ 0 <= HistoryManager.currentIndex h
           < Z.of_nat (length (HistoryManager.history h)))%Z
  /\ (Z.of_nat (length (HistoryManager.history h))
      <= Z.max 0 (HistoryManager.maxHistory h))%Z.

(** The waveforms the methods of Waveform.js produce. *)
Inductive public_waveform : Waveform.t -> Prop :=
| public_Waveform (n : Z) w :
    Waveform.constructor n = Ok w -> public_waveform w
| public_setSample w index value w' :
    public_waveform w -> Waveform.setSample w index value = Ok w' ->
    public_waveform w'
| public_ensureContinuity w :
    public_waveform w -> public_waveform (Waveform.ensureContinuity w)
| public_smooth w amount w' :
    public_waveform w -> Waveform.smooth w amount = Ok w' ->
    public_waveform w'
| public_normalize_w w :
    public_waveform w -> public_waveform (Waveform.normalize w)
| public_clone_w w w' :
    public_waveform w -> Waveform.clone w = Ok w' -> public_waveform w'.

(** The sum of the amplitudes of a list of harmonics. *)
Definition total_amplitude (l : list FrequencySpectrum.Harmonic) : R :=
  fold_right (fun h s => (FrequencySpectrum.amplitude h + s)%R) 0%R l.

(** A list of harmonics cut at [c]: the first [c] kept, the others zeroed. *)
Definition zero_from (c : nat) (l : list FrequencySpectrum.Harmonic)
  : list FrequencySpectrum.Harmonic :=
  take c l ++ replicate (length l - c) (FrequencySpectrum.mkH 0 0).

(** Control points in strictly increasing order of their sample index. *)
Definition increasing (points : list TimedomainCanvas.ControlPoint) : Prop :=
  forall i j p p', (i < j)%Z ->
    JS.index points i = Some p -> JS.index points j = Some p' ->
    (TimedomainCanvas.sampleIndex p < TimedomainCanvas.sampleIndex p')%Z.

(** One round of the neighbour loop of updateWaveformAtPosition, on the
    buffer: the sample [sampleIndex + i], when there is one, moves toward
    [value] by the weight of its distance. *)
Definition blend (sampleIndex : Z) (value : R) (l : list R) (i : Z) : list R :=
  let neighborIndex := (sampleIndex + i)%Z in
  if (neighborIndex >=? 0)%Z && (neighborIndex <? Z.of_nat (length l))%Z then
    let weight := (1 - Rabs (IZR i) / 3)%R in
    JS.put l neighborIndex
      (Rmax (-1)
         (Rmin 1 (JS.get 0%R l neighborIndex * (1 - weight) + value * weight)))%R
  else l.

(** The 44 bytes createWAVBuffer writes in front of [n] samples. *)
Definition wav_header (n sampleRate : Z) : list Z :=
  [82; 73; 70; 70]%Z                       (* 'RIFF' *)
  ++ JS.bytesLE 4 (36 + n * 2)
  ++ [87; 65; 86; 69]%Z                    (* 'WAVE' *)
  ++ [102; 109; 116; 32]%Z                 (* 'fmt ' *)
  ++ JS.bytesLE 4 16 ++ JS.bytesLE 2 1 ++ JS.bytesLE 2 1
  ++ JS.bytesLE 4 sampleRate ++ JS.bytesLE 4 (sampleRate * 2)
  ++ JS.bytesLE 2 2 ++ JS.bytesLE 2 16
  ++ [100; 97; 116; 97]%Z                  (* 'data' *)
  ++ JS.bytesLE 4 (n * 2).

(** The 16-bit sample createWAVBuffer makes of a number. *)
Definition pcm16 (x : R) : Z := JS.trunc (Rmax (-1) (Rmin 1 x) * 32767).

(** Reading a buffer back: [getUint32], [getUint16] and [getInt16] of a
    DataView, little-endian. *)
Definition unsigned (bytes : list Z) : Z :=
  fold_right (fun b acc => (b + 256 * acc)%Z) 0%Z bytes.

Definition getUint32 (view : list Z) (byteOffset : Z) : Z :=
  unsigned (take 4 (drop (Z.to_nat byteOffset) view)).

Definition getUint16 (view : list Z) (byteOffset : Z) : Z :=
  unsigned (take 2 (drop (Z.to_nat byteOffset) view)).

Definition getInt16 (view : list Z) (byteOffset : Z) : Z :=
  let u := getUint16 view byteOffset in
  if (u >=? 32768)%Z then (u - 65536)%Z else u.

(** The state of a waveform, a harmonic count and a list of harmonics, as
    the history holds it and hands it to restoreState. *)
Definition snapshot (w : Waveform.t) (hc : Z)
           (hs : list FrequencySpectrum.Harmonic) (ts : option Z)
  : HistoryManager.State :=
  HistoryManager.mkState
    (HistoryManager.mkW (Waveform.sampleRate w) (Waveform.samples w))
    (HistoryManager.mkS hc hs) ts.

End Inv.

(** ** The properties, in the words of the specification *)

Module Spec.

Import FrequencySpectrum.

(** [clamp v lo hi]: [v] forced into [lo, hi]. *)
Definition clamp (v lo hi : R) : R :=
  if decide (v < lo)%R then lo else if decide (hi < v)%R then hi else v.

Definition is_power_of_two (n : Z) : Prop :=
  exists k : Z, (0 <= k)%Z /\ n = (2 ^ k)%Z.

(** The maximum absolute value of a sequence of samples. *)
Fixpoint max_abs (l : list R) : R :=
  match l with
  | [] => 0%R
  | x :: l' => Rmax (Rabs x) (max_abs l')
  end.

(** Peak normalization: divide by the maximum absolute value when that is
    neither 0 nor 1. *)
Definition peak_normalize (l : list R) : list R :=
  let m := max_abs l in
  if decide (m <> 0%R /\ m <> 1%R) then map (fun x => (x / m)%R) l else l.

(** [Rsum n f] is f 0 + ... + f (n-1). *)
Fixpoint Rsum (n : nat) (f : nat -> R) : R :=
  match n with
  | O => 0%R
  | S m => (Rsum m f + f m)%R
  end.

Definition sample (w : Waveform.t) (n : nat) : R :=
  nth n (Waveform.samples w) 0%R.

(** The discrete transform of harmonic index [k] over the N samples. *)
Definition dft_real (w : Waveform.t) (k : Z) : R :=
  let N := Waveform.sampleRate w in
  (Rsum (Z.to_nat N)
        (fun n => sample w n * cos (-2 * PI * IZR (k + 1) * INR n / IZR N))
   / IZR N)%R.

Definition dft_imag (w : Waveform.t) (k : Z) : R :=
  let N := Waveform.sampleRate w in
  (Rsum (Z.to_nat N)
        (fun n => sample w n * sin (-2 * PI * IZR (k + 1) * INR n / IZR N))
   / IZR N)%R.

(** The contribution of harmonic index [i] to output sample [s]. *)
Definition contribution (N : Z) (s : nat) (i : nat) (h : Harmonic) : R :=
  if decide (amplitude h = 0%R) then 0%R
  else (amplitude h
        * sin (2 * PI * (INR i + 1) * INR s / IZR N + phase h))%R.

(** The raw additive sum at sample [s], over all harmonics. *)
Definition additive (sp : FrequencySpectrum.t) (N : Z) (s : nat) : R :=
  Rsum (length (harmonics sp))
       (fun i => contribution N s i (nth i (harmonics sp) hole)).

(** toTimeDomain as specified: normalize the unclamped additive sum. *)
Definition toTimeDomain (sp : FrequencySpectrum.t) (N : Z) : list R :=
  peak_normalize (map (additive sp N) (seq 0 (Z.to_nat N))).

(** One sample of the circular 3-tap average. *)
Definition smoothed (l : list R) (amount : R) (i : nat) : R :=
  let n := length l in
  let prev := nth ((i + n - 1) mod n) l 0%R in
  let curr := nth i l 0%R in
  let next := nth ((i + 1) mod n) l 0%R in
  (curr * (1 - amount) + (prev + next) / 2 * amount)%R.

Definition smooth (l : list R) (amount : R) : list R :=
  if decide (0 < amount <= 1)%R
  then map (smoothed l amount) (seq 0 (length l))
  else l.

(** The harmonic toFrequencyDomain stores at index [k]: the amplitude is
    clamped by setHarmonic. *)
Definition stored_harmonic (w : Waveform.t) (k : Z) : Harmonic :=
  let real := dft_real w k in
  let imag := dft_imag w k in
  mkH (Rmin 1 (2 * sqrt (real * real + imag * imag))) (JS.atan2 imag real).

(** The stored-harmonic invariant. *)
Definition harmonic_ok (h : Harmonic) : Prop :=
  (0 <= amplitude h <= 1)%R /\ (0 <= phase h < 2 * PI)%R.

(** What the code keeps of it: the phase is only smaller than a full turn
    in absolute value. *)
Definition harmonic_stored (h : Harmonic) : Prop :=
  (0 <= amplitude h <= 1)%R /\ (- (2 * PI) < phase h < 2 * PI)%R.

(** The spectra the public operations produce. *)
Inductive public_spectrum : FrequencySpectrum.t -> Prop :=
| public_new (n : Z) : public_spectrum (FrequencySpectrum.constructor n)
| public_setHarmonic sp index a p sp' :
    public_spectrum sp -> setHarmonic sp index a p = Ok sp' ->
    public_spectrum sp'
| public_clear sp : public_spectrum sp -> public_spectrum (clear sp)
| public_normalize sp : public_spectrum sp -> public_spectrum (normalize sp)
| public_clone sp : public_spectrum sp -> public_spectrum (clone sp)
| public_toFrequencyDomain w hc sp :
    WaveformTransform.toFrequencyDomain w hc = Ok sp -> public_spectrum sp.

(** push as specified: truncate to [currentIndex + 1] entries, append the
    snapshot, then evict the oldest entry or advance the cursor. *)
Definition push (h : HistoryManager.t) (snapshot : HistoryManager.State)
  : HistoryManager.t :=
  let truncated :=
    take (Z.to_nat (HistoryManager.currentIndex h + 1))
         (HistoryManager.history h) in
  let appended := truncated ++ [snapshot] in
  if decide (HistoryManager.maxHistory h < Z.of_nat (length appended))%Z
  then HistoryManager.mk (HistoryManager.maxHistory h) (drop 1 appended)
                         (HistoryManager.currentIndex h)
  else HistoryManager.mk (HistoryManager.maxHistory h) appended
                         (HistoryManager.currentIndex h + 1).

(** A sequence of pushes, each state with the clock reading of its push. *)
Definition push_all (h : HistoryManager.t)
           (l : list (HistoryManager.State * Z)) : HistoryManager.t :=
  fold_left (fun h sn => fst (HistoryManager.push h (fst sn) (snd sn))) l h.

(** The snapshots such a sequence stores. *)
Definition snapshots (l : list (HistoryManager.State * Z))
  : list HistoryManager.State :=
  map (fun sn => HistoryManager.cloneState (fst sn) (snd sn)) l.

End Spec.

(** ** Concrete inputs *)

Module Examples.

Import FrequencySpectrum.

(** [WaveformPresets.square(4)]. *)
Definition square4 : Waveform.t := Waveform.mk 4 [1; 1; -1; -1]%R.

(** [WaveformPresets.sine(4)]. *)
Definition sine4 : Waveform.t := Waveform.mk 4 [0; 1; 0; -1]%R.

(** The spectrum left by [new FrequencySpectrum(2)] after
    [setHarmonic(0, 1, PI/2)] and [setHarmonic(1, 0.5, PI/2)]. *)
Definition two_harmonics : FrequencySpectrum.t :=
  mk 2 440 [mkH 1 (PI / 2); mkH (1 / 2) (PI / 2)]%R.

(** A state to push: two samples, one harmonic, tagged by [x]. *)
Definition state (x : R) : HistoryManager.State :=
  HistoryManager.mkState
    (HistoryManager.mkW 2 [x; 0%R])
    (HistoryManager.mkS 1 [mkH x 0])
    None.

(** A fresh four-sample waveform. *)
Definition silence4 : Waveform.t := Waveform.mk 4 [0; 0; 0; 0]%R.

(** A waveform whose peak is below 1. *)
Definition quiet2 : Waveform.t := Waveform.mk 2 [1 / 2; - (1 / 4)]%R.

(** A manager of capacity 3 after two pushes. *)
Definition two_pushes : HistoryManager.t :=
  fst (HistoryManager.push
         (fst (HistoryManager.push (HistoryManager.constructor 3) (state 1) 10))
         (state 0) 20).


(** Two control points, on the samples 0 and 2. *)
Definition two_points : list TimedomainCanvas.ControlPoint :=
  [TimedomainCanvas.mkP 0 1; TimedomainCanvas.mkP 2 (-1)]%R.

(** A 400 by 200 time-domain canvas on the square wave, before its control
    points are collected. *)
Definition canvas4 : TimedomainCanvas.t :=
  TimedomainCanvas.mk square4 [] 400 200.

(** A 320 by 200 frequency canvas on a fresh spectrum of 64 harmonics, the
    number the editor works with. *)
Definition bars64 : FrequencyCanvas.t :=
  FrequencyCanvas.mk (FrequencySpectrum.constructor 64) 320 200.

(** The waveform left by [new Waveform(4)] after [setSample(1, 3)],
    [ensureContinuity()], [smooth(0.5)] and [normalize()]. *)
Definition edited4 : Waveform.t :=
  Waveform.normalize
    (Waveform.mk 4
       (Spec.smooth
          (Waveform.samples
             (Waveform.ensureContinuity
                (Waveform.mk 4
                   (JS.put [0; 0; 0; 0] 1 (Rmax (-1) (Rmin 1 3))))))
          (1 / 2)))%R.

(** An editor on the square wave, showing the time view, with an empty
    history of capacity 50. *)
Definition editor0 : WavetableEditor.t :=
  WavetableEditor.mk square4 two_harmonics WavetableEditor.time
                     canvas4 bars64 (HistoryManager.constructor 50) false.

End Examples.

(** * Proofs *)

(** ** Loops and arrays *)

Section Arrays.

Context {A : Type}.

Lemma for_loop_S {S : Type} (n : nat) (body : Z -> S -> S) (s : S) :
  JS.for_loop (Z.of_nat (Datatypes.S n)) body s
  = body (Z.of_nat n) (JS.for_loop (Z.of_nat n) body s).
Proof.
  unfold JS.for_loop. rewrite !Nat2Z.id, seq_S, fold_left_app. reflexivity.
Qed.

Lemma for_loop_0 {S : Type} (body : Z -> S -> S) (s : S) :
  JS.for_loop 0 body s = s.
Proof. reflexivity. Qed.

Lemma get_lookup (d : A) (a : list A) (i : nat) (x : A) :
  a !! i = Some x -> JS.get d a (Z.of_nat i) = x.
Proof.
  intros H. unfold JS.get.
  destruct (Z.ltb_spec (Z.of_nat i) 0); [lia|].
  rewrite Nat2Z.id, H. reflexivity.
Qed.

Lemma get_nth (d : A) (a : list A) (i : nat) :
  (i < length a)%nat -> JS.get d a (Z.of_nat i) = nth i a d.
Proof.
  intros H. destruct (lookup_lt_is_Some_2 a i H) as [x Hx].
  rewrite (get_lookup d a i x Hx).
  symmetry. apply nth_lookup_Some with (d := d) in Hx. exact Hx.
Qed.

Lemma put_insert (a : list A) (i : nat) (v : A) :
  JS.put a (Z.of_nat i) v = <[i := v]> a.
Proof.
  unfold JS.put. destruct (Z.ltb_spec (Z.of_nat i) 0); [lia|].
  rewrite Nat2Z.id. reflexivity.
Qed.

(** A loop that fills position [i] at step [i] builds the array of the
    values written, whatever the body reads from the part already
    written or still to come.  [put] is any write that updates in place
    inside the array. *)
Lemma for_loop_fill_prefix (put : list A -> Z -> A -> list A)
      (a : list A) (F : Z -> list A -> A) (v : nat -> A) (m : nat) :
  (forall (b : list A) (i : nat) (x : A),
      (i < length b)%nat -> put b (Z.of_nat i) x = <[i := x]> b) ->
  (m <= length a)%nat ->
  (forall j, (j < m)%nat ->
             F (Z.of_nat j) (map v (seq 0 j) ++ drop j a) = v j) ->
  JS.for_loop (Z.of_nat m) (fun i s => put s i (F i s)) a
  = map v (seq 0 m) ++ drop m a.
Proof.
  intros Hput. induction m as [|m IH]; intros Hm HF.
  - rewrite for_loop_0, drop_0. reflexivity.
  - rewrite for_loop_S, IH by (try lia; intros; apply HF; lia).
    rewrite HF by lia.
    assert (Hlen : length (map v (seq 0 m)) = m)
      by (rewrite length_map, length_seq; reflexivity).
    rewrite Hput by (rewrite length_app, length_drop, Hlen; lia).
    rewrite seq_S, map_app. simpl.
    rewrite insert_app_r_alt by lia. rewrite Hlen, Nat.sub_diag.
    destruct (drop m a) as [|x rest] eqn:Hd.
    + apply (f_equal length) in Hd. rewrite length_drop in Hd. simpl in Hd. lia.
    + simpl. rewrite <- app_assoc. simpl.
      replace (drop (Datatypes.S m) a) with rest; [reflexivity|].
      replace (Datatypes.S m) with (m + 1)%nat by lia.
      rewrite <- drop_drop, Hd. reflexivity.
Qed.

Lemma for_loop_fill (put : list A -> Z -> A -> list A)
      (a : list A) (F : Z -> list A -> A) (v : nat -> A) :
  (forall (b : list A) (i : nat) (x : A),
      (i < length b)%nat -> put b (Z.of_nat i) x = <[i := x]> b) ->
  (forall j, (j < length a)%nat ->
             F (Z.of_nat j) (map v (seq 0 j) ++ drop j a) = v j) ->
  JS.for_loop (Z.of_nat (length a)) (fun i s => put s i (F i s)) a
  = map v (seq 0 (length a)).
Proof.
  intros Hput HF.
  rewrite (for_loop_fill_prefix put a F v (length a)) by auto.
  rewrite drop_all, app_nil_r. reflexivity.
Qed.

Lemma for_loop_put_build (a : list A) (F : Z -> list A -> A) (v : nat -> A) :
  (forall j, (j < length a)%nat ->
             F (Z.of_nat j) (map v (seq 0 j) ++ drop j a) = v j) ->
  JS.for_loop (Z.of_nat (length a)) (fun i s => JS.put s i (F i s)) a
  = map v (seq 0 (length a)).
Proof.
  apply for_loop_fill. intros b i x _. apply put_insert.
Qed.

(** Reading every position in turn is a fold over the array. *)
Lemma fold_seq_get {S : Type} (d : A) (g : S -> A -> S) (a pre : list A) (s : S) :
  fold_left (fun acc i => g acc (JS.get d (pre ++ a) (Z.of_nat i)))
            (seq (length pre) (length a)) s
  = fold_left g a s.
Proof.
  revert pre s. induction a as [|x a IH]; intros pre s.
  - reflexivity.
  - simpl. rewrite (get_lookup d (pre ++ x :: a) (length pre) x)
      by (rewrite lookup_app_r, Nat.sub_diag by lia; reflexivity).
    specialize (IH (pre ++ [x]) (g s x)).
    rewrite length_app, Nat.add_1_r, <- app_assoc in IH. exact IH.
Qed.

Lemma for_loop_get_fold {S : Type} (d : A) (a : list A) (g : S -> A -> S) (s : S) :
  JS.for_loop (Z.of_nat (length a)) (fun i acc => g acc (JS.get d a i)) s
  = fold_left g a s.
Proof.
  unfold JS.for_loop. rewrite Nat2Z.id. exact (fold_seq_get d g a [] s).
Qed.

End Arrays.

(** ** Waveform: the power-of-two test *)

Section PowerOfTwo.

Import Waveform.
Local Open Scope Z_scope.

Lemma land_pred_pow2 (n : Z) :
  (0 < n)%Z -> Z.land n (n - 1) = 0%Z <-> Spec.is_power_of_two n.
Proof.
  intros Hn. split.
  - intros Hland.
    exists (Z.log2 n). split; [apply Z.log2_nonneg|].
    destruct (Z.log2_spec n Hn) as [Hlo Hhi].
    destruct (Z.eq_dec n (2 ^ Z.log2 n)) as [|Hne]; [assumption|exfalso].
    assert (Hpos : (0 < 2 ^ Z.log2 n)%Z)
      by (apply Z.pow_pos_nonneg; [lia | apply Z.log2_nonneg]).
    assert (Hlog : Z.log2 (n - 1) = Z.log2 n)
      by (apply Z.log2_unique; [apply Z.log2_nonneg | lia]).
    assert (Hbit : Z.testbit (Z.land n (n - 1)) (Z.log2 n) = true).
    { rewrite Z.land_spec, (Z.bit_log2 n Hn).
      rewrite <- Hlog. rewrite Z.bit_log2 by lia. reflexivity. }
    rewrite Hland, Z.bits_0 in Hbit. discriminate.
  - intros (k & Hk & ->).
    replace (2 ^ k - 1)%Z with (Z.ones k) by (rewrite Z.ones_equiv; lia).
    rewrite Z.land_ones by assumption.
    apply Z_mod_same_full.
Qed.

Lemma ToInt32_small (n : Z) :
  (0 <= n < 2 ^ 31)%Z -> JS.ToInt32 n = n.
Proof.
  intros H. unfold JS.ToInt32.
  rewrite Z.mod_small by lia.
  destruct (Z.geb_spec n (2 ^ 31)); [lia | reflexivity].
Qed.

Lemma ToInt32_high (n : Z) :
  (2 ^ 31 <= n < 2 ^ 32)%Z -> JS.ToInt32 n = (n - 2 ^ 32)%Z.
Proof.
  intros H. unfold JS.ToInt32.
  rewrite Z.mod_small by lia.
  destruct (Z.geb_spec n (2 ^ 31)); [reflexivity | lia].
Qed.

Lemma not_pow2_between (n k : Z) :
  (2 ^ k < n < 2 ^ (k + 1))%Z -> (0 <= k)%Z -> ~ Spec.is_power_of_two n.
Proof.
  intros [Hlo Hhi] Hk (j & Hj & ->).
  apply Z.pow_lt_mono_r_iff in Hlo; [|lia|lia].
  apply Z.pow_lt_mono_r_iff in Hhi; [|lia|lia].
  lia.
Qed.

(** Below 2^32 the test is exact. *)
Lemma isPowerOfTwo_exact (n : Z) :
  (n < 2 ^ 32)%Z -> isPowerOfTwo n = true <-> Spec.is_power_of_two n.
Proof.
  intros Hn. unfold isPowerOfTwo, JS.bitand.
  destruct (Z.ltb_spec 0 n) as [Hpos|Hneg]; simpl.
  2:{ split; [discriminate|]. intros (k & Hk & ->).
      assert (0 < 2 ^ k)%Z by (apply Z.pow_pos_nonneg; lia). lia. }
  rewrite Z.eqb_eq.
  destruct (Z.lt_ge_cases n (2 ^ 31)) as [Hs|Hh].
  - rewrite !ToInt32_small by lia. apply land_pred_pow2; assumption.
  - destruct (Z.eq_dec n (2 ^ 31)) as [->|Hne].
    + split; [|reflexivity]. intros _. exists 31%Z. split; [lia|reflexivity].
    + rewrite !ToInt32_high by lia. split.
      * intros H0.
        assert (Z.land (n - 2 ^ 32) (n - 1 - 2 ^ 32) < 0)%Z
          by (apply Z.land_neg; lia).
        lia.
      * intros Hp. exfalso.
        apply (not_pow2_between n 31); [|lia|assumption].
        change (31 + 1)%Z with 32%Z. lia.
Qed.

(** No power of two is rejected, whatever its size. *)
Lemma isPowerOfTwo_complete (n : Z) :
  Spec.is_power_of_two n -> isPowerOfTwo n = true.
Proof.
  intros Hp. destruct (Z.lt_ge_cases n (2 ^ 32)) as [Hs|Hh].
  - apply isPowerOfTwo_exact; assumption.
  - destruct Hp as (k & Hk & ->).
    assert (H32 : (32 <= k)%Z).
    { destruct (Z.lt_ge_cases k 32) as [Hlt|]; [|assumption].
      apply (Z.pow_lt_mono_r 2) in Hlt; lia. }
    unfold isPowerOfTwo, JS.bitand, JS.ToInt32.
    assert (Hmod : (2 ^ k mod 2 ^ 32 = 0)%Z).
    { replace k with (32 + (k - 32))%Z by lia.
      rewrite Z.pow_add_r by lia. rewrite Z.mul_comm. apply Z_mod_mult. }
    rewrite Hmod. simpl.
    assert (0 < 2 ^ k)%Z by (apply Z.pow_pos_nonneg; lia).
    destruct (Z.ltb_spec 0 (2 ^ k)); [reflexivity | lia].
Qed.

Lemma constructor_ok (n : Z) :
  isPowerOfTwo n = true ->
  constructor n = Ok (mk n (replicate (Z.to_nat n) 0%R)).
Proof. intros H. unfold constructor. rewrite H. reflexivity. Qed.

Lemma constructor_throws (n : Z) :
  isPowerOfTwo n = false -> constructor n = Throw InvalidLength.
Proof. intros H. unfold constructor. rewrite H. reflexivity. Qed.

Lemma isPowerOfTwo_pos (n : Z) : isPowerOfTwo n = true -> (0 < n)%Z.
Proof.
  unfold isPowerOfTwo. intros H. apply andb_prop in H as [H _].
  apply Z.ltb_lt. exact H.
Qed.

Lemma constructor_valid (n : Z) (w : t) :
  constructor n = Ok w -> valid w /\ sampleRate w = n.
Proof.
  unfold constructor. destruct (isPowerOfTwo n) eqn:Hp; simpl; [|discriminate].
  intros [= <-]. repeat split; simpl; [assumption|].
  unfold wf, JS.Float32Array. simpl. rewrite length_replicate.
  apply isPowerOfTwo_pos in Hp. lia.
Qed.

(** Below 2^32, construction fails with InvalidLength exactly on the
    counts that are not powers of two, and otherwise yields zeros. *)
Lemma constructor_exact (n : Z) :
  (n < 2 ^ 32)%Z ->
  (~ Spec.is_power_of_two n -> constructor n = Throw InvalidLength)
  /\ (Spec.is_power_of_two n ->
      constructor n = Ok (mk n (replicate (Z.to_nat n) 0%R))).
Proof.
  intros Hn. split; intros H.
  - apply constructor_throws. destruct (isPowerOfTwo n) eqn:E; [|reflexivity].
    exfalso. apply H. apply isPowerOfTwo_exact; assumption.
  - apply constructor_ok, isPowerOfTwo_complete, H.
Qed.

(** The sample counts the specification lists. *)
Lemma constructor_listed_counts :
  Forall (fun n => constructor n = Throw InvalidLength) [0; 3; 5; 1000]%Z
  /\ Forall (fun n => constructor n = Ok (mk n (replicate (Z.to_nat n) 0%R)))
            [1; 2; 4; 1024]%Z.
Proof.
  split; repeat constructor;
    solve [ apply constructor_throws; vm_compute; reflexivity
          | apply constructor_ok; vm_compute; reflexivity ].
Qed.

End PowerOfTwo.

(** ** Rounding to binary32 *)

Section Float32Rounding.

Import Float32.
Local Open Scope R_scope.

Lemma pow2_powerRZ (e : Z) : pow2 e = powerRZ 2 e.
Proof.
  destruct e as [|p|p]; simpl; [reflexivity| |].
  - apply Zpower_pos_powerRZ.
  - f_equal. apply (Zpower_pos_powerRZ 2 p).
Qed.

Lemma pow2_pos (e : Z) : 0 < pow2 e.
Proof. rewrite pow2_powerRZ. apply powerRZ_lt. lra. Qed.

Lemma pow2_add (a b : Z) : pow2 (a + b) = pow2 a * pow2 b.
Proof. rewrite !pow2_powerRZ. apply powerRZ_add. lra. Qed.

Lemma pow2_IZR (k : Z) : (0 <= k)%Z -> pow2 k = IZR (2 ^ k).
Proof.
  intros Hk. destruct k as [|p|p]; [reflexivity | reflexivity | lia].
Qed.

Lemma pow2_opp (k : Z) : pow2 (- k) = / pow2 k.
Proof.
  destruct k as [|p|p]; simpl; [lra | reflexivity |].
  rewrite Rinv_inv. reflexivity.
Qed.

Lemma pow2_lt (a b : Z) : (a < b)%Z -> pow2 a < pow2 b.
Proof.
  intros Hab. replace b with (a + (b - a))%Z by lia.
  rewrite pow2_add, (pow2_IZR (b - a)) by lia.
  pose proof (pow2_pos a) as Ha.
  assert (2 <= 2 ^ (b - a))%Z.
  { change 2%Z with (2 ^ 1)%Z at 1. apply Z.pow_le_mono_r; lia. }
  assert (2 <= IZR (2 ^ (b - a))) by (apply IZR_le; assumption).
  nra.
Qed.

Lemma pow2_le (a b : Z) : (a <= b)%Z -> pow2 a <= pow2 b.
Proof.
  intros Hab. destruct (Z.eq_dec a b) as [->|Hne]; [lra|].
  apply Rlt_le, pow2_lt. lia.
Qed.

Lemma pow2_lt_inv (a b : Z) : pow2 a < pow2 b -> (a < b)%Z.
Proof.
  intros H. destruct (Z.lt_ge_cases a b) as [Hlt|Hge]; [exact Hlt|].
  pose proof (pow2_le b a Hge). lra.
Qed.

Lemma Int_part_bounds (r : R) : IZR (Int_part r) <= r < IZR (Int_part r) + 1.
Proof. destruct (base_Int_part r). lra. Qed.

Lemma Int_part_IZR (n : Z) : Int_part (IZR n) = n.
Proof.
  pose proof (Int_part_bounds (IZR n)) as [H1 H2].
  apply le_IZR in H1. rewrite <- plus_IZR in H2. apply lt_IZR in H2. lia.
Qed.

Lemma nearest_even_error (r : R) : Rabs (IZR (nearest_even r) - r) <= 1 / 2.
Proof.
  unfold nearest_even. cbv zeta. pose proof (Int_part_bounds r) as [H1 H2].
  repeat destruct (decide _); try destruct (Z.even _);
    rewrite ?plus_IZR; unfold Rabs; destruct (Rcase_abs _); lra.
Qed.

Lemma nearest_even_IZR (n : Z) : nearest_even (IZR n) = n.
Proof.
  unfold nearest_even. cbv zeta. rewrite Int_part_IZR.
  destruct (decide _) as [_|H]; [reflexivity | lra].
Qed.

Lemma nearest_even_bound (r : R) (B : Z) :
  - IZR B <= r <= IZR B -> (- B <= nearest_even r <= B)%Z.
Proof.
  intros [Hlo Hhi]. pose proof (Int_part_bounds r) as [H1 H2].
  assert (Hf : (- B <= Int_part r <= B)%Z).
  { split.
    - rewrite <- opp_IZR in Hlo.
      assert (IZR (- B) < IZR (Int_part r + 1)) by (rewrite plus_IZR; lra).
      apply lt_IZR in H. lia.
    - apply le_IZR. lra. }
  unfold nearest_even. cbv zeta.
  destruct (decide _) as [_|Hd]; [exact Hf|].
  assert (Int_part r <> B).
  { intros He. rewrite He in *. lra. }
  destruct (decide _); [lia|]. destruct (Z.even _); lia.
Qed.

Lemma down_spec (fuel : nat) (a : R) (e : Z) :
  a < pow2 (e + 24) ->
  let e' := down fuel a e in
  (e - Z.of_nat fuel <= e' <= e)%Z
  /\ a < pow2 (e' + 24)
  /\ (e' = (e - Z.of_nat fuel)%Z \/ pow2 (e' + 23) <= a).
Proof.
  revert e. induction fuel as [|fuel IH]; intros e Ha; cbv zeta.
  - simpl. split; [lia|]. split; [exact Ha|]. left. lia.
  - cbn [down]. destruct (decide _) as [Hlt|Hge].
    + replace (e + 23)%Z with (e - 1 + 24)%Z in Hlt by lia.
      destruct (IH (e - 1)%Z Hlt) as (H1 & H2 & H3).
      split; [lia|]. split; [exact H2|].
      destruct H3 as [H3|H3]; [left; lia | right; exact H3].
    + split; [lia|]. split; [exact Ha|]. right. lra.
Qed.

Lemma exponent_one : exponent 1 = (-23)%Z.
Proof.
  unfold exponent. destruct (decide (1 <= 1)) as [_|H]; [|lra].
  cbn [up]. change (pow2 (-24 + 24)) with 1.
  destruct (decide (1 <= 1)) as [_|H]; [|lra].
  change (pow2 (-24 + 1 + 24)) with 2.
  destruct (decide (2 <= 1)) as [H|_]; [lra | reflexivity].
Qed.

Lemma exponent_spec (a : R) :
  0 <= a <= 1 ->
  let e := exponent a in
  (-149 <= e <= -23)%Z
  /\ (a < 1 -> (e <= -24)%Z)
  /\ a < pow2 (e + 24)
  /\ (e = (-149)%Z \/ pow2 (e + 23) <= a).
Proof.
  intros [H0 H1]. cbv zeta.
  destruct (Req_dec_T a 1) as [->|Hne].
  - rewrite exponent_one. split; [lia|]. split; [lra|].
    change (pow2 (-23 + 24)) with 2. change (pow2 (-23 + 23)) with 1.
    split; [lra | right; lra].
  - unfold exponent. destruct (decide (1 <= a)) as [H|_]; [lra|].
    destruct (down_spec 125 a (-24)) as (Ha & Hb & Hc).
    { change (pow2 (-24 + 24)) with 1. lra. }
    split; [lia|]. split; [lia|]. split; [exact Hb|].
    destruct Hc as [Hc|Hc]; [left; lia | right; exact Hc].
Qed.

Lemma Rabs_le_iff (x b : R) : Rabs x <= b <-> - b <= x <= b.
Proof.
  unfold Rabs. destruct (Rcase_abs x); split; intros H; lra.
Qed.

(** What fround computes on [-1, 1]. *)
Lemma fround_unit (x : R) :
  -1 <= x <= 1 ->
  exists (m e : Z),
    fround x = IZR m * pow2 e
    /\ (-149 <= e <= -23)%Z
    /\ (Z.abs m <= 2 ^ (- e))%Z
    /\ (Z.abs m <= 2 ^ 24)%Z
    /\ Rabs (IZR m * pow2 e - x) <= pow2 (-25)
    /\ (forall n k : Z, x = IZR n * pow2 k -> (Z.abs n < 2 ^ 24)%Z ->
          (-149 <= k)%Z -> IZR m * pow2 e = x).
Proof.
  intros Hx.
  assert (Ha : 0 <= Rabs x <= 1)
    by (split; [apply Rabs_pos | apply Rabs_le_iff; lra]).
  destruct (exponent_spec (Rabs x) Ha) as (He & Hlt1 & Hup & Hlow).
  set (e := exponent (Rabs x)) in *.
  pose proof (pow2_pos e) as Hpe.
  set (r := x / pow2 e).
  assert (Hxr : x = r * pow2 e) by (unfold r; field; lra).
  assert (Hinv : / pow2 e = IZR (2 ^ (- e))).
  { rewrite <- pow2_opp. apply pow2_IZR. lia. }
  assert (Hr : r = x * IZR (2 ^ (- e))) by (unfold r, Rdiv; rewrite Hinv; reflexivity).
  assert (HB : 1 <= IZR (2 ^ (- e))).
  { apply IZR_le. assert (0 < 2 ^ (- e))%Z by (apply Z.pow_pos_nonneg; lia). lia. }
  exists (nearest_even r), e.
  split; [reflexivity|]. split; [exact He|].
  assert (Hm : (Z.abs (nearest_even r) <= 2 ^ (- e))%Z).
  { apply Z.abs_le. apply nearest_even_bound. rewrite Hr. nra. }
  split; [exact Hm|].
  assert (Hr24 : Rabs r < IZR (2 ^ 24)).
  { unfold r, Rdiv. rewrite Rabs_mult, (Rabs_pos_eq (/ pow2 e))
      by (apply Rlt_le, Rinv_0_lt_compat; exact Hpe).
    replace (e + 24)%Z with (24 + e)%Z in Hup by lia.
    rewrite pow2_add, (pow2_IZR 24) in Hup by lia.
    apply (Rmult_lt_reg_r (pow2 e)); [exact Hpe|].
    rewrite Rmult_assoc, Rinv_l by lra. lra. }
  split.
  { apply Z.abs_le. apply nearest_even_bound. apply Rabs_le_iff. lra. }
  split.
  { destruct (Req_dec_T (Rabs x) 1) as [H1|H1].
    - assert (Hx1 : x = 1 \/ x = -1).
      { unfold Rabs in H1. destruct (Rcase_abs x); [right | left]; lra. }
      assert (He23 : e = (-23)%Z) by (unfold e; rewrite H1; apply exponent_one).
      assert (Hri : exists z, r = IZR z).
      { rewrite Hr, He23. change (2 ^ (- -23))%Z with 8388608%Z.
        destruct Hx1 as [-> | ->];
          [exists 8388608%Z | exists (-8388608)%Z]; lra. }
      destruct Hri as [z Hz]. rewrite Hz, nearest_even_IZR, <- Hz, <- Hxr.
      replace (x - x) with 0 by lra. rewrite Rabs_R0.
      apply Rlt_le, pow2_pos.
    - assert (He24 : (e <= -24)%Z) by (apply Hlt1; lra).
      replace (IZR (nearest_even r) * pow2 e - x)
        with ((IZR (nearest_even r) - r) * pow2 e)
        by (rewrite Rmult_minus_distr_r, <- Hxr; reflexivity).
      rewrite Rabs_mult, (Rabs_pos_eq (pow2 e)) by lra.
      pose proof (nearest_even_error r) as Herr.
      pose proof (pow2_le e (-24) He24) as Hle.
      replace (pow2 (-25)) with (1 / 2 * pow2 (-24))
        by (change (pow2 (-25)) with (/ 33554432);
            change (pow2 (-24)) with (/ 16777216); lra).
      pose proof (Rabs_pos (IZR (nearest_even r) - r)). nra. }
  intros n k Hn Habs Hk.
  assert (Hek : (e <= k)%Z).
  { destruct Hlow as [Hlow|Hlow]; [lia|].
    assert (Rabs x < pow2 (k + 24)).
    { rewrite Hn, Rabs_mult, (Rabs_pos_eq (pow2 k))
        by (apply Rlt_le, pow2_pos).
      replace (k + 24)%Z with (24 + k)%Z by lia.
      rewrite pow2_add, (pow2_IZR 24) by lia.
      rewrite <- abs_IZR.
      apply Rmult_lt_compat_r; [apply pow2_pos|]. apply IZR_lt. exact Habs. }
    assert (pow2 (e + 23) < pow2 (k + 24)) by lra.
    apply pow2_lt_inv in H0. lia. }
  assert (Hrz : r = IZR (n * 2 ^ (k - e))).
  { unfold r. rewrite Hn, mult_IZR, <- pow2_IZR by lia.
    replace k with ((k - e) + e)%Z at 1 by lia. rewrite pow2_add.
    field. lra. }
  rewrite Hrz at 1. rewrite nearest_even_IZR, <- Hrz. symmetry. exact Hxr.
Qed.

Lemma fround_range (x : R) : -1 <= x <= 1 -> -1 <= fround x <= 1.
Proof.
  intros Hx. destruct (fround_unit x Hx) as (m & e & -> & He & Hm & _).
  pose proof (pow2_pos e) as Hpe.
  assert (Hinv : pow2 e * IZR (2 ^ (- e)) = 1).
  { rewrite <- pow2_IZR, pow2_opp by lia. apply Rinv_r. lra. }
  apply Z.abs_le in Hm. destruct Hm as [Hlo Hhi].
  apply IZR_le in Hlo, Hhi. rewrite opp_IZR in Hlo. nra.
Qed.

Lemma fround_error (x : R) :
  -1 <= x <= 1 -> Rabs (fround x - x) <= pow2 (-25).
Proof.
  intros Hx. destruct (fround_unit x Hx) as (m & e & -> & _ & _ & _ & H & _).
  exact H.
Qed.

Lemma fround_exact_iff (x : R) :
  -1 <= x <= 1 -> fround x = x <-> representable x.
Proof.
  intros Hx.
  destruct (fround_unit x Hx) as (m & e & Hf & He & _ & Hm & _ & Hex).
  split.
  - intros Heq. rewrite <- Heq, Hf.
    destruct (Z.eq_dec (Z.abs m) (2 ^ 24)%Z) as [Htop|Hlt].
    + assert (Hcases : m = 16777216%Z \/ m = (-16777216)%Z) by lia.
      destruct Hcases as [-> | ->];
        [exists 8388608%Z, (e + 1)%Z | exists (-8388608)%Z, (e + 1)%Z];
        (split; [|split; [reflexivity | lia]]);
        rewrite pow2_add; change (pow2 1) with 2; lra.
    + exists m, e. split; [reflexivity|]. split; lia.
  - intros (n & k & Hn & Habs & Hk & _). rewrite Hf. exact (Hex n k Hn Habs Hk).
Qed.

Lemma Int_part_unique (r : R) (z : Z) :
  IZR z <= r < IZR z + 1 -> Int_part r = z.
Proof.
  intros [H1 H2]. pose proof (Int_part_bounds r) as [H3 H4].
  assert (IZR z < IZR (Int_part r + 1)) by (rewrite plus_IZR; lra).
  assert (IZR (Int_part r) < IZR (z + 1)) by (rewrite plus_IZR; lra).
  apply lt_IZR in H, H0. lia.
Qed.

(** The number written 0.1 in the source, the double nearest to 1/10, is not
    a float32: it is stored as 13421773 / 2^27 = 0.100000001490116... *)
Lemma fround_tenth :
  fround (3602879701896397 / 36028797018963968) = 13421773 / 134217728.
Proof.
  unfold fround. rewrite Rabs_pos_eq by lra.
  assert (He : exponent (3602879701896397 / 36028797018963968) = (-27)%Z).
  { unfold exponent. destruct (decide _) as [H|_]; [lra|].
    cbn [down].
    change (pow2 (-24 + 23)) with (/ 2).
    destruct (decide _) as [_|H]; [|lra].
    change (pow2 (-24 - 1 + 23)) with (/ 4).
    destruct (decide _) as [_|H]; [|lra].
    change (pow2 (-24 - 1 - 1 + 23)) with (/ 8).
    destruct (decide _) as [_|H]; [|lra].
    change (pow2 (-24 - 1 - 1 - 1 + 23)) with (/ 16).
    destruct (decide _) as [H|_]; [lra | reflexivity]. }
  rewrite He. cbv zeta. change (pow2 (-27)) with (/ 134217728).
  assert (Hn : nearest_even (3602879701896397 / 36028797018963968 / / 134217728)
               = 13421773%Z).
  { unfold nearest_even. cbv zeta.
    rewrite (Int_part_unique _ 13421772) by lra.
    destruct (decide _) as [H|_]; [lra|].
    destruct (decide _) as [_|H]; [reflexivity | lra]. }
  rewrite Hn. lra.
Qed.

End Float32Rounding.

(** ** Waveform: samples *)

Section WaveformSamples.

Import Waveform.
Local Open Scope R_scope.

Lemma clamp_unit (v : R) : Rmax (-1) (Rmin 1 v) = Spec.clamp v (-1) 1.
Proof.
  unfold Spec.clamp, Rmax, Rmin.
  destruct (Rle_dec 1 v), (decide (v < -1)), (decide (1 < v));
    try destruct (Rle_dec (-1) 1); try destruct (Rle_dec (-1) v); lra.
Qed.

Lemma clamp_unit_bounds (v : R) : -1 <= Rmax (-1) (Rmin 1 v) <= 1.
Proof.
  split; [apply Rmax_l|].
  apply Rmax_lub; [lra | apply Rmin_l].
Qed.

Lemma get_put_same {A : Type} (d : A) (a : list A) (i : Z) (v : A) :
  (0 <= i < Z.of_nat (length a))%Z -> JS.get d (JS.put a i v) i = v.
Proof.
  intros H. rewrite <- (Z2Nat.id i) by lia.
  rewrite put_insert. apply get_lookup.
  apply list_lookup_insert_eq. lia.
Qed.

Lemma get_put_other {A : Type} (d : A) (a : list A) (i j : Z) (v : A) :
  (0 <= i)%Z -> (0 <= j)%Z -> i <> j ->
  JS.get d (JS.put a i v) j = JS.get d a j.
Proof.
  intros Hi Hj Hne. unfold JS.get, JS.put.
  destruct (Z.ltb_spec i 0), (Z.ltb_spec j 0); try lia.
  rewrite list_lookup_insert_ne by lia. reflexivity.
Qed.

Lemma put_length {A : Type} (a : list A) (i : Z) (v : A) :
  length (JS.put a i v) = length a.
Proof.
  unfold JS.put. destruct (i <? 0)%Z; [reflexivity | apply length_insert].
Qed.

Lemma setSample_ok (w : t) (i : Z) (v : R) :
  (0 <= i < sampleRate w)%Z ->
  setSample w i v
  = Ok (mk (sampleRate w) (JS.put (samples w) i (Rmax (-1) (Rmin 1 v)))).
Proof.
  intros H. unfold setSample.
  destruct (Z.ltb_spec i 0), (Z.geb_spec i (sampleRate w)); simpl; try lia.
  reflexivity.
Qed.

Lemma setSample_throws (w : t) (i : Z) (v : R) :
  ~ (0 <= i < sampleRate w)%Z -> setSample w i v = Throw (OutOfRange i).
Proof.
  intros H. unfold setSample.
  destruct (Z.ltb_spec i 0), (Z.geb_spec i (sampleRate w)); simpl;
    try reflexivity; lia.
Qed.

Lemma getSample_ok (w : t) (i : Z) :
  (0 <= i < sampleRate w)%Z -> getSample w i = Ok (JS.get 0 (samples w) i).
Proof.
  intros H. unfold getSample.
  destruct (Z.ltb_spec i 0), (Z.geb_spec i (sampleRate w)); simpl; try lia.
  reflexivity.
Qed.

Lemma getSample_throws (w : t) (i : Z) :
  ~ (0 <= i < sampleRate w)%Z -> getSample w i = Throw (OutOfRange i).
Proof.
  intros H. unfold getSample.
  destruct (Z.ltb_spec i 0), (Z.geb_spec i (sampleRate w)); simpl;
    try reflexivity; lia.
Qed.

Lemma setSample_wf (w w' : t) (i : Z) (v : R) :
  wf w -> setSample w i v = Ok w' -> wf w' /\ sampleRate w' = sampleRate w.
Proof.
  unfold setSample, wf.
  destruct ((i <? 0)%Z || (i >=? sampleRate w)%Z); [discriminate|].
  intros Hwf [= <-]. simpl. rewrite put_length. auto.
Qed.

Lemma setSample_in_range (w w' : t) (i : Z) (v : R) :
  in_range w -> setSample w i v = Ok w' -> in_range w'.
Proof.
  unfold setSample, in_range.
  destruct ((i <? 0)%Z || (i >=? sampleRate w)%Z); [discriminate|].
  intros Hr [= <-]. simpl. unfold JS.put.
  destruct (i <? 0)%Z; [assumption|].
  apply Forall_insert; [assumption | apply clamp_unit_bounds].
Qed.

(** C5, as the code has it: on a waveform with a power-of-two sample count,
    writing sample [i] and reading it back gives, for an index inside
    [0, sampleRate), the binary32 number nearest to the value clamped into
    [-1, 1], since the samples are a Float32Array.  That number lies in
    [-1, 1], is within 2^-25 of the clamped value, and is the clamped value
    itself exactly when this is a binary32 number, as 1 and -1 are, the
    results for every v >= 1 and every v <= -1.  For an index outside,
    both accessors throw the out-of-bounds error; no value [v] makes
    setSample fail. *)
Theorem setSample_getSample_float32 (w : t) (i : Z) (v : R) :
  valid w ->
  let stored := Float32.fround (Spec.clamp v (-1) 1) in
  ((0 <= i < sampleRate w)%Z ->
   exists w', Waveform32.setSample w i v = Ok w'
              /\ Waveform32.getSample w' i = Ok stored)
  /\ -1 <= stored <= 1
  /\ Rabs (stored - Spec.clamp v (-1) 1) <= Float32.pow2 (-25)
  /\ (stored = Spec.clamp v (-1) 1
      <-> Float32.representable (Spec.clamp v (-1) 1))
  /\ (1 <= v -> stored = 1)
  /\ (v <= -1 -> stored = -1)
  /\ (~ (0 <= i < sampleRate w)%Z ->
      Waveform32.getSample w i = Throw (OutOfRange i)
      /\ Waveform32.setSample w i v = Throw (OutOfRange i)).
Proof.
  intros [_ Hwf] stored.
  assert (Hc : -1 <= Spec.clamp v (-1) 1 <= 1)
    by (rewrite <- clamp_unit; apply clamp_unit_bounds).
  assert (Hone : forall x, x = 1 \/ x = -1 -> Float32.fround x = x).
  { intros x Hx. apply fround_exact_iff; [destruct Hx; lra|].
    destruct Hx as [-> | ->]; [exists 1%Z, 0%Z | exists (-1)%Z, 0%Z];
      (split; [simpl; lra | split; [reflexivity | lia]]). }
  split; [|split; [|split; [|split; [|split; [|split]]]]].
  - intros Hi. eexists. split.
    + unfold Waveform32.setSample.
      destruct (Z.ltb_spec i 0), (Z.geb_spec i (sampleRate w)); simpl;
        try lia.
      reflexivity.
    + unfold Waveform32.getSample. simpl.
      destruct (Z.ltb_spec i 0), (Z.geb_spec i (sampleRate w)); simpl;
        try lia.
      rewrite get_put_same by (unfold wf in Hwf; lia).
      rewrite clamp_unit. reflexivity.
  - apply fround_range, Hc.
  - apply fround_error, Hc.
  - apply fround_exact_iff, Hc.
  - intros Hv. unfold stored.
    replace (Spec.clamp v (-1) 1) with 1
      by (unfold Spec.clamp; repeat destruct (decide _); lra).
    apply Hone. left. reflexivity.
  - intros Hv. unfold stored.
    replace (Spec.clamp v (-1) 1) with (-1)
      by (unfold Spec.clamp; repeat destruct (decide _); lra).
    apply Hone. right. reflexivity.
  - intros Hi. unfold Waveform32.getSample, Waveform32.setSample.
    destruct (Z.ltb_spec i 0), (Z.geb_spec i (sampleRate w)); simpl;
      try lia; split; reflexivity.
Qed.

End WaveformSamples.

(** ** Waveform: normalize *)

Section WaveformNormalize.

Import Waveform.
Local Open Scope R_scope.

Lemma max_abs_nonneg (l : list R) : 0 <= Spec.max_abs l.
Proof.
  destruct l as [|x l]; simpl; [lra|].
  eapply Rle_trans; [apply Rabs_pos | apply Rmax_l].
Qed.

Lemma max_abs_ge (l : list R) (x : R) : In x l -> Rabs x <= Spec.max_abs l.
Proof.
  induction l as [|y l IH]; simpl; [tauto|].
  intros [->|H]; [apply Rmax_l|].
  eapply Rle_trans; [apply IH, H | apply Rmax_r].
Qed.

Lemma max_abs_zero (l : list R) :
  Forall (fun x => x = 0) l -> Spec.max_abs l = 0.
Proof.
  induction 1 as [|x l Hx _ IH]; simpl; [reflexivity|].
  rewrite Hx, IH, Rabs_R0. apply Rmax_left. lra.
Qed.

Lemma max_abs_pos (l : list R) (x : R) :
  In x l -> x <> 0 -> 0 < Spec.max_abs l.
Proof.
  intros Hin Hx. eapply Rlt_le_trans; [|apply max_abs_ge, Hin].
  apply Rabs_pos_lt, Hx.
Qed.

Lemma Rmax_div (a b m : R) : 0 < m -> Rmax (a / m) (b / m) = Rmax a b / m.
Proof.
  intros Hm. unfold Rdiv.
  rewrite (Rmult_comm a), (Rmult_comm b), RmaxRmult, Rmult_comm;
    [reflexivity|].
  left. apply Rinv_0_lt_compat, Hm.
Qed.

Lemma Rabs_div_pos (x m : R) : 0 < m -> Rabs (x / m) = Rabs x / m.
Proof.
  intros Hm. unfold Rdiv. rewrite Rabs_mult, (Rabs_pos_eq (/ m));
    [reflexivity|].
  left. apply Rinv_0_lt_compat, Hm.
Qed.

Lemma max_abs_scale (l : list R) (m : R) :
  0 < m -> Spec.max_abs (map (fun x => x / m) l) = Spec.max_abs l / m.
Proof.
  intros Hm. induction l as [|x l IH]; simpl.
  - unfold Rdiv. rewrite Rmult_0_l. reflexivity.
  - rewrite IH, Rabs_div_pos, Rmax_div by assumption. reflexivity.
Qed.

(** The loop that looks for the maximum computes [max_abs]. *)
Lemma fold_max_abs (l : list R) (m0 : R) :
  0 <= m0 ->
  fold_left (fun m x => Rmax m (Rabs x)) l m0 = Rmax m0 (Spec.max_abs l).
Proof.
  revert m0. induction l as [|x l IH]; intros m0 H0; simpl.
  - rewrite Rmax_left by assumption. reflexivity.
  - rewrite IH by (eapply Rle_trans; [exact H0 | apply Rmax_l]).
    symmetry. apply Rmax_assoc.
Qed.

Lemma max_loop (w : t) :
  wf w ->
  JS.for_loop (sampleRate w)
    (fun i max => Rmax max (Rabs (JS.get 0 (samples w) i))) 0
  = Spec.max_abs (samples w).
Proof.
  intros Hwf. rewrite <- Hwf.
  rewrite (for_loop_get_fold 0 (samples w) (fun m x => Rmax m (Rabs x)) 0).
  rewrite fold_max_abs by lra.
  apply Rmax_right, max_abs_nonneg.
Qed.

Lemma map_seq_nth {A B : Type} (g : A -> B) (a : list A) (d : A) :
  map (fun j => g (nth j a d)) (seq 0 (length a)) = map g a.
Proof.
  induction a as [|x a IH]; [reflexivity|].
  simpl. f_equal. rewrite <- seq_shift, map_map. exact IH.
Qed.

Lemma get_app_drop {A : Type} (d : A) (pre a : list A) (j : nat) :
  length pre = j -> (j < length a)%nat ->
  JS.get d (pre ++ drop j a) (Z.of_nat j) = nth j a d.
Proof.
  intros Hpre Hj.
  destruct (lookup_lt_is_Some_2 a j Hj) as [x Hx].
  rewrite (nth_lookup_Some a j d x Hx).
  apply get_lookup.
  rewrite lookup_app_r by lia.
  rewrite Hpre, Nat.sub_diag, lookup_drop, Nat.add_0_r. exact Hx.
Qed.

(** The loop that divides in place divides every sample. *)
Lemma divide_loop (a : list R) (m : R) :
  JS.for_loop (Z.of_nat (length a))
    (fun i s => JS.put s i (JS.get 0 s i / m)) a
  = map (fun x => x / m) a.
Proof.
  rewrite (for_loop_put_build a (fun i s => JS.get 0 s i / m)
             (fun j => nth j a 0 / m)).
  - apply (map_seq_nth (fun x => x / m)).
  - intros j Hj. rewrite get_app_drop; [reflexivity| |assumption].
    rewrite length_map, length_seq. reflexivity.
Qed.

Lemma normalize_spec (w : t) :
  wf w ->
  normalize w = mk (sampleRate w) (Spec.peak_normalize (samples w)).
Proof.
  intros Hwf. unfold normalize, Spec.peak_normalize.
  rewrite (max_loop w Hwf).
  pose proof (max_abs_nonneg (samples w)) as Hm.
  set (m := Spec.max_abs (samples w)) in *.
  destruct (decide (m <> 0 /\ m <> 1)) as [[H0 H1]|Hn].
  - rewrite bool_decide_eq_true_2 by lra.
    rewrite (bool_decide_eq_false_2 (m = 1)) by assumption. simpl.
    rewrite <- Hwf, divide_loop. reflexivity.
  - destruct (bool_decide_reflect (m > 0)) as [Hpos|Hz]; simpl.
    + destruct (bool_decide_reflect (m = 1)) as [H1|H1]; simpl.
      * destruct w; reflexivity.
      * exfalso. apply Hn. split; [lra | assumption].
    + destruct w; reflexivity.
Qed.

Lemma normalize_wf (w : t) : wf w -> wf (normalize w).
Proof.
  intros Hwf. rewrite normalize_spec by assumption.
  unfold wf, Spec.peak_normalize in *. simpl.
  destruct (decide _); [rewrite length_map|]; exact Hwf.
Qed.

(** C7: normalize looks for the maximum absolute sample and, when that is
    neither 0 nor 1, divides every sample by it; afterwards the maximum
    absolute sample is 1 if some sample was nonzero, and an all-zero
    waveform comes back unchanged. *)
Theorem normalize_peak (w : t) :
  wf w ->
  let m := Spec.max_abs (samples w) in
  normalize w
  = mk (sampleRate w)
       (if decide (m <> 0 /\ m <> 1)
        then map (fun x => x / m) (samples w) else samples w)
  /\ ((exists x, In x (samples w) /\ x <> 0) ->
      Spec.max_abs (samples (normalize w)) = 1)
  /\ (Forall (fun x => x = 0) (samples w) -> normalize w = w).
Proof.
  intros Hwf m. split; [|split].
  - exact (normalize_spec w Hwf).
  - intros (x & Hin & Hx).
    assert (Hpos : 0 < m) by (eapply max_abs_pos; eassumption).
    rewrite normalize_spec by assumption.
    unfold Spec.peak_normalize. simpl. fold m.
    destruct (decide (m <> 0 /\ m <> 1)) as [_|Hn].
    + rewrite max_abs_scale by assumption. fold m. field. lra.
    + fold m. destruct (Req_dec_T m 1) as [H1|H1]; [assumption|].
      exfalso. apply Hn. split; [lra | assumption].
  - intros Hz. rewrite normalize_spec by assumption.
    unfold Spec.peak_normalize.
    rewrite (max_abs_zero _ Hz).
    destruct (decide (0 <> 0 /\ 0 <> 1)) as [[H0 _]|_]; [lra|].
    destruct w; reflexivity.
Qed.

End WaveformNormalize.

(** ** Waveform: smooth and clone *)

Section WaveformSmooth.

Import Waveform.
Local Open Scope R_scope.

Lemma set_same_length (target source : list R) :
  length target = length source -> JS.set target source = Ok source.
Proof.
  intros H. unfold JS.set. rewrite H, Nat.ltb_irrefl.
  rewrite <- H, drop_all, app_nil_r. reflexivity.
Qed.

Lemma get_rem (a : list R) (x : nat) :
  (0 < length a)%nat ->
  JS.get 0 a (JS.rem (Z.of_nat x) (Z.of_nat (length a)))
  = nth (x mod length a) a 0.
Proof.
  intros Hlen. unfold JS.rem.
  rewrite Z.rem_mod_nonneg by lia.
  rewrite <- Nat2Z.inj_mod.
  apply get_nth, Nat.mod_upper_bound. lia.
Qed.

(** One step of the loop of [smooth] computes the specified average. *)
Lemma smooth_body (a : list R) (amount : R) (j : nat) :
  (j < length a)%nat ->
  let n := Z.of_nat (length a) in
  let i := Z.of_nat j in
  JS.get 0 a i * (1 - amount)
  + (JS.get 0 a (JS.rem (i - 1 + n) n) + JS.get 0 a (JS.rem (i + 1) n))
    * 0.5 * amount
  = Spec.smoothed a amount j.
Proof.
  intros Hj n i. subst n i. unfold Spec.smoothed.
  replace (Z.of_nat j - 1 + Z.of_nat (length a))%Z
    with (Z.of_nat (j + length a - 1)) by lia.
  replace (Z.of_nat j + 1)%Z with (Z.of_nat (j + 1)) by lia.
  rewrite !get_rem by lia. rewrite get_nth by assumption.
  lra.
Qed.

Lemma smooth_active (w : t) (amount : R) :
  wf w -> 0 < amount <= 1 ->
  smooth w amount
  = Ok (mk (sampleRate w)
           (map (Spec.smoothed (samples w) amount)
                (seq 0 (length (samples w))))).
Proof.
  intros Hwf [Hlo Hhi]. unfold smooth.
  rewrite (bool_decide_eq_false_2 (amount <= 0)) by lra.
  rewrite (bool_decide_eq_false_2 (amount > 1)) by lra. simpl.
  unfold JS.Float32Array. rewrite <- Hwf, Nat2Z.id.
  set (zeros := replicate (length (samples w)) 0).
  assert (Hz : length zeros = length (samples w))
    by apply length_replicate.
  rewrite <- Hz at 1.
  rewrite (for_loop_put_build zeros
             (fun i _ =>
                JS.get 0 (samples w) i * (1 - amount)
                + (JS.get 0 (samples w)
                     (JS.rem (i - 1 + Z.of_nat (length (samples w)))
                             (Z.of_nat (length (samples w))))
                   + JS.get 0 (samples w)
                       (JS.rem (i + 1) (Z.of_nat (length (samples w)))))
                  * 0.5 * amount)
             (Spec.smoothed (samples w) amount)).
  - rewrite Hz, set_same_length
      by (rewrite length_map, length_seq; reflexivity).
    reflexivity.
  - intros j Hj. apply smooth_body. lia.
Qed.

Lemma smooth_inactive (w : t) (amount : R) :
  ~ (0 < amount <= 1) -> smooth w amount = Ok w.
Proof.
  intros H. unfold smooth.
  destruct (bool_decide_reflect (amount <= 0)); [reflexivity|].
  destruct (bool_decide_reflect (amount > 1)); [reflexivity|].
  exfalso. apply H. lra.
Qed.

(** [smooth], whatever the amount, is the specified operation. *)
Lemma smooth_spec (w : t) (amount : R) :
  wf w ->
  smooth w amount = Ok (mk (sampleRate w) (Spec.smooth (samples w) amount)).
Proof.
  intros Hwf. unfold Spec.smooth.
  destruct (decide (0 < amount <= 1)) as [Ha|Ha].
  - apply smooth_active; assumption.
  - rewrite smooth_inactive by assumption. destruct w; reflexivity.
Qed.

Lemma clone_valid (w : t) :
  valid w -> clone w = Ok (mk (sampleRate w) (samples w)).
Proof.
  intros [Hp Hwf]. unfold clone.
  rewrite (constructor_ok _ Hp). simpl.
  rewrite set_same_length; [reflexivity|].
  rewrite length_replicate. unfold wf in Hwf. lia.
Qed.

Lemma nth_in_range (l : list R) (i : nat) :
  Forall (fun x => -1 <= x <= 1) l -> (i < length l)%nat ->
  -1 <= nth i l 0 <= 1.
Proof.
  intros Hall Hi. rewrite Forall_forall in Hall.
  apply Hall, list_elem_of_In, nth_In, Hi.
Qed.

Lemma smoothed_in_range (l : list R) (amount : R) (i : nat) :
  Forall (fun x => -1 <= x <= 1) l -> 0 < amount <= 1 ->
  (i < length l)%nat ->
  -1 <= Spec.smoothed l amount i <= 1.
Proof.
  intros Hall Ha Hi. unfold Spec.smoothed.
  assert (Hn : length l <> 0%nat) by lia.
  pose proof (nth_in_range l i Hall Hi) as Hc.
  pose proof (nth_in_range l _ Hall
                (Nat.mod_upper_bound (i + length l - 1) _ Hn)) as Hp.
  pose proof (nth_in_range l _ Hall
                (Nat.mod_upper_bound (i + 1) _ Hn)) as Hx.
  set (c := nth i l 0) in *.
  set (p := nth ((i + length l - 1) mod length l) l 0) in *.
  set (x := nth ((i + 1) mod length l) l 0) in *.
  nra.
Qed.

(** C10: smooth writes its buffer without clamping, yet keeps every
    sample in [-1, 1]: for an amount in (0, 1] each new sample is a convex
    combination of three samples that are in range. *)
Theorem smooth_preserves_range (w : t) (amount : R) :
  wf w -> in_range w -> 0 < amount <= 1 ->
  exists w', smooth w amount = Ok w'
             /\ in_range w' /\ wf w' /\ sampleRate w' = sampleRate w.
Proof.
  intros Hwf Hr Ha. eexists. split; [apply smooth_active; assumption|].
  split; [|split; [|reflexivity]].
  - unfold in_range. simpl. apply Forall_forall. intros x Hx.
    apply list_elem_of_In, in_map_iff in Hx as (i & <- & Hi).
    apply in_seq in Hi.
    apply smoothed_in_range; [exact Hr | exact Ha | lia].
  - unfold wf in *. simpl. rewrite length_map, length_seq. exact Hwf.
Qed.

End WaveformSmooth.

(** ** applySmoothing on the store *)

Section ApplySmoothing.

Import Store.

(** C9: applySmoothing leaves the object it is given untouched, like every
    object that was already in the store, and returns a new object: the
    clone of the input with smooth applied, that is the input's sample
    count with each sample replaced by the circular 3-tap average when the
    amount is in (0, 1], and with the same samples otherwise. *)
Theorem applySmoothing_frame (h : heap) (waveform : ref) (w : Waveform.t)
        (amount : R) :
  h !! waveform = Some w -> Waveform.valid w ->
  exists (smoothed : ref) (h' : heap) (c : Waveform.t) (s : Waveform.t),
    applySmoothing waveform amount h = Ok (smoothed, h')
    /\ smoothed <> waveform
    /\ h' !! waveform = Some w
    /\ (forall r, (r < length h)%nat -> h' !! r = h !! r)
    /\ Waveform.clone w = Ok c
    /\ Waveform.smooth c amount = Ok s
    /\ h' !! smoothed = Some s
    /\ s = Waveform.mk (Waveform.sampleRate w)
                       (Spec.smooth (Waveform.samples w) amount).
Proof.
  intros Hw Hv.
  pose proof (clone_valid w Hv) as Hc.
  assert (Hwf : Waveform.wf (Waveform.mk (Waveform.sampleRate w)
                                         (Waveform.samples w)))
    by (destruct Hv as [_ Hwf]; exact Hwf).
  pose proof (smooth_spec _ amount Hwf) as Hs. simpl in Hs.
  assert (Hlt : (waveform < length h)%nat)
    by (apply lookup_lt_is_Some; eauto).
  exists (length h). eexists. eexists. eexists.
  split.
  { unfold applySmoothing, clone, smooth, bindM, load, lift, alloc, store, ret.
    rewrite Hw, Hc. cbn beta iota.
    rewrite lookup_app_r by lia. rewrite Nat.sub_diag. cbn.
    rewrite Hs. reflexivity. }
  split; [lia|].
  split.
  { rewrite list_lookup_insert_ne by lia.
    rewrite lookup_app_l by assumption. exact Hw. }
  split.
  { intros r Hr. rewrite list_lookup_insert_ne by lia.
    apply lookup_app_l. assumption. }
  split; [exact Hc|].
  split; [exact Hs|].
  split; [|reflexivity].
  apply list_lookup_insert_eq. rewrite length_app. simpl. lia.
Qed.

End ApplySmoothing.

(** ** cloneState copies deeply *)

Section DeepClone.

Import Snapshot.

Lemma mapM_fresh {A : Type} (old new : list A) :
  mapM (fun r => (old ++ new) !! r) (seq (length old) (length new)) = Some new.
Proof.
  apply mapM_Some_2, Forall2_same_length_lookup_2.
  - apply length_seq.
  - intros i x y Hx Hy. apply lookup_seq in Hx as [-> _].
    rewrite lookup_app_r by lia.
    replace (length old + i - length old)%nat with i by lia. exact Hy.
Qed.

Lemma mapM_extend {A : Type} (old new : list A) (refs : list nat) (xs : list A) :
  mapM (fun r => old !! r) refs = Some xs ->
  mapM (fun r => (old ++ new) !! r) refs = Some xs.
Proof.
  intros H. apply mapM_Some_1 in H. apply mapM_Some_2.
  eapply Forall2_impl; [exact H|].
  intros r x Hr. simpl in *. apply lookup_app_l_Some. exact Hr.
Qed.

(** The clone is made of new objects only, holds the data of the state it
    copies, and leaves every object of the store as it was; no later
    change to an object that existed before the call shows through it. *)
Lemma cloneState_deep (H : heap) (state : t) (now : Z)
      (v : HistoryManager.State) :
  view H state = Some v ->
  exists clone H',
    cloneState state now H = Ok (clone, H')
    /\ samples clone = length (buffers H)
    /\ harmonics clone = length (arrays H)
    /\ view H' clone = Some (HistoryManager.cloneState v now)
    /\ view H' state = Some v
    /\ (forall r, (r < length (buffers H))%nat ->
                  buffers H' !! r = buffers H !! r)
    /\ (forall r, (r < length (cells H))%nat -> cells H' !! r = cells H !! r)
    /\ (forall r, (r < length (arrays H))%nat ->
                  arrays H' !! r = arrays H !! r)
    /\ forall H'', keeps_new H H' H'' -> view H'' clone = view H' clone.
Proof.
  unfold view at 1, cloneState.
  destruct (buffers H !! samples state) as [buffer|] eqn:Hbuf; [|discriminate].
  destruct (arrays H !! harmonics state) as [array|] eqn:Harr; [|discriminate].
  destruct (mapM (fun r => cells H !! r) array) as [hs|] eqn:Hhs;
    [|discriminate].
  intros [= <-].
  set (objects := map _ hs).
  set (mapped := seq (length (cells H)) (length objects)).
  set (clone := mk _ _ _ _ _). set (H' := mkHeap _ _ _).
  assert (Hview : view H' clone
                  = Some (HistoryManager.mkState
                            (HistoryManager.mkW (sampleRate state) buffer)
                            (HistoryManager.mkS (harmonicCount state) objects)
                            (Some now))).
  { unfold view. simpl.
    rewrite !lookup_app_r, !Nat.sub_diag by lia. simpl.
    subst mapped. rewrite mapM_fresh. reflexivity. }
  exists clone, H'. split; [reflexivity|].
  split; [reflexivity|]. split; [reflexivity|].
  split; [exact Hview|].
  split.
  { unfold view. simpl.
    rewrite (lookup_app_l_Some _ _ _ _ Hbuf), (lookup_app_l_Some _ _ _ _ Harr).
    rewrite (mapM_extend _ _ _ _ Hhs). reflexivity. }
  split; [intros r Hr; simpl; apply lookup_app_l; exact Hr|].
  split; [intros r Hr; simpl; apply lookup_app_l; exact Hr|].
  split; [intros r Hr; simpl; apply lookup_app_l; exact Hr|].
  intros H'' (Hb & Hc & Ha). unfold view. simpl samples. simpl harmonics.
  rewrite Hb, Ha by lia. simpl arrays.
  rewrite lookup_app_r, Nat.sub_diag by lia. simpl.
  destruct ((buffers H ++ [buffer]) !! length (buffers H)); [|reflexivity].
  rewrite (Forall_mapM_ext (fun r => cells H'' !! r)
                           (fun r => cells H' !! r)); [reflexivity|].
  apply Forall_forall. intros r Hr. apply Hc.
  subst mapped. apply list_elem_of_In, in_seq in Hr. lia.
Qed.

End DeepClone.

(** ** HistoryManager *)

Section History.

Import HistoryManager.
Local Open Scope Z_scope.

Lemma slice0_take {A : Type} (a : list A) (e : Z) :
  0 <= e -> JS.slice0 a e = take (Z.to_nat e) a.
Proof.
  intros He. unfold JS.slice0.
  destruct (Z.ltb_spec e 0); [lia|].
  destruct (Z.le_gt_cases e (Z.of_nat (length a))) as [Hle|Hgt].
  - rewrite Z.min_l by assumption. reflexivity.
  - rewrite Z.min_r by lia. rewrite Nat2Z.id.
    rewrite !take_ge by lia. reflexivity.
Qed.

Lemma shift_drop {A : Type} (a : list A) : JS.shift a = drop 1 a.
Proof. destruct a; reflexivity. Qed.

(** The source's push is the specified one once the cursor is at least -1. *)
Lemma push_refines (h : t) (state : State) (now : Z) :
  -1 <= currentIndex h ->
  fst (push h state now) = Spec.push h (cloneState state now).
Proof.
  intros Hidx. unfold push, Spec.push. simpl.
  rewrite slice0_take by lia.
  set (appended := take _ _ ++ [_]).
  destruct (decide (maxHistory h < Z.of_nat (length appended))) as [Hgt|Hle].
  - destruct (Z.gtb_spec (Z.of_nat (length appended)) (maxHistory h)); [|lia].
    rewrite shift_drop. reflexivity.
  - destruct (Z.gtb_spec (Z.of_nat (length appended)) (maxHistory h)); [lia|].
    reflexivity.
Qed.

Lemma push_wf (h : t) (state : State) (now : Z) :
  wf h -> wf (fst (push h state now)).
Proof.
  intros [Hlo Hhi]. rewrite push_refines by assumption.
  unfold Spec.push, wf.
  assert (Hlen : length (take (Z.to_nat (currentIndex h + 1)) (history h)
                         ++ [cloneState state now])
                 = Z.to_nat (currentIndex h + 2)).
  { rewrite length_app, length_take. simpl. lia. }
  destruct (decide _); simpl.
  - rewrite length_drop, Hlen. lia.
  - rewrite Hlen. lia.
Qed.

Lemma entry_wf (h : t) (i : Z) :
  0 <= i < Z.of_nat (length (history h)) -> exists s, entry h i = Some s.
Proof.
  intros Hi. unfold entry. destruct (Z.ltb_spec i 0); [lia|].
  apply lookup_lt_is_Some_2. lia.
Qed.

Lemma undo_can (h : t) (now : Z) :
  wf h -> canUndo h = true ->
  exists s,
    entry h (currentIndex h - 1) = Some s
    /\ undo h now
       = Ok (mk (maxHistory h) (history h) (currentIndex h - 1),
             Some (cloneState s now),
             [dispatchHistoryChange
                (mk (maxHistory h) (history h) (currentIndex h - 1))]).
Proof.
  intros [Hlo Hhi] Hcan. unfold canUndo in Hcan. apply Z.ltb_lt in Hcan.
  destruct (entry_wf h (currentIndex h - 1)) as [s Hs]; [lia|].
  exists s. split; [assumption|].
  unfold undo, canUndo. destruct (Z.ltb_spec 0 (currentIndex h)); [|lia].
  simpl. unfold entry in *. simpl. rewrite Hs. reflexivity.
Qed.

Lemma undo_cannot (h : t) (now : Z) :
  canUndo h = false -> undo h now = Ok (h, None, []).
Proof. intros H. unfold undo. rewrite H. reflexivity. Qed.

Lemma redo_can (h : t) (now : Z) :
  wf h -> canRedo h = true ->
  exists s,
    entry h (currentIndex h + 1) = Some s
    /\ redo h now
       = Ok (mk (maxHistory h) (history h) (currentIndex h + 1),
             Some (cloneState s now),
             [dispatchHistoryChange
                (mk (maxHistory h) (history h) (currentIndex h + 1))]).
Proof.
  intros [Hlo Hhi] Hcan. unfold canRedo in Hcan. apply Z.ltb_lt in Hcan.
  destruct (entry_wf h (currentIndex h + 1)) as [s Hs]; [lia|].
  exists s. split; [assumption|].
  unfold redo, canRedo.
  destruct (Z.ltb_spec (currentIndex h) (Z.of_nat (length (history h)) - 1));
    [|lia].
  simpl. unfold entry in *. simpl. rewrite Hs. reflexivity.
Qed.

Lemma redo_cannot (h : t) (now : Z) :
  canRedo h = false -> redo h now = Ok (h, None, []).
Proof. intros H. unfold redo. rewrite H. reflexivity. Qed.

Lemma undo_wf (h h' : t) (now : Z) r ev :
  wf h -> undo h now = Ok (h', r, ev) -> wf h'.
Proof.
  intros Hwf Hu. destruct (canUndo h) eqn:Hcan.
  - destruct (undo_can h now Hwf Hcan) as (s & _ & Heq).
    rewrite Heq in Hu. injection Hu as <- _ _.
    unfold canUndo in Hcan. apply Z.ltb_lt in Hcan.
    destruct Hwf. unfold wf. simpl. lia.
  - rewrite undo_cannot in Hu by assumption. injection Hu as <- _ _. assumption.
Qed.

Lemma redo_wf (h h' : t) (now : Z) r ev :
  wf h -> redo h now = Ok (h', r, ev) -> wf h'.
Proof.
  intros Hwf Hu. destruct (canRedo h) eqn:Hcan.
  - destruct (redo_can h now Hwf Hcan) as (s & _ & Heq).
    rewrite Heq in Hu. injection Hu as <- _ _.
    unfold canRedo in Hcan. apply Z.ltb_lt in Hcan.
    destruct Hwf. unfold wf. simpl. lia.
  - rewrite redo_cannot in Hu by assumption. injection Hu as <- _ _. assumption.
Qed.

(** Every manager a program can build has its cursor at -1 or on an entry. *)
Lemma reachable_wf (h : t) : reachable h -> wf h.
Proof.
  induction 1 as [m | h state now _ IH | h now h' r ev _ IH Hu
                  | h now h' r ev _ IH Hr | h _ IH].
  - unfold wf. simpl. lia.
  - apply push_wf, IH.
  - eapply undo_wf; eassumption.
  - eapply redo_wf; eassumption.
  - unfold wf. simpl. lia.
Qed.

(** A deep clone carries the data of the state it copies. *)
Lemma cloneState_data (s : State) (now : Z) :
  waveform (cloneState s now) = waveform s
  /\ spectrum (cloneState s now) = spectrum s
  /\ timestamp (cloneState s now) = Some now.
Proof.
  destruct s as [[sr ss] [hc hs] ts]. unfold cloneState. simpl.
  repeat split. f_equal.
  induction hs as [|[a p] hs IH]; simpl; [reflexivity|].
  f_equal. exact IH.
Qed.

Lemma push_all_snoc (h : t) (l : list (State * Z)) (s : State) (now : Z) :
  Spec.push_all h (l ++ [(s, now)]) = fst (push (Spec.push_all h l) s now).
Proof. unfold Spec.push_all. rewrite fold_left_app. reflexivity. Qed.

(** Pushing any number of states into an empty history of capacity [m]
    keeps the last [m] snapshots, with the cursor on the last one. *)
Lemma push_all_from_empty (m : Z) (l : list (State * Z)) :
  1 <= m ->
  Spec.push_all (constructor m) l
  = mk m (drop (length l - Z.to_nat m) (Spec.snapshots l))
       (Z.of_nat (Nat.min (length l) (Z.to_nat m)) - 1).
Proof.
  intros Hm. induction l as [|[s now] l IH] using rev_ind.
  - reflexivity.
  - rewrite push_all_snoc, IH.
    rewrite push_refines by (simpl; lia).
    unfold Spec.push, Spec.snapshots. simpl.
    rewrite map_app, !length_app. simpl.
    set (L := map _ l).
    assert (HL : length L = length l) by apply length_map.
    rewrite take_ge by (rewrite length_drop; lia).
    rewrite length_drop, HL. simpl.
    destruct (decide _) as [Hgt|Hle].
    + f_equal; [|lia].
      replace (length l + 1 - Z.to_nat m)%nat
        with (length l - Z.to_nat m + 1)%nat by lia.
      rewrite <- drop_drop, (drop_app_le L) by lia. reflexivity.
    + f_equal; [|lia].
      replace (length l - Z.to_nat m)%nat with 0%nat by lia.
      replace (length l + 1 - Z.to_nat m)%nat with 0%nat by lia.
      reflexivity.
Qed.

Lemma push_discards_redo (h : t) (state : State) (now : Z) :
  wf h -> canRedo (fst (push h state now)) = false.
Proof.
  intros [Hlo Hhi]. rewrite push_refines by assumption.
  unfold Spec.push, canRedo.
  assert (Hlen : length (take (Z.to_nat (currentIndex h + 1)) (history h)
                         ++ [cloneState state now])
                 = Z.to_nat (currentIndex h + 2)).
  { rewrite length_app, length_take. simpl. lia. }
  destruct (decide _); simpl.
  - rewrite length_drop, Hlen. apply Z.ltb_ge. lia.
  - rewrite Hlen. apply Z.ltb_ge. lia.
Qed.

(** C3: push truncates the sequence to currentIndex + 1 entries, appends a
    deep clone of the state, and then either removes the oldest entry,
    leaving the cursor where it was, when the length exceeds maxHistory, or
    advances the cursor.  The clone is deep: in a store where the state
    shares its buffer and harmonic objects with the caller, the snapshot is
    made of new objects and no later change to the caller's objects shows
    through it.  With capacity 3, five pushes into an empty history leave
    the three most recent snapshots, the cursor on the last. *)
Theorem push_truncates_appends_evicts (h : t) (state : State) (now : Z) :
  reachable h ->
  fst (push h state now) = Spec.push h (cloneState state now)
  /\ (forall H shared,
         Snapshot.view H shared = Some state ->
         exists clone H',
           Snapshot.cloneState shared now H = Ok (clone, H')
           /\ Snapshot.view H' clone = Some (cloneState state now)
           /\ Snapshot.view H' shared = Some state
           /\ forall H'', Snapshot.keeps_new H H' H'' ->
                          Snapshot.view H'' clone = Snapshot.view H' clone)
  /\ forall s1 s2 s3 s4 s5 t1 t2 t3 t4 t5,
      Spec.push_all (constructor 3)
                    [(s1, t1); (s2, t2); (s3, t3); (s4, t4); (s5, t5)]
      = mk 3 [cloneState s3 t3; cloneState s4 t4; cloneState s5 t5] 2.
Proof.
  intros Hr. split; [|split].
  - apply push_refines. apply reachable_wf in Hr. destruct Hr. assumption.
  - intros H shared Hview.
    destruct (cloneState_deep H shared now state Hview)
      as (clone & H' & Hc & _ & _ & Hv & Hs & _ & _ & _ & Hk).
    exists clone, H'. auto.
  - intros. rewrite push_all_from_empty by lia. reflexivity.
Qed.

(** The value cloneState returns is a deep clone of its argument. *)
Lemma cloneState_is_deep (s : State) (now : Z) :
  Snapshot.deep_clone s (cloneState s now) now.
Proof.
  destruct (cloneState_data s now) as (Hw & Hs & Ht).
  split; [exact Hw|]. split; [exact Hs|]. split; [exact Ht|].
  intros H shared Hview.
  destruct (cloneState_deep H shared now s Hview)
    as (c & H' & Hc & Hb & Ha & Hv & Hkeep & _ & _ & _ & Hk).
  exists c, H'. auto 10.
Qed.

(** C4: canUndo is [currentIndex > 0] and canRedo is
    [currentIndex < history.length - 1]; when allowed, undo and redo move
    the cursor by one and return a deep clone of the snapshot it then points
    at: the same waveform and spectrum under a new timestamp, made of new
    objects in any store that holds the snapshot; otherwise they return null
    and change nothing.  Neither throws.  push returns with the truncated,
    extended and possibly shortened sequence, its cursor again on an entry,
    and clear returns with the empty history: after either, all four
    operations return again.  undo on an empty or single-entry history does
    nothing. *)
Theorem undo_redo_total (h : t) (state : State) (now : Z) :
  reachable h ->
  (canUndo h = true <-> 0 < currentIndex h)
  /\ (canRedo h = true <-> currentIndex h < Z.of_nat (length (history h)) - 1)
  /\ (canUndo h = true ->
      exists s,
        entry h (currentIndex h - 1) = Some s
        /\ undo h now
           = Ok (mk (maxHistory h) (history h) (currentIndex h - 1),
                 Some (cloneState s now),
                 [dispatchHistoryChange
                    (mk (maxHistory h) (history h) (currentIndex h - 1))])
        /\ Snapshot.deep_clone s (cloneState s now) now)
  /\ (canUndo h = false -> undo h now = Ok (h, None, []))
  /\ (canRedo h = true ->
      exists s,
        entry h (currentIndex h + 1) = Some s
        /\ redo h now
           = Ok (mk (maxHistory h) (history h) (currentIndex h + 1),
                 Some (cloneState s now),
                 [dispatchHistoryChange
                    (mk (maxHistory h) (history h) (currentIndex h + 1))])
        /\ Snapshot.deep_clone s (cloneState s now) now)
  /\ (canRedo h = false -> redo h now = Ok (h, None, []))
  /\ (exists r, undo h now = Ok r)
  /\ (exists r, redo h now = Ok r)
  /\ (exists h',
        push h state now = (h', dispatchHistoryChange h')
        /\ h' = Spec.push h (cloneState state now)
        /\ Snapshot.deep_clone state (cloneState state now) now
        /\ wf h' /\ reachable h')
  /\ (clear h = (constructor (maxHistory h), mkEvent false false 0 (-1))
      /\ reachable (fst (clear h)))
  /\ ((length (history h) <= 1)%nat -> undo h now = Ok (h, None, [])).
Proof.
  intros Hr. pose proof (reachable_wf h Hr) as Hwf.
  split; [apply Z.ltb_lt|].
  split; [apply Z.ltb_lt|].
  split.
  { intros Hcan. destruct (undo_can h now Hwf Hcan) as (s & Hs & Hu).
    exists s. split; [exact Hs|]. split; [exact Hu|].
    apply cloneState_is_deep. }
  split; [apply undo_cannot|].
  split.
  { intros Hcan. destruct (redo_can h now Hwf Hcan) as (s & Hs & Hu).
    exists s. split; [exact Hs|]. split; [exact Hu|].
    apply cloneState_is_deep. }
  split; [apply redo_cannot|].
  split; [|split; [|split; [|split]]].
  - destruct (canUndo h) eqn:Hcan.
    + destruct (undo_can h now Hwf Hcan) as (s & _ & ->). eauto.
    + rewrite undo_cannot by assumption. eauto.
  - destruct (canRedo h) eqn:Hcan.
    + destruct (redo_can h now Hwf Hcan) as (s & _ & ->). eauto.
    + rewrite redo_cannot by assumption. eauto.
  - exists (fst (push h state now)). split; [reflexivity|].
    split; [apply push_refines; destruct Hwf; assumption|].
    split; [apply cloneState_is_deep|].
    split; [apply push_wf, Hwf | apply reach_push, Hr].
  - split; [reflexivity | apply reach_clear, Hr].
  - intros Hlen. apply undo_cannot. unfold canUndo. apply Z.ltb_ge.
    destruct Hwf. lia.
Qed.

End History.

(** ** Real-number built-ins *)

Section RealBuiltins.

Local Open Scope R_scope.

Lemma Int_part_unit (r : R) : 0 <= r < 1 -> Int_part r = 0%Z.
Proof.
  intros H. symmetry. apply Int_part_spec. simpl. lra.
Qed.

Lemma trunc_small (r : R) : -1 < r < 1 -> JS.trunc r = 0%Z.
Proof.
  intros H. unfold JS.trunc. destruct (decide (0 <= r)).
  - apply Int_part_unit. lra.
  - rewrite Int_part_unit by lra. reflexivity.
Qed.

(** [x % y] leaves [x] alone when it is smaller than [y] in absolute value. *)
Lemma fmod_small (x y : R) : 0 < y -> - y < x < y -> JS.fmod x y = x.
Proof.
  intros Hy Hx. unfold JS.fmod. rewrite trunc_small.
  - simpl. lra.
  - split.
    + apply Rmult_lt_reg_r with y; [assumption|].
      unfold Rdiv. rewrite Rmult_assoc, Rinv_l by lra. lra.
    + apply Rmult_lt_reg_r with y; [assumption|].
      unfold Rdiv. rewrite Rmult_assoc, Rinv_l by lra. lra.
Qed.

(** [x % y] has the sign of [x] and is smaller than [y]. *)
Lemma fmod_bound (x y : R) : 0 < y -> - y < JS.fmod x y < y.
Proof.
  intros Hy. unfold JS.fmod, JS.trunc.
  assert (Hxy : x = x / y * y) by (field; lra).
  destruct (decide (0 <= x / y)) as [Hq|Hq].
  - destruct (base_Int_part (x / y)) as [H1 H2].
    set (q := x / y) in *. set (z := IZR (Int_part q)) in *.
    rewrite Hxy. nra.
  - destruct (base_Int_part (- (x / y))) as [H1 H2].
    rewrite opp_IZR.
    set (q := x / y) in *. set (z := IZR (Int_part (- q))) in *.
    rewrite Hxy. nra.
Qed.

Lemma atan_nonpos (x : R) : x <= 0 -> atan x <= 0.
Proof.
  intros [H| ->].
  - left. rewrite <- atan_0. apply atan_increasing. exact H.
  - rewrite atan_0. lra.
Qed.

Lemma atan_pos (x : R) : 0 < x -> 0 < atan x.
Proof. intros H. rewrite <- atan_0. apply atan_increasing. exact H. Qed.

(** [Math.atan2] returns an angle in (-PI, PI]. *)
Lemma atan2_bound (y x : R) : - PI < JS.atan2 y x <= PI.
Proof.
  pose proof PI_RGT_0 as Hpi. unfold JS.atan2.
  destruct (decide (0 < x)) as [Hx|Hx].
  - pose proof (atan_bound (y / x)). lra.
  - destruct (decide (x < 0)) as [Hx'|Hx'].
    + pose proof (atan_bound (y / x)) as Hb.
      assert (Hinv : / x < 0) by (apply Rinv_lt_0_compat; assumption).
      destruct (decide (0 <= y)) as [Hy|Hy].
      * assert (atan (y / x) <= 0)
          by (apply atan_nonpos; unfold Rdiv; nra).
        lra.
      * assert (0 < atan (y / x))
          by (apply atan_pos; unfold Rdiv; nra).
        lra.
    + destruct (decide (0 < y)); [lra|].
      destruct (decide (y < 0)); lra.
Qed.

(** The phase that toFrequencyDomain hands to setHarmonic is stored as is. *)
Lemma fmod_atan2 (y x : R) : JS.fmod (JS.atan2 y x) (PI * 2) = JS.atan2 y x.
Proof.
  pose proof PI_RGT_0. pose proof (atan2_bound y x).
  apply fmod_small; lra.
Qed.

Lemma clamp_amplitude (a : R) : 0 <= a -> Rmax 0 (Rmin 1 a) = Rmin 1 a.
Proof.
  intros Ha. apply Rmax_right. apply Rmin_glb; lra.
Qed.

Lemma clamp_amplitude_bounds (a : R) : 0 <= Rmax 0 (Rmin 1 a) <= 1.
Proof.
  split; [apply Rmax_l|]. apply Rmax_lub; [lra | apply Rmin_l].
Qed.

End RealBuiltins.

(** ** Sums computed by loops *)

Section Sums.

Local Open Scope R_scope.

Lemma Rsum_ext (n : nat) (f g : nat -> R) :
  (forall i, (i < n)%nat -> f i = g i) -> Spec.Rsum n f = Spec.Rsum n g.
Proof.
  induction n as [|n IH]; intros H; simpl; [reflexivity|].
  rewrite IH, H by (intros; try apply H; lia). reflexivity.
Qed.

(** A loop that adds one term per iteration computes the sum of the terms. *)
Lemma for_loop_Rsum (n : nat) (body : Z -> R -> R) (f : nat -> R) :
  (forall i acc, (i < n)%nat -> body (Z.of_nat i) acc = acc + f i) ->
  JS.for_loop (Z.of_nat n) body 0 = Spec.Rsum n f.
Proof.
  induction n as [|n IH]; intros H; [reflexivity|].
  rewrite for_loop_S, H, IH by (intros; try apply H; lia). reflexivity.
Qed.

(** The same for the two sums the analysis loop carries. *)
Lemma for_loop_Rsum2 (n : nat) (body : Z -> R * R -> R * R) (f g : nat -> R) :
  (forall i a b, (i < n)%nat -> body (Z.of_nat i) (a, b) = (a + f i, b + g i)) ->
  JS.for_loop (Z.of_nat n) body (0, 0) = (Spec.Rsum n f, Spec.Rsum n g).
Proof.
  induction n as [|n IH]; intros H; [reflexivity|].
  rewrite for_loop_S, IH, H by (intros; try apply H; lia). reflexivity.
Qed.

Lemma for_loop_m_S {S : Type} (n : nat) (body : Z -> S -> outcome S) (s : S) :
  JS.for_loop_m (Z.of_nat (Datatypes.S n)) body s
  = (s' <- JS.for_loop_m (Z.of_nat n) body s ;; body (Z.of_nat n) s').
Proof.
  unfold JS.for_loop_m. rewrite !Nat2Z.id, seq_S, fold_left_app. reflexivity.
Qed.

Lemma get_nth_default {A : Type} (d : A) (a : list A) (i : nat) :
  JS.get d a (Z.of_nat i) = nth i a d.
Proof.
  unfold JS.get. destruct (Z.ltb_spec (Z.of_nat i) 0); [lia|].
  rewrite Nat2Z.id. rewrite nth_lookup. reflexivity.
Qed.

End Sums.

(** ** toFrequencyDomain *)

Section Analysis.

Import FrequencySpectrum WaveformTransform.
Local Open Scope R_scope.

Lemma for_loop_to_nat {S : Type} (n : Z) (body : Z -> S -> S) (s : S) :
  JS.for_loop n body s = JS.for_loop (Z.of_nat (Z.to_nat n)) body s.
Proof. unfold JS.for_loop. rewrite Nat2Z.id. reflexivity. Qed.

Lemma for_loop_m_to_nat {S : Type} (n : Z) (body : Z -> S -> outcome S) (s : S) :
  JS.for_loop_m n body s = JS.for_loop_m (Z.of_nat (Z.to_nat n)) body s.
Proof. unfold JS.for_loop_m. rewrite Nat2Z.id. reflexivity. Qed.

(** The loop over the samples computes the two sums of the transform. *)
Lemma analysis_sums (w : Waveform.t) (k : Z) :
  let N := Waveform.sampleRate w in
  JS.for_loop N
    (fun n '(real, imag) =>
       let angle := -2 * PI * IZR (k + 1) * IZR n / IZR N in
       let x := JS.get 0 (Waveform.samples w) n in
       (real + x * cos angle, imag + x * sin angle))
    (0, 0)
  = (Spec.Rsum (Z.to_nat N)
       (fun n => Spec.sample w n * cos (-2 * PI * IZR (k + 1) * INR n / IZR N)),
     Spec.Rsum (Z.to_nat N)
       (fun n => Spec.sample w n * sin (-2 * PI * IZR (k + 1) * INR n / IZR N))).
Proof.
  intros N. rewrite for_loop_to_nat.
  apply for_loop_Rsum2. intros i a b _.
  rewrite get_nth_default, <- INR_IZR_INZ. reflexivity.
Qed.

(** The body of the loop over [k] stores [Spec.stored_harmonic w k]. *)
Lemma analysis_step (w : Waveform.t) (sp : FrequencySpectrum.t) (k : Z) :
  (let N := Waveform.sampleRate w in
   let '(real, imag) :=
     JS.for_loop N
       (fun n '(real, imag) =>
          let angle := -2 * PI * IZR (k + 1) * IZR n / IZR N in
          let x := JS.get 0 (Waveform.samples w) n in
          (real + x * cos angle, imag + x * sin angle))
       (0, 0) in
   let real := real / IZR N in
   let imag := imag / IZR N in
   let amplitude := 2 * sqrt (real * real + imag * imag) in
   let phase := JS.atan2 imag real in
   FrequencySpectrum.setHarmonic sp k amplitude phase)
  = if (k <? 0)%Z || (k >=? harmonicCount sp)%Z then Throw (OutOfRange k)
    else Ok (mk (harmonicCount sp) (fundamentalFrequency sp)
               (put (harmonics sp) k (Spec.stored_harmonic w k))).
Proof.
  cbv zeta. rewrite analysis_sums. unfold setHarmonic.
  destruct ((k <? 0)%Z || (k >=? harmonicCount sp)%Z); [reflexivity|].
  unfold Spec.stored_harmonic, Spec.dft_real, Spec.dft_imag.
  rewrite fmod_atan2, clamp_amplitude; [reflexivity|].
  apply Rmult_le_pos; [lra | apply sqrt_pos].
Qed.

Lemma put_prefix (v : nat -> Harmonic) (m n : nat) (h : Harmonic) :
  (m < n)%nat ->
  put (map v (seq 0 m) ++ replicate (n - m) hole) (Z.of_nat m) h
  = (map v (seq 0 m) ++ [h]) ++ replicate (n - Datatypes.S m) hole.
Proof.
  intros Hm. unfold put.
  destruct (Z.ltb_spec (Z.of_nat m) 0); [lia|].
  rewrite Nat2Z.id.
  assert (Hlen : length (map v (seq 0 m)) = m)
    by (rewrite length_map, length_seq; reflexivity).
  destruct (Nat.ltb_spec m (length (map v (seq 0 m) ++ replicate (n - m) hole)))
    as [_|Hge].
  2:{ rewrite length_app, length_replicate, Hlen in Hge. lia. }
  rewrite insert_app_r_alt by lia. rewrite Hlen, Nat.sub_diag.
  replace (n - m)%nat with (Datatypes.S (n - Datatypes.S m)) by lia.
  simpl. rewrite <- app_assoc. reflexivity.
Qed.

Lemma analysis_prefix (w : Waveform.t) (hc : Z) (m : nat) :
  (m <= Z.to_nat hc)%nat ->
  JS.for_loop_m (Z.of_nat m)
    (fun k spectrum =>
       let N := Waveform.sampleRate w in
       let '(real, imag) :=
         JS.for_loop N
           (fun n '(real, imag) =>
              let angle := -2 * PI * IZR (k + 1) * IZR n / IZR N in
              let x := JS.get 0 (Waveform.samples w) n in
              (real + x * cos angle, imag + x * sin angle))
           (0, 0) in
       let real := real / IZR N in
       let imag := imag / IZR N in
       let amplitude := 2 * sqrt (real * real + imag * imag) in
       let phase := JS.atan2 imag real in
       FrequencySpectrum.setHarmonic spectrum k amplitude phase)
    (FrequencySpectrum.constructor hc)
  = Ok (mk hc 440
          (map (fun k => Spec.stored_harmonic w (Z.of_nat k)) (seq 0 m)
           ++ replicate (Z.to_nat hc - m) hole)).
Proof.
  induction m as [|m IH]; intros Hm.
  - unfold JS.for_loop_m. simpl. rewrite Nat.sub_0_r. reflexivity.
  - rewrite for_loop_m_S, IH by lia. unfold bind.
    rewrite (analysis_step w _ (Z.of_nat m)). simpl harmonicCount.
    rewrite seq_S, map_app.
    destruct (Z.ltb_spec (Z.of_nat m) 0); [lia|].
    destruct (Z.geb_spec (Z.of_nat m) hc); [lia|]. cbn [orb].
    simpl harmonics. simpl fundamentalFrequency.
    rewrite (put_prefix (fun k => Spec.stored_harmonic w (Z.of_nat k)))
      by lia.
    reflexivity.
Qed.

(** The spectrum toFrequencyDomain returns, in closed form. *)
Lemma toFrequencyDomain_closed (w : Waveform.t) (hc : Z) :
  toFrequencyDomain w hc
  = Ok (mk hc 440
          (map (fun k => Spec.stored_harmonic w (Z.of_nat k))
               (seq 0 (Z.to_nat hc)))).
Proof.
  unfold toFrequencyDomain. cbv zeta.
  rewrite for_loop_m_to_nat, analysis_prefix by lia.
  rewrite Nat.sub_diag. simpl. rewrite app_nil_r. reflexivity.
Qed.

(** Reading harmonic [k] of the spectrum toFrequencyDomain returns. *)
Lemma toFrequencyDomain_harmonic (w : Waveform.t) (hc k : Z) :
  (0 <= k < hc)%Z ->
  exists sp,
    toFrequencyDomain w hc = Ok sp
    /\ harmonicCount sp = hc
    /\ getHarmonic sp k = Ok (Spec.stored_harmonic w k).
Proof.
  intros Hk. eexists. split; [apply toFrequencyDomain_closed|].
  split; [reflexivity|].
  unfold getHarmonic. simpl harmonicCount.
  destruct (Z.ltb_spec k 0); [lia|].
  destruct (Z.geb_spec k hc); [lia|]. simpl.
  assert (Hget : JS.get hole
                   (map (fun k => Spec.stored_harmonic w (Z.of_nat k))
                        (seq 0 (Z.to_nat hc))) k
                 = Spec.stored_harmonic w k).
  { rewrite <- (Z2Nat.id k) at 1 by lia. apply get_lookup.
    rewrite list_lookup_fmap, lookup_seq_lt by lia. simpl.
    rewrite Z2Nat.id by lia. reflexivity. }
  rewrite Hget. reflexivity.
Qed.

(** C1, as the code has it: for a waveform w whose buffer holds its
    N = sampleRate samples and every harmonicCount >= 1, toFrequencyDomain
    returns a spectrum in which, for each harmonic index k in
    [0, harmonicCount), the stored amplitude is 2*sqrt(real^2 + imag^2)
    clamped to at most 1 and the stored phase is atan2(imag, real), with
    real and imag the sums of samples[n]*cos(-2*PI*(k+1)*n/N) and of
    samples[n]*sin(-2*PI*(k+1)*n/N) divided by N. *)
Theorem toFrequencyDomain_stores_clamped (w : Waveform.t) (hc k : Z) :
  Waveform.wf w -> (1 <= hc)%Z -> (0 <= k < hc)%Z ->
  exists sp,
    toFrequencyDomain w hc = Ok sp
    /\ harmonicCount sp = hc
    /\ let real := Spec.dft_real w k in
       let imag := Spec.dft_imag w k in
       getHarmonic sp k
       = Ok (mkH (Rmin 1 (2 * sqrt (real * real + imag * imag)))
                 (JS.atan2 imag real)).
Proof.
  intros Hwf Hhc Hk.
  destruct (toFrequencyDomain_harmonic w hc k Hk) as (sp & Hsp & Hcount & Hh).
  exists sp. split; [exact Hsp|]. split; [exact Hcount|].
  cbv zeta. rewrite Hh. reflexivity.
Qed.

End Analysis.

(** ** FrequencySpectrum: what every public operation keeps *)

Section SpectrumInvariant.

Import FrequencySpectrum WaveformTransform.
Local Open Scope R_scope.

Lemma array_put_insert (a : list Harmonic) (i : nat) (h : Harmonic) :
  (i < length a)%nat -> put a (Z.of_nat i) h = <[i := h]> a.
Proof.
  intros Hi. unfold put.
  destruct (Z.ltb_spec (Z.of_nat i) 0); [lia|].
  rewrite Nat2Z.id.
  destruct (Nat.ltb_spec i (length a)); [reflexivity | lia].
Qed.

Lemma wf_length (sp : FrequencySpectrum.t) :
  wf sp -> Z.to_nat (harmonicCount sp) = length (harmonics sp).
Proof. unfold wf. lia. Qed.

Lemma map_seq_const {B : Type} (c : B) (n : nat) :
  map (fun _ => c) (seq 0 n) = replicate n c.
Proof.
  induction n as [|n IH]; [reflexivity|].
  rewrite seq_S, map_app, IH. simpl.
  rewrite <- replicate_S_end. reflexivity.
Qed.

Lemma clear_closed (sp : FrequencySpectrum.t) :
  wf sp ->
  clear sp = mk (harmonicCount sp) (fundamentalFrequency sp)
               (replicate (length (harmonics sp)) (mkH 0 0)).
Proof.
  intros Hwf. unfold clear. rewrite for_loop_to_nat, (wf_length sp Hwf).
  rewrite (for_loop_fill put (harmonics sp) (fun _ _ => mkH 0 0)
                         (fun _ => mkH 0 0)).
  - rewrite map_seq_const. reflexivity.
  - intros b i x Hi. apply array_put_insert, Hi.
  - reflexivity.
Qed.

Lemma sum_loop (sp : FrequencySpectrum.t) :
  wf sp ->
  JS.for_loop (harmonicCount sp)
    (fun i sum => sum + amplitude (JS.get hole (harmonics sp) i)) 0
  = fold_left (fun s h => s + amplitude h) (harmonics sp) 0.
Proof.
  intros Hwf. rewrite for_loop_to_nat, (wf_length sp Hwf).
  apply (for_loop_get_fold hole (harmonics sp) (fun s h => s + amplitude h)).
Qed.

Lemma normalize_closed (sp : FrequencySpectrum.t) :
  wf sp ->
  let sum := fold_left (fun s h => s + amplitude h) (harmonics sp) 0 in
  normalize sp
  = if bool_decide (sum > 0) && negb (bool_decide (sum = 1))
    then mk (harmonicCount sp) (fundamentalFrequency sp)
            (map (fun h => mkH (amplitude h / sum) (phase h)) (harmonics sp))
    else sp.
Proof.
  intros Hwf sum. unfold normalize. rewrite (sum_loop sp Hwf). fold sum.
  destruct (bool_decide (sum > 0) && negb (bool_decide (sum = 1)));
    [|reflexivity].
  rewrite for_loop_to_nat, (wf_length sp Hwf).
  rewrite (for_loop_fill put (harmonics sp)
             (fun i hs => mkH (amplitude (JS.get hole hs i) / sum)
                              (phase (JS.get hole hs i)))
             (fun j => mkH (amplitude (nth j (harmonics sp) hole) / sum)
                           (phase (nth j (harmonics sp) hole)))).
  - rewrite (map_seq_nth (fun h => mkH (amplitude h / sum) (phase h))).
    reflexivity.
  - intros b i x Hi. apply array_put_insert, Hi.
  - intros j Hj. rewrite get_app_drop; [reflexivity| |assumption].
    rewrite length_map, length_seq. reflexivity.
Qed.

Lemma fold_amplitude_ge (l : list Harmonic) (acc : R) :
  Forall (fun h => 0 <= amplitude h) l ->
  acc <= fold_left (fun s h => s + amplitude h) l acc
  /\ forall h, In h l ->
               acc + amplitude h <= fold_left (fun s h => s + amplitude h) l acc.
Proof.
  intros Hall. revert acc.
  induction Hall as [|x l Hx _ IH]; intros acc; simpl.
  - split; [lra | tauto].
  - destruct (IH (acc + amplitude x)) as [H1 H2]. split; [lra|].
    intros h [->|Hin]; [exact H1|].
    specialize (H2 h Hin). lra.
Qed.

Lemma stored_weaken (l : list Harmonic) :
  Forall Spec.harmonic_stored l -> Forall (fun h => 0 <= amplitude h) l.
Proof.
  intros H. eapply Forall_impl; [exact H|].
  intros h [[Ha _] _]. exact Ha.
Qed.

Lemma stored_zero : Spec.harmonic_stored (mkH 0 0).
Proof.
  pose proof PI_RGT_0. unfold Spec.harmonic_stored. simpl. lra.
Qed.

Lemma setHarmonic_inv (sp sp' : FrequencySpectrum.t) (i : Z) (a p : R) :
  wf sp -> Forall Spec.harmonic_stored (harmonics sp) ->
  setHarmonic sp i a p = Ok sp' ->
  wf sp' /\ Forall Spec.harmonic_stored (harmonics sp').
Proof.
  intros Hwf Hall. unfold setHarmonic.
  destruct (Z.ltb_spec i 0); simpl; [discriminate|].
  destruct (Z.geb_spec i (harmonicCount sp)); simpl; [discriminate|].
  intros [= <-]. simpl.
  rewrite <- (Z2Nat.id i) by lia.
  rewrite array_put_insert by (unfold wf in Hwf; lia).
  split.
  - unfold wf in *. simpl. rewrite length_insert. exact Hwf.
  - apply Forall_insert; [exact Hall|].
    pose proof PI_RGT_0 as Hpi.
    split; simpl; [apply clamp_amplitude_bounds|].
    pose proof (fmod_bound p (PI * 2)). lra.
Qed.

Lemma normalize_inv (sp : FrequencySpectrum.t) :
  wf sp -> Forall Spec.harmonic_stored (harmonics sp) ->
  wf (normalize sp) /\ Forall Spec.harmonic_stored (harmonics (normalize sp)).
Proof.
  intros Hwf Hall. rewrite normalize_closed by assumption. cbv zeta.
  set (sum := fold_left _ _ _).
  destruct (bool_decide_reflect (sum > 0)) as [Hpos|_]; simpl; [|auto].
  destruct (bool_decide (sum = 1)); simpl; [auto|].
  split; [unfold wf in *; simpl; rewrite length_map; exact Hwf|].
  simpl. apply Forall_forall. intros h Hh.
  apply list_elem_of_In, in_map_iff in Hh as (h0 & <- & Hin).
  pose proof (proj2 (fold_amplitude_ge (harmonics sp) 0 (stored_weaken _ Hall))
                h0 Hin) as Hle.
  fold sum in Hle.
  rewrite Forall_forall in Hall.
  destruct (Hall h0 (proj2 (list_elem_of_In _ _) Hin)) as [[Ha0 Ha1] Hp].
  split; simpl; [|exact Hp].
  split.
  - apply Rmult_le_pos; [exact Ha0|]. left. apply Rinv_0_lt_compat. lra.
  - apply Rmult_le_reg_r with sum; [lra|].
    unfold Rdiv. rewrite Rmult_assoc, Rinv_l by lra. lra.
Qed.

Lemma stored_harmonic_stored (w : Waveform.t) (k : Z) :
  Spec.harmonic_stored (Spec.stored_harmonic w k).
Proof.
  pose proof PI_RGT_0 as Hpi.
  unfold Spec.harmonic_stored, Spec.stored_harmonic. simpl. split.
  - split; [|apply Rmin_l].
    apply Rmin_glb; [lra|]. apply Rmult_le_pos; [lra | apply sqrt_pos].
  - pose proof (atan2_bound (Spec.dft_imag w k) (Spec.dft_real w k)). lra.
Qed.

(** Every spectrum the public operations produce has [harmonicCount]
    entries, each with an amplitude in [0, 1] and a phase strictly between
    -2*PI and 2*PI. *)
Lemma public_spectrum_stored (sp : FrequencySpectrum.t) :
  Spec.public_spectrum sp ->
  wf sp /\ Forall Spec.harmonic_stored (harmonics sp).
Proof.
  induction 1 as [n | sp i a p sp' _ [Hwf Hall] Hset | sp _ [Hwf Hall]
                  | sp _ [Hwf Hall] | sp _ [Hwf Hall] | w hc sp Htfd].
  - split.
    + unfold wf, FrequencySpectrum.constructor. simpl.
      rewrite length_replicate. lia.
    + simpl. apply Forall_replicate, stored_zero.
  - eapply setHarmonic_inv; eassumption.
  - rewrite clear_closed by assumption. split.
    + unfold wf in *. simpl. rewrite length_replicate. exact Hwf.
    + simpl. apply Forall_replicate, stored_zero.
  - apply normalize_inv; assumption.
  - split.
    + unfold wf in *. simpl. rewrite length_map. exact Hwf.
    + simpl. apply Forall_forall. intros h Hh.
      apply list_elem_of_In, in_map_iff in Hh as (h0 & <- & Hin).
      rewrite Forall_forall in Hall.
      exact (Hall h0 (proj2 (list_elem_of_In _ _) Hin)).
  - rewrite toFrequencyDomain_closed in Htfd. injection Htfd as <-. split.
    + unfold wf. simpl. rewrite length_map, length_seq. lia.
    + simpl. apply Forall_forall. intros h Hh.
      apply list_elem_of_In, in_map_iff in Hh as (k & <- & _).
      apply stored_harmonic_stored.
Qed.

End SpectrumInvariant.

(** ** toTimeDomain *)

Section Synthesis.

Import FrequencySpectrum WaveformTransform.
Local Open Scope R_scope.

Lemma insert_prefix {A : Type} (v : nat -> A) (m n : nat) (d x : A) :
  (m < n)%nat ->
  <[m := x]> (map v (seq 0 m) ++ replicate (n - m) d)
  = (map v (seq 0 m) ++ [x]) ++ replicate (n - Datatypes.S m) d.
Proof.
  intros Hm.
  assert (Hlen : length (map v (seq 0 m)) = m)
    by (rewrite length_map, length_seq; reflexivity).
  rewrite insert_app_r_alt by lia. rewrite Hlen, Nat.sub_diag.
  replace (n - m)%nat with (Datatypes.S (n - Datatypes.S m)) by lia.
  simpl. rewrite <- app_assoc. reflexivity.
Qed.

(** The loop over the harmonics computes the raw additive sum. *)
Lemma synthesis_value (sp : FrequencySpectrum.t) (N : Z) (s : nat) :
  FrequencySpectrum.wf sp ->
  Forall (fun h => 0 <= amplitude h) (harmonics sp) ->
  JS.for_loop (harmonicCount sp)
    (fun harmonic value =>
       let h := JS.get hole (harmonics sp) harmonic in
       if bool_decide (amplitude h > 0) then
         let harmonicNum := (harmonic + 1)%Z in
         let angle :=
           2 * PI * IZR harmonicNum * IZR (Z.of_nat s) / IZR N + phase h in
         value + amplitude h * sin angle
       else value)
    0
  = Spec.additive sp N s.
Proof.
  intros Hwf Hpos. rewrite for_loop_to_nat.
  replace (Z.to_nat (harmonicCount sp)) with (length (harmonics sp))
    by (unfold wf in Hwf; lia).
  apply for_loop_Rsum. intros i acc Hi.
  rewrite get_nth_default. cbv zeta.
  assert (Ha : 0 <= amplitude (nth i (harmonics sp) hole)).
  { rewrite Forall_forall in Hpos. apply Hpos, list_elem_of_In, nth_In, Hi. }
  unfold Spec.contribution.
  destruct (bool_decide_reflect (amplitude (nth i (harmonics sp) hole) > 0))
    as [Hgt|Hle];
    destruct (decide (amplitude (nth i (harmonics sp) hole) = 0)); try lra.
  rewrite plus_IZR, <- !INR_IZR_INZ. reflexivity.
Qed.

Lemma synthesis_prefix (sp : FrequencySpectrum.t) (N : Z) (m : nat) :
  FrequencySpectrum.wf sp ->
  Forall (fun h => 0 <= amplitude h) (harmonics sp) ->
  (m <= Z.to_nat N)%nat ->
  JS.for_loop_m (Z.of_nat m)
    (fun sample waveform =>
       let value :=
         JS.for_loop (harmonicCount sp)
           (fun harmonic value =>
              let h := JS.get hole (harmonics sp) harmonic in
              if bool_decide (amplitude h > 0) then
                let harmonicNum := (harmonic + 1)%Z in
                let angle :=
                  2 * PI * IZR harmonicNum * IZR sample / IZR N + phase h in
                value + amplitude h * sin angle
              else value)
           0 in
       Waveform.setSample waveform sample value)
    (Waveform.mk N (JS.Float32Array N))
  = Ok (Waveform.mk N
          (map (fun s => Rmax (-1) (Rmin 1 (Spec.additive sp N s))) (seq 0 m)
           ++ replicate (Z.to_nat N - m) 0)).
Proof.
  intros Hwf Hpos. induction m as [|m IH]; intros Hm.
  - unfold JS.for_loop_m, JS.Float32Array. simpl.
    rewrite Nat.sub_0_r. reflexivity.
  - rewrite for_loop_m_S, IH by lia. unfold bind. cbv zeta.
    rewrite synthesis_value by assumption.
    rewrite seq_S, map_app.
    rewrite setSample_ok by (simpl; lia).
    simpl Waveform.sampleRate. simpl Waveform.samples.
    rewrite put_insert, insert_prefix by lia.
    reflexivity.
Qed.

(** What toTimeDomain returns: each raw sum is clamped by setSample, and
    the clamped samples are then peak-normalized. *)
Lemma toTimeDomain_closed (sp : FrequencySpectrum.t) (N : Z) :
  Waveform.isPowerOfTwo N = true ->
  FrequencySpectrum.wf sp ->
  Forall (fun h => 0 <= amplitude h) (harmonics sp) ->
  toTimeDomain sp N
  = Ok (Waveform.mk N
          (Spec.peak_normalize
             (map (fun s => Rmax (-1) (Rmin 1 (Spec.additive sp N s)))
                  (seq 0 (Z.to_nat N))))).
Proof.
  intros Hp Hwf Hpos. unfold toTimeDomain.
  unfold Waveform.constructor. rewrite Hp. simpl negb. cbv iota. unfold bind at 1.
  rewrite for_loop_m_to_nat, synthesis_prefix by (try assumption; lia).
  unfold bind. rewrite Nat.sub_diag. simpl replicate. rewrite app_nil_r.
  rewrite normalize_spec; [reflexivity|].
  unfold Waveform.wf. simpl. rewrite length_map, length_seq.
  apply isPowerOfTwo_pos in Hp. lia.
Qed.

End Synthesis.

(** ** Evaluation at concrete inputs *)

Section Evaluation.

Import FrequencySpectrum WaveformTransform.
Local Open Scope R_scope.

Lemma cos_at_0 (a : R) : a = 0 -> cos a = 1.
Proof. intros ->. apply cos_0. Qed.

Lemma sin_at_0 (a : R) : a = 0 -> sin a = 0.
Proof. intros ->. apply sin_0. Qed.

Lemma cos_at_quarter (a : R) : a = - (PI / 2) -> cos a = 0.
Proof. intros ->. rewrite cos_neg. apply cos_PI2. Qed.

Lemma sin_at_quarter (a : R) : a = - (PI / 2) -> sin a = -1.
Proof. intros ->. rewrite sin_neg, sin_PI2. reflexivity. Qed.

Lemma cos_at_half (a : R) : a = - PI -> cos a = -1.
Proof. intros ->. rewrite cos_neg. apply cos_PI. Qed.

Lemma sin_at_half (a : R) : a = - PI -> sin a = 0.
Proof. intros ->. rewrite sin_neg, sin_PI. lra. Qed.

Lemma cos_at_three_quarters (a : R) : a = - (3 * (PI / 2)) -> cos a = 0.
Proof. intros ->. rewrite cos_neg. apply cos_3PI2. Qed.

Lemma sin_at_three_quarters (a : R) : a = - (3 * (PI / 2)) -> sin a = 1.
Proof. intros ->. rewrite sin_neg, sin_3PI2. lra. Qed.

Lemma sin_at_PI2 (a : R) : a = PI / 2 -> sin a = 1.
Proof. intros ->. apply sin_PI2. Qed.

Lemma sin_at_3PI2 (a : R) : a = 3 * (PI / 2) -> sin a = -1.
Proof. intros ->. apply sin_3PI2. Qed.

Lemma sin_at_5PI2 (a : R) : a = PI / 2 + 2 * PI -> sin a = 1.
Proof.
  intros ->. rewrite sin_plus, sin_2PI, cos_2PI, sin_PI2. lra.
Qed.

(** Evaluate the sines and cosines of the multiples of a quarter turn. *)
Ltac trig_eval :=
  repeat match goal with
         | |- context [cos ?a] =>
             first [ rewrite (cos_at_0 a) by lra
                   | rewrite (cos_at_quarter a) by lra
                   | rewrite (cos_at_half a) by lra
                   | rewrite (cos_at_three_quarters a) by lra ]
         | |- context [sin ?a] =>
             first [ rewrite (sin_at_0 a) by lra
                   | rewrite (sin_at_quarter a) by lra
                   | rewrite (sin_at_half a) by lra
                   | rewrite (sin_at_three_quarters a) by lra
                   | rewrite (sin_at_PI2 a) by lra
                   | rewrite (sin_at_3PI2 a) by lra
                   | rewrite (sin_at_5PI2 a) by lra ]
         end.

(** Unfold a sum of four terms over a concrete waveform. *)
Ltac dft_eval :=
  unfold Spec.dft_real, Spec.dft_imag, Spec.sample;
  simpl Waveform.sampleRate; simpl Waveform.samples;
  change (Z.to_nat 4) with 4%nat;
  cbn [Spec.Rsum nth INR];
  change (IZR (0 + 1)) with 1;
  trig_eval.

Lemma square4_real : Spec.dft_real Examples.square4 0 = 1 / 2.
Proof. unfold Examples.square4. dft_eval. lra. Qed.

Lemma square4_imag : Spec.dft_imag Examples.square4 0 = - (1 / 2).
Proof. unfold Examples.square4. dft_eval. lra. Qed.

Lemma sine4_real : Spec.dft_real Examples.sine4 0 = 0.
Proof. unfold Examples.sine4. dft_eval. lra. Qed.

Lemma sine4_imag : Spec.dft_imag Examples.sine4 0 = - (1 / 2).
Proof. unfold Examples.sine4. dft_eval. lra. Qed.

(** Maxima, minima and absolute values of numerals. *)
Ltac real_eval :=
  repeat match goal with
         | |- context [Rmin ?a ?b] =>
             first [ rewrite (Rmin_left a b) by lra
                   | rewrite (Rmin_right a b) by lra ]
         | |- context [Rmax ?a ?b] =>
             first [ rewrite (Rmax_left a b) by lra
                   | rewrite (Rmax_right a b) by lra ]
         | |- context [Rabs ?a] =>
             first [ rewrite (Rabs_right a) by lra
                   | rewrite (Rabs_left a) by lra ]
         end;
  try lra.

Lemma sqrt_half_gt : 1 < 2 * sqrt (1 / 2).
Proof.
  assert (H : sqrt (1 / 2 * (1 / 2)) < sqrt (1 / 2))
    by (apply sqrt_lt_1; lra).
  rewrite sqrt_square in H by lra. lra.
Qed.

(** C1 fails as stated: the fundamental of the four-sample square wave has
    2*sqrt(real^2 + imag^2) = 2*sqrt(1/2) > 1, and the amplitude stored
    for it is 1. *)
Lemma toFrequencyDomain_square4_amplitude :
  exists sp h,
    toFrequencyDomain Examples.square4 1 = Ok sp
    /\ getHarmonic sp 0 = Ok h
    /\ amplitude h = 1
    /\ amplitude h
       <> 2 * sqrt (Spec.dft_real Examples.square4 0
                    * Spec.dft_real Examples.square4 0
                    + Spec.dft_imag Examples.square4 0
                      * Spec.dft_imag Examples.square4 0).
Proof.
  destruct (toFrequencyDomain_harmonic Examples.square4 1 0) as (sp & Hsp & _ & Hh);
    [lia|].
  exists sp, (Spec.stored_harmonic Examples.square4 0).
  split; [exact Hsp|]. split; [exact Hh|].
  unfold Spec.stored_harmonic. simpl amplitude.
  rewrite square4_real, square4_imag.
  replace (1 / 2 * (1 / 2) + - (1 / 2) * - (1 / 2)) with (1 / 2) by lra.
  pose proof sqrt_half_gt as Hgt.
  rewrite Rmin_left by lra. split; [reflexivity | lra].
Qed.

(** C6, at a count the 32-bit test misjudges: 2^32 + 1 is not a power of
    two, yet isPowerOfTwo accepts it (ToInt32 maps it to 1 and its
    predecessor to 0), so the constructor does not throw the
    power-of-two error. *)
Theorem constructor_accepts_4294967297 :
  Waveform.isPowerOfTwo 4294967297 = true
  /\ ~ Spec.is_power_of_two 4294967297
  /\ Waveform.constructor 4294967297 <> Throw InvalidLength.
Proof.
  assert (Hp : Waveform.isPowerOfTwo 4294967297 = true)
    by (vm_compute; reflexivity).
  split; [exact Hp|]. split.
  - apply (not_pow2_between _ 32); lia.
  - rewrite (constructor_ok _ Hp). discriminate.
Qed.

Lemma two_harmonics_built :
  (sp <- setHarmonic (FrequencySpectrum.constructor 2) 0 1 (PI / 2) ;;
   setHarmonic sp 1 (1 / 2) (PI / 2))
  = Ok Examples.two_harmonics.
Proof.
  pose proof PI_RGT_0 as Hpi.
  unfold setHarmonic, FrequencySpectrum.constructor, bind. simpl.
  rewrite fmod_small by lra.
  replace (Rmax 0 (Rmin 1 1)) with 1 by real_eval.
  replace (Rmax 0 (Rmin 1 (1 / 2))) with (1 / 2) by real_eval.
  reflexivity.
Qed.

Lemma two_harmonics_additive :
  Spec.additive Examples.two_harmonics 2 0 = 3 / 2
  /\ Spec.additive Examples.two_harmonics 2 1 = - (1 / 2).
Proof.
  unfold Spec.additive, Spec.contribution, Examples.two_harmonics.
  simpl harmonics. cbn [length Spec.Rsum nth INR amplitude phase].
  destruct (decide (1 = 0)) as [H|_]; [lra|].
  destruct (decide (1 / 2 = 0)) as [H|_]; [lra|].
  split; trig_eval; lra.
Qed.

(** C2, at a spectrum whose harmonics sum above 1, built by two calls of
    setHarmonic: the raw sums are [3/2; -1/2]; setSample clips the first to
    1 before normalize runs, so the result is [1; -1/2] and not the
    normalized raw sum [1; -1/3]. *)
Theorem toTimeDomain_clips_before_normalizing :
  (sp <- setHarmonic (FrequencySpectrum.constructor 2) 0 1 (PI / 2) ;;
   setHarmonic sp 1 (1 / 2) (PI / 2))
  = Ok Examples.two_harmonics
  /\ toTimeDomain Examples.two_harmonics 2 = Ok (Waveform.mk 2 [1; - (1 / 2)])
  /\ Spec.toTimeDomain Examples.two_harmonics 2 = [1; - (1 / 3)]
  /\ [1; - (1 / 2)] <> [1; - (1 / 3)].
Proof.
  destruct two_harmonics_additive as [H0 H1].
  split; [exact two_harmonics_built|]. split; [|split].
  - rewrite toTimeDomain_closed.
    + change (Z.to_nat 2) with 2%nat. cbn [map seq]. rewrite H0, H1.
      replace (Rmax (-1) (Rmin 1 (3 / 2))) with 1 by real_eval.
      replace (Rmax (-1) (Rmin 1 (- (1 / 2)))) with (- (1 / 2)) by real_eval.
      unfold Spec.peak_normalize. cbn [Spec.max_abs].
      replace (Rmax (Rabs 1) (Rmax (Rabs (- (1 / 2))) 0)) with 1 by real_eval.
      destruct (decide (1 <> 0 /\ 1 <> 1)) as [[_ H]|_]; [lra | reflexivity].
    + vm_compute. reflexivity.
    + reflexivity.
    + unfold Examples.two_harmonics. simpl.
      repeat constructor; simpl; lra.
  - unfold Spec.toTimeDomain.
    change (Z.to_nat 2) with 2%nat. cbn [map seq]. rewrite H0, H1.
    unfold Spec.peak_normalize. cbn [Spec.max_abs].
    replace (Rmax (Rabs (3 / 2)) (Rmax (Rabs (- (1 / 2))) 0)) with (3 / 2)
      by real_eval.
    destruct (decide (3 / 2 <> 0 /\ 3 / 2 <> 1)) as [_|H]; [|exfalso; lra].
    cbn [map]. f_equal; [field | f_equal; field].
  - intros [= H]. lra.
Qed.

(** C8, at a negative phase: [%] keeps the sign of its left operand, so
    setHarmonic(0, 0.5, -1) stores the phase -1, and toFrequencyDomain
    stores the phase -PI/2 that atan2 returns for the fundamental of the
    four-sample sine; neither lies in [0, 2*PI). *)
Theorem setHarmonic_keeps_negative_phase :
  (exists sp h,
      setHarmonic (FrequencySpectrum.constructor 1) 0 (1 / 2) (-1) = Ok sp
      /\ getHarmonic sp 0 = Ok h
      /\ phase h = -1
      /\ ~ Spec.harmonic_ok h)
  /\ (exists sp h,
         toFrequencyDomain Examples.sine4 1 = Ok sp
         /\ getHarmonic sp 0 = Ok h
         /\ phase h = - (PI / 2)
         /\ ~ Spec.harmonic_ok h).
Proof.
  pose proof PI_RGT_0 as Hpi. pose proof PI2_1 as Hpi2. split.
  - assert (Hmod : JS.fmod (-1) (PI * 2) = -1) by (apply fmod_small; lra).
    exists (mk 1 440 [mkH (1 / 2) (-1)]), (mkH (1 / 2) (-1)).
    split; [|split; [reflexivity|split; [reflexivity|]]].
    + unfold setHarmonic, FrequencySpectrum.constructor. simpl.
      rewrite Hmod.
      replace (Rmax 0 (Rmin 1 (1 / 2))) with (1 / 2) by real_eval.
      reflexivity.
    + unfold Spec.harmonic_ok. simpl. lra.
  - destruct (toFrequencyDomain_harmonic Examples.sine4 1 0)
      as (sp & Hsp & _ & Hh); [lia|].
    exists sp, (Spec.stored_harmonic Examples.sine4 0).
    split; [exact Hsp|]. split; [exact Hh|].
    assert (Hphase : phase (Spec.stored_harmonic Examples.sine4 0) = - (PI / 2)).
    { unfold Spec.stored_harmonic. simpl phase.
      rewrite sine4_real, sine4_imag. unfold JS.atan2.
      destruct (decide (0 < 0)); [lra|].
      destruct (decide (0 < 0)); [lra|].
      destruct (decide (0 < - (1 / 2))); [lra|].
      destruct (decide (- (1 / 2) < 0)); lra. }
    split; [exact Hphase|].
    unfold Spec.harmonic_ok. rewrite Hphase. lra.
Qed.

(** C5 fails as stated: samples is a Float32Array.  The number written 0.1
    in JavaScript is the double 3602879701896397 / 2^55; it lies in [-1, 1],
    so setSample does not clamp it, yet getSample returns
    13421773 / 2^27 = 0.100000001490116..., the binary32 number nearest to
    it. *)
Lemma setSample_getSample_tenth :
  exists w',
    Waveform32.setSample Examples.silence4 2
      (3602879701896397 / 36028797018963968) = Ok w'
    /\ Waveform32.getSample w' 2 = Ok (13421773 / 134217728)
    /\ 13421773 / 134217728
       <> Spec.clamp (3602879701896397 / 36028797018963968) (-1) 1.
Proof.
  eexists. split; [reflexivity|]. split.
  - unfold Waveform32.getSample. simpl. f_equal.
    rewrite Rmin_right, Rmax_right by lra. apply fround_tenth.
  - unfold Spec.clamp. repeat destruct (decide _); lra.
Qed.

End Evaluation.

(** ** The theorems at concrete inputs *)

Section Witnesses.

Import Examples.
Local Open Scope R_scope.

Lemma setSample_getSample_float32_witness :
  Waveform.valid silence4
  /\ (let stored := Float32.fround (Spec.clamp 3 (-1) 1) in
      ((0 <= 2 < Waveform.sampleRate silence4)%Z ->
       exists w', Waveform32.setSample silence4 2 3 = Ok w'
                  /\ Waveform32.getSample w' 2 = Ok stored)
      /\ -1 <= stored <= 1
      /\ Rabs (stored - Spec.clamp 3 (-1) 1) <= Float32.pow2 (-25)
      /\ (stored = Spec.clamp 3 (-1) 1
          <-> Float32.representable (Spec.clamp 3 (-1) 1))
      /\ (1 <= 3 -> stored = 1)
      /\ (3 <= -1 -> stored = -1)
      /\ (~ (0 <= 2 < Waveform.sampleRate silence4)%Z ->
          Waveform32.getSample silence4 2 = Throw (OutOfRange 2)
          /\ Waveform32.setSample silence4 2 3 = Throw (OutOfRange 2))).
Proof.
  split.
  - split; [vm_compute; reflexivity | reflexivity].
  - apply (setSample_getSample_float32 silence4 2 3).
    split; [vm_compute; reflexivity | reflexivity].
Defined.

Lemma normalize_peak_witness :
  Waveform.wf quiet2
  /\ (let m := Spec.max_abs (Waveform.samples quiet2) in
      Waveform.normalize quiet2
      = Waveform.mk (Waveform.sampleRate quiet2)
          (if decide (m <> 0 /\ m <> 1)
           then map (fun x => x / m) (Waveform.samples quiet2)
           else Waveform.samples quiet2)
      /\ ((exists x, In x (Waveform.samples quiet2) /\ x <> 0) ->
          Spec.max_abs (Waveform.samples (Waveform.normalize quiet2)) = 1)
      /\ (Forall (fun x => x = 0) (Waveform.samples quiet2) ->
          Waveform.normalize quiet2 = quiet2)).
Proof.
  split.
  - reflexivity.
  - apply (normalize_peak quiet2). reflexivity.
Defined.

Lemma smooth_preserves_range_witness :
  Waveform.wf square4 /\ Waveform.in_range square4 /\ 0 < 1 / 2 <= 1
  /\ exists w', Waveform.smooth square4 (1 / 2) = Ok w'
                /\ Waveform.in_range w' /\ Waveform.wf w'
                /\ Waveform.sampleRate w' = Waveform.sampleRate square4.
Proof.
  assert (Hr : Waveform.in_range square4)
    by (unfold Waveform.in_range; simpl; repeat constructor; lra).
  assert (Ha : 0 < 1 / 2 <= 1) by lra.
  split; [reflexivity|]. split; [exact Hr|]. split; [exact Ha|].
  apply (smooth_preserves_range square4 (1 / 2)); [reflexivity | exact Hr | exact Ha].
Defined.

Lemma applySmoothing_frame_witness :
  [square4] !! 0%nat = Some square4 /\ Waveform.valid square4
  /\ exists (smoothed : Store.ref) (h' : list Waveform.t)
            (c : Waveform.t) (s : Waveform.t),
      Store.applySmoothing 0%nat (1 / 2) [square4] = Ok (smoothed, h')
      /\ smoothed <> 0%nat
      /\ h' !! 0%nat = Some square4
      /\ (forall r, (r < length [square4])%nat -> h' !! r = [square4] !! r)
      /\ Waveform.clone square4 = Ok c
      /\ Waveform.smooth c (1 / 2) = Ok s
      /\ h' !! smoothed = Some s
      /\ s = Waveform.mk (Waveform.sampleRate square4)
                         (Spec.smooth (Waveform.samples square4) (1 / 2)).
Proof.
  split; [reflexivity|].
  split; [split; [vm_compute; reflexivity | reflexivity]|].
  apply (applySmoothing_frame [square4] 0%nat square4 (1 / 2)).
  - reflexivity.
  - split; [vm_compute; reflexivity | reflexivity].
Defined.

Lemma push_truncates_appends_evicts_witness :
  HistoryManager.reachable two_pushes
  /\ fst (HistoryManager.push two_pushes (state 1) 30)
     = Spec.push two_pushes (HistoryManager.cloneState (state 1) 30)
  /\ (forall H shared,
         Snapshot.view H shared = Some (state 1) ->
         exists clone H',
           Snapshot.cloneState shared 30 H = Ok (clone, H')
           /\ Snapshot.view H' clone
              = Some (HistoryManager.cloneState (state 1) 30)
           /\ Snapshot.view H' shared = Some (state 1)
           /\ forall H'', Snapshot.keeps_new H H' H'' ->
                          Snapshot.view H'' clone = Snapshot.view H' clone)
  /\ forall s1 s2 s3 s4 s5 t1 t2 t3 t4 t5,
      Spec.push_all (HistoryManager.constructor 3)
                    [(s1, t1); (s2, t2); (s3, t3); (s4, t4); (s5, t5)]
      = HistoryManager.mk 3
          [HistoryManager.cloneState s3 t3; HistoryManager.cloneState s4 t4;
           HistoryManager.cloneState s5 t5] 2.
Proof.
  split.
  - apply HistoryManager.reach_push, HistoryManager.reach_push,
      HistoryManager.reach_new.
  - apply (push_truncates_appends_evicts two_pushes (state 1) 30).
    apply HistoryManager.reach_push, HistoryManager.reach_push,
      HistoryManager.reach_new.
Defined.

Lemma undo_redo_total_witness :
  HistoryManager.reachable two_pushes
  /\ (HistoryManager.canUndo two_pushes = true
      <-> (0 < HistoryManager.currentIndex two_pushes)%Z)
  /\ (HistoryManager.canRedo two_pushes = true
      <-> (HistoryManager.currentIndex two_pushes
           < Z.of_nat (length (HistoryManager.history two_pushes)) - 1)%Z)
  /\ (HistoryManager.canUndo two_pushes = true ->
      exists s,
        HistoryManager.entry two_pushes
          (HistoryManager.currentIndex two_pushes - 1) = Some s
        /\ HistoryManager.undo two_pushes 30
           = Ok (HistoryManager.mk (HistoryManager.maxHistory two_pushes)
                   (HistoryManager.history two_pushes)
                   (HistoryManager.currentIndex two_pushes - 1),
                 Some (HistoryManager.cloneState s 30),
                 [HistoryManager.dispatchHistoryChange
                    (HistoryManager.mk (HistoryManager.maxHistory two_pushes)
                       (HistoryManager.history two_pushes)
                       (HistoryManager.currentIndex two_pushes - 1))])
        /\ Snapshot.deep_clone s (HistoryManager.cloneState s 30) 30)
  /\ (HistoryManager.canUndo two_pushes = false ->
      HistoryManager.undo two_pushes 30 = Ok (two_pushes, None, []))
  /\ (HistoryManager.canRedo two_pushes = true ->
      exists s,
        HistoryManager.entry two_pushes
          (HistoryManager.currentIndex two_pushes + 1) = Some s
        /\ HistoryManager.redo two_pushes 30
           = Ok (HistoryManager.mk (HistoryManager.maxHistory two_pushes)
                   (HistoryManager.history two_pushes)
                   (HistoryManager.currentIndex two_pushes + 1),
                 Some (HistoryManager.cloneState s 30),
                 [HistoryManager.dispatchHistoryChange
                    (HistoryManager.mk (HistoryManager.maxHistory two_pushes)
                       (HistoryManager.history two_pushes)
                       (HistoryManager.currentIndex two_pushes + 1))])
        /\ Snapshot.deep_clone s (HistoryManager.cloneState s 30) 30)
  /\ (HistoryManager.canRedo two_pushes = false ->
      HistoryManager.redo two_pushes 30 = Ok (two_pushes, None, []))
  /\ (exists r, HistoryManager.undo two_pushes 30 = Ok r)
  /\ (exists r, HistoryManager.redo two_pushes 30 = Ok r)
  /\ (exists h',
        HistoryManager.push two_pushes (state 1) 30
        = (h', HistoryManager.dispatchHistoryChange h')
        /\ h' = Spec.push two_pushes (HistoryManager.cloneState (state 1) 30)
        /\ Snapshot.deep_clone (state 1)
                               (HistoryManager.cloneState (state 1) 30) 30
        /\ HistoryManager.wf h' /\ HistoryManager.reachable h')
  /\ (HistoryManager.clear two_pushes
      = (HistoryManager.constructor (HistoryManager.maxHistory two_pushes),
         HistoryManager.mkEvent false false 0 (-1))
      /\ HistoryManager.reachable (fst (HistoryManager.clear two_pushes)))
  /\ ((length (HistoryManager.history two_pushes) <= 1)%nat ->
      HistoryManager.undo two_pushes 30 = Ok (two_pushes, None, [])).
Proof.
  split.
  - apply HistoryManager.reach_push, HistoryManager.reach_push,
      HistoryManager.reach_new.
  - apply (undo_redo_total two_pushes (state 1) 30).
    apply HistoryManager.reach_push, HistoryManager.reach_push,
      HistoryManager.reach_new.
Defined.

Lemma toFrequencyDomain_stores_clamped_witness :
  Waveform.wf square4 /\ (1 <= 1)%Z /\ (0 <= 0 < 1)%Z
  /\ exists sp,
      WaveformTransform.toFrequencyDomain square4 1 = Ok sp
      /\ FrequencySpectrum.harmonicCount sp = 1%Z
      /\ let real := Spec.dft_real square4 0 in
         let imag := Spec.dft_imag square4 0 in
         FrequencySpectrum.getHarmonic sp 0
         = Ok (FrequencySpectrum.mkH
                 (Rmin 1 (2 * sqrt (real * real + imag * imag)))
                 (JS.atan2 imag real)).
Proof.
  split; [reflexivity|]. split; [lia|]. split; [lia|].
  apply (toFrequencyDomain_stores_clamped square4 1 0); [reflexivity | lia | lia].
Defined.

End Witnesses.

(** * Further properties *)

(** ** HistoryManager: capacity, cursor and round trips *)

Section HistoryMore.

Import HistoryManager.
Local Open Scope Z_scope.

Lemma push_shape (h : t) (state : State) (now : Z) :
  wf h ->
  let kept := take (Z.to_nat (currentIndex h + 1)) (history h) in
  fst (push h state now)
  = if decide (maxHistory h < currentIndex h + 2)
    then mk (maxHistory h) (drop 1 (kept ++ [cloneState state now]))
            (currentIndex h)
    else mk (maxHistory h) (kept ++ [cloneState state now])
            (currentIndex h + 1).
Proof.
  intros [Hlo Hhi] kept. rewrite push_refines by assumption.
  unfold Spec.push. fold kept.
  assert (Hlen : Z.of_nat (length (kept ++ [cloneState state now]))
                 = currentIndex h + 2).
  { subst kept. rewrite length_app, length_take. simpl. lia. }
  rewrite Hlen. reflexivity.
Qed.

Lemma settled_wf (h : t) : Inv.settled h -> wf h.
Proof.
  intros [[[Hnil Hidx]|Hin] _]; unfold wf.
  - rewrite Hnil, Hidx. simpl. lia.
  - lia.
Qed.

Lemma push_settled (h : t) (state : State) (now : Z) :
  Inv.settled h -> Inv.settled (fst (push h state now)).
Proof.
  intros Hs. pose proof (settled_wf h Hs) as Hwf.
  rewrite (push_shape h state now Hwf). cbv zeta.
  destruct Hs as [Hshape Hcap]. destruct Hwf as [Hlo Hhi].
  set (kept := take (Z.to_nat (currentIndex h + 1)) (history h)).
  assert (Hk : Z.of_nat (length kept) = currentIndex h + 1)
    by (subst kept; rewrite length_take; lia).
  unfold Inv.settled.
  destruct (decide (maxHistory h < currentIndex h + 2)) as [Hfull|Hroom]; simpl.
  - rewrite length_drop, length_app. simpl. split; [|lia].
    destruct (Z.eq_dec (currentIndex h) (-1)) as [Hm|Hm].
    + left. split; [|assumption].
      destruct kept as [|x kept']; [reflexivity|]. simpl in Hk. lia.
    + right. lia.
  - rewrite length_app. simpl. split; [right; lia | lia].
Qed.

Lemma undo_settled (h h' : t) (now : Z) r ev :
  Inv.settled h -> undo h now = Ok (h', r, ev) -> Inv.settled h'.
Proof.
  intros Hs Hu. pose proof (settled_wf h Hs) as Hwf.
  destruct (canUndo h) eqn:Hcan.
  - destruct (undo_can h now Hwf Hcan) as (s & _ & Heq).
    rewrite Heq in Hu. injection Hu as <- _ _.
    unfold canUndo in Hcan. apply Z.ltb_lt in Hcan.
    destruct Hs as [_ Hcap]. destruct Hwf. unfold Inv.settled. simpl.
    split; [right; lia | assumption].
  - rewrite undo_cannot in Hu by assumption. injection Hu as <- _ _. assumption.
Qed.

Lemma redo_settled (h h' : t) (now : Z) r ev :
  Inv.settled h -> redo h now = Ok (h', r, ev) -> Inv.settled h'.
Proof.
  intros Hs Hu. pose proof (settled_wf h Hs) as Hwf.
  destruct (canRedo h) eqn:Hcan.
  - destruct (redo_can h now Hwf Hcan) as (s & _ & Heq).
    rewrite Heq in Hu. injection Hu as <- _ _.
    unfold canRedo in Hcan. apply Z.ltb_lt in Hcan.
    destruct Hs as [_ Hcap]. destruct Hwf. unfold Inv.settled. simpl.
    split; [right; lia | assumption].
  - rewrite redo_cannot in Hu by assumption. injection Hu as <- _ _. assumption.
Qed.

Lemma reachable_settled (h : t) : reachable h -> Inv.settled h.
Proof.
  induction 1 as [m | h state now _ IH | h now h' r ev _ IH Hu
                  | h now h' r ev _ IH Hr | h _ IH].
  - unfold Inv.settled. simpl. split; [left; auto | lia].
  - apply push_settled, IH.
  - eapply undo_settled; eassumption.
  - eapply redo_settled; eassumption.
  - unfold Inv.settled. simpl. split; [left; auto | lia].
Qed.

Lemma getCurrentState_on_entry (h : t) (now : Z) :
  0 <= currentIndex h < Z.of_nat (length (history h)) ->
  exists s, entry h (currentIndex h) = Some s
            /\ getCurrentState h now = Ok (Some (cloneState s now)).
Proof.
  intros Hin. destruct (entry_wf h (currentIndex h) Hin) as [s Hs].
  exists s. split; [assumption|]. unfold getCurrentState.
  destruct (Z.geb_spec (currentIndex h) 0); [|lia].
  destruct (Z.ltb_spec (currentIndex h) (Z.of_nat (length (history h)))); [|lia].
  simpl. rewrite Hs. reflexivity.
Qed.

Lemma getCurrentState_empty (h : t) (now : Z) :
  currentIndex h = -1 -> getCurrentState h now = Ok None.
Proof.
  intros Hm. unfold getCurrentState. rewrite Hm. reflexivity.
Qed.

Lemma entry_last (l : list State) (s : State) (m : Z) :
  entry (mk m (l ++ [s]) (Z.of_nat (length l))) (Z.of_nat (length l)) = Some s.
Proof.
  unfold entry. simpl.
  destruct (Z.ltb_spec (Z.of_nat (length l)) 0); [lia|].
  rewrite Nat2Z.id, lookup_app_r, Nat.sub_diag by lia. reflexivity.
Qed.

(** X1: a manager built by the constructor and any calls of push, undo,
    redo and clear never holds more than maxHistory entries (none at all
    when maxHistory is zero or negative), and its cursor is -1 exactly when
    the history is empty. *)
Theorem history_capacity (h : t) :
  reachable h ->
  Z.of_nat (length (history h)) <= Z.max 0 (maxHistory h)
  /\ (history h = [] <-> currentIndex h = -1)
  /\ -1 <= currentIndex h < Z.of_nat (length (history h)).
Proof.
  intros Hr. destruct (reachable_settled h Hr) as [Hshape Hcap].
  split; [exact Hcap|]. split.
  - destruct Hshape as [[Hnil Hidx]|Hin]; split; intros H; try assumption.
    + rewrite H in Hin. simpl in Hin. lia.
    + lia.
  - destruct Hshape as [[Hnil Hidx]|Hin]; [rewrite Hnil, Hidx; simpl|]; lia.
Qed.

(** X2: after push on a manager with maxHistory >= 1 the cursor is on the
    last entry, which is the snapshot just pushed: getCurrentState returns
    the waveform and spectrum data of the pushed state.  With maxHistory
    <= 0 the pushed state is dropped at once and getCurrentState returns
    null. *)
Theorem push_then_getCurrentState (h : t) (state : State) (now later : Z) :
  reachable h ->
  let h' := fst (push h state now) in
  (1 <= maxHistory h ->
   currentIndex h' = Z.of_nat (length (history h')) - 1
   /\ canRedo h' = false
   /\ exists s, getCurrentState h' later = Ok (Some s)
                /\ waveform s = waveform state
                /\ spectrum s = spectrum state
                /\ timestamp s = Some later)
  /\ (maxHistory h <= 0 ->
      history h' = [] /\ currentIndex h' = -1
      /\ getCurrentState h' later = Ok None).
Proof.
  intros Hr h'. pose proof (reachable_settled h Hr) as Hs.
  pose proof (settled_wf h Hs) as Hwf.
  assert (Hh' : h' = fst (push h state now)) by reflexivity.
  rewrite (push_shape h state now Hwf) in Hh'. cbv zeta in Hh'.
  destruct Hs as [Hshape Hcap]. destruct Hwf as [Hlo Hhi].
  set (kept := take (Z.to_nat (currentIndex h + 1)) (history h)) in *.
  assert (Hk : Z.of_nat (length kept) = currentIndex h + 1)
    by (subst kept; rewrite length_take; lia).
  destruct (cloneState_data state now) as (Hw & Hsp & _).
  split.
  - intros Hmax.
    assert (Hlast : exists l idx,
               h' = mk (maxHistory h) (l ++ [cloneState state now]) idx
               /\ idx = Z.of_nat (length l)).
    { destruct (decide (maxHistory h < currentIndex h + 2)) as [Hfull|Hroom].
      - destruct kept as [|x kept'] eqn:Hkept.
        + simpl in Hk. lia.
        + exists kept', (currentIndex h). split; [exact Hh'|].
          simpl in Hk. lia.
      - exists kept, (currentIndex h + 1). split; [exact Hh'|]. lia. }
    destruct Hlast as (l & idx & -> & ->).
    split; [simpl; rewrite length_app; simpl; lia|].
    split.
    { unfold canRedo. simpl. rewrite length_app. simpl.
      apply Z.ltb_ge. lia. }
    exists (cloneState (cloneState state now) later).
    destruct (cloneState_data (cloneState state now) later) as (Hw2 & Hsp2 & Ht2).
    split; [|split; [congruence|split; [congruence|exact Ht2]]].
    unfold getCurrentState. simpl currentIndex. simpl history.
    destruct (Z.geb_spec (Z.of_nat (length l)) 0); [|lia].
    destruct (Z.ltb_spec (Z.of_nat (length l))
                         (Z.of_nat (length (l ++ [cloneState state now]))));
      [|rewrite length_app in *; simpl in *; lia].
    simpl. rewrite entry_last. reflexivity.
  - intros Hmax.
    assert (Hnil : history h = []).
    { destruct (history h); [reflexivity|]. simpl in Hcap. lia. }
    assert (Hidx : currentIndex h = -1) by (rewrite Hnil in Hhi; simpl in Hhi; lia).
    destruct (decide (maxHistory h < currentIndex h + 2)) as [_|Hroom]; [|lia].
    assert (Hkn : kept = []) by (destruct kept; [reflexivity | simpl in Hk; lia]).
    rewrite Hkn in Hh'. simpl in Hh'. rewrite Hh'. simpl.
    split; [reflexivity|]. split; [assumption|].
    apply getCurrentState_empty. simpl. assumption.
Qed.

(** X3: undo followed by redo, and redo followed by undo, bring the manager
    back to where it was; the state the second call returns is the one
    getCurrentState gives on the original manager. *)
Theorem undo_redo_round_trip (h : t) (t1 t2 : Z) :
  reachable h ->
  (canUndo h = true ->
   exists h1 r1 e1 r2 e2,
     undo h t1 = Ok (h1, r1, e1)
     /\ redo h1 t2 = Ok (h, r2, e2)
     /\ getCurrentState h t2 = Ok r2)
  /\ (canRedo h = true ->
      exists h1 r1 e1 r2 e2,
        redo h t1 = Ok (h1, r1, e1)
        /\ undo h1 t2 = Ok (h, r2, e2)
        /\ getCurrentState h t2 = Ok r2).
Proof.
  intros Hr. pose proof (reachable_wf h Hr) as Hwf.
  destruct Hwf as [Hlo Hhi].
  assert (Heta : forall i, i = currentIndex h ->
                           mk (maxHistory h) (history h) i = h)
    by (intros i ->; destruct h; reflexivity).
  split.
  - intros Hcan. destruct (undo_can h t1 (conj Hlo Hhi) Hcan) as (s & _ & Hu).
    pose proof Hcan as Hpos. unfold canUndo in Hpos. apply Z.ltb_lt in Hpos.
    set (h1 := mk (maxHistory h) (history h) (currentIndex h - 1)) in *.
    assert (Hwf1 : wf h1) by (unfold wf, h1; simpl; lia).
    assert (Hcan1 : canRedo h1 = true)
      by (unfold canRedo, h1; simpl; apply Z.ltb_lt; lia).
    destruct (redo_can h1 t2 Hwf1 Hcan1) as (s2 & Hs2 & Hre).
    simpl in Hre. rewrite (Heta (currentIndex h - 1 + 1)) in Hre by lia.
    do 5 eexists. split; [exact Hu|]. split; [exact Hre|].
    destruct (getCurrentState_on_entry h t2) as (s3 & Hs3 & Hg); [lia|].
    rewrite Hg. unfold entry in Hs2, Hs3. simpl in Hs2.
    replace (currentIndex h - 1 + 1) with (currentIndex h) in Hs2 by lia.
    congruence.
  - intros Hcan. destruct (redo_can h t1 (conj Hlo Hhi) Hcan) as (s & _ & Hre).
    pose proof Hcan as Hpos. unfold canRedo in Hpos. apply Z.ltb_lt in Hpos.
    set (h1 := mk (maxHistory h) (history h) (currentIndex h + 1)) in *.
    destruct (reachable_settled h Hr) as [Hshape _].
    assert (Hnn : 0 <= currentIndex h).
    { destruct Hshape as [[Hnil _]|Hin]; [|lia].
      rewrite Hnil in Hpos. simpl in Hpos. lia. }
    assert (Hwf1 : wf h1) by (unfold wf, h1; simpl; lia).
    assert (Hcan1 : canUndo h1 = true)
      by (unfold canUndo, h1; simpl; apply Z.ltb_lt; lia).
    destruct (undo_can h1 t2 Hwf1 Hcan1) as (s2 & Hs2 & Hun).
    simpl in Hun. rewrite (Heta (currentIndex h + 1 - 1)) in Hun by lia.
    do 5 eexists. split; [exact Hre|]. split; [exact Hun|].
    destruct (getCurrentState_on_entry h t2) as (s3 & Hs3 & Hg); [lia|].
    rewrite Hg. unfold entry in Hs2, Hs3. simpl in Hs2.
    replace (currentIndex h + 1 - 1) with (currentIndex h) in Hs2 by lia.
    congruence.
Qed.

(** X4: getCurrentState never throws on a built manager; it returns null
    exactly when the history is empty, and a clone of the entry under the
    cursor otherwise.  After clear it returns null, and undo and redo do
    nothing. *)
Theorem getCurrentState_total (h : t) (now : Z) :
  reachable h ->
  (history h = [] -> getCurrentState h now = Ok None)
  /\ (history h <> [] ->
      exists s, entry h (currentIndex h) = Some s
                /\ getCurrentState h now = Ok (Some (cloneState s now)))
  /\ getCurrentState (fst (clear h)) now = Ok None
  /\ undo (fst (clear h)) now = Ok (fst (clear h), None, [])
  /\ redo (fst (clear h)) now = Ok (fst (clear h), None, [])
  /\ snd (clear h) = mkEvent false false 0 (-1).
Proof.
  intros Hr. destruct (reachable_settled h Hr) as [Hshape _].
  split; [|split].
  - intros Hnil. apply getCurrentState_empty.
    destruct Hshape as [[_ Hidx]|Hin]; [assumption|].
    rewrite Hnil in Hin. simpl in Hin. lia.
  - intros Hne. apply getCurrentState_on_entry.
    destruct Hshape as [[Hnil _]|Hin]; [contradiction | assumption].
  - repeat split; reflexivity.
Qed.

End HistoryMore.

(** ** Waveform: wrapping, interpolation and the invariant of its methods *)

Section WaveformMore.

Import Waveform.
Local Open Scope R_scope.

Lemma fmod_shift (x y : R) : exists k : Z, JS.fmod x y = x + IZR k * y.
Proof.
  exists (- JS.trunc (x / y))%Z. unfold JS.fmod. rewrite opp_IZR. lra.
Qed.

Lemma fmod_nonneg (x y : R) : 0 <= x -> 0 < y -> 0 <= JS.fmod x y < y.
Proof.
  intros Hx Hy. unfold JS.fmod, JS.trunc.
  assert (Hxy : x = x / y * y) by (field; lra).
  assert (Hq : 0 <= x / y).
  { unfold Rdiv. apply Rmult_le_pos; [assumption|].
    left. apply Rinv_0_lt_compat. assumption. }
  destruct (decide (0 <= x / y)) as [_|Hn]; [|contradiction].
  destruct (base_Int_part (x / y)) as [H1 H2].
  set (q := x / y) in *. set (z := IZR (Int_part q)) in *.
  rewrite Hxy. nra.
Qed.

(** The double [%] of [interpolate] lands in [0, y), a whole number of
    periods away from where it started. *)
Lemma wrap_rep (p y : R) :
  0 < y ->
  exists k : Z,
    JS.fmod (JS.fmod p y + y) y = p + IZR k * y
    /\ 0 <= JS.fmod (JS.fmod p y + y) y < y.
Proof.
  intros Hy. pose proof (fmod_bound p y Hy) as Hb.
  destruct (fmod_shift p y) as [k1 H1].
  destruct (fmod_shift (JS.fmod p y + y) y) as [k2 H2].
  exists (k1 + 1 + k2)%Z. split.
  - rewrite H2, H1, !plus_IZR. lra.
  - apply fmod_nonneg; lra.
Qed.



Lemma floor_bounds (r : R) (n : Z) :
  0 <= r < IZR n -> (0 <= JS.floor r < n)%Z /\ 0 <= r - IZR (JS.floor r) < 1.
Proof.
  intros [Hlo Hhi]. unfold JS.floor.
  destruct (base_Int_part r) as [H1 H2].
  assert (Ha : IZR (-1) < IZR (Int_part r)) by (simpl; lra).
  assert (Hb : IZR (Int_part r) < IZR n) by lra.
  apply lt_IZR in Ha. apply lt_IZR in Hb.
  split; [lia | lra].
Qed.

Lemma floor_plus (i : Z) (f : R) : 0 <= f < 1 -> JS.floor (IZR i + f) = i.
Proof.
  intros Hf. unfold JS.floor. symmetry. apply Int_part_spec. lra.
Qed.

Lemma valid_pos (w : t) : valid w -> (0 < sampleRate w)%Z.
Proof. intros [Hp _]. apply isPowerOfTwo_pos, Hp. Qed.

Lemma get_in_range (w : t) (i : Z) :
  wf w -> in_range w -> (0 <= i < sampleRate w)%Z ->
  -1 <= JS.get 0 (samples w) i <= 1.
Proof.
  intros Hwf Hr Hi. rewrite <- (Z2Nat.id i) by lia.
  rewrite get_nth by (unfold wf in Hwf; lia).
  apply nth_in_range; [exact Hr | unfold wf in Hwf; lia].
Qed.

Lemma rem_next (i n : Z) :
  (0 <= i < n)%Z -> (0 <= JS.rem (i + 1) n < n)%Z.
Proof.
  intros H. unfold JS.rem. rewrite Z.rem_mod_nonneg by lia.
  apply Z.mod_pos_bound. lia.
Qed.


(** interpolate reads two neighbouring samples of the buffer and returns a
    value between them. *)
Lemma interpolate_between (w : t) (position : R) :
  valid w -> in_range w ->
  exists i : Z,
    (0 <= i < sampleRate w)%Z
    /\ Rmin (JS.get 0 (samples w) i)
            (JS.get 0 (samples w) ((i + 1) mod sampleRate w))
       <= interpolate w position
       <= Rmax (JS.get 0 (samples w) i)
               (JS.get 0 (samples w) ((i + 1) mod sampleRate w))
    /\ -1 <= interpolate w position <= 1.
Proof.
  intros Hv Hr. pose proof (valid_pos w Hv) as Hn.
  assert (HN : 0 < IZR (sampleRate w)) by (apply IZR_lt; exact Hn).
  destruct (wrap_rep position (IZR (sampleRate w)) HN) as (k & Heq & Hb).
  unfold interpolate. cbv zeta.
  set (p := JS.fmod (JS.fmod position (IZR (sampleRate w)) + IZR (sampleRate w))
                    (IZR (sampleRate w))) in *.
  destruct (floor_bounds p (sampleRate w) Hb) as [Hi Hf].
  exists (JS.floor p). split; [exact Hi|].
  assert (Hrem : JS.rem (JS.floor p + 1) (sampleRate w)
                 = ((JS.floor p + 1) mod sampleRate w)%Z)
    by (unfold JS.rem; apply Z.rem_mod_nonneg; lia).
  rewrite Hrem.
  destruct Hv as [_ Hwf].
  pose proof (get_in_range w (JS.floor p) Hwf Hr Hi) as Ha.
  assert (Hj : (0 <= (JS.floor p + 1) mod sampleRate w < sampleRate w)%Z)
    by (apply Z.mod_pos_bound; lia).
  pose proof (get_in_range w _ Hwf Hr Hj) as Hc.
  set (a := JS.get 0 (samples w) (JS.floor p)) in *.
  set (c := JS.get 0 (samples w) ((JS.floor p + 1) mod sampleRate w)) in *.
  set (f := p - IZR (JS.floor p)) in *.
  assert (Hmin1 : Rmin a c <= a) by apply Rmin_l.
  assert (Hmin2 : Rmin a c <= c) by apply Rmin_r.
  assert (Hmax1 : a <= Rmax a c) by apply Rmax_l.
  assert (Hmax2 : c <= Rmax a c) by apply Rmax_r.
  split; [split; nra | split; nra].
Qed.


Lemma peak_normalize_peak (l : list R) :
  Spec.max_abs (Spec.peak_normalize l) = 0
  \/ Spec.max_abs (Spec.peak_normalize l) = 1.
Proof.
  unfold Spec.peak_normalize.
  pose proof (max_abs_nonneg l) as Hm.
  destruct (decide (Spec.max_abs l <> 0 /\ Spec.max_abs l <> 1)) as [[H0 H1]|Hn].
  - right. rewrite max_abs_scale by lra. field. exact H0.
  - destruct (Req_dec_T (Spec.max_abs l) 0) as [Hz|Hz]; [left; exact Hz|].
    right. destruct (Req_dec_T (Spec.max_abs l) 1) as [H1|H1]; [exact H1|].
    exfalso. apply Hn. split; assumption.
Qed.

Lemma bounded_by_peak (l : list R) :
  Spec.max_abs l <= 1 -> Forall (fun x => -1 <= x <= 1) l.
Proof.
  intros Hm. apply Forall_forall. intros x Hx.
  apply list_elem_of_In in Hx.
  pose proof (max_abs_ge l x Hx) as Hle.
  unfold Rabs in Hle. destruct (Rcase_abs x); lra.
Qed.

Lemma normalize_in_range (w : t) : wf w -> in_range (normalize w).
Proof.
  intros Hwf. rewrite normalize_spec by assumption.
  unfold in_range. simpl. apply bounded_by_peak.
  destruct (peak_normalize_peak (samples w)) as [-> | ->]; lra.
Qed.

(** X6: normalize brings any waveform into range, even one whose samples
    were written past [-1, 1] directly, and normalizing twice is the same
    as normalizing once. *)
Theorem normalize_range_idempotent (w : t) :
  wf w ->
  in_range (normalize w)
  /\ wf (normalize w)
  /\ sampleRate (normalize w) = sampleRate w
  /\ normalize (normalize w) = normalize w.
Proof.
  intros Hwf. split; [apply normalize_in_range, Hwf|].
  split; [apply normalize_wf, Hwf|].
  pose proof (normalize_wf w Hwf) as Hwf'.
  rewrite (normalize_spec (normalize w)) by assumption.
  rewrite normalize_spec by assumption. simpl.
  split; [reflexivity|]. f_equal.
  unfold Spec.peak_normalize at 1.
  destruct (decide (_ /\ _)) as [[H0 H1]|_]; [|reflexivity].
  destruct (peak_normalize_peak (samples w)); contradiction.
Qed.

Lemma ensureContinuity_inv (w : t) :
  valid w -> in_range w -> valid (ensureContinuity w) /\ in_range (ensureContinuity w).
Proof.
  intros Hv Hr. pose proof (valid_pos w Hv) as Hn. destruct Hv as [Hp Hwf].
  unfold ensureContinuity, valid, wf, in_range in *. simpl.
  rewrite put_length. split; [split; assumption|].
  unfold JS.put. destruct (sampleRate w - 1 <? 0)%Z; [assumption|].
  apply Forall_insert; [assumption|].
  apply (get_in_range w 0); unfold wf, in_range; try assumption. lia.
Qed.

Lemma smooth_inv (w w' : t) (amount : R) :
  valid w -> in_range w -> smooth w amount = Ok w' -> valid w' /\ in_range w'.
Proof.
  intros [Hp Hwf] Hr Hs.
  destruct (decide (0 < amount <= 1)) as [Ha|Ha].
  - rewrite smooth_active in Hs by assumption. injection Hs as <-.
    unfold valid, wf, in_range in *. simpl.
    rewrite length_map, length_seq. split; [split; assumption|].
    apply Forall_forall. intros x Hx.
    apply list_elem_of_In, in_map_iff in Hx as (i & <- & Hi).
    apply in_seq in Hi.
    apply smoothed_in_range; [exact Hr | exact Ha | lia].
  - rewrite smooth_inactive in Hs by assumption. injection Hs as <-.
    split; [split|]; assumption.
Qed.

Lemma constructor_in_range (n : Z) (w : t) :
  constructor n = Ok w -> in_range w.
Proof.
  unfold constructor. destruct (isPowerOfTwo n); simpl; [|discriminate].
  intros [= <-]. unfold in_range, JS.Float32Array. simpl.
  apply Forall_replicate. lra.
Qed.

Lemma clone_inv (w w' : t) :
  valid w -> in_range w -> clone w = Ok w' -> valid w' /\ in_range w'.
Proof.
  intros Hv Hr Hc. rewrite (clone_valid w Hv) in Hc. injection Hc as <-.
  destruct Hv as [Hp Hwf]. split; [split|]; assumption.
Qed.

Lemma public_waveform_inv (w : t) :
  Inv.public_waveform w -> valid w /\ in_range w.
Proof.
  induction 1 as [n w Hc | w i v w' _ [Hv Hr] Hs | w _ [Hv Hr]
                  | w a w' _ [Hv Hr] Hs | w _ [Hv Hr] | w w' _ [Hv Hr] Hc].
  - split; [apply (constructor_valid n w Hc) | apply (constructor_in_range n w Hc)].
  - destruct Hv as [Hp Hwf].
    destruct (setSample_wf w w' i v Hwf Hs) as [Hwf' Hsr].
    split; [split; [rewrite Hsr|]; assumption|].
    eapply setSample_in_range; eassumption.
  - apply ensureContinuity_inv; assumption.
  - eapply smooth_inv; eassumption.
  - destruct Hv as [Hp Hwf].
    split; [split; [|apply normalize_wf, Hwf]|apply normalize_in_range, Hwf].
    rewrite normalize_spec by assumption. exact Hp.
  - eapply clone_inv; eassumption.
Qed.

(** X7: every waveform obtained from the constructor by calls of
    setSample, ensureContinuity, smooth (with any amount), normalize and
    clone has a power-of-two sample count, a buffer of exactly that many
    samples, and every sample in [-1, 1]. *)
Theorem waveform_invariant (w : t) :
  Inv.public_waveform w ->
  isPowerOfTwo (sampleRate w) = true
  /\ Z.of_nat (length (samples w)) = sampleRate w
  /\ Forall (fun x => -1 <= x <= 1) (samples w).
Proof.
  intros H. destruct (public_waveform_inv w H) as [[Hp Hwf] Hr].
  split; [exact Hp|]. split; [exact Hwf | exact Hr].
Qed.

End WaveformMore.

(** ** FrequencySpectrum: accessors, normalize and the invariant *)

Section SpectrumMore.

Import FrequencySpectrum.
Local Open Scope R_scope.

Lemma copy_harmonic (h : Harmonic) : mkH (amplitude h) (phase h) = h.
Proof. destruct h; reflexivity. Qed.

Lemma map_copy_harmonic (l : list Harmonic) :
  map (fun h => mkH (amplitude h) (phase h)) l = l.
Proof.
  induction l as [|h l IH]; simpl; [reflexivity|].
  rewrite copy_harmonic, IH. reflexivity.
Qed.

Lemma clamp_01 (a : R) : Rmax 0 (Rmin 1 a) = Spec.clamp a 0 1.
Proof.
  unfold Spec.clamp, Rmax, Rmin.
  destruct (Rle_dec 1 a), (decide (a < 0)), (decide (1 < a));
    try destruct (Rle_dec 0 1); try destruct (Rle_dec 0 a); lra.
Qed.

Lemma getHarmonic_ok (sp : FrequencySpectrum.t) (i : Z) :
  (0 <= i < harmonicCount sp)%Z ->
  getHarmonic sp i = Ok (JS.get hole (harmonics sp) i).
Proof.
  intros H. unfold getHarmonic.
  destruct (Z.ltb_spec i 0), (Z.geb_spec i (harmonicCount sp)); simpl; try lia.
  rewrite copy_harmonic. reflexivity.
Qed.

Lemma getHarmonic_throws (sp : FrequencySpectrum.t) (i : Z) :
  ~ (0 <= i < harmonicCount sp)%Z -> getHarmonic sp i = Throw (OutOfRange i).
Proof.
  intros H. unfold getHarmonic.
  destruct (Z.ltb_spec i 0), (Z.geb_spec i (harmonicCount sp)); simpl;
    try reflexivity; lia.
Qed.

Lemma setHarmonic_ok (sp : FrequencySpectrum.t) (i : Z) (a p : R) :
  wf sp -> (0 <= i < harmonicCount sp)%Z ->
  setHarmonic sp i a p
  = Ok (mk (harmonicCount sp) (fundamentalFrequency sp)
           (<[Z.to_nat i := mkH (Rmax 0 (Rmin 1 a)) (JS.fmod p (PI * 2))]>
              (harmonics sp))).
Proof.
  intros Hwf H. unfold setHarmonic.
  destruct (Z.ltb_spec i 0), (Z.geb_spec i (harmonicCount sp)); simpl; try lia.
  rewrite <- (Z2Nat.id i) at 1 by lia.
  rewrite array_put_insert by (unfold wf in Hwf; lia). reflexivity.
Qed.

Lemma setHarmonic_throws (sp : FrequencySpectrum.t) (i : Z) (a p : R) :
  ~ (0 <= i < harmonicCount sp)%Z -> setHarmonic sp i a p = Throw (OutOfRange i).
Proof.
  intros H. unfold setHarmonic.
  destruct (Z.ltb_spec i 0), (Z.geb_spec i (harmonicCount sp)); simpl;
    try reflexivity; lia.
Qed.


Lemma total_fold (l : list Harmonic) (acc : R) :
  fold_left (fun s h => s + amplitude h) l acc = acc + Inv.total_amplitude l.
Proof.
  revert acc. induction l as [|h l IH]; intros acc; simpl; [lra|].
  rewrite IH. lra.
Qed.

Lemma total_nonneg (l : list Harmonic) :
  Forall (fun h => 0 <= amplitude h) l -> 0 <= Inv.total_amplitude l.
Proof.
  induction 1 as [|h l Hh _ IH]; simpl; lra.
Qed.

Lemma total_ge_each (l : list Harmonic) (h : Harmonic) :
  Forall (fun h => 0 <= amplitude h) l -> In h l ->
  amplitude h <= Inv.total_amplitude l.
Proof.
  induction 1 as [|x l Hx Hl IH]; simpl; [contradiction|].
  pose proof (total_nonneg l Hl). intros [->|Hin]; [lra|].
  specialize (IH Hin). lra.
Qed.

(** X9: FrequencySpectrum.normalize on non-negative amplitudes, s being the
    sum its first loop computes.  When s is positive every amplitude
    becomes amplitude / s, a number in [0, 1]; when s is 0 or 1 the
    spectrum is returned as it is.  The phases and the number of harmonics
    are never changed. *)
Theorem spectrum_normalize_scales (sp : FrequencySpectrum.t) :
  wf sp -> Forall (fun h => 0 <= amplitude h) (harmonics sp) ->
  let s := fold_left (fun s h => s + amplitude h) (harmonics sp) 0 in
  (0 < s ->
   harmonics (normalize sp)
   = map (fun h => mkH (amplitude h / s) (phase h)) (harmonics sp)
   /\ Forall (fun h => 0 <= amplitude h <= 1) (harmonics (normalize sp)))
  /\ (s = 0 \/ s = 1 -> normalize sp = sp)
  /\ harmonicCount (normalize sp) = harmonicCount sp
  /\ map phase (harmonics (normalize sp)) = map phase (harmonics sp).
Proof.
  intros Hwf Hpos s.
  pose proof (normalize_closed sp Hwf) as Hn. cbv zeta in Hn. fold s in Hn.
  assert (Hs : s = Inv.total_amplitude (harmonics sp))
    by (unfold s; rewrite total_fold; lra).
  assert (Hscaled : 0 < s ->
            harmonics (normalize sp)
            = map (fun h => mkH (amplitude h / s) (phase h)) (harmonics sp)).
  { intros H0. rewrite Hn.
    destruct (bool_decide_reflect (s > 0)) as [_|Hc]; [|lra]. simpl.
    destruct (bool_decide_reflect (s = 1)) as [H1|H1]; simpl; [|reflexivity].
    rewrite <- (map_copy_harmonic (harmonics sp)) at 1.
    apply map_ext. intros h. rewrite H1. f_equal. lra. }
  split; [|split; [|split]].
  - intros H0. split; [apply Hscaled, H0|]. rewrite (Hscaled H0).
    apply Forall_forall. intros x Hx.
    apply list_elem_of_In, in_map_iff in Hx. destruct Hx as [h [<- Hin]].
    simpl. rewrite Forall_forall in Hpos.
    pose proof (Hpos h (proj2 (list_elem_of_In _ _) Hin)) as Hh.
    pose proof (total_ge_each (harmonics sp) h
                  (proj2 (Forall_forall _ _) Hpos) Hin) as Hle.
    rewrite <- Hs in Hle.
    assert (0 < / s) by (apply Rinv_0_lt_compat; exact H0).
    split; [unfold Rdiv; nra|].
    apply (Rmult_le_reg_r s); [exact H0|].
    unfold Rdiv. rewrite Rmult_assoc, Rinv_l by lra. lra.
  - intros [Hz|H1]; rewrite Hn.
    + rewrite Hz, (bool_decide_eq_false_2 (0 > 0)) by lra. reflexivity.
    + rewrite H1, (bool_decide_eq_true_2 (1 = 1)) by reflexivity.
      rewrite andb_false_r. reflexivity.
  - rewrite Hn. destruct (_ && _); reflexivity.
  - rewrite Hn. destruct (_ && _); [|reflexivity]. simpl.
    rewrite map_map. reflexivity.
Qed.

End SpectrumMore.

(** ** WaveformTransform: bandLimit, and the transforms at their edges *)

Section TransformMore.

Import FrequencySpectrum WaveformTransform.
Local Open Scope R_scope.

Lemma fold_throw {S A : Type} (f : A -> S -> outcome S) (l : list A) (e : error) :
  fold_left (fun acc j => s' <- acc ;; f j s') l (Throw e) = Throw e.
Proof. induction l as [|x l IH]; simpl; [reflexivity | exact IH]. Qed.

Lemma for_range_m_steps {S : Type} (start : Z) (n : nat)
      (body : Z -> S -> outcome S) (s : S) :
  JS.for_range_m start (start + Z.of_nat (Datatypes.S n)) body s
  = (s' <- JS.for_range_m start (start + Z.of_nat n) body s ;;
     body (start + Z.of_nat n)%Z s').
Proof.
  unfold JS.for_range_m.
  replace (start + Z.of_nat (Datatypes.S n) - start)%Z
    with (Z.of_nat (Datatypes.S n)) by lia.
  replace (start + Z.of_nat n - start)%Z with (Z.of_nat n) by lia.
  rewrite !Nat2Z.id, seq_S, fold_left_app. reflexivity.
Qed.

Lemma for_range_m_empty {S : Type} (start stop : Z)
      (body : Z -> S -> outcome S) (s : S) :
  (stop <= start)%Z -> JS.for_range_m start stop body s = Ok s.
Proof.
  intros H. unfold JS.for_range_m.
  replace (Z.to_nat (stop - start)) with 0%nat by lia. reflexivity.
Qed.

Lemma for_range_m_first_throws {S : Type} (start stop : Z)
      (body : Z -> S -> outcome S) (s : S) (e : error) :
  (start < stop)%Z -> body start s = Throw e ->
  JS.for_range_m start stop body s = Throw e.
Proof.
  intros H Hb. unfold JS.for_range_m.
  destruct (Z.to_nat (stop - start)) as [|n] eqn:Hn; [lia|].
  simpl. rewrite Z.add_0_r, Hb. apply fold_throw.
Qed.

Lemma zero_stored : mkH (Rmax 0 (Rmin 1 0)) (JS.fmod 0 (PI * 2)) = mkH 0 0.
Proof.
  pose proof PI_RGT_0. rewrite fmod_small by lra.
  rewrite Rmin_right by lra. rewrite Rmax_left by lra. reflexivity.
Qed.

Lemma insert_middle {A : Type} (a b : list A) (y x : A) (c : list A) (i : nat) :
  i = (length a + length b)%nat ->
  <[i := x]> (a ++ b ++ y :: c) = a ++ (b ++ [x]) ++ c.
Proof.
  intros ->. rewrite insert_app_r_alt by lia.
  replace (length a + length b - length a)%nat with (length b) by lia.
  rewrite insert_app_r_alt by lia. rewrite Nat.sub_diag. simpl.
  rewrite <- app_assoc. reflexivity.
Qed.

Lemma bandLimit_prefix (sp : FrequencySpectrum.t) (c j : nat) :
  wf sp -> (c + j <= length (harmonics sp))%nat ->
  JS.for_range_m (Z.of_nat c) (Z.of_nat c + Z.of_nat j)
    (fun i limited => setHarmonic limited i 0 0) (clone sp)
  = Ok (mk (harmonicCount sp) (fundamentalFrequency sp)
           (take c (harmonics sp) ++ replicate j (mkH 0 0)
            ++ drop (c + j) (harmonics sp))).
Proof.
  intros Hwf. induction j as [|j IH]; intros Hj.
  - rewrite for_range_m_empty by lia. unfold clone.
    rewrite map_copy_harmonic. simpl. rewrite Nat.add_0_r, take_drop.
    reflexivity.
  - rewrite for_range_m_steps, IH by lia. unfold bind.
    set (L := take c (harmonics sp) ++ replicate j (mkH 0 0)
              ++ drop (c + j) (harmonics sp)).
    assert (HL : length L = length (harmonics sp)).
    { subst L. rewrite !length_app, length_take, length_replicate, length_drop.
      lia. }
    assert (Hwf' : wf (mk (harmonicCount sp) (fundamentalFrequency sp) L))
      by (unfold wf in *; simpl; rewrite HL; exact Hwf).
    rewrite setHarmonic_ok by (try exact Hwf'; simpl; unfold wf in Hwf; lia).
    simpl. rewrite zero_stored. f_equal. f_equal.
    rewrite <- Nat2Z.inj_add, Nat2Z.id. subst L.
    destruct (drop (c + j) (harmonics sp)) as [|y rest] eqn:Hd.
    { apply (f_equal length) in Hd. rewrite length_drop in Hd. simpl in Hd. lia. }
    rewrite insert_middle
      by (rewrite length_take, length_replicate; lia).
    rewrite <- replicate_S_end.
    replace (drop (c + Datatypes.S j) (harmonics sp)) with rest; [reflexivity|].
    replace (c + Datatypes.S j)%nat with (c + j + 1)%nat by lia.
    rewrite <- drop_drop, Hd. reflexivity.
Qed.

Lemma bandLimit_closed (sp : FrequencySpectrum.t) (c : Z) :
  wf sp -> (0 <= c)%Z ->
  bandLimit sp c
  = Ok (mk (harmonicCount sp) (fundamentalFrequency sp)
           (Inv.zero_from (Z.to_nat c) (harmonics sp))).
Proof.
  intros Hwf Hc. unfold bandLimit, Inv.zero_from. cbv zeta.
  assert (Hlen : Z.of_nat (length (harmonics sp)) = Z.max 0 (harmonicCount sp))
    by exact Hwf.
  destruct (Z.le_gt_cases (harmonicCount sp) c) as [Hge|Hlt].
  - rewrite for_range_m_empty by assumption. unfold clone.
    rewrite map_copy_harmonic.
    rewrite take_ge by lia.
    replace (length (harmonics sp) - Z.to_nat c)%nat with 0%nat by lia.
    simpl. rewrite app_nil_r. reflexivity.
  - pose proof (bandLimit_prefix sp (Z.to_nat c)
                  (length (harmonics sp) - Z.to_nat c) Hwf) as H.
    rewrite !Z2Nat.id in H by lia.
    replace (c + Z.of_nat (length (harmonics sp) - Z.to_nat c))%Z
      with (harmonicCount sp) in H by lia.
    rewrite H by lia.
    replace (Z.to_nat c + (length (harmonics sp) - Z.to_nat c))%nat
      with (length (harmonics sp)) by lia.
    rewrite drop_all, app_nil_r. reflexivity.
Qed.

Lemma zero_from_length (c : nat) (l : list Harmonic) :
  length (Inv.zero_from c l) = length l.
Proof.
  unfold Inv.zero_from. rewrite length_app, length_take, length_replicate. lia.
Qed.

Lemma zero_from_lookup (c : nat) (l : list Harmonic) (i : nat) :
  Inv.zero_from c l !! i
  = if decide (i < c)%nat then l !! i
    else if decide (i < length l)%nat then Some (mkH 0 0) else None.
Proof.
  unfold Inv.zero_from.
  destruct (decide (i < c)%nat) as [Hic|Hic].
  - destruct (decide (i < length l)%nat) as [Hil|Hil].
    + rewrite lookup_app_l by (rewrite length_take; lia).
      apply lookup_take_lt. exact Hic.
    + rewrite (proj2 (lookup_ge_None l i)) by lia.
      apply lookup_ge_None.
      rewrite length_app, length_take, length_replicate. lia.
  - destruct (decide (i < length l)%nat) as [Hil|Hil].
    + rewrite lookup_app_r by (rewrite length_take; lia).
      rewrite length_take. apply lookup_replicate_2. lia.
    + apply lookup_ge_None.
      rewrite length_app, length_take, length_replicate. lia.
Qed.

Lemma zero_from_compose (a b : nat) (l : list Harmonic) :
  Inv.zero_from b (Inv.zero_from a l) = Inv.zero_from (Nat.min a b) l.
Proof.
  apply list_eq. intros i.
  rewrite !zero_from_lookup, zero_from_length.
  destruct (decide (i < b)%nat), (decide (i < a)%nat),
    (decide (i < Nat.min a b)%nat), (decide (i < length l)%nat);
    try reflexivity; try lia;
    try (symmetry; apply lookup_ge_None; lia); try (apply lookup_ge_None; lia).
Qed.

(** X10: bandLimit with a cutoff >= 0 returns a spectrum of the same size in
    which every harmonic below the cutoff is the input's and every harmonic
    from the cutoff on has amplitude 0 and phase 0; with a cutoff at or past
    harmonicCount the result equals the input.  With a negative cutoff it
    throws: its loop starts at the cutoff itself, and setHarmonic rejects
    the negative index. *)
Theorem bandLimit_zeroes_from_cutoff (sp : FrequencySpectrum.t) (c : Z) :
  wf sp ->
  ((0 <= c)%Z ->
   exists sp',
     bandLimit sp c = Ok sp'
     /\ harmonicCount sp' = harmonicCount sp
     /\ fundamentalFrequency sp' = fundamentalFrequency sp
     /\ (forall i, (0 <= i < harmonicCount sp)%Z -> (i < c)%Z ->
                   getHarmonic sp' i = getHarmonic sp i)
     /\ (forall i, (0 <= i < harmonicCount sp)%Z -> (c <= i)%Z ->
                   getHarmonic sp' i = Ok (mkH 0 0))
     /\ ((harmonicCount sp <= c)%Z -> sp' = sp))
  /\ ((c < 0)%Z -> (c < harmonicCount sp)%Z ->
      bandLimit sp c = Throw (OutOfRange c)).
Proof.
  intros Hwf. split.
  2:{ intros Hc Hlt. unfold bandLimit. cbv zeta.
      apply for_range_m_first_throws; [exact Hlt|].
      apply setHarmonic_throws. lia. }
  intros Hc. eexists. split; [apply bandLimit_closed; assumption|].
  split; [reflexivity|]. split; [reflexivity|].
  assert (Hlen : Z.of_nat (length (harmonics sp)) = Z.max 0 (harmonicCount sp))
    by exact Hwf.
  split; [|split].
  - intros i Hi Hic. rewrite !getHarmonic_ok by (simpl; assumption). simpl.
    f_equal. unfold JS.get. destruct (Z.ltb_spec i 0); [lia|].
    rewrite zero_from_lookup.
    destruct (decide (Z.to_nat i < Z.to_nat c)%nat); [reflexivity | lia].
  - intros i Hi Hic. rewrite getHarmonic_ok by (simpl; assumption). simpl.
    f_equal. unfold JS.get. destruct (Z.ltb_spec i 0); [lia|].
    rewrite zero_from_lookup.
    destruct (decide (Z.to_nat i < Z.to_nat c)%nat); [lia|].
    destruct (decide (Z.to_nat i < length (harmonics sp))%nat); [reflexivity | lia].
  - intros Hge. unfold Inv.zero_from. rewrite take_ge by lia.
    replace (length (harmonics sp) - Z.to_nat c)%nat with 0%nat by lia.
    simpl. rewrite app_nil_r. destruct sp; reflexivity.
Qed.

(** X11: band-limiting twice is band-limiting once at the lower cutoff; in
    particular bandLimit is idempotent. *)
Theorem bandLimit_compose (sp : FrequencySpectrum.t) (a b : Z) :
  wf sp -> (0 <= a)%Z -> (0 <= b)%Z ->
  (sp1 <- bandLimit sp a ;; bandLimit sp1 b) = bandLimit sp (Z.min a b).
Proof.
  intros Hwf Ha Hb. rewrite (bandLimit_closed sp a) by assumption.
  unfold bind.
  rewrite bandLimit_closed
    by (try assumption; unfold wf in *; simpl; rewrite zero_from_length; exact Hwf).
  rewrite (bandLimit_closed sp (Z.min a b)) by (try assumption; lia).
  simpl. rewrite zero_from_compose. rewrite Z2Nat.inj_min. reflexivity.
Qed.

Lemma Rsum_zero (n : nat) (f : nat -> R) :
  (forall i, (i < n)%nat -> f i = 0) -> Spec.Rsum n f = 0.
Proof.
  induction n as [|n IH]; intros H; simpl; [reflexivity|].
  rewrite IH, H by (intros; try apply H; lia). lra.
Qed.

Lemma additive_silent (sp : FrequencySpectrum.t) (N : Z) (s : nat) :
  Forall (fun h => amplitude h = 0) (harmonics sp) -> Spec.additive sp N s = 0.
Proof.
  intros Hz. unfold Spec.additive. apply Rsum_zero. intros i Hi.
  unfold Spec.contribution.
  destruct (decide (amplitude (nth i (harmonics sp) hole) = 0)) as [_|Hne];
    [reflexivity|].
  exfalso. apply Hne. rewrite Forall_forall in Hz.
  apply Hz, list_elem_of_In, nth_In, Hi.
Qed.

Lemma peak_normalize_zeros (n : nat) :
  Spec.peak_normalize (replicate n 0) = replicate n 0.
Proof.
  unfold Spec.peak_normalize.
  rewrite max_abs_zero by (apply Forall_replicate; reflexivity).
  destruct (decide (0 <> 0 /\ 0 <> 1)) as [[H _]|_]; [lra | reflexivity].
Qed.

Lemma toTimeDomain_silent (sp : FrequencySpectrum.t) (N : Z) :
  Waveform.isPowerOfTwo N = true -> wf sp ->
  Forall (fun h => amplitude h = 0) (harmonics sp) ->
  toTimeDomain sp N = Waveform.constructor N.
Proof.
  intros Hp Hwf Hz. rewrite toTimeDomain_closed; try assumption.
  - rewrite (constructor_ok N Hp). f_equal. f_equal.
    rewrite (map_ext_in _ (fun _ => 0)).
    + rewrite map_seq_const. apply peak_normalize_zeros.
    + intros s _. rewrite additive_silent by assumption.
      rewrite Rmin_right by lra. apply Rmax_right. lra.
  - eapply Forall_impl; [exact Hz|]. intros h Hh. simpl in Hh. lra.
Qed.

Lemma stored_harmonic_silent (w : Waveform.t) (k : Z) :
  Forall (fun x => x = 0) (Waveform.samples w) ->
  Spec.stored_harmonic w k = mkH 0 0.
Proof.
  intros Hz.
  assert (Hs : forall n, Spec.sample w n = 0).
  { intros n. unfold Spec.sample.
    destruct (Nat.lt_ge_cases n (length (Waveform.samples w))) as [Hlt|Hge].
    - rewrite Forall_forall in Hz. apply Hz, list_elem_of_In, nth_In, Hlt.
    - apply nth_overflow. exact Hge. }
  assert (Hre : Spec.dft_real w k = 0).
  { unfold Spec.dft_real. cbv zeta. rewrite Rsum_zero.
    - unfold Rdiv. apply Rmult_0_l.
    - intros i _. rewrite Hs. apply Rmult_0_l. }
  assert (Him : Spec.dft_imag w k = 0).
  { unfold Spec.dft_imag. cbv zeta. rewrite Rsum_zero.
    - unfold Rdiv. apply Rmult_0_l.
    - intros i _. rewrite Hs. apply Rmult_0_l. }
  unfold Spec.stored_harmonic. rewrite Hre, Him.
  replace (0 * 0 + 0 * 0) with 0 by lra. rewrite sqrt_0.
  rewrite Rmin_right by lra. f_equal; [lra|].
  unfold JS.atan2.
  destruct (decide (0 < 0)); [lra|].
  destruct (decide (0 < 0)); [lra|].
  destruct (decide (0 < 0)); [lra|].
  destruct (decide (0 < 0)); [lra | reflexivity].
Qed.

(** X12: silence goes round: for a power-of-two N and any harmonicCount,
    toFrequencyDomain of the all-zero waveform is the spectrum the
    constructor builds (every amplitude and phase 0), and toTimeDomain of
    that spectrum is the all-zero waveform again. *)
Theorem silence_round_trip (N hc : Z) :
  Waveform.isPowerOfTwo N = true ->
  exists silence,
    Waveform.constructor N = Ok silence
    /\ toFrequencyDomain silence hc = Ok (FrequencySpectrum.constructor hc)
    /\ toTimeDomain (FrequencySpectrum.constructor hc) N = Ok silence.
Proof.
  intros Hp. eexists. split; [apply constructor_ok, Hp|]. split.
  - rewrite toFrequencyDomain_closed. unfold FrequencySpectrum.constructor.
    f_equal. f_equal.
    rewrite (map_ext_in _ (fun _ => mkH 0 0)); [apply map_seq_const|].
    intros k _. apply stored_harmonic_silent. simpl.
    apply Forall_replicate. reflexivity.
  - rewrite toTimeDomain_silent.
    + apply constructor_ok, Hp.
    + exact Hp.
    + unfold wf, FrequencySpectrum.constructor. simpl.
      rewrite length_replicate. lia.
    + simpl. apply Forall_replicate. reflexivity.
Qed.

(** X13: toTimeDomain on a spectrum with non-negative amplitudes: for a
    sample count the power-of-two test accepts it returns a waveform of that
    many samples, all in [-1, 1], whose peak is 1 unless it is silent, and
    which normalize leaves unchanged; for any other count it throws the
    power-of-two error without looking at the spectrum. *)
Theorem toTimeDomain_result (sp : FrequencySpectrum.t) (N : Z) :
  wf sp -> Forall (fun h => 0 <= amplitude h) (harmonics sp) ->
  (Waveform.isPowerOfTwo N = true ->
   exists w,
     toTimeDomain sp N = Ok w
     /\ Waveform.sampleRate w = N
     /\ Waveform.wf w
     /\ Waveform.in_range w
     /\ (Spec.max_abs (Waveform.samples w) = 0
         \/ Spec.max_abs (Waveform.samples w) = 1)
     /\ Waveform.normalize w = w)
  /\ (Waveform.isPowerOfTwo N = false -> toTimeDomain sp N = Throw InvalidLength).
Proof.
  intros Hwf Hpos. split.
  - intros Hp. eexists. split; [apply toTimeDomain_closed; assumption|].
    set (raw := map _ _).
    assert (Hlen : Waveform.wf (Waveform.mk N (Spec.peak_normalize raw))).
    { unfold Waveform.wf, Spec.peak_normalize. simpl.
      assert (length raw = Z.to_nat N)
        by (subst raw; rewrite length_map, length_seq; reflexivity).
      apply isPowerOfTwo_pos in Hp.
      destruct (decide _); [rewrite length_map|]; lia. }
    split; [reflexivity|]. split; [exact Hlen|].
    pose proof (peak_normalize_peak raw) as Hpk.
    split; [|split; [exact Hpk|]].
    + unfold Waveform.in_range. simpl. apply bounded_by_peak.
      destruct Hpk as [-> | ->]; lra.
    + rewrite normalize_spec by exact Hlen. simpl. f_equal.
      unfold Spec.peak_normalize at 1.
      destruct (decide (_ /\ _)) as [[H0 H1]|_]; [|reflexivity].
      destruct Hpk; contradiction.
  - intros Hp. unfold toTimeDomain.
    rewrite (constructor_throws N Hp). reflexivity.
Qed.

End TransformMore.

(** ** WaveformPresets: the shapes the factory builds *)

Section Presets.

Import WaveformPresets.
Local Open Scope R_scope.

(** A loop of setSample calls over a fresh buffer stores the clamped value
    of each index. *)
Lemma setSample_fill_prefix (f : Z -> R) (N : Z) (m : nat) :
  (m <= Z.to_nat N)%nat ->
  JS.for_loop_m (Z.of_nat m)
    (fun i w => Waveform.setSample w i (f i))
    (Waveform.mk N (JS.Float32Array N))
  = Ok (Waveform.mk N
          (map (fun i => Rmax (-1) (Rmin 1 (f (Z.of_nat i)))) (seq 0 m)
           ++ replicate (Z.to_nat N - m) 0)).
Proof.
  induction m as [|m IH]; intros Hm.
  - unfold JS.for_loop_m, JS.Float32Array. simpl.
    rewrite Nat.sub_0_r. reflexivity.
  - rewrite for_loop_m_S, IH by lia. unfold bind.
    rewrite seq_S, map_app.
    rewrite setSample_ok by (simpl; lia).
    simpl Waveform.sampleRate. simpl Waveform.samples.
    rewrite put_insert, insert_prefix by lia.
    reflexivity.
Qed.

Lemma setSample_fill (f : Z -> R) (N : Z) :
  Waveform.isPowerOfTwo N = true ->
  (w <- Waveform.constructor N ;;
   JS.for_loop_m N (fun i w => Waveform.setSample w i (f i)) w)
  = Ok (Waveform.mk N
          (map (fun i => Rmax (-1) (Rmin 1 (f (Z.of_nat i))))
               (seq 0 (Z.to_nat N)))).
Proof.
  intros Hp. unfold Waveform.constructor. rewrite Hp. simpl negb. cbv iota.
  unfold bind.
  rewrite for_loop_m_to_nat, setSample_fill_prefix by lia.
  rewrite Nat.sub_diag. simpl replicate. rewrite app_nil_r. reflexivity.
Qed.

Lemma filled_valid (g : nat -> R) (N : Z) :
  Waveform.isPowerOfTwo N = true ->
  Waveform.valid (Waveform.mk N (map g (seq 0 (Z.to_nat N)))).
Proof.
  intros Hp. split; [exact Hp|]. unfold Waveform.wf. simpl.
  rewrite length_map, length_seq. apply isPowerOfTwo_pos in Hp. lia.
Qed.

Lemma filled_get (g : nat -> R) (N i : Z) :
  (0 <= i < N)%Z ->
  JS.get 0 (map g (seq 0 (Z.to_nat N))) i = g (Z.to_nat i).
Proof.
  intros Hi. rewrite <- (Z2Nat.id i) at 1 by lia.
  apply get_lookup. rewrite list_lookup_fmap, lookup_seq_lt by lia.
  reflexivity.
Qed.

Lemma clamp_inside (v : R) : -1 <= v <= 1 -> Rmax (-1) (Rmin 1 v) = v.
Proof.
  intros Hv. rewrite Rmin_right by lra. apply Rmax_right. lra.
Qed.

Lemma max_abs_le (l : list R) (m : R) :
  0 <= m -> Forall (fun x => Rabs x <= m) l -> Spec.max_abs l <= m.
Proof.
  intros Hm Hl. induction Hl as [|x l Hx _ IH]; simpl; [exact Hm|].
  apply Rmax_lub; assumption.
Qed.

Lemma max_abs_attained (l : list R) (m x : R) :
  Forall (fun y => Rabs y <= m) l -> In x l -> Rabs x = m ->
  Spec.max_abs l = m.
Proof.
  intros Hl Hin Hx. apply Rle_antisym.
  - apply max_abs_le; [|exact Hl]. rewrite <- Hx. apply Rabs_pos.
  - rewrite <- Hx. apply max_abs_ge, Hin.
Qed.

Lemma peak_normalize_unit (l : list R) :
  Spec.max_abs l = 1 -> Spec.peak_normalize l = l.
Proof.
  intros H. unfold Spec.peak_normalize. rewrite H.
  destruct (decide (1 <> 0 /\ 1 <> 1)) as [[_ Hc]|_]; [contradiction | reflexivity].
Qed.

Lemma sin_unit (x : R) : -1 <= sin x <= 1.
Proof. pose proof (SIN_bound x). lra. Qed.

(** What sine returns on an accepted sample count. *)
Lemma sine_closed (N : Z) :
  Waveform.isPowerOfTwo N = true ->
  sine N
  = Ok (Waveform.mk N
          (map (fun i => sin (INR i / IZR N * PI * 2)) (seq 0 (Z.to_nat N)))).
Proof.
  intros Hp. unfold sine. cbv zeta.
  rewrite (setSample_fill (fun i => sin (IZR i / IZR N * PI * 2)) N Hp).
  f_equal. f_equal. apply map_ext. intros i.
  rewrite clamp_inside by apply sin_unit.
  rewrite <- INR_IZR_INZ. reflexivity.
Qed.

(** X14: sine on an accepted sample count returns a waveform in range that
    starts at 0; when the count is a multiple of 4 the sample at a quarter
    of the cycle is 1 and the sample at three quarters is -1, so the peak is
    1 and normalize leaves the waveform unchanged.  On any other count sine
    throws the power-of-two error. *)
Theorem sine_samples (N : Z) :
  (Waveform.isPowerOfTwo N = true ->
   exists w,
     sine N = Ok w
     /\ Waveform.valid w /\ Waveform.in_range w
     /\ Waveform.getSample w 0 = Ok 0
     /\ (forall q, N = (4 * q)%Z ->
           Waveform.getSample w q = Ok 1
           /\ Waveform.getSample w (3 * q) = Ok (-1)
           /\ Spec.max_abs (Waveform.samples w) = 1
           /\ Waveform.normalize w = w))
  /\ (Waveform.isPowerOfTwo N = false -> sine N = Throw InvalidLength).
Proof.
  split.
  - intros Hp. pose proof (isPowerOfTwo_pos N Hp) as Hpos.
    eexists. split; [apply sine_closed, Hp|].
    set (L := map (fun i => sin (INR i / IZR N * PI * 2)) (seq 0 (Z.to_nat N))).
    assert (Hget : forall i, (0 <= i < N)%Z ->
              Waveform.getSample (Waveform.mk N L) i
              = Ok (sin (IZR i / IZR N * PI * 2))).
    { intros i Hi. rewrite getSample_ok by (simpl; lia). simpl. unfold L.
      rewrite filled_get by lia. rewrite INR_IZR_INZ, Z2Nat.id by lia.
      reflexivity. }
    assert (Hv : Waveform.valid (Waveform.mk N L)) by (apply filled_valid, Hp).
    split; [exact Hv|]. split; [|split].
    + unfold Waveform.in_range. simpl. apply Forall_forall. intros x Hx.
      apply list_elem_of_In, in_map_iff in Hx. destruct Hx as [i [<- _]].
      apply sin_unit.
    + rewrite Hget by lia. f_equal.
      replace (0 / IZR N * PI * 2) with 0 by (unfold Rdiv; ring).
      apply sin_0.
    + intros q Hq.
      assert (Hq0 : (0 < q)%Z) by lia.
      assert (HqR : 0 < IZR q) by (apply IZR_lt; exact Hq0).
      assert (HNq : IZR N = 4 * IZR q) by (rewrite Hq, mult_IZR; reflexivity).
      assert (H1 : Waveform.getSample (Waveform.mk N L) q = Ok 1).
      { rewrite Hget by lia. f_equal. rewrite HNq.
        replace (IZR q / (4 * IZR q) * PI * 2) with (PI / 2) by (field; lra).
        apply sin_PI2. }
      split; [exact H1|]. split.
      { rewrite Hget by lia. f_equal. rewrite mult_IZR, HNq.
        replace (3 * IZR q / (4 * IZR q) * PI * 2) with (3 * (PI / 2))
          by (field; lra).
        apply sin_3PI2. }
      assert (Hpeak : Spec.max_abs L = 1).
      { apply (max_abs_attained L 1 1).
        - apply Forall_forall. intros x Hx.
          apply list_elem_of_In, in_map_iff in Hx. destruct Hx as [i [<- _]].
          pose proof (sin_unit (INR i / IZR N * PI * 2)).
          unfold Rabs. destruct (Rcase_abs _); lra.
        - rewrite getSample_ok in H1 by (simpl; lia). injection H1 as H1.
          simpl in H1. rewrite <- H1. unfold JS.get.
          destruct (Z.ltb_spec q 0); [lia|].
          destruct (lookup_lt_is_Some_2 L (Z.to_nat q)) as [x Hx].
          { unfold L. rewrite length_map, length_seq. lia. }
          rewrite Hx. simpl. eapply list_elem_of_In, list_elem_of_lookup_2.
          exact Hx.
        - apply Rabs_pos_eq. lra. }
      split; [exact Hpeak|].
      rewrite normalize_spec by apply Hv. simpl.
      rewrite peak_normalize_unit by exact Hpeak. reflexivity.
  - intros Hp. unfold sine. rewrite (constructor_throws N Hp). reflexivity.
Qed.

Lemma ensureContinuity_get (w : Waveform.t) (i : Z) :
  Waveform.wf w -> (0 <= i < Waveform.sampleRate w)%Z ->
  JS.get 0 (Waveform.samples (Waveform.ensureContinuity w)) i
  = if (i =? Waveform.sampleRate w - 1)%Z then JS.get 0 (Waveform.samples w) 0
    else JS.get 0 (Waveform.samples w) i.
Proof.
  intros Hwf Hi. unfold Waveform.wf in Hwf. unfold Waveform.ensureContinuity.
  simpl. destruct (Z.eqb_spec i (Waveform.sampleRate w - 1)) as [->|Hne].
  - apply get_put_same. lia.
  - apply get_put_other; lia.
Qed.

(** What saw returns on an accepted sample count. *)
Lemma saw_closed (N : Z) :
  Waveform.isPowerOfTwo N = true ->
  saw N
  = Ok (Waveform.ensureContinuity
          (Waveform.mk N
             (map (fun i => INR i / IZR N * 2 - 1) (seq 0 (Z.to_nat N))))).
Proof.
  intros Hp. pose proof (isPowerOfTwo_pos N Hp) as Hpos.
  unfold saw.
  assert (H := setSample_fill (fun i => IZR i / IZR N * 2 - 1) N Hp).
  unfold bind in H |- *.
  destruct (Waveform.constructor N) as [w0|e] eqn:Hc.
  - rewrite H. f_equal. f_equal. f_equal.
    apply map_ext_in. intros i Hi. apply in_seq in Hi.
    rewrite <- INR_IZR_INZ. apply clamp_inside.
    assert (0 <= INR i / IZR N < 1).
    { assert (0 < IZR N) by (apply IZR_lt; lia).
      assert (0 <= INR i) by apply pos_INR.
      assert (INR i < IZR N)
        by (rewrite INR_IZR_INZ; apply IZR_lt; lia).
      split.
      - apply Rmult_le_pos; [assumption|].
        apply Rlt_le, Rinv_0_lt_compat; assumption.
      - apply (Rmult_lt_reg_r (IZR N)); [assumption|].
        unfold Rdiv. rewrite Rmult_assoc, Rinv_l by lra. lra. }
    lra.
  - discriminate H.
Qed.

(** X15: saw on an accepted sample count ramps linearly from -1, sample i
    being 2 i / N - 1, except that the last sample is overwritten with the
    first, -1: from two samples on no sample exceeds 1 - 4 / N, so the ramp
    never reaches 1. *)
Theorem saw_samples (N : Z) :
  Waveform.isPowerOfTwo N = true ->
  exists w,
    saw N = Ok w
    /\ Waveform.valid w /\ Waveform.in_range w
    /\ (forall i, (0 <= i < N - 1)%Z ->
          Waveform.getSample w i = Ok (IZR i / IZR N * 2 - 1))
    /\ Waveform.getSample w (N - 1) = Ok (-1)
    /\ ((2 <= N)%Z ->
        forall i x, Waveform.getSample w i = Ok x -> x <= 1 - 4 / IZR N).
Proof.
  intros Hp. pose proof (isPowerOfTwo_pos N Hp) as Hpos.
  assert (HN : 0 < IZR N) by (apply IZR_lt; lia).
  eexists. split; [apply saw_closed, Hp|].
  set (w0 := Waveform.mk N
               (map (fun i => INR i / IZR N * 2 - 1) (seq 0 (Z.to_nat N)))).
  assert (Hv0 : Waveform.valid w0) by apply filled_valid, Hp.
  assert (Hlen : Z.of_nat (length (Waveform.samples w0)) = N) by apply Hv0.
  assert (Hfrac : forall i, (0 <= i < N)%Z -> 0 <= IZR i / IZR N * 2 < 2).
  { intros i Hi.
    assert (0 <= IZR i) by (apply IZR_le; lia).
    assert (IZR i < IZR N) by (apply IZR_lt; lia).
    assert (0 <= IZR i / IZR N < 1).
    { split.
      - apply Rmult_le_pos; [assumption|].
        apply Rlt_le, Rinv_0_lt_compat; assumption.
      - apply (Rmult_lt_reg_r (IZR N)); [assumption|].
        unfold Rdiv. rewrite Rmult_assoc, Rinv_l by lra. lra. }
    lra. }
  assert (Hr0 : Waveform.in_range w0).
  { unfold Waveform.in_range. simpl. apply Forall_forall. intros x Hx.
    apply list_elem_of_In, in_map_iff in Hx. destruct Hx as [i [<- Hi]].
    apply in_seq in Hi. rewrite INR_IZR_INZ.
    assert (Hz : (0 <= Z.of_nat i < N)%Z) by lia.
    pose proof (Hfrac (Z.of_nat i) Hz). lra. }
  assert (Hget0 : forall i, (0 <= i < N)%Z ->
            JS.get 0 (Waveform.samples w0) i = IZR i / IZR N * 2 - 1).
  { intros i Hi. simpl. rewrite filled_get by lia.
    rewrite INR_IZR_INZ, Z2Nat.id by lia. reflexivity. }
  assert (Hlast : JS.get 0 (Waveform.samples (Waveform.ensureContinuity w0))
                    (N - 1) = -1).
  { rewrite ensureContinuity_get by (try exact Hlen; change (Waveform.sampleRate w0) with N; lia).
    change (Waveform.sampleRate w0) with N. rewrite Z.eqb_refl.
    rewrite Hget0 by lia. unfold Rdiv. lra. }
  assert (Hlow : forall i, (0 <= i < N - 1)%Z ->
            JS.get 0 (Waveform.samples (Waveform.ensureContinuity w0)) i
            = IZR i / IZR N * 2 - 1).
  { intros i Hi.
    rewrite ensureContinuity_get by (try exact Hlen; change (Waveform.sampleRate w0) with N; lia).
    change (Waveform.sampleRate w0) with N.
    destruct (Z.eqb_spec i (N - 1)); [lia|]. apply Hget0. lia. }
  destruct (ensureContinuity_inv w0 Hv0 Hr0) as [Hv Hr].
  split; [exact Hv|]. split; [exact Hr|]. split; [|split].
  - intros i Hi. rewrite getSample_ok by (simpl; lia). f_equal.
    apply Hlow, Hi.
  - rewrite getSample_ok by (simpl; lia). f_equal. exact Hlast.
  - intros HN2 i x Hx.
    destruct (decide (0 <= i < N)%Z) as [Hi|Hi].
    2:{ rewrite getSample_throws in Hx by (simpl; exact Hi). discriminate. }
    rewrite getSample_ok in Hx by (simpl; lia).
    assert (Hxe : x = JS.get 0 (Waveform.samples (Waveform.ensureContinuity w0)) i)
      by congruence.
    rewrite Hxe. clear Hx Hxe.
    destruct (decide (i = N - 1)%Z) as [->|Hne].
    + rewrite Hlast.
      assert (H : 4 / IZR N <= 2).
      { apply (Rmult_le_reg_r (IZR N)); [assumption|].
        unfold Rdiv. rewrite Rmult_assoc, Rinv_l by lra.
        assert (2 <= IZR N) by (apply IZR_le; lia). lra. }
      lra.
    + rewrite Hlow by lia.
      assert (IZR i <= IZR N - 2).
      { rewrite <- minus_IZR. apply IZR_le. lia. }
      assert (IZR i / IZR N <= 1 - 2 / IZR N).
      { apply (Rmult_le_reg_r (IZR N)); [assumption|].
        unfold Rdiv. rewrite Rmult_minus_distr_r.
        rewrite !Rmult_assoc, Rinv_l by lra. lra. }
      unfold Rdiv in *. lra.
Qed.

Lemma half_test (i N : Z) :
  bool_decide (IZR i < IZR N / 2) = (2 * i <? N)%Z.
Proof.
  destruct (Z.ltb_spec (2 * i) N) as [H|H].
  - apply bool_decide_eq_true. apply IZR_lt in H. rewrite mult_IZR in H. lra.
  - apply bool_decide_eq_false. apply IZR_le in H. rewrite mult_IZR in H. lra.
Qed.

(** What square returns on an accepted sample count. *)
Lemma square_closed (N : Z) :
  Waveform.isPowerOfTwo N = true ->
  square N
  = Ok (Waveform.mk N
          (map (fun i => if (2 * Z.of_nat i <? N)%Z then 1 else -1)
               (seq 0 (Z.to_nat N)))).
Proof.
  intros Hp. unfold square. cbv zeta.
  rewrite (setSample_fill
             (fun i => if bool_decide (IZR i < IZR N / 2) then 1 else -1) N Hp).
  f_equal. f_equal. apply map_ext. intros i.
  rewrite half_test. destruct (2 * Z.of_nat i <? N)%Z; apply clamp_inside; lra.
Qed.

(** X16: square on an accepted sample count holds 1 at every index below
    N / 2 and -1 from there on, also for N = 1, whose one sample is 1; its
    peak is 1, so normalize leaves it unchanged. *)
Theorem square_samples (N : Z) :
  Waveform.isPowerOfTwo N = true ->
  exists w,
    square N = Ok w
    /\ Waveform.valid w /\ Waveform.in_range w
    /\ (forall i, (0 <= i < N)%Z -> (2 * i < N)%Z ->
          Waveform.getSample w i = Ok 1)
    /\ (forall i, (0 <= i < N)%Z -> (N <= 2 * i)%Z ->
          Waveform.getSample w i = Ok (-1))
    /\ Waveform.normalize w = w.
Proof.
  intros Hp. pose proof (isPowerOfTwo_pos N Hp) as Hpos.
  eexists. split; [apply square_closed, Hp|].
  pose proof (filled_valid
                (fun i => if (2 * Z.of_nat i <? N)%Z then 1 else -1) N Hp) as Hv.
  assert (Hall : Forall (fun y => Rabs y <= 1)
            (map (fun i : nat => if (2 * Z.of_nat i <? N)%Z then 1 else -1)
                 (seq 0 (Z.to_nat N)))).
  { apply Forall_forall. intros x Hx.
    apply list_elem_of_In, in_map_iff in Hx. destruct Hx as [i [<- _]].
    destruct (2 * Z.of_nat i <? N)%Z;
      unfold Rabs; destruct (Rcase_abs _); lra. }
  split; [exact Hv|]. split; [|split; [|split]].
  - unfold Waveform.in_range. simpl. eapply Forall_impl; [exact Hall|].
    intros x Hx. simpl in Hx. unfold Rabs in Hx.
    destruct (Rcase_abs x); lra.
  - intros i Hi Hlt. rewrite getSample_ok by (simpl; lia). simpl.
    rewrite filled_get by lia. rewrite Z2Nat.id by lia.
    destruct (Z.ltb_spec (2 * i) N); [reflexivity | lia].
  - intros i Hi Hge. rewrite getSample_ok by (simpl; lia). simpl.
    rewrite filled_get by lia. rewrite Z2Nat.id by lia.
    destruct (Z.ltb_spec (2 * i) N); [lia | reflexivity].
  - rewrite normalize_spec by apply Hv. simpl. f_equal.
    apply peak_normalize_unit.
    apply (max_abs_attained _ 1 1); [exact Hall| |apply Rabs_R1].
    apply in_map_iff. exists 0%nat. split.
    + destruct (Z.ltb_spec (2 * Z.of_nat 0) N); [reflexivity | lia].
    + apply in_seq. lia.
Qed.

Lemma Rdiv_lt_by (a c k : R) : 0 < c -> a < k * c -> a / c < k.
Proof.
  intros Hc H. apply (Rmult_lt_reg_r c); [exact Hc|].
  unfold Rdiv. rewrite Rmult_assoc, Rinv_l by lra. lra.
Qed.

Lemma Rdiv_ge_by (a c k : R) : 0 < c -> k * c <= a -> k <= a / c.
Proof.
  intros Hc H. apply (Rmult_le_reg_r c); [exact Hc|].
  unfold Rdiv. rewrite Rmult_assoc, Rinv_l by lra. lra.
Qed.

(** The triangle value of an index never leaves [-1, 1]. *)
Lemma triangle_value_in_range (N i : Z) :
  (0 <= i < N)%Z ->
  let quarterRate := IZR N / 4 in
  -1 <= (if bool_decide (IZR i < quarterRate) then IZR i / quarterRate
         else if bool_decide (IZR i < 3 * quarterRate)
              then 1 - (IZR i - quarterRate) / quarterRate
              else -1 + (IZR i - 3 * quarterRate) / quarterRate) <= 1.
Proof.
  intros Hi q.
  assert (Hq : 0 < q) by (subst q; assert (0 < IZR N) by (apply IZR_lt; lia); lra).
  assert (H0 : 0 <= IZR i) by (apply IZR_le; lia).
  assert (HN : IZR i < 4 * q)
    by (subst q; assert (IZR i < IZR N) by (apply IZR_lt; lia); lra).
  replace ((IZR i - q) / q) with (IZR i / q - 1) by (field; lra).
  replace ((IZR i - 3 * q) / q) with (IZR i / q - 3) by (field; lra).
  pose proof (Rdiv_ge_by (IZR i) q 0 Hq ltac:(lra)) as Hge0.
  pose proof (Rdiv_lt_by (IZR i) q 4 Hq ltac:(lra)) as Hlt4.
  destruct (bool_decide (IZR i < q)) eqn:H1.
  - apply bool_decide_eq_true in H1.
    pose proof (Rdiv_lt_by (IZR i) q 1 Hq ltac:(lra)). lra.
  - apply bool_decide_eq_false in H1.
    pose proof (Rdiv_ge_by (IZR i) q 1 Hq ltac:(lra)).
    destruct (bool_decide (IZR i < 3 * q)) eqn:H3.
    + apply bool_decide_eq_true in H3.
      pose proof (Rdiv_lt_by (IZR i) q 3 Hq ltac:(lra)). lra.
    + apply bool_decide_eq_false in H3.
      pose proof (Rdiv_ge_by (IZR i) q 3 Hq ltac:(lra)). lra.
Qed.

(** What triangle returns on an accepted sample count: no value is clamped. *)
Lemma triangle_closed (N : Z) :
  Waveform.isPowerOfTwo N = true ->
  triangle N
  = Ok (Waveform.mk N
          (map (fun i : nat =>
                  if bool_decide (INR i < IZR N / 4) then INR i / (IZR N / 4)
                  else if bool_decide (INR i < 3 * (IZR N / 4))
                       then 1 - (INR i - IZR N / 4) / (IZR N / 4)
                       else -1 + (INR i - 3 * (IZR N / 4)) / (IZR N / 4))
               (seq 0 (Z.to_nat N)))).
Proof.
  intros Hp. unfold triangle. cbv zeta.
  rewrite (setSample_fill
     (fun i => if bool_decide (IZR i < IZR N / 4) then IZR i / (IZR N / 4)
               else if bool_decide (IZR i < 3 * (IZR N / 4))
                    then 1 - (IZR i - IZR N / 4) / (IZR N / 4)
                    else -1 + (IZR i - 3 * (IZR N / 4)) / (IZR N / 4)) N Hp).
  f_equal. f_equal. apply map_ext_in. intros i Hi. apply in_seq in Hi.
  rewrite clamp_inside by (apply triangle_value_in_range; lia).
  rewrite <- INR_IZR_INZ. reflexivity.
Qed.

(** The triangle value at an index when the sample count is 4 q. *)
Lemma triangle_at (q i : Z) :
  (0 < q)%Z -> (0 <= i < 4 * q)%Z ->
  JS.get 0
    (map (fun i : nat =>
            if bool_decide (INR i < IZR (4 * q) / 4)
            then INR i / (IZR (4 * q) / 4)
            else if bool_decide (INR i < 3 * (IZR (4 * q) / 4))
                 then 1 - (INR i - IZR (4 * q) / 4) / (IZR (4 * q) / 4)
                 else -1 + (INR i - 3 * (IZR (4 * q) / 4)) / (IZR (4 * q) / 4))
         (seq 0 (Z.to_nat (4 * q)))) i
  = if (i <? q)%Z then IZR i / IZR q
    else if (i <? 3 * q)%Z then 2 - IZR i / IZR q
    else IZR i / IZR q - 4.
Proof.
  intros Hq Hi. rewrite filled_get by lia.
  rewrite INR_IZR_INZ, Z2Nat.id by lia.
  assert (Hqr : 0 < IZR q) by (apply IZR_lt; lia).
  replace (IZR (4 * q) / 4) with (IZR q) by (rewrite mult_IZR; lra).
  destruct (Z.ltb_spec i q) as [H1|H1].
  - rewrite bool_decide_eq_true_2 by (apply IZR_lt; lia). reflexivity.
  - rewrite bool_decide_eq_false_2 by (apply IZR_le in H1; lra).
    destruct (Z.ltb_spec i (3 * q)) as [H3|H3].
    + rewrite bool_decide_eq_true_2
        by (apply IZR_lt in H3; rewrite mult_IZR in H3; lra).
      field. lra.
    + rewrite bool_decide_eq_false_2
        by (apply IZR_le in H3; rewrite mult_IZR in H3; lra).
      field. lra.
Qed.

(** X17: triangle on an accepted sample count N = 4 q starts at 0, peaks at
    1 on index q, crosses 0 on 2 q and bottoms at -1 on 3 q; every step to
    the next sample, the step from the last sample back to the first
    included, has size exactly 4 / N. *)
Theorem triangle_shape (N q : Z) :
  Waveform.isPowerOfTwo N = true -> N = (4 * q)%Z ->
  exists w,
    triangle N = Ok w
    /\ Waveform.valid w /\ Waveform.in_range w
    /\ Waveform.getSample w 0 = Ok 0
    /\ Waveform.getSample w q = Ok 1
    /\ Waveform.getSample w (2 * q) = Ok 0
    /\ Waveform.getSample w (3 * q) = Ok (-1)
    /\ (forall i x y, (0 <= i < N)%Z ->
          Waveform.getSample w i = Ok x ->
          Waveform.getSample w ((i + 1) mod N) = Ok y ->
          Rabs (y - x) = 4 / IZR N).
Proof.
  intros Hp ->. pose proof (isPowerOfTwo_pos _ Hp) as Hpos.
  assert (Hq : (0 < q)%Z) by lia.
  assert (Hqr : 0 < IZR q) by (apply IZR_lt; lia).
  eexists. split; [apply triangle_closed, Hp|].
  split; [apply filled_valid, Hp|].
  split.
  { unfold Waveform.in_range. simpl. apply Forall_forall. intros x Hx.
    apply list_elem_of_In, in_map_iff in Hx. destruct Hx as [i [<- Hi]].
    apply in_seq in Hi. rewrite INR_IZR_INZ.
    apply (triangle_value_in_range (4 * q) (Z.of_nat i)). lia. }
  assert (Hget : forall i, (0 <= i < 4 * q)%Z ->
            Waveform.getSample
              (Waveform.mk (4 * q)
                 (map (fun i : nat =>
                    if bool_decide (INR i < IZR (4 * q) / 4)
                    then INR i / (IZR (4 * q) / 4)
                    else if bool_decide (INR i < 3 * (IZR (4 * q) / 4))
                         then 1 - (INR i - IZR (4 * q) / 4) / (IZR (4 * q) / 4)
                         else -1 + (INR i - 3 * (IZR (4 * q) / 4))
                                   / (IZR (4 * q) / 4))
                    (seq 0 (Z.to_nat (4 * q))))) i
            = Ok (if (i <? q)%Z then IZR i / IZR q
                  else if (i <? 3 * q)%Z then 2 - IZR i / IZR q
                  else IZR i / IZR q - 4)).
  { intros i Hi. rewrite getSample_ok by (simpl; lia).
    simpl Waveform.samples. rewrite triangle_at by lia. reflexivity. }
  split; [|split; [|split; [|split]]].
  - rewrite Hget by lia. destruct (Z.ltb_spec 0 q); [|lia].
    f_equal. unfold Rdiv. lra.
  - rewrite Hget by lia. destruct (Z.ltb_spec q q); [lia|].
    destruct (Z.ltb_spec q (3 * q)); [|lia]. f_equal. field. lra.
  - rewrite Hget by lia. destruct (Z.ltb_spec (2 * q) q); [lia|].
    destruct (Z.ltb_spec (2 * q) (3 * q)); [|lia].
    f_equal. rewrite mult_IZR. field. lra.
  - rewrite Hget by lia. destruct (Z.ltb_spec (3 * q) q); [lia|].
    destruct (Z.ltb_spec (3 * q) (3 * q)); [lia|].
    f_equal. rewrite mult_IZR. field. lra.
  - intros i x y Hi Hx Hy.
    assert (Hm : (0 <= (i + 1) mod (4 * q) < 4 * q)%Z)
      by (apply Z.mod_pos_bound; lia).
    rewrite Hget in Hx by lia. rewrite Hget in Hy by lia.
    assert (Hxe : x = (if (i <? q)%Z then IZR i / IZR q
                       else if (i <? 3 * q)%Z then 2 - IZR i / IZR q
                       else IZR i / IZR q - 4)) by congruence.
    assert (Hye : y = (if ((i + 1) mod (4 * q) <? q)%Z
                       then IZR ((i + 1) mod (4 * q)) / IZR q
                       else if ((i + 1) mod (4 * q) <? 3 * q)%Z
                            then 2 - IZR ((i + 1) mod (4 * q)) / IZR q
                            else IZR ((i + 1) mod (4 * q)) / IZR q - 4))
      by congruence.
    clear Hx Hy Hget. subst x y.
    replace (4 / IZR (4 * q)) with (/ IZR q)
      by (rewrite mult_IZR; field; lra).
    assert (Hu : 0 < / IZR q) by (apply Rinv_0_lt_compat; exact Hqr).
    assert (Hone : IZR q * / IZR q = 1) by (apply Rinv_r; lra).
    destruct (Z.eq_dec (i + 1)%Z (4 * q)%Z) as [Hwrap|Hnw].
    + rewrite Hwrap, Z.mod_same by lia.
      destruct (Z.ltb_spec 0 q); [|lia].
      destruct (Z.ltb_spec i q); [lia|].
      destruct (Z.ltb_spec i (3 * q)); [lia|].
      assert (Hie : IZR i = 4 * IZR q - 1).
      { rewrite <- mult_IZR, <- minus_IZR. f_equal. lia. }
      rewrite Hie. unfold Rdiv.
      replace (0 * / IZR q - ((4 * IZR q - 1) * / IZR q - 4))
        with (4 - 4 * (IZR q * / IZR q) + / IZR q) by ring.
      rewrite Hone. replace (4 - 4 * 1 + / IZR q) with (/ IZR q) by ring.
      apply Rabs_pos_eq. lra.
    + rewrite Z.mod_small by lia. rewrite plus_IZR. unfold Rdiv.
      destruct (Z.ltb_spec i q), (Z.ltb_spec (i + 1) q),
        (Z.ltb_spec i (3 * q)), (Z.ltb_spec (i + 1) (3 * q)); try lia.
      * replace ((IZR i + 1) * / IZR q - IZR i * / IZR q) with (/ IZR q) by ring.
        apply Rabs_pos_eq. lra.
      * assert (Hie : IZR i = IZR q - 1)
          by (rewrite <- minus_IZR; f_equal; lia).
        rewrite Hie.
        replace (2 - (IZR q - 1 + 1) * / IZR q - (IZR q - 1) * / IZR q)
          with (2 - 2 * (IZR q * / IZR q) + / IZR q) by ring.
        rewrite Hone. replace (2 - 2 * 1 + / IZR q) with (/ IZR q) by ring.
        apply Rabs_pos_eq. lra.
      * replace (2 - (IZR i + 1) * / IZR q - (2 - IZR i * / IZR q))
          with (- / IZR q) by ring.
        rewrite Rabs_Ropp. apply Rabs_pos_eq. lra.
      * replace ((IZR i + 1) * / IZR q - 4 - (2 - IZR i * / IZR q))
          with (2 * ((IZR i + 1) * / IZR q) - 6 - / IZR q) by ring.
        assert (Hie : IZR i + 1 = 3 * IZR q).
        { rewrite <- plus_IZR, <- mult_IZR. f_equal. lia. }
        rewrite Hie.
        replace (2 * (3 * IZR q * / IZR q) - 6 - / IZR q)
          with (6 * (IZR q * / IZR q) - 6 - / IZR q) by ring.
        rewrite Hone. replace (6 * 1 - 6 - / IZR q) with (- / IZR q) by ring.
        rewrite Rabs_Ropp. apply Rabs_pos_eq. lra.
      * replace ((IZR i + 1) * / IZR q - 4 - (IZR i * / IZR q - 4))
          with (/ IZR q) by ring.
        apply Rabs_pos_eq. lra.
Qed.

(** The inner loop of custom: a zero amplitude is skipped, which adds the
    same as its product would. *)
Lemma custom_value (amps : list R) (N i : Z) :
  JS.for_loop (Z.of_nat (length amps))
    (fun h value =>
       if negb (bool_decide (JS.get 0 amps h = 0)) then
         let phase := IZR i / IZR N * PI * 2 * IZR (h + 1) in
         value + JS.get 0 amps h * sin phase
       else value)
    0
  = Spec.Rsum (length amps)
      (fun h => nth h amps 0
                * sin (IZR i / IZR N * PI * 2 * IZR (Z.of_nat h + 1))).
Proof.
  apply for_loop_Rsum. intros h acc Hh. rewrite get_nth_default.
  destruct (bool_decide (nth h amps 0 = 0)) eqn:Hz; simpl.
  - apply bool_decide_eq_true in Hz. rewrite Hz. lra.
  - reflexivity.
Qed.

(** What custom returns on an accepted sample count. *)
Lemma custom_closed (N : Z) (amps : list R) :
  Waveform.isPowerOfTwo N = true ->
  custom N amps
  = Ok (Waveform.mk N
          (Spec.peak_normalize
             (map (fun s : nat =>
                     Rmax (-1)
                       (Rmin 1
                          (Spec.Rsum (length amps)
                             (fun h => nth h amps 0
                                       * sin (INR s / IZR N * PI * 2
                                              * IZR (Z.of_nat h + 1))))))
                  (seq 0 (Z.to_nat N))))).
Proof.
  intros Hp. unfold custom.
  assert (H := setSample_fill
     (fun i =>
        JS.for_loop (Z.of_nat (length amps))
          (fun h value =>
             if negb (bool_decide (JS.get 0 amps h = 0)) then
               let phase := IZR i / IZR N * PI * 2 * IZR (h + 1) in
               value + JS.get 0 amps h * sin phase
             else value) 0) N Hp).
  unfold bind in H |- *.
  destruct (Waveform.constructor N) as [w0|e]; [|discriminate H].
  cbv zeta in H |- *. rewrite H.
  rewrite normalize_spec
    by (unfold Waveform.wf; simpl; rewrite length_map, length_seq;
        apply isPowerOfTwo_pos in Hp; lia).
  simpl. f_equal. f_equal. f_equal. apply map_ext. intros s.
  rewrite custom_value, <- INR_IZR_INZ. reflexivity.
Qed.

(** X18: custom with its default list of harmonics, the single amplitude 1,
    on a sample count that is accepted and a multiple of 4, returns the
    waveform sine returns: the sum has the one term sin(phase), and the
    sample at a quarter of the cycle is 1, so normalize changes nothing. *)
Theorem custom_default_is_sine (N : Z) :
  Waveform.isPowerOfTwo N = true -> (N mod 4 = 0)%Z ->
  custom N [1] = sine N.
Proof.
  intros Hp H4. pose proof (isPowerOfTwo_pos N Hp) as Hpos.
  assert (HN : 0 < IZR N) by (apply IZR_lt; lia).
  rewrite custom_closed, sine_closed by exact Hp. f_equal. f_equal.
  rewrite (map_ext _ (fun s : nat => sin (INR s / IZR N * PI * 2))).
  2:{ intros s. simpl. rewrite Rmult_1_r, Rplus_0_l, Rmult_1_l.
      apply clamp_inside, sin_unit. }
  apply peak_normalize_unit.
  set (L := map (fun s : nat => sin (INR s / IZR N * PI * 2))
                (seq 0 (Z.to_nat N))).
  apply (max_abs_attained L 1 1).
  - apply Forall_forall. intros x Hx.
    apply list_elem_of_In, in_map_iff in Hx. destruct Hx as [s [<- _]].
    pose proof (sin_unit (INR s / IZR N * PI * 2)).
    unfold Rabs. destruct (Rcase_abs _); lra.
  - apply in_map_iff. exists (Z.to_nat (N / 4)). split.
    + rewrite INR_IZR_INZ, Z2Nat.id by (apply Z.div_pos; lia).
      replace (IZR (N / 4) / IZR N * PI * 2) with (PI / 2).
      * apply sin_PI2.
      * assert (HNe : IZR N = 4 * IZR (N / 4)).
        { rewrite <- mult_IZR. f_equal.
          pose proof (Z.div_mod N 4 ltac:(lia)). lia. }
        rewrite HNe. field. lra.
    + apply in_seq.
      assert (N / 4 < N)%Z by (apply Z.div_lt; lia).
      assert (0 <= N / 4)%Z by (apply Z.div_pos; lia). lia.
  - apply Rabs_pos_eq. lra.
Qed.

Lemma map_seq_all {A : Type} (f : nat -> A) (c : A) (k n : nat) :
  (forall s, f s = c) -> map f (seq k n) = replicate n c.
Proof.
  intros Hf. revert k. induction n as [|n IH]; intros k; simpl; [reflexivity|].
  rewrite Hf, IH. reflexivity.
Qed.

Lemma max_abs_zeros (n : nat) : Spec.max_abs (replicate n 0) = 0.
Proof.
  induction n as [|n IH]; simpl; [reflexivity|].
  rewrite IH, Rabs_R0. apply Rmax_left. lra.
Qed.

(** X19: custom on any list of amplitudes: for a sample count the
    power-of-two test accepts it returns a waveform of that many samples,
    all in [-1, 1], whose peak is 1 unless it is silent, and which
    normalize leaves unchanged; amplitudes that are all 0 give silence.
    For any other count it throws the power-of-two error without looking
    at the amplitudes. *)
Theorem custom_result (N : Z) (amps : list R) :
  (Waveform.isPowerOfTwo N = true ->
   exists w,
     custom N amps = Ok w
     /\ Waveform.sampleRate w = N
     /\ Waveform.wf w
     /\ Waveform.in_range w
     /\ (Spec.max_abs (Waveform.samples w) = 0
         \/ Spec.max_abs (Waveform.samples w) = 1)
     /\ Waveform.normalize w = w
     /\ (Forall (fun a => a = 0) amps -> Waveform.constructor N = Ok w))
  /\ (Waveform.isPowerOfTwo N = false -> custom N amps = Throw InvalidLength).
Proof.
  split.
  - intros Hp. eexists. split; [apply custom_closed, Hp|].
    set (raw := map _ _).
    assert (Hrawlen : length raw = Z.to_nat N)
      by (subst raw; rewrite length_map, length_seq; reflexivity).
    assert (Hlen : Waveform.wf (Waveform.mk N (Spec.peak_normalize raw))).
    { unfold Waveform.wf, Spec.peak_normalize. simpl.
      apply isPowerOfTwo_pos in Hp.
      destruct (decide _); [rewrite length_map|]; lia. }
    split; [reflexivity|]. split; [exact Hlen|].
    pose proof (peak_normalize_peak raw) as Hpk.
    split; [|split; [exact Hpk|split]].
    + unfold Waveform.in_range. simpl. apply bounded_by_peak.
      destruct Hpk as [-> | ->]; lra.
    + rewrite normalize_spec by exact Hlen. simpl. f_equal.
      unfold Spec.peak_normalize at 1.
      destruct (decide (_ /\ _)) as [[H0 H1]|_]; [|reflexivity].
      destruct Hpk; contradiction.
    + intros Hz. unfold Waveform.constructor. rewrite Hp. simpl. f_equal.
      f_equal.
      assert (Hraw : raw = replicate (Z.to_nat N) 0).
      { subst raw. apply map_seq_all. intros s.
        rewrite Rsum_zero; [apply clamp_inside; lra|].
        intros h Hh. rewrite Forall_forall in Hz.
        rewrite (Hz (nth h amps 0)) by (apply list_elem_of_In, nth_In, Hh).
        lra. }
      rewrite Hraw. unfold Spec.peak_normalize.
      destruct (decide _) as [[Hc _]|_]; [|reflexivity].
      exfalso. apply Hc. apply max_abs_zeros.
  - intros Hp. unfold custom. rewrite (constructor_throws N Hp). reflexivity.
Qed.

End Presets.

(** ** TimedomainCanvas: control points and drawing *)

Section Canvas.

Import TimedomainCanvas.
Local Open Scope R_scope.

Lemma Rdiv_ge_by' (a c k : R) : 0 < c -> k * c < a -> k < a / c.
Proof.
  intros Hc H. apply (Rmult_lt_reg_r c); [exact Hc|].
  unfold Rdiv. rewrite Rmult_assoc, Rinv_l by lra. lra.
Qed.

Lemma geb_false (a b : Z) : (a < b)%Z -> (a >=? b)%Z = false.
Proof. intros H. rewrite Z.geb_leb. apply Z.leb_gt. exact H. Qed.

Lemma floor_lt (r r' : R) : r + 1 <= r' -> (JS.floor r < JS.floor r')%Z.
Proof.
  intros H. unfold JS.floor.
  destruct (base_Int_part r) as [H1 _]. destruct (base_Int_part r') as [_ H2].
  apply lt_IZR. lra.
Qed.

Lemma floor_IZR (i : Z) : JS.floor (IZR i) = i.
Proof.
  replace (IZR i) with (IZR i + 0) by lra. apply floor_plus. lra.
Qed.

(** The control points initializeControlPoints collects in its first [m]
    rounds. *)
Lemma initialize_prefix (w : Waveform.t) (step : R) (m : nat) :
  (forall j, (j < m)%nat ->
     (0 <= JS.floor (INR j * step) < Waveform.sampleRate w)%Z) ->
  JS.for_loop_m (Z.of_nat m)
    (fun i points =>
       let sampleIndex := JS.floor (IZR i * step) in
       value <- Waveform.getSample w sampleIndex ;;
       Ok (points ++ [mkP sampleIndex value]))
    []
  = Ok (map (fun j => mkP (JS.floor (INR j * step))
                          (JS.get 0 (Waveform.samples w)
                                  (JS.floor (INR j * step))))
            (seq 0 m)).
Proof.
  induction m as [|m IH]; intros Hin.
  - reflexivity.
  - rewrite for_loop_m_S, IH by (intros; apply Hin; lia).
    unfold bind. cbv zeta. rewrite <- INR_IZR_INZ.
    rewrite getSample_ok by (apply Hin; lia).
    rewrite seq_S, map_app. reflexivity.
Qed.

Lemma step_index_bounds (N pc j : Z) :
  (0 < pc <= N)%Z -> (0 <= j < pc)%Z ->
  0 <= IZR j * (IZR N / IZR pc) < IZR N.
Proof.
  intros Hpc Hj.
  assert (0 < IZR pc) by (apply IZR_lt; lia).
  assert (0 < IZR N) by (apply IZR_lt; lia).
  assert (0 <= IZR j) by (apply IZR_le; lia).
  assert (IZR j < IZR pc) by (apply IZR_lt; lia).
  assert (Hs : 0 < IZR N / IZR pc) by (apply Rdiv_lt_0_compat; assumption).
  split; [apply Rmult_le_pos; lra|].
  replace (IZR N) with (IZR pc * (IZR N / IZR pc)) at 2 by (field; lra).
  apply Rmult_lt_compat_r; assumption.
Qed.

Lemma step_at_least_one (N pc : Z) :
  (0 < pc <= N)%Z -> 1 <= IZR N / IZR pc.
Proof.
  intros Hpc.
  assert (0 < IZR pc) by (apply IZR_lt; lia).
  assert (IZR pc <= IZR N) by (apply IZR_le; lia).
  apply (Rmult_le_reg_r (IZR pc)); [assumption|].
  unfold Rdiv. rewrite Rmult_assoc, Rinv_l by lra. lra.
Qed.

(** What initializeControlPoints returns on a waveform the constructor
    admits. *)
Lemma initializeControlPoints_closed (c : t) :
  Waveform.valid (waveform c) ->
  let N := Waveform.sampleRate (waveform c) in
  let step := IZR N / IZR (Z.min 64 N) in
  initializeControlPoints c
  = Ok (mk (waveform c)
           (map (fun j => mkP (JS.floor (INR j * step))
                              (JS.get 0 (Waveform.samples (waveform c))
                                      (JS.floor (INR j * step))))
                (seq 0 (Z.to_nat (Z.min 64 N))))
           (displayWidth c) (displayHeight c)).
Proof.
  intros Hv N step. pose proof (valid_pos _ Hv) as Hpos. fold N in Hpos.
  unfold initializeControlPoints. cbv zeta. fold N. fold step.
  rewrite for_loop_m_to_nat, initialize_prefix; [reflexivity|].
  intros j Hj. apply floor_bounds. rewrite INR_IZR_INZ.
  apply step_index_bounds; lia.
Qed.

(** The points initializeControlPoints collects, one by one. *)
Lemma initial_points_index (w : Waveform.t) (j : Z) (p : ControlPoint) :
  Waveform.valid w ->
  let N := Waveform.sampleRate w in
  let step := IZR N / IZR (Z.min 64 N) in
  JS.index
    (map (fun j => mkP (JS.floor (INR j * step))
                       (JS.get 0 (Waveform.samples w)
                               (JS.floor (INR j * step))))
         (seq 0 (Z.to_nat (Z.min 64 N)))) j = Some p ->
  (0 <= j < Z.min 64 N)%Z
  /\ p = mkP (JS.floor (IZR j * step))
             (JS.get 0 (Waveform.samples w) (JS.floor (IZR j * step)))
  /\ (0 <= sampleIndex p < N)%Z.
Proof.
  intros Hv N step Hp. pose proof (valid_pos _ Hv) as Hpos. fold N in Hpos.
  unfold JS.index in Hp.
  destruct (Z.ltb_spec j 0) as [|Hj0]; [discriminate|].
  rewrite list_lookup_fmap in Hp.
  destruct (seq 0 (Z.to_nat (Z.min 64 N)) !! Z.to_nat j) as [n|] eqn:Hn;
    [|discriminate].
  apply lookup_seq in Hn. destruct Hn as [-> Hlt]. simpl in Hp.
  rewrite INR_IZR_INZ, Z2Nat.id in Hp by lia.
  assert (Hj : (0 <= j < Z.min 64 N)%Z) by lia.
  split; [exact Hj|]. split; [congruence|].
  assert (Hpe : p = mkP (JS.floor (IZR j * step))
                        (JS.get 0 (Waveform.samples w)
                                (JS.floor (IZR j * step)))) by congruence.
  rewrite Hpe. simpl.
  apply (floor_bounds _ N). apply step_index_bounds; lia.
Qed.

Lemma initial_points_increasing (w : Waveform.t) :
  Waveform.valid w ->
  let N := Waveform.sampleRate w in
  let step := IZR N / IZR (Z.min 64 N) in
  Inv.increasing
    (map (fun j => mkP (JS.floor (INR j * step))
                       (JS.get 0 (Waveform.samples w)
                               (JS.floor (INR j * step))))
         (seq 0 (Z.to_nat (Z.min 64 N)))).
Proof.
  intros Hv N step i j p p' Hij Hp Hp'.
  pose proof (valid_pos _ Hv) as Hpos. fold N in Hpos.
  destruct (initial_points_index w i p Hv Hp) as [Hi [-> _]].
  destruct (initial_points_index w j p' Hv Hp') as [Hj [-> _]].
  simpl. apply floor_lt. fold N. fold step.
  assert (Hs : 1 <= step) by (apply step_at_least_one; lia).
  assert (IZR i + 1 <= IZR j)
    by (rewrite <- plus_IZR; apply IZR_le; lia).
  assert (0 <= IZR i) by (apply IZR_le; lia).
  nra.
Qed.

Lemma step_small (N j : Z) :
  (0 < N <= 64)%Z -> JS.floor (IZR j * (IZR N / IZR (Z.min 64 N))) = j.
Proof.
  intros HN. rewrite Z.min_r by lia.
  replace (IZR j * (IZR N / IZR N)) with (IZR j)
    by (field; apply not_0_IZR; lia).
  apply floor_IZR.
Qed.

(** X20: on a waveform the constructor admits, initializeControlPoints
    never throws and collects min(64, N) control points; point j sits on
    sample floor(j * N / min(64, N)) and holds that sample.  The indices
    stay inside the waveform and increase strictly; they are all the
    indices when N <= 64, and the multiples of N / 64 when 64 divides N. *)
Theorem initializeControlPoints_points (c : t) :
  Waveform.valid (waveform c) ->
  let N := Waveform.sampleRate (waveform c) in
  exists points,
    initializeControlPoints c
    = Ok (mk (waveform c) points (displayWidth c) (displayHeight c))
    /\ Z.of_nat (length points) = Z.min 64 N
    /\ (forall j p, JS.index points j = Some p ->
          (0 <= sampleIndex p < N)%Z
          /\ Waveform.getSample (waveform c) (sampleIndex p) = Ok (value p)
          /\ sampleIndex p = JS.floor (IZR j * (IZR N / IZR (Z.min 64 N)))
          /\ ((N <= 64)%Z -> sampleIndex p = j)
          /\ (forall k, N = (64 * k)%Z -> sampleIndex p = (j * k)%Z))
    /\ Inv.increasing points.
Proof.
  intros Hv N. pose proof (valid_pos _ Hv) as Hpos. fold N in Hpos.
  eexists. split; [apply initializeControlPoints_closed, Hv|]. fold N.
  split; [rewrite length_map, length_seq; lia|]. split.
  - intros j p Hp.
    destruct (initial_points_index (waveform c) j p Hv Hp) as [Hj [Hpe Hb]].
    fold N in Hj, Hpe, Hb.
    split; [exact Hb|]. split.
    { rewrite getSample_ok by exact Hb. rewrite Hpe. reflexivity. }
    split; [rewrite Hpe; reflexivity|]. split.
    + intros H64. rewrite Hpe. simpl. apply step_small. lia.
    + intros k Hk. rewrite Hpe. simpl. rewrite Z.min_l by lia. rewrite Hk.
      replace (IZR j * (IZR (64 * k) / 64)) with (IZR (j * k))
        by (rewrite !mult_IZR; field).
      apply floor_IZR.
  - apply initial_points_increasing, Hv.
Qed.

Lemma index_nth (points : list ControlPoint) (j : nat) :
  (j < length points)%nat ->
  JS.index points (Z.of_nat j) = Some (nth j points hole).
Proof.
  intros Hj. unfold JS.index.
  destruct (Z.ltb_spec (Z.of_nat j) 0); [lia|].
  rewrite Nat2Z.id.
  destruct (lookup_lt_is_Some_2 points j Hj) as [x Hx].
  rewrite Hx. f_equal. symmetry. apply nth_lookup_Some. exact Hx.
Qed.

Lemma index_inv (points : list ControlPoint) (j : Z) (p : ControlPoint) :
  JS.index points j = Some p ->
  (0 <= j < Z.of_nat (length points))%Z /\ p = nth (Z.to_nat j) points hole.
Proof.
  unfold JS.index. destruct (Z.ltb_spec j 0); [discriminate|]. intros Hp.
  pose proof (lookup_lt_Some _ _ _ Hp).
  split; [lia|]. symmetry. apply nth_lookup_Some. exact Hp.
Qed.

Lemma increasing_pair (p q : ControlPoint) :
  (sampleIndex p < sampleIndex q)%Z -> Inv.increasing [p; q].
Proof.
  intros Hpq i j a b Hij Ha Hb.
  destruct (index_inv _ _ _ Ha) as [Hi ->].
  destruct (index_inv _ _ _ Hb) as [Hj ->].
  simpl in Hi, Hj.
  assert (Z.to_nat i = 0%nat) as -> by lia.
  assert (Z.to_nat j = 1%nat) as -> by lia.
  exact Hpq.
Qed.

Lemma increasing_nth (points : list ControlPoint) (i j : nat) :
  Inv.increasing points -> (i < j < length points)%nat ->
  (sampleIndex (nth i points hole) < sampleIndex (nth j points hole))%Z.
Proof.
  intros Hinc Hij.
  apply (Hinc (Z.of_nat i) (Z.of_nat j)); [lia | |]; apply index_nth; lia.
Qed.

(** The search loop of interpolatePointsAt when no pair brackets the index. *)
Lemma search_none (points : list ControlPoint) (s : Z) (m : nat)
      (b a : ControlPoint) :
  (forall j, (j < m)%nat ->
     (sampleIndex (nth j points hole) <=? s)%Z
     && (sampleIndex (nth (S j) points hole) >=? s)%Z = false) ->
  JS.for_loop (Z.of_nat m)
    (fun i '(before, after, stop) =>
       if (stop : bool) then (before, after, stop)
       else if (sampleIndex (JS.get hole points i) <=? s)%Z
               && (sampleIndex (JS.get hole points (i + 1)) >=? s)%Z
            then (JS.get hole points i, JS.get hole points (i + 1), true)
            else (before, after, false))
    (b, a, false)
  = (b, a, false).
Proof.
  induction m as [|m IH]; intros Hno.
  - apply for_loop_0.
  - rewrite for_loop_S, IH by (intros; apply Hno; lia).
    replace (Z.of_nat m + 1)%Z with (Z.of_nat (S m)) by lia.
    rewrite !get_nth_default, Hno by lia. reflexivity.
Qed.

(** The search loop when pair [j] is the first that brackets the index. *)
Lemma search_first (points : list ControlPoint) (s : Z) (m j : nat)
      (b a : ControlPoint) :
  (j < m)%nat ->
  (forall j', (j' < j)%nat ->
     (sampleIndex (nth j' points hole) <=? s)%Z
     && (sampleIndex (nth (S j') points hole) >=? s)%Z = false) ->
  (sampleIndex (nth j points hole) <=? s)%Z
  && (sampleIndex (nth (S j) points hole) >=? s)%Z = true ->
  JS.for_loop (Z.of_nat m)
    (fun i '(before, after, stop) =>
       if (stop : bool) then (before, after, stop)
       else if (sampleIndex (JS.get hole points i) <=? s)%Z
               && (sampleIndex (JS.get hole points (i + 1)) >=? s)%Z
            then (JS.get hole points i, JS.get hole points (i + 1), true)
            else (before, after, false))
    (b, a, false)
  = (nth j points hole, nth (S j) points hole, true).
Proof.
  intros Hj Hno Hhit. induction m as [|m IH]; [lia|].
  rewrite for_loop_S.
  destruct (decide (j = m)) as [->|Hne].
  - rewrite search_none by exact Hno.
    replace (Z.of_nat m + 1)%Z with (Z.of_nat (S m)) by lia.
    rewrite !get_nth_default, Hhit. reflexivity.
  - rewrite IH by lia. reflexivity.
Qed.

(** interpolatePointsAt once the search has settled on [before] and
    [after]. *)
Lemma interpolatePointsAt_found (points : list ControlPoint) (s : Z)
      (before after : ControlPoint) (stop : bool) :
  points <> [] ->
  JS.for_loop (Z.of_nat (length points) - 1)
    (fun i '(before, after, stop) =>
       if (stop : bool) then (before, after, stop)
       else if (sampleIndex (JS.get hole points i) <=? s)%Z
               && (sampleIndex (JS.get hole points (i + 1)) >=? s)%Z
            then (JS.get hole points i, JS.get hole points (i + 1), true)
            else (before, after, false))
    (nth 0 points hole, nth (length points - 1) points hole, false)
  = (before, after, stop) ->
  interpolatePointsAt points s
  = if (sampleIndex after - sampleIndex before =? 0)%Z then Ok (value before)
    else Ok (value before
               * (1 - IZR (s - sampleIndex before)
                      / IZR (sampleIndex after - sampleIndex before))
             + value after
               * (IZR (s - sampleIndex before)
                  / IZR (sampleIndex after - sampleIndex before))).
Proof.
  intros Hne Hloop. unfold interpolatePointsAt. cbv zeta.
  assert (Hlen : (0 < length points)%nat)
    by (destruct points; [contradiction | simpl; lia]).
  change 0%Z with (Z.of_nat 0) at 1. rewrite (index_nth points 0 Hlen).
  replace (Z.of_nat (length points) - 1)%Z
    with (Z.of_nat (length points - 1)) at 1 by lia.
  rewrite index_nth by lia.
  rewrite Hloop. reflexivity.
Qed.

(** At the sample index of a control point the search settles on the pair
    that ends there, or on the first pair for the first point. *)
Lemma interpolate_at_point (points : list ControlPoint) (j : Z)
      (p : ControlPoint) :
  Inv.increasing points -> JS.index points j = Some p ->
  interpolatePointsAt points (sampleIndex p) = Ok (value p).
Proof.
  intros Hinc Hp. destruct (index_inv _ _ _ Hp) as [Hj ->].
  assert (Hne : points <> []) by (intros ->; simpl in Hj; lia).
  set (n := Z.to_nat j) in *.
  assert (Hn : (n < length points)%nat) by lia.
  destruct n as [|n].
  + destruct (decide (length points = 1%nat)) as [H1|H1].
    * rewrite (interpolatePointsAt_found points _ (nth 0 points hole)
                 (nth 0 points hole) false Hne).
      -- rewrite Z.sub_diag. reflexivity.
      -- rewrite H1. simpl. apply for_loop_0.
    * rewrite (interpolatePointsAt_found points _ (nth 0 points hole)
                 (nth 1 points hole) true Hne).
      -- pose proof (increasing_nth points 0 1 Hinc ltac:(lia)).
         destruct (Z.eqb_spec (sampleIndex (nth 1 points hole)
                               - sampleIndex (nth 0 points hole)) 0); [lia|].
         rewrite Z.sub_diag. f_equal. unfold Rdiv. lra.
      -- replace (Z.of_nat (length points) - 1)%Z
           with (Z.of_nat (length points - 1)) by lia.
         apply search_first; [lia | intros; lia |].
         pose proof (increasing_nth points 0 1 Hinc ltac:(lia)).
         apply andb_true_intro. split; [apply Z.leb_le | apply Z.geb_le]; lia.
  + rewrite (interpolatePointsAt_found points _ (nth n points hole)
               (nth (S n) points hole) true Hne).
    * pose proof (increasing_nth points n (S n) Hinc ltac:(lia)).
      destruct (Z.eqb_spec (sampleIndex (nth (S n) points hole)
                            - sampleIndex (nth n points hole)) 0); [lia|].
      f_equal. field. apply not_0_IZR. lia.
    * replace (Z.of_nat (length points) - 1)%Z
        with (Z.of_nat (length points - 1)) by lia.
      apply search_first; [lia | |].
      -- intros j' Hj'.
         pose proof (increasing_nth points (S j') (S n) Hinc ltac:(lia)).
         apply andb_false_intro2. apply geb_false. lia.
      -- pose proof (increasing_nth points n (S n) Hinc ltac:(lia)).
         apply andb_true_intro. split; [apply Z.leb_le | apply Z.geb_le]; lia.
Qed.

(** Every call of interpolatePointsAt on a non-empty array returns. *)
Lemma interpolatePointsAt_total (points : list ControlPoint) (s : Z) :
  points <> [] -> exists v, interpolatePointsAt points s = Ok v.
Proof.
  intros Hne.
  destruct (JS.for_loop (Z.of_nat (length points) - 1)
    (fun i '(before, after, stop) =>
       if (stop : bool) then (before, after, stop)
       else if (sampleIndex (JS.get hole points i) <=? s)%Z
               && (sampleIndex (JS.get hole points (i + 1)) >=? s)%Z
            then (JS.get hole points i, JS.get hole points (i + 1), true)
            else (before, after, false))
    (nth 0 points hole, nth (length points - 1) points hole, false))
    as [[before after] stop] eqn:Hloop.
  rewrite (interpolatePointsAt_found points s before after stop Hne Hloop).
  destruct (_ =? 0)%Z; eexists; reflexivity.
Qed.

(** X21: interpolatePointsAt on control points in increasing order
    returns, at the sample index of a control point, the value of that
    point, and strictly between two neighbouring control points the linear
    interpolation of their two values. *)
Theorem interpolatePointsAt_inside (points : list ControlPoint) :
  Inv.increasing points ->
  (forall j p, JS.index points j = Some p ->
     interpolatePointsAt points (sampleIndex p) = Ok (value p))
  /\ (forall j p p' s,
        JS.index points j = Some p -> JS.index points (j + 1) = Some p' ->
        (sampleIndex p < s < sampleIndex p')%Z ->
        let t := IZR (s - sampleIndex p)
                 / IZR (sampleIndex p' - sampleIndex p) in
        interpolatePointsAt points s
        = Ok (value p * (1 - t) + value p' * t)
        /\ 0 < t < 1).
Proof.
  intros Hinc. split.
  - intros j p Hp. exact (interpolate_at_point points j p Hinc Hp).
  - intros j p p' s Hp Hp' Hs t.
    destruct (index_inv _ _ _ Hp) as [Hj Hpe].
    destruct (index_inv _ _ _ Hp') as [Hj' Hpe'].
    assert (Hne : points <> []) by (intros ->; simpl in Hj; lia).
    replace (Z.to_nat (j + 1)) with (S (Z.to_nat j)) in Hpe' by lia.
    set (n := Z.to_nat j) in *.
    assert (Hd : 0 < IZR (sampleIndex p' - sampleIndex p))
      by (apply IZR_lt; lia).
    split.
    + rewrite (interpolatePointsAt_found points s p p' true Hne).
      * destruct (Z.eqb_spec (sampleIndex p' - sampleIndex p) 0); [lia|].
        reflexivity.
      * replace (Z.of_nat (length points) - 1)%Z
          with (Z.of_nat (length points - 1)) by lia.
        rewrite Hpe, Hpe'. apply search_first; [lia | |].
        -- intros j0 Hj0.
           destruct (decide (S j0 = n)) as [He|He].
           ++ apply andb_false_intro2. apply geb_false.
              rewrite He, <- Hpe. lia.
           ++ pose proof (increasing_nth points (S j0) n Hinc ltac:(lia)).
              apply andb_false_intro2. apply geb_false.
              rewrite <- Hpe in *. lia.
        -- rewrite <- Hpe, <- Hpe'.
           apply andb_true_intro. split; [apply Z.leb_le | apply Z.geb_le]; lia.
    + subst t. split.
      * apply Rdiv_lt_0_compat; [apply IZR_lt; lia | exact Hd].
      * apply Rdiv_lt_by; [exact Hd|]. rewrite Rmult_1_l. apply IZR_lt. lia.
Qed.

(** X22: interpolatePointsAt outside the control points.  With no control
    point at all it throws a TypeError.  For a sample index before the first
    or past the last of two or more increasing control points it finds no
    bracketing pair and extends the line through the first and the last
    point: past the last point the weight of the last value exceeds 1. *)
Theorem interpolatePointsAt_outside (points : list ControlPoint) (s : Z) :
  (points = [] -> interpolatePointsAt points s = Throw TypeError)
  /\ (Inv.increasing points ->
      forall first last,
        JS.index points 0 = Some first ->
        JS.index points (Z.of_nat (length points) - 1) = Some last ->
        (2 <= length points)%nat ->
        (s < sampleIndex first \/ sampleIndex last < s)%Z ->
        let t := IZR (s - sampleIndex first)
                 / IZR (sampleIndex last - sampleIndex first) in
        interpolatePointsAt points s
        = Ok (value first * (1 - t) + value last * t)
        /\ ((sampleIndex last < s)%Z -> 1 < t)
        /\ ((s < sampleIndex first)%Z -> t < 0)).
Proof.
  split.
  - intros ->. reflexivity.
  - intros Hinc first last Hf Hl Hlen Hs t.
    destruct (index_inv _ _ _ Hf) as [_ Hfe].
    destruct (index_inv _ _ _ Hl) as [_ Hle].
    change (Z.to_nat 0) with 0%nat in Hfe.
    replace (Z.to_nat (Z.of_nat (length points) - 1))
      with (length points - 1)%nat in Hle by lia.
    assert (Hne : points <> []) by (intros ->; simpl in Hlen; lia).
    assert (Hfl : (sampleIndex first < sampleIndex last)%Z).
    { rewrite Hfe, Hle. apply increasing_nth; [exact Hinc | lia]. }
    assert (Hd : 0 < IZR (sampleIndex last - sampleIndex first))
      by (apply IZR_lt; lia).
    split; [|split].
    + rewrite (interpolatePointsAt_found points s first last false Hne).
      * destruct (Z.eqb_spec (sampleIndex last - sampleIndex first) 0); [lia|].
        reflexivity.
      * replace (Z.of_nat (length points) - 1)%Z
          with (Z.of_nat (length points - 1)) by lia.
        rewrite Hfe, Hle. apply search_none. intros j Hj.
        destruct Hs as [Hs|Hs].
        -- apply andb_false_intro1. apply Z.leb_gt.
           destruct j as [|j]; [rewrite <- Hfe; lia|].
           pose proof (increasing_nth points 0 (S j) Hinc ltac:(lia)).
           rewrite <- Hfe in *. lia.
        -- apply andb_false_intro2. apply geb_false.
           destruct (decide (S j = length points - 1)%nat) as [He|He].
           ++ rewrite He, <- Hle. lia.
           ++ pose proof (increasing_nth points (S j) (length points - 1) Hinc
                            ltac:(lia)).
              rewrite <- Hle in *. lia.
    + intros Hgt. subst t. apply Rdiv_ge_by' ; [exact Hd|].
      rewrite Rmult_1_l. apply IZR_lt. lia.
    + intros Hlt. subst t.
      assert (IZR (s - sampleIndex first) < 0) by (apply IZR_lt; lia).
      unfold Rdiv. pose proof (Rinv_0_lt_compat _ Hd). nra.
Qed.

Lemma for_loop_m_ext {S : Type} (n : nat) (body body' : Z -> S -> outcome S)
      (s : S) :
  (forall i s', (i < n)%nat -> body (Z.of_nat i) s' = body' (Z.of_nat i) s') ->
  JS.for_loop_m (Z.of_nat n) body s = JS.for_loop_m (Z.of_nat n) body' s.
Proof.
  induction n as [|n IH]; intros H; [reflexivity|].
  rewrite !for_loop_m_S, IH by (intros; apply H; lia).
  destruct (JS.for_loop_m (Z.of_nat n) body' s) as [s'|e]; simpl;
    [apply H; lia | reflexivity].
Qed.

Lemma insert_over {A : Type} (v : nat -> A) (m : nat) (l : list A) (x : A) :
  (m < length l)%nat ->
  <[m := x]> (map v (seq 0 m) ++ drop m l)
  = (map v (seq 0 m) ++ [x]) ++ drop (S m) l.
Proof.
  intros Hm. destruct (drop m l) as [|y rest] eqn:Hd.
  { apply (f_equal length) in Hd. rewrite length_drop in Hd. simpl in Hd. lia. }
  rewrite insert_app_r_alt by (rewrite length_map, length_seq; lia).
  rewrite length_map, length_seq, Nat.sub_diag. simpl.
  rewrite <- app_assoc. simpl. f_equal. f_equal.
  replace (S m) with (m + 1)%nat by lia.
  rewrite <- drop_drop, Hd. reflexivity.
Qed.

(** A loop of setSample calls over an existing buffer. *)
Lemma setSample_over (f : Z -> R) (w : Waveform.t) (m : nat) :
  Waveform.wf w -> (m <= length (Waveform.samples w))%nat ->
  JS.for_loop_m (Z.of_nat m) (fun i w => Waveform.setSample w i (f i)) w
  = Ok (Waveform.mk (Waveform.sampleRate w)
          (map (fun i => Rmax (-1) (Rmin 1 (f (Z.of_nat i)))) (seq 0 m)
           ++ drop m (Waveform.samples w))).
Proof.
  intros Hwf. unfold Waveform.wf in Hwf. induction m as [|m IH]; intros Hm.
  - unfold JS.for_loop_m. simpl. rewrite drop_0. destruct w; reflexivity.
  - rewrite for_loop_m_S, IH by lia. unfold bind.
    rewrite seq_S, map_app.
    rewrite setSample_ok by (simpl; lia).
    simpl Waveform.sampleRate. simpl Waveform.samples.
    rewrite put_insert, insert_over by lia. reflexivity.
Qed.

(** The samples updateWaveformFromPoints writes. *)
Lemma updateWaveformFromPoints_closed (c : t) :
  Waveform.wf (waveform c) -> controlPoints c <> [] ->
  exists g : Z -> R,
    (forall i, interpolatePointsAt (controlPoints c) i = Ok (g i))
    /\ updateWaveformFromPoints c
       = Ok (mk (Waveform.mk (Waveform.sampleRate (waveform c))
                   (map (fun i => Rmax (-1) (Rmin 1 (g (Z.of_nat i))))
                        (seq 0 (length (Waveform.samples (waveform c))))))
                (controlPoints c) (displayWidth c) (displayHeight c)).
Proof.
  intros Hwf Hne.
  exists (fun i => match interpolatePointsAt (controlPoints c) i with
                   | Ok v => v
                   | Throw _ => 0
                   end).
  assert (Hg : forall i,
            interpolatePointsAt (controlPoints c) i
            = Ok match interpolatePointsAt (controlPoints c) i with
                 | Ok v => v
                 | Throw _ => 0
                 end).
  { intros i. destruct (interpolatePointsAt_total (controlPoints c) i Hne)
      as [v Hv]. rewrite Hv. reflexivity. }
  split; [exact Hg|].
  unfold updateWaveformFromPoints.
  assert (Hn : Waveform.sampleRate (waveform c)
               = Z.of_nat (length (Waveform.samples (waveform c))))
    by (symmetry; exact Hwf).
  rewrite Hn at 1.
  rewrite (for_loop_m_ext _ _
             (fun i w =>
                Waveform.setSample w i
                  match interpolatePointsAt (controlPoints c) i with
                  | Ok v => v
                  | Throw _ => 0
                  end)).
  2:{ intros i s' _. rewrite (Hg (Z.of_nat i)) at 1. reflexivity. }
  rewrite (setSample_over _ (waveform c) _ Hwf) by lia.
  unfold bind. rewrite drop_all, app_nil_r. reflexivity.
Qed.

(** X23: collecting the control points of a waveform whose samples are in
    [-1, 1] and then redrawing the waveform from them never throws and
    leaves the sample under every control point as it was; a waveform of at
    most 64 samples, which has a control point on every sample, comes back
    unchanged. *)
Theorem redraw_keeps_control_points (c : t) :
  Waveform.valid (waveform c) -> Waveform.in_range (waveform c) ->
  exists c1 c2,
    initializeControlPoints c = Ok c1
    /\ updateWaveformFromPoints c1 = Ok c2
    /\ controlPoints c2 = controlPoints c1
    /\ Waveform.valid (waveform c2) /\ Waveform.in_range (waveform c2)
    /\ (forall j p, JS.index (controlPoints c1) j = Some p ->
          Waveform.getSample (waveform c2) (sampleIndex p)
          = Waveform.getSample (waveform c) (sampleIndex p))
    /\ ((Waveform.sampleRate (waveform c) <= 64)%Z ->
        waveform c2 = waveform c).
Proof.
  intros Hv Hr. pose proof (valid_pos _ Hv) as Hpos.
  destruct Hv as [Hp Hwf].
  assert (Hv : Waveform.valid (waveform c)) by (split; assumption).
  set (N := Waveform.sampleRate (waveform c)) in *.
  set (step := IZR N / IZR (Z.min 64 N)).
  set (points := map (fun j => mkP (JS.floor (INR j * step))
                                   (JS.get 0 (Waveform.samples (waveform c))
                                           (JS.floor (INR j * step))))
                     (seq 0 (Z.to_nat (Z.min 64 N)))).
  set (c1 := mk (waveform c) points (displayWidth c) (displayHeight c)).
  assert (Hne : points <> []).
  { intros He. apply (f_equal length) in He.
    unfold points in He. rewrite length_map, length_seq in He.
    simpl in He. lia. }
  destruct (updateWaveformFromPoints_closed c1 Hwf Hne) as [g [Hg Hup]].
  simpl in Hg, Hup. fold N in Hup.
  assert (Hlen : length (Waveform.samples (waveform c)) = Z.to_nat N)
    by (unfold Waveform.wf in Hwf; lia).
  rewrite Hlen in Hup.
  assert (Hkeep : forall j p, JS.index points j = Some p ->
            Rmax (-1) (Rmin 1 (g (sampleIndex p)))
            = JS.get 0 (Waveform.samples (waveform c)) (sampleIndex p)
            /\ (0 <= sampleIndex p < N)%Z).
  { intros j p Hj.
    destruct (initial_points_index (waveform c) j p Hv Hj) as [_ [Hpe Hb]].
    fold N in Hb. split; [|exact Hb].
    pose proof (interpolate_at_point points j p
                  (initial_points_increasing (waveform c) Hv) Hj) as Hat.
    rewrite Hg in Hat. injection Hat as ->.
    rewrite clamp_inside.
    - rewrite Hpe. reflexivity.
    - rewrite Hpe. simpl. apply get_in_range; try assumption.
      rewrite Hpe in Hb. exact Hb. }
  exists c1. eexists. split; [apply initializeControlPoints_closed, Hv|].
  split; [exact Hup|]. split; [reflexivity|]. simpl waveform.
  split; [apply filled_valid, Hp|]. split; [|split].
  - unfold Waveform.in_range. simpl. apply Forall_forall. intros x Hx.
    apply list_elem_of_In, in_map_iff in Hx. destruct Hx as [i [<- _]].
    apply clamp_unit_bounds.
  - intros j p Hj. simpl in Hj.
    destruct (Hkeep j p Hj) as [Hval Hb].
    rewrite !getSample_ok by (simpl; exact Hb). simpl. f_equal.
    rewrite filled_get by exact Hb.
    rewrite Z2Nat.id by lia. exact Hval.
  - intros H64.
    assert (Heq : map (fun i : nat => Rmax (-1) (Rmin 1 (g (Z.of_nat i))))
                      (seq 0 (Z.to_nat N))
                  = Waveform.samples (waveform c)).
    2:{ rewrite Heq. unfold N. destruct (waveform c); reflexivity. }
    transitivity (map (fun j => (fun x : R => x)
                                  (nth j (Waveform.samples (waveform c)) 0))
                      (seq 0 (length (Waveform.samples (waveform c))))).
    2:{ rewrite (map_seq_nth (fun x : R => x)). apply map_id. }
    rewrite Hlen. apply map_ext_in. intros i Hi. apply in_seq in Hi.
    assert (Hidx : JS.index points (Z.of_nat i)
                   = Some (mkP (Z.of_nat i)
                               (JS.get 0 (Waveform.samples (waveform c))
                                       (Z.of_nat i)))).
    { unfold JS.index. destruct (Z.ltb_spec (Z.of_nat i) 0); [lia|].
      unfold points. rewrite Nat2Z.id, list_lookup_fmap.
      rewrite lookup_seq_lt by lia. simpl.
      rewrite INR_IZR_INZ. unfold step.
      rewrite step_small by (subst N; lia). reflexivity. }
    destruct (Hkeep _ _ Hidx) as [Hval _]. simpl in Hval.
    rewrite Hval. apply get_nth_default.
Qed.

Lemma blend_length (idx : Z) (v : R) (l : list R) (i : Z) :
  length (Inv.blend idx v l i) = length l.
Proof.
  unfold Inv.blend. cbv zeta.
  destruct (_ && _); [apply put_length | reflexivity].
Qed.

Lemma blend_get (idx : Z) (v : R) (l : list R) (i j : Z) :
  (0 <= j < Z.of_nat (length l))%Z ->
  JS.get 0 (Inv.blend idx v l i) j
  = if (j =? idx + i)%Z
    then Rmax (-1)
           (Rmin 1 (JS.get 0 l j * (1 - (1 - Rabs (IZR i) / 3))
                    + v * (1 - Rabs (IZR i) / 3)))
    else JS.get 0 l j.
Proof.
  intros Hj. unfold Inv.blend. cbv zeta.
  destruct (Z.eqb_spec j (idx + i)) as [->|Hne].
  - destruct (Z.geb_spec (idx + i) 0); [|lia].
    destruct (Z.ltb_spec (idx + i) (Z.of_nat (length l))); [|lia].
    simpl. apply get_put_same. lia.
  - destruct (Z.geb_spec (idx + i) 0); [|reflexivity].
    destruct (Z.ltb_spec (idx + i) (Z.of_nat (length l))); [|reflexivity].
    simpl. apply get_put_other; lia.
Qed.

Lemma put_in_range (l : list R) (k : Z) (x : R) :
  Forall (fun x => -1 <= x <= 1) l -> -1 <= x <= 1 ->
  Forall (fun x => -1 <= x <= 1) (JS.put l k x).
Proof.
  intros Hl Hx. unfold JS.put. destruct (k <? 0)%Z; [exact Hl|].
  apply Forall_insert; assumption.
Qed.

Lemma blend_in_range (idx : Z) (v : R) (l : list R) (i : Z) :
  Forall (fun x => -1 <= x <= 1) l ->
  Forall (fun x => -1 <= x <= 1) (Inv.blend idx v l i).
Proof.
  intros Hl. unfold Inv.blend. cbv zeta.
  destruct (_ && _); [|exact Hl].
  apply put_in_range; [exact Hl | apply clamp_unit_bounds].
Qed.

(** One round of the neighbour loop never throws. *)
Lemma neighbor_round (N idx i : Z) (v : R) (l : list R) :
  Z.of_nat (length l) = N ->
  (let neighborIndex := (idx + i)%Z in
   if (neighborIndex >=? 0)%Z
      && (neighborIndex <? Waveform.sampleRate (Waveform.mk N l))%Z
   then
     let weight := 1 - Rabs (IZR i) / IZR (2 + 1) in
     currentValue <- Waveform.getSample (Waveform.mk N l) neighborIndex ;;
     Waveform.setSample (Waveform.mk N l) neighborIndex
       (currentValue * (1 - weight) + v * weight)
   else Ok (Waveform.mk N l))
  = Ok (Waveform.mk N (Inv.blend idx v l i)).
Proof.
  intros Hlen. unfold Inv.blend. cbv zeta. simpl Waveform.sampleRate.
  rewrite Hlen.
  destruct (Z.geb_spec (idx + i) 0) as [H0|H0]; [|reflexivity].
  destruct (Z.ltb_spec (idx + i) N) as [H1|H1]; [|reflexivity].
  simpl andb. cbv iota.
  rewrite getSample_ok by (simpl; lia). unfold bind.
  rewrite setSample_ok by (simpl; lia). reflexivity.
Qed.

Lemma bind_ok {A B : Type} (c : outcome A) (a : A) (k : A -> outcome B) :
  c = Ok a -> (x <- c ;; k x) = k a.
Proof. intros ->. reflexivity. Qed.

(** The neighbour loop never throws: it blends round after round. *)
Lemma neighbor_loop (N idx start : Z) (v : R) (n : nat) (l : list R) :
  Z.of_nat (length l) = N ->
  JS.for_range_m start (start + Z.of_nat n)
    (fun i w =>
       let neighborIndex := (idx + i)%Z in
       if (neighborIndex >=? 0)%Z
          && (neighborIndex <? Waveform.sampleRate w)%Z
       then
         let weight := 1 - Rabs (IZR i) / IZR (2 + 1) in
         currentValue <- Waveform.getSample w neighborIndex ;;
         Waveform.setSample w neighborIndex
           (currentValue * (1 - weight) + v * weight)
       else Ok w)
    (Waveform.mk N l)
  = Ok (Waveform.mk N
          (fold_left (Inv.blend idx v)
                     (map (fun j => (start + Z.of_nat j)%Z) (seq 0 n)) l)).
Proof.
  intros Hlen. induction n as [|n IH].
  - rewrite for_range_m_empty by lia. reflexivity.
  - rewrite for_range_m_steps, IH. unfold bind at 1.
    rewrite seq_S, map_app, fold_left_app. simpl fold_left.
    apply neighbor_round.
    clear IH. generalize (seq 0 n). intros js. revert l Hlen.
    induction js as [|j js IHj]; intros l Hlen; simpl; [exact Hlen|].
    apply IHj. rewrite blend_length. exact Hlen.
Qed.

(** What updateWaveformAtPosition does to the buffer when the position is
    on a sample. *)
Lemma updateWaveformAtPosition_closed (c : t) (x y : R) :
  Waveform.wf (waveform c) ->
  let idx := JS.floor (screenToSample c x) in
  let v := screenToValue c y in
  (0 <= idx < Waveform.sampleRate (waveform c))%Z ->
  updateWaveformAtPosition c x y
  = Ok (mk (Waveform.mk (Waveform.sampleRate (waveform c))
              (fold_left (Inv.blend idx v) [-2; -1; 0; 1; 2]%Z
                 (JS.put (Waveform.samples (waveform c)) idx
                         (Rmax (-1) (Rmin 1 v)))))
           (controlPoints c) (displayWidth c) (displayHeight c)).
Proof.
  intros Hwf idx v Hidx. unfold updateWaveformAtPosition. cbv zeta.
  fold idx. fold v.
  destruct (Z.geb_spec idx 0); [|lia].
  destruct (Z.ltb_spec idx (Waveform.sampleRate (waveform c))); [|lia].
  simpl andb. cbv iota.
  rewrite setSample_ok by lia. unfold bind at 1.
  pose proof (neighbor_loop (Waveform.sampleRate (waveform c)) idx (-2) v 5
                (JS.put (Waveform.samples (waveform c)) idx
                        (Rmax (-1) (Rmin 1 v)))) as Hloop.
  etransitivity; [apply bind_ok; apply Hloop|].
  - rewrite put_length. exact Hwf.
  - reflexivity.
Qed.

Lemma setSample_then_get (w : Waveform.t) (i : Z) (v : R) :
  Waveform.wf w -> (0 <= i < Waveform.sampleRate w)%Z ->
  (w' <- Waveform.setSample w i v ;; Waveform.getSample w' i)
  = Ok (Rmax (-1) (Rmin 1 v)).
Proof.
  intros Hwf Hi. rewrite setSample_ok by exact Hi. unfold bind.
  rewrite getSample_ok by (simpl; exact Hi). simpl.
  rewrite get_put_same by (unfold Waveform.wf in Hwf; lia). reflexivity.
Qed.

(** X24: updateWaveformAtPosition on a display of positive width and
    height never throws on a well-formed waveform.  A position off the
    waveform changes nothing.  A position on sample k leaves in that sample
    what setSample(k, v) stores, v being the value of the position; in each
    of the four samples within distance 2 it leaves what setSample stores
    for the mix of the old sample and v with weight 1 - d / 3; and it leaves
    every other sample and the control points as they were. *)
Theorem updateWaveformAtPosition_local (c : t) (x y : R) :
  Waveform.valid (waveform c) -> 0 < displayWidth c -> 0 < displayHeight c ->
  let N := Waveform.sampleRate (waveform c) in
  let k := JS.floor (screenToSample c x) in
  let v := screenToValue c y in
  exists c',
    updateWaveformAtPosition c x y = Ok c'
    /\ controlPoints c' = controlPoints c
    /\ Waveform.valid (waveform c')
    /\ (Waveform.in_range (waveform c) -> Waveform.in_range (waveform c'))
    /\ (~ (0 <= k < N)%Z -> c' = c)
    /\ ((0 <= k < N)%Z ->
        Waveform.getSample (waveform c') k
        = (w <- Waveform.setSample (waveform c) k v ;; Waveform.getSample w k)
        /\ (forall d, (d = -2 \/ d = -1 \/ d = 1 \/ d = 2)%Z ->
              (0 <= k + d < N)%Z ->
              let weight := 1 - Rabs (IZR d) / 3 in
              exists old,
                Waveform.getSample (waveform c) (k + d) = Ok old
                /\ Waveform.getSample (waveform c') (k + d)
                   = (w <- Waveform.setSample (waveform c) (k + d)
                             (old * (1 - weight) + v * weight) ;;
                      Waveform.getSample w (k + d)))
        /\ (forall j, (j < k - 2 \/ k + 2 < j)%Z ->
              Waveform.getSample (waveform c') j
              = Waveform.getSample (waveform c) j)).
Proof.
  intros [Hp Hwf] _ _ N k v.
  destruct (decide (0 <= k < N)%Z) as [Hk|Hk].
  - eexists. split; [apply updateWaveformAtPosition_closed; assumption|].
    fold N k v.
    set (l0 := JS.put (Waveform.samples (waveform c)) k (Rmax (-1) (Rmin 1 v))).
    assert (Hl0 : Z.of_nat (length l0) = N)
      by (unfold l0; rewrite put_length; exact Hwf).
    assert (Hlen : Z.of_nat (length (Waveform.samples (waveform c))) = N)
      by exact Hwf.
    assert (Hget : forall j, (0 <= j < N)%Z ->
              JS.get 0 (fold_left (Inv.blend k v) [-2; -1; 0; 1; 2]%Z l0) j
              = if (j =? k + 2)%Z
                then Rmax (-1) (Rmin 1
                       (JS.get 0 (Waveform.samples (waveform c)) j
                        * (1 - (1 - Rabs 2 / 3)) + v * (1 - Rabs 2 / 3)))
                else if (j =? k + 1)%Z
                then Rmax (-1) (Rmin 1
                       (JS.get 0 (Waveform.samples (waveform c)) j
                        * (1 - (1 - Rabs 1 / 3)) + v * (1 - Rabs 1 / 3)))
                else if (j =? k + 0)%Z
                then Rmax (-1) (Rmin 1
                       (Rmax (-1) (Rmin 1 v)
                        * (1 - (1 - Rabs 0 / 3)) + v * (1 - Rabs 0 / 3)))
                else if (j =? k + -1)%Z
                then Rmax (-1) (Rmin 1
                       (JS.get 0 (Waveform.samples (waveform c)) j
                        * (1 - (1 - Rabs (-1) / 3)) + v * (1 - Rabs (-1) / 3)))
                else if (j =? k + -2)%Z
                then Rmax (-1) (Rmin 1
                       (JS.get 0 (Waveform.samples (waveform c)) j
                        * (1 - (1 - Rabs (-2) / 3)) + v * (1 - Rabs (-2) / 3)))
                else JS.get 0 (Waveform.samples (waveform c)) j).
    { intros j Hj. simpl fold_left.
      rewrite !blend_get by (rewrite ?blend_length; lia).
      unfold l0.
      destruct (Z.eqb_spec j (k + 2)), (Z.eqb_spec j (k + 1)),
        (Z.eqb_spec j (k + 0)), (Z.eqb_spec j (k + -1)),
        (Z.eqb_spec j (k + -2)); try lia;
        try (rewrite get_put_other by lia; reflexivity).
      subst j. rewrite Z.add_0_r, get_put_same by lia. reflexivity. }
    split; [reflexivity|]. simpl waveform. split.
    { split; [exact Hp|]. unfold Waveform.wf. simpl.
      rewrite !blend_length. exact Hl0. }
    split.
    { intros Hr. unfold Waveform.in_range. simpl fold_left. simpl.
      repeat apply blend_in_range.
      apply put_in_range; [exact Hr | apply clamp_unit_bounds]. }
    split; [intros Hn; contradiction|]. intros _. split; [|split].
    + rewrite setSample_then_get by (try exact Hwf; lia).
      rewrite getSample_ok by (simpl; lia). simpl Waveform.samples.
      rewrite Hget by lia.
      destruct (Z.eqb_spec k (k + 2)); [lia|].
      destruct (Z.eqb_spec k (k + 1)); [lia|].
      destruct (Z.eqb_spec k (k + 0)); [|lia].
      f_equal. rewrite Rabs_R0.
      replace (Rmax (-1) (Rmin 1 v) * (1 - (1 - 0 / 3)) + v * (1 - 0 / 3))
        with v by lra.
      reflexivity.
    + intros d Hd Hkd weight.
      exists (JS.get 0 (Waveform.samples (waveform c)) (k + d)).
      split; [apply getSample_ok; lia|].
      rewrite setSample_then_get by (try exact Hwf; lia).
      rewrite getSample_ok by (simpl; lia).
      simpl Waveform.samples. rewrite Hget by lia. subst weight.
      destruct Hd as [->|[->|[->| ->]]].
      * destruct (Z.eqb_spec (k + -2) (k + 2)); [lia|].
        destruct (Z.eqb_spec (k + -2) (k + 1)); [lia|].
        destruct (Z.eqb_spec (k + -2) (k + 0)); [lia|].
        destruct (Z.eqb_spec (k + -2) (k + -1)); [lia|].
        destruct (Z.eqb_spec (k + -2) (k + -2)); [|lia]. reflexivity.
      * destruct (Z.eqb_spec (k + -1) (k + 2)); [lia|].
        destruct (Z.eqb_spec (k + -1) (k + 1)); [lia|].
        destruct (Z.eqb_spec (k + -1) (k + 0)); [lia|].
        destruct (Z.eqb_spec (k + -1) (k + -1)); [|lia]. reflexivity.
      * destruct (Z.eqb_spec (k + 1) (k + 2)); [lia|].
        destruct (Z.eqb_spec (k + 1) (k + 1)); [|lia]. reflexivity.
      * destruct (Z.eqb_spec (k + 2) (k + 2)); [|lia]. reflexivity.
    + intros j Hj.
      destruct (decide (0 <= j < N)%Z) as [Hin|Hout].
      * rewrite !getSample_ok by (simpl; lia). simpl Waveform.samples.
        rewrite Hget by lia.
        destruct (Z.eqb_spec j (k + 2)); [lia|].
        destruct (Z.eqb_spec j (k + 1)); [lia|].
        destruct (Z.eqb_spec j (k + 0)); [lia|].
        destruct (Z.eqb_spec j (k + -1)); [lia|].
        destruct (Z.eqb_spec j (k + -2)); [lia|]. reflexivity.
      * rewrite !getSample_throws by (simpl; lia). reflexivity.
  - exists c. split.
    { unfold updateWaveformAtPosition. cbv zeta. fold k. fold N.
      destruct (Z.geb_spec k 0); [|reflexivity].
      destruct (Z.ltb_spec k N); [lia | reflexivity]. }
    split; [reflexivity|]. split; [split; assumption|].
    split; [intros H; exact H|]. split; [reflexivity|].
    intros Hin. contradiction.
Qed.

End Canvas.

(** ** FrequencyCanvas: dragging a harmonic bar *)

Section Bars.

Import FrequencySpectrum FrequencyCanvas.
Local Open Scope R_scope.

Lemma stored_phase_kept (h : Harmonic) :
  Spec.harmonic_stored h -> JS.fmod (phase h) (PI * 2) = phase h.
Proof.
  intros [_ Hp]. pose proof PI_RGT_0. apply fmod_small; lra.
Qed.

Lemma clamp_twice (r : R) :
  Rmax 0 (Rmin 1 (Rmax 0 (Rmin 1 r))) = Rmax 0 (Rmin 1 r).
Proof.
  rewrite !clamp_01. unfold Spec.clamp.
  repeat (destruct (decide _)); lra.
Qed.

Lemma get_stored (sp : FrequencySpectrum.t) (i : Z) :
  wf sp -> Forall Spec.harmonic_stored (harmonics sp) ->
  (0 <= i < harmonicCount sp)%Z ->
  Spec.harmonic_stored (JS.get hole (harmonics sp) i).
Proof.
  intros Hwf Hall Hi. unfold wf in Hwf. unfold JS.get.
  destruct (Z.ltb_spec i 0); [lia|].
  destruct (lookup_lt_is_Some_2 (harmonics sp) (Z.to_nat i) ltac:(lia))
    as [h Hh].
  rewrite Hh. simpl. rewrite Forall_forall in Hall.
  apply Hall. eapply list_elem_of_lookup_2. exact Hh.
Qed.

Lemma unit_loop_ok (n : nat) (body : Z -> unit -> outcome unit) :
  (forall i, (i < n)%nat -> body (Z.of_nat i) tt = Ok tt) ->
  JS.for_loop_m (Z.of_nat n) body tt = Ok tt.
Proof.
  induction n as [|n IH]; intros H; [reflexivity|].
  rewrite for_loop_m_S, IH by (intros; apply H; lia). apply H. lia.
Qed.

Lemma unit_loop_throws (n k : nat) (body : Z -> unit -> outcome unit)
      (e : error) :
  (k < n)%nat ->
  (forall i, (i < k)%nat -> body (Z.of_nat i) tt = Ok tt) ->
  body (Z.of_nat k) tt = Throw e ->
  JS.for_loop_m (Z.of_nat n) body tt = Throw e.
Proof.
  intros Hk Hok Hthrow. induction n as [|n IH]; [lia|].
  rewrite for_loop_m_S.
  destruct (decide (k = n)) as [->|Hne].
  - rewrite unit_loop_ok by exact Hok. exact Hthrow.
  - rewrite IH by lia. reflexivity.
Qed.

(** render returns when the spectrum has the 32 harmonics of the display,
    and otherwise throws at the first bar the spectrum does not have. *)
Lemma render_outcome (c : FrequencyCanvas.t) :
  (0 <= harmonicCount (spectrum c))%Z ->
  render c
  = if (visibleHarmonics <=? harmonicCount (spectrum c))%Z then Ok tt
    else Throw (OutOfRange (harmonicCount (spectrum c))).
Proof.
  intros H0. unfold render, drawHarmonicBars, visibleHarmonics.
  change 32%Z with (Z.of_nat 32).
  destruct (Z.leb_spec (Z.of_nat 32) (harmonicCount (spectrum c))) as [Hle|Hlt].
  - apply unit_loop_ok. intros i Hi.
    rewrite getHarmonic_ok by lia. reflexivity.
  - apply (unit_loop_throws 32 (Z.to_nat (harmonicCount (spectrum c)))).
    + lia.
    + intros i Hi. rewrite getHarmonic_ok by lia. reflexivity.
    + rewrite Z2Nat.id by lia. rewrite getHarmonic_throws by lia. reflexivity.
Qed.

(** X25: updateHarmonicAtPosition on a spectrum built by the public
    operations, on a display of positive width with the bar area taller
    than its 20 pixel margin.  For a
    harmonic of the spectrum it stores the bar height as a fraction of the
    bar area, clamped to [0, 1], keeps the phase of that harmonic and leaves
    the other harmonics alone; at or above the margin the amplitude is 1, at
    or below the base line it is 0.  It then draws the 32 bars: the call
    returns when the spectrum has at least 32 harmonics, and with fewer it
    throws, after the store, the out-of-bounds error of the first bar the
    spectrum lacks.  For a harmonic the spectrum does not have it throws
    before it changes anything. *)
Theorem updateHarmonicAtPosition_sets_bar (c : t) (harmonic : Z) (y : R) :
  Spec.public_spectrum (spectrum c) ->
  0 < displayWidth c -> 20 < displayHeight c * 0.85 ->
  let centerY := displayHeight c * 0.85 in
  let count := harmonicCount (spectrum c) in
  ((0 <= harmonic < count)%Z ->
   exists c' old new,
     updateHarmonicAtPosition c harmonic y
     = (c', if (32 <=? count)%Z then Ok tt else Throw (OutOfRange count))
     /\ displayWidth c' = displayWidth c
     /\ displayHeight c' = displayHeight c
     /\ harmonicCount (spectrum c') = count
     /\ getHarmonic (spectrum c) harmonic = Ok old
     /\ getHarmonic (spectrum c') harmonic = Ok new
     /\ phase new = phase old
     /\ amplitude new = Spec.clamp ((centerY - y) / (centerY - 20)) 0 1
     /\ (y <= 20 -> amplitude new = 1)
     /\ (centerY <= y -> amplitude new = 0)
     /\ (forall i, i <> harmonic ->
           getHarmonic (spectrum c') i = getHarmonic (spectrum c) i))
  /\ (~ (0 <= harmonic < count)%Z ->
      updateHarmonicAtPosition c harmonic y = (c, Throw (OutOfRange harmonic)))
  /\ (forall x found, findHarmonicAtPosition c x y = Some found ->
        (0 <= found < 32)%Z /\ y <= centerY).
Proof.
  intros Hpub _ Hh centerY count.
  assert (Hc : 20 < centerY) by exact Hh.
  destruct (public_spectrum_stored _ Hpub) as [Hwf Hall].
  split; [|split].
  - intros Hi.
    pose proof (get_stored _ harmonic Hwf Hall Hi) as Hst.
    assert (Hlen : (Z.to_nat harmonic < length (harmonics (spectrum c)))%nat)
      by (unfold wf in Hwf; lia).
    assert (Hgi : forall x,
              JS.get hole (<[Z.to_nat harmonic := x]> (harmonics (spectrum c)))
                     harmonic = x).
    { intros x. unfold JS.get. destruct (Z.ltb_spec harmonic 0); [lia|].
      rewrite list_lookup_insert_eq by exact Hlen. reflexivity. }
    eexists. exists (JS.get hole (harmonics (spectrum c)) harmonic).
    eexists. split.
    { unfold updateHarmonicAtPosition. cbv zeta.
      rewrite getHarmonic_ok by exact Hi.
      rewrite setHarmonic_ok by assumption.
      rewrite render_outcome by (simpl; fold count; lia).
      reflexivity. }
    split; [reflexivity|]. split; [reflexivity|]. split; [reflexivity|].
    split; [apply getHarmonic_ok, Hi|]. simpl spectrum.
    split.
    { rewrite getHarmonic_ok by (simpl; exact Hi). simpl harmonics.
      rewrite Hgi. reflexivity. }
    cbn [phase amplitude]. fold centerY.
    rewrite clamp_twice.
    split; [apply stored_phase_kept, Hst|].
    split; [apply clamp_01|]. split; [|split].
    + intros Hy.
      assert (1 <= (centerY - y) / (centerY - 20))
        by (apply Rdiv_ge_by; lra).
      rewrite Rmin_left by lra. apply Rmax_right. lra.
    + intros Hy.
      assert ((centerY - y) / (centerY - 20) <= 0).
      { unfold Rdiv.
        assert (0 < / (centerY - 20)) by (apply Rinv_0_lt_compat; lra).
        nra. }
      rewrite Rmin_right by lra. apply Rmax_left. lra.
    + intros i Hne.
      destruct (decide (0 <= i < harmonicCount (spectrum c))%Z) as [Hin|Hout].
      * rewrite !getHarmonic_ok by (simpl; exact Hin). simpl harmonics.
        f_equal. unfold JS.get. destruct (Z.ltb_spec i 0); [lia|].
        rewrite list_lookup_insert_ne by lia. reflexivity.
      * rewrite !getHarmonic_throws by (simpl; exact Hout). reflexivity.
  - intros Hout. unfold updateHarmonicAtPosition. cbv zeta.
    rewrite getHarmonic_throws by exact Hout. reflexivity.
  - intros x found Hf. unfold findHarmonicAtPosition in Hf. cbv zeta in Hf.
    fold centerY in Hf.
    destruct (Z.geb_spec (JS.floor (x / (displayWidth c / IZR visibleHarmonics))) 0);
      [|discriminate].
    destruct (Z.ltb_spec (JS.floor (x / (displayWidth c / IZR visibleHarmonics)))
                         visibleHarmonics); [|discriminate].
    simpl in Hf.
    destruct (bool_decide (y <= centerY)) eqn:Hy; [|discriminate].
    apply bool_decide_eq_true in Hy. injection Hf as <-.
    unfold visibleHarmonics in *. split; [lia | exact Hy].
Qed.

End Bars.

(** ** WaveformExporter: the bytes of the WAV file *)

Section Exporter.

Import WaveformExporter.
Local Open Scope Z_scope.

Lemma setBytes_ok (view : list Z) (off : Z) (bytes : list Z) :
  0 <= off -> off + Z.of_nat (length bytes) <= Z.of_nat (length view) ->
  JS.setBytes view off bytes
  = Ok (take (Z.to_nat off) view ++ bytes
        ++ drop (Z.to_nat off + length bytes) view).
Proof.
  intros H0 H1. unfold JS.setBytes.
  destruct (Z.ltb_spec off 0); [lia|].
  destruct (Z.ltb_spec (Z.of_nat (length view))
                       (off + Z.of_nat (length bytes))); [lia|].
  reflexivity.
Qed.

(** Overwriting the part [b] of a buffer [a ++ b ++ c]. *)
Lemma setBytes_splice (a b c bytes : list Z) :
  length b = length bytes ->
  JS.setBytes (a ++ b ++ c) (Z.of_nat (length a)) bytes = Ok (a ++ bytes ++ c).
Proof.
  intros Hb. rewrite setBytes_ok by (rewrite ?length_app; lia).
  rewrite Nat2Z.id. rewrite take_app_length' by reflexivity.
  rewrite drop_app_add' by reflexivity.
  rewrite <- Hb, drop_app_length' by reflexivity. reflexivity.
Qed.

(** The same on a split of the buffer at the offset. *)
Lemma setBytes_at (view : list Z) (off : nat) (bytes : list Z) :
  (off + length bytes <= length view)%nat ->
  JS.setBytes view (Z.of_nat off) bytes
  = Ok (take off view ++ bytes ++ drop (off + length bytes) view).
Proof.
  intros H. rewrite setBytes_ok by lia. rewrite Nat2Z.id. reflexivity.
Qed.

Lemma writeString_prefix (view : list Z) (off m : nat) (s : list ascii) :
  (m <= length s)%nat -> (off + length s <= length view)%nat ->
  JS.for_loop_m (Z.of_nat m)
    (fun i view => JS.setUint8 view (Z.of_nat off + i) (JS.charCodeAt s i))
    view
  = Ok (take off view
        ++ map (fun c => Z.of_nat (nat_of_ascii c) mod 256) (take m s)
        ++ drop (off + m) view).
Proof.
  intros Hm Hfit. induction m as [|m IH].
  - unfold JS.for_loop_m. simpl. rewrite Nat.add_0_r, take_drop. reflexivity.
  - rewrite for_loop_m_S, IH by lia. unfold bind.
    destruct (lookup_lt_is_Some_2 s m ltac:(lia)) as [ch Hch].
    destruct (drop (off + m) view) as [|y rest] eqn:Hd.
    { apply (f_equal length) in Hd. rewrite length_drop in Hd. simpl in Hd. lia. }
    unfold JS.setUint8. simpl JS.bytesLE.
    replace (Z.of_nat off + Z.of_nat m)
      with (Z.of_nat (length (take off view
              ++ map (fun c => Z.of_nat (nat_of_ascii c) mod 256) (take m s)))).
    2:{ rewrite length_app, length_map, !length_take. lia. }
    rewrite (app_assoc (take off view)).
    change (y :: rest) with ([y] ++ rest).
    rewrite setBytes_splice by reflexivity.
    rewrite (take_S_r s m ch Hch), map_app. simpl map.
    unfold JS.charCodeAt. rewrite (get_lookup zero s m ch Hch).
    replace (off + S m)%nat with (off + m + 1)%nat by lia.
    rewrite <- drop_drop, Hd. simpl drop.
    rewrite <- !app_assoc. reflexivity.
Qed.

(** writeString stores the character codes at the offset. *)
Lemma writeString_at (view : list Z) (off : nat) (s : list ascii) :
  (off + length s <= length view)%nat ->
  writeString view (Z.of_nat off) s
  = Ok (take off view
        ++ map (fun c => Z.of_nat (nat_of_ascii c) mod 256) s
        ++ drop (off + length s) view).
Proof.
  intros Hfit. unfold writeString.
  rewrite writeString_prefix by lia. rewrite (take_ge s) by lia. reflexivity.
Qed.

Lemma setBytes_splice_at (a b c bytes : list Z) (off : Z) :
  off = Z.of_nat (length a) -> length b = length bytes ->
  JS.setBytes (a ++ b ++ c) off bytes = Ok (a ++ bytes ++ c).
Proof. intros ->. apply setBytes_splice. Qed.

Lemma flat_map_one {A B : Type} (f : A -> list B) (x : A) :
  flat_map f [x] = f x.
Proof. simpl. apply app_nil_r. Qed.

Lemma pcm_length (l : list R) :
  length (flat_map (fun x => JS.bytesLE 2 (Inv.pcm16 x)) l) = (2 * length l)%nat.
Proof.
  induction l as [|a l IHl]; [reflexivity|].
  change (a :: l) with ([a] ++ l).
  rewrite flat_map_app, length_app, IHl, flat_map_one, length_app.
  simpl. lia.
Qed.

Lemma pcm_prefix (header : list Z) (audioData : list R) (m : nat) :
  (m <= length audioData)%nat ->
  JS.for_loop_m (Z.of_nat m)
    (fun i '(view, offset) =>
       let sample := Rmax (-1) (Rmin 1 (JS.get 0%R audioData i)) in
       view <- JS.setInt16 view offset (sample * 32767)%R true ;;
       Ok (view, offset + 2))
    (header ++ replicate (2 * length audioData) 0, Z.of_nat (length header))
  = Ok (header
        ++ flat_map (fun x => JS.bytesLE 2 (Inv.pcm16 x)) (take m audioData)
        ++ replicate (2 * (length audioData - m)) 0,
        Z.of_nat (length header) + 2 * Z.of_nat m).
Proof.
  intros Hm. induction m as [|m IH].
  - unfold JS.for_loop_m. simpl. rewrite Nat.sub_0_r, Z.add_0_r. reflexivity.
  - rewrite for_loop_m_S, IH by lia. unfold bind at 1. cbv zeta.
    destruct (lookup_lt_is_Some_2 audioData m ltac:(lia)) as [x Hx].
    rewrite (get_lookup 0%R audioData m x Hx).
    unfold JS.setInt16, JS.ordered.
    replace (2 * (length audioData - m))%nat
      with (2 + 2 * (length audioData - S m))%nat by lia.
    rewrite replicate_add, (app_assoc header).
    rewrite (setBytes_splice_at _ (replicate 2 0)).
    + unfold bind. rewrite (take_S_r audioData m x Hx), flat_map_app.
      rewrite flat_map_one, <- !app_assoc.
      f_equal. f_equal. lia.
    + rewrite length_app, pcm_length, length_take. lia.
    + reflexivity.
Qed.

Lemma writeString_ok (view : list Z) (off : Z) (s : list ascii) :
  0 <= off -> (Z.to_nat off + length s <= length view)%nat ->
  writeString view off s
  = Ok (take (Z.to_nat off) view
        ++ map (fun c => Z.of_nat (nat_of_ascii c) mod 256) s
        ++ drop (Z.to_nat off + length s) view).
Proof.
  intros H0 Hfit. rewrite <- (Z2Nat.id off) at 1 by exact H0.
  apply writeString_at. exact Hfit.
Qed.

(** What createWAVBuffer returns: the header, then two bytes a sample. *)
Lemma createWAVBuffer_closed (audioData : list R) (sampleRate : Z) :
  createWAVBuffer audioData sampleRate
  = Ok (Inv.wav_header (Z.of_nat (length audioData)) sampleRate
        ++ flat_map (fun x => JS.bytesLE 2 (Inv.pcm16 x)) audioData).
Proof.
  unfold createWAVBuffer. cbv zeta.
  change (16 / 8) with 2. change (1 * 2) with 2.
  set (n := length audioData).
  unfold JS.ArrayBuffer.
  replace (Z.to_nat (44 + Z.of_nat n * 2)) with (44 + 2 * n)%nat by lia.
  rewrite replicate_add.
  set (rest := replicate (2 * n) 0).
  unfold JS.setUint32, JS.setUint16, JS.ordered.
  simpl (replicate 44 0). simpl app.
  do 13 (first [ rewrite writeString_ok by (simpl; lia)
               | rewrite setBytes_ok by (simpl; lia) ];
         unfold bind at 1; simpl take; simpl drop; simpl map; simpl app).
  etransitivity.
  { apply bind_ok.
    exact (pcm_prefix (Inv.wav_header (Z.of_nat n) sampleRate) audioData n
                      (le_n _)). }
  simpl fst. rewrite take_ge by (unfold n; lia).
  rewrite Nat.sub_diag. simpl replicate. rewrite app_nil_r. reflexivity.
Qed.

Lemma bytesLE_range (count : nat) (v : Z) :
  Forall (fun b => 0 <= b < 256) (JS.bytesLE count v).
Proof.
  revert v. induction count as [|count IH]; intros v; simpl; constructor.
  - apply Z.mod_pos_bound. lia.
  - apply IH.
Qed.

Lemma bytesLE_length (count : nat) (v : Z) :
  length (JS.bytesLE count v) = count.
Proof.
  revert v. induction count as [|count IH]; intros v; simpl;
    [reflexivity | rewrite IH; reflexivity].
Qed.

(** Reading back what bytesLE wrote gives the integer modulo 256^count. *)
Lemma unsigned_bytesLE (count : nat) (v : Z) :
  Inv.unsigned (JS.bytesLE count v) = v mod 256 ^ Z.of_nat count.
Proof.
  revert v. induction count as [|count IH]; intros v.
  - simpl. rewrite Z.mod_1_r. reflexivity.
  - simpl JS.bytesLE. simpl Inv.unsigned. fold (Inv.unsigned (JS.bytesLE count (v / 256))).
    rewrite IH. rewrite Nat2Z.inj_succ, Z.pow_succ_r by lia.
    rewrite Z.rem_mul_r by lia. reflexivity.
Qed.

Lemma header_length (n sampleRate : Z) :
  length (Inv.wav_header n sampleRate) = 44%nat.
Proof. reflexivity. Qed.

Lemma header_range (n sampleRate : Z) :
  Forall (fun b => 0 <= b < 256) (Inv.wav_header n sampleRate).
Proof.
  unfold Inv.wav_header.
  repeat (apply Forall_app; split); try apply bytesLE_range;
    repeat constructor; lia.
Qed.

Lemma pcm_range (l : list R) :
  Forall (fun b => 0 <= b < 256)
         (flat_map (fun x => JS.bytesLE 2 (Inv.pcm16 x)) l).
Proof.
  induction l as [|x l IH]; [constructor|].
  change (x :: l) with ([x] ++ l). rewrite flat_map_app, flat_map_one.
  apply Forall_app. split; [apply bytesLE_range | exact IH].
Qed.

(** X26: createWAVBuffer never throws.  The buffer holds 44 + 2 n bytes
    for n samples: the tags RIFF, WAVE, fmt and data in their places, and,
    read back little-endian, the chunk size 36 + 2 n, format 1 (PCM), one
    channel, the sample rate, the byte rate 2 * sampleRate, block size 2, 16
    bits a sample and the data size 2 n, each modulo 2^32. *)
Theorem createWAVBuffer_header (audioData : list R) (sampleRate : Z) :
  let n := Z.of_nat (length audioData) in
  exists buffer,
    createWAVBuffer audioData sampleRate = Ok buffer
    /\ Z.of_nat (length buffer) = 44 + 2 * n
    /\ Forall (fun b => 0 <= b < 256) buffer
    /\ take 4 buffer = [82; 73; 70; 70]
    /\ take 8 (drop 8 buffer) = [87; 65; 86; 69; 102; 109; 116; 32]
    /\ take 4 (drop 36 buffer) = [100; 97; 116; 97]
    /\ Inv.getUint32 buffer 4 = (36 + 2 * n) mod 2 ^ 32
    /\ Inv.getUint32 buffer 16 = 16
    /\ Inv.getUint16 buffer 20 = 1
    /\ Inv.getUint16 buffer 22 = 1
    /\ Inv.getUint32 buffer 24 = sampleRate mod 2 ^ 32
    /\ Inv.getUint32 buffer 28 = (sampleRate * 2) mod 2 ^ 32
    /\ Inv.getUint16 buffer 32 = 2
    /\ Inv.getUint16 buffer 34 = 16
    /\ Inv.getUint32 buffer 40 = (2 * n) mod 2 ^ 32.
Proof.
  intros n. eexists. split; [apply createWAVBuffer_closed|]. fold n.
  set (F := flat_map (fun x => JS.bytesLE 2 (Inv.pcm16 x)) audioData).
  split.
  { rewrite length_app, header_length. unfold F. rewrite pcm_length. lia. }
  split; [apply Forall_app; split; [apply header_range | apply pcm_range]|].
  split; [reflexivity|]. split; [reflexivity|]. split; [reflexivity|].
  split.
  { change (Inv.getUint32 (Inv.wav_header n sampleRate ++ F) 4)
      with (Inv.unsigned (JS.bytesLE 4 (36 + n * 2))).
    rewrite unsigned_bytesLE. f_equal. lia. }
  split; [reflexivity|]. split; [reflexivity|]. split; [reflexivity|].
  split.
  { change (Inv.getUint32 (Inv.wav_header n sampleRate ++ F) 24)
      with (Inv.unsigned (JS.bytesLE 4 sampleRate)).
    apply unsigned_bytesLE. }
  split.
  { change (Inv.getUint32 (Inv.wav_header n sampleRate ++ F) 28)
      with (Inv.unsigned (JS.bytesLE 4 (sampleRate * 2))).
    apply unsigned_bytesLE. }
  split; [reflexivity|]. split; [reflexivity|].
  change (Inv.getUint32 (Inv.wav_header n sampleRate ++ F) 40)
    with (Inv.unsigned (take 4 (JS.bytesLE 4 (n * 2) ++ F))).
  rewrite take_app_length' by reflexivity.
  rewrite unsigned_bytesLE. f_equal. lia.
Qed.

Lemma pcm_chunk (l : list R) (i : nat) (x : R) :
  l !! i = Some x ->
  take 2 (drop (2 * i) (flat_map (fun x => JS.bytesLE 2 (Inv.pcm16 x)) l))
  = JS.bytesLE 2 (Inv.pcm16 x).
Proof.
  revert i. induction l as [|y l IH]; intros i Hi; [discriminate|].
  change (y :: l) with ([y] ++ l). rewrite flat_map_app, flat_map_one.
  destruct i as [|i].
  - injection Hi as ->. rewrite Nat.mul_0_r, drop_0.
    apply take_app_length'. reflexivity.
  - replace (2 * S i)%nat with (2 + 2 * i)%nat by lia.
    rewrite drop_app_add' by reflexivity. apply IH. exact Hi.
Qed.

Lemma trunc_bounds (r : R) (m : Z) :
  (- IZR m <= r <= IZR m)%R ->
  - m <= JS.trunc r <= m
  /\ (Rabs (IZR (JS.trunc r) - r) < 1)%R
  /\ ((0 <= r)%R -> 0 <= JS.trunc r)
  /\ ((r <= 0)%R -> JS.trunc r <= 0).
Proof.
  intros Hr. unfold JS.trunc.
  destruct (decide (0 <= r)%R) as [Hp|Hn].
  - destruct (base_Int_part r) as [H1 H2].
    assert (Hlo : (IZR (-1) < IZR (Int_part r))%R) by (simpl; lra).
    assert (Hhi : (IZR (Int_part r) <= IZR m)%R) by lra.
    apply lt_IZR in Hlo. apply le_IZR in Hhi.
    split; [lia|]. split; [|split].
    + unfold Rabs. destruct (Rcase_abs _); lra.
    + intros _. lia.
    + intros H0. assert (r = 0%R) by lra. subst r.
      assert (Hz : (IZR (Int_part 0) < IZR 1)%R) by (simpl; lra).
      apply lt_IZR in Hz. lia.
  - destruct (base_Int_part (- r)) as [H1 H2].
    assert (Hlo : (IZR (-1) < IZR (Int_part (- r)))%R) by (simpl; lra).
    assert (Hhi : (IZR (Int_part (- r)) <= IZR m)%R) by lra.
    apply lt_IZR in Hlo. apply le_IZR in Hhi.
    split; [lia|]. split; [|split].
    + rewrite opp_IZR. unfold Rabs. destruct (Rcase_abs _); lra.
    + intros H0. lra.
    + intros _. lia.
Qed.

Lemma pcm16_bounds (x : R) :
  -32767 <= Inv.pcm16 x <= 32767
  /\ (Rabs (IZR (Inv.pcm16 x) - Rmax (-1) (Rmin 1 x) * 32767) < 1)%R
  /\ ((0 <= x)%R -> 0 <= Inv.pcm16 x)
  /\ ((x <= 0)%R -> Inv.pcm16 x <= 0).
Proof.
  pose proof (clamp_unit_bounds x) as Hc. unfold Inv.pcm16.
  destruct (trunc_bounds (Rmax (-1) (Rmin 1 x) * 32767) 32767 ltac:(lra))
    as (H1 & H2 & H3 & H4).
  split; [exact H1|]. split; [exact H2|]. split.
  - intros Hx. apply H3.
    assert (0 <= Rmax (-1) (Rmin 1 x))%R.
    { unfold Rmax, Rmin.
      destruct (Rle_dec 1 x); destruct (Rle_dec (-1) _); lra. }
    lra.
  - intros Hx. apply H4.
    assert (Rmax (-1) (Rmin 1 x) <= 0)%R.
    { unfold Rmax, Rmin.
      destruct (Rle_dec 1 x); destruct (Rle_dec (-1) _); lra. }
    lra.
Qed.

(** Reading a stored sample back as a signed 16-bit integer. *)
Lemma getInt16_sample (header : list Z) (l : list R) (i : nat) (x : R) :
  l !! i = Some x ->
  Inv.getInt16 (header ++ flat_map (fun x => JS.bytesLE 2 (Inv.pcm16 x)) l)
               (Z.of_nat (length header) + 2 * Z.of_nat i)
  = Inv.pcm16 x.
Proof.
  intros Hi. unfold Inv.getInt16, Inv.getUint16.
  replace (Z.to_nat (Z.of_nat (length header) + 2 * Z.of_nat i))
    with (length header + 2 * i)%nat by lia.
  rewrite drop_app_add' by reflexivity.
  rewrite (pcm_chunk l i x Hi), unsigned_bytesLE.
  destruct (pcm16_bounds x) as [Hb _].
  change (256 ^ Z.of_nat 2) with 65536.
  pose proof (Z.mod_pos_bound (Inv.pcm16 x) 65536 ltac:(lia)) as Hm.
  pose proof (Z.div_mod (Inv.pcm16 x) 65536 ltac:(lia)) as Hd.
  destruct (Z.geb_spec (Inv.pcm16 x mod 65536) 32768); lia.
Qed.

(** X27: the samples of createWAVBuffer.  Sample i of the audio data,
    clamped to [-1, 1] and scaled by 32767, is stored truncated toward
    zero: read back as a signed little-endian 16-bit integer at byte
    44 + 2 i it lies in [-32767, 32767], less than 1 away from the scaled
    value and never of the opposite sign; -32768 is never written. *)
Theorem createWAVBuffer_samples (audioData : list R) (sampleRate : Z)
        (i : Z) (x : R) :
  JS.index audioData i = Some x ->
  exists buffer,
    createWAVBuffer audioData sampleRate = Ok buffer
    /\ Inv.getInt16 buffer (44 + 2 * i)
       = JS.trunc (Rmax (-1) (Rmin 1 x) * 32767)
    /\ -32767 <= Inv.getInt16 buffer (44 + 2 * i) <= 32767
    /\ (Rabs (IZR (Inv.getInt16 buffer (44 + 2 * i))
              - Rmax (-1) (Rmin 1 x) * 32767) < 1)%R
    /\ ((0 <= x)%R -> 0 <= Inv.getInt16 buffer (44 + 2 * i))
    /\ ((x <= 0)%R -> Inv.getInt16 buffer (44 + 2 * i) <= 0).
Proof.
  intros Hi. unfold JS.index in Hi.
  destruct (Z.ltb_spec i 0) as [|H0]; [discriminate|].
  eexists. split; [apply createWAVBuffer_closed|].
  assert (Hget : Inv.getInt16
            (Inv.wav_header (Z.of_nat (length audioData)) sampleRate
             ++ flat_map (fun x => JS.bytesLE 2 (Inv.pcm16 x)) audioData)
            (44 + 2 * i) = Inv.pcm16 x).
  { rewrite <- (Z2Nat.id i) at 1 by exact H0.
    apply (getInt16_sample
             (Inv.wav_header (Z.of_nat (length audioData)) sampleRate)
             audioData (Z.to_nat i) x Hi). }
  rewrite Hget. destruct (pcm16_bounds x) as (H1 & H2 & H3 & H4).
  split; [reflexivity|]. repeat split; try assumption; lia.
Qed.

(** The audio data toWAV renders: one interpolated sample per index. *)
Lemma toWAV_audio (w : Waveform.t) (numSamples : Z) (position : Z -> R) :
  JS.for_loop numSamples
    (fun i audioData =>
       JS.put audioData i (Waveform.interpolate w (position i)))
    (JS.Float32Array numSamples)
  = map (fun i => Waveform.interpolate w (position (Z.of_nat i)))
        (seq 0 (Z.to_nat numSamples)).
Proof.
  rewrite for_loop_to_nat.
  assert (Hlen : length (JS.Float32Array numSamples) = Z.to_nat numSamples)
    by apply length_replicate.
  rewrite <- Hlen.
  apply (for_loop_put_build (JS.Float32Array numSamples)
           (fun i _ => Waveform.interpolate w (position i))
           (fun i => Waveform.interpolate w (position (Z.of_nat i)))).
  intros j _. reflexivity.
Qed.

(** X28: toWAV never clips a waveform whose samples are in [-1, 1].  For a
    positive frequency it renders 44100 samples into a buffer of 88244
    bytes; sample i is read from a position inside the cycle, 0 <= position
    < N, its interpolated value is in [-1, 1], so the clamp of
    createWAVBuffer leaves it alone and the stored integer is that value
    times 32767, truncated. *)
Theorem toWAV_never_clips (w : Waveform.t) (frequency : R) (i : Z) :
  Waveform.valid w -> Waveform.in_range w -> (0 < frequency)%R ->
  0 <= i < 44100 ->
  let samplesPerCycle := (44100 / frequency)%R in
  let position :=
    (JS.fmod (IZR i) samplesPerCycle / samplesPerCycle
     * IZR (Waveform.sampleRate w))%R in
  exists buffer,
    toWAV w frequency = Ok buffer
    /\ Z.of_nat (length buffer) = 88244
    /\ (0 <= position < IZR (Waveform.sampleRate w))%R
    /\ (-1 <= Waveform.interpolate w position <= 1)%R
    /\ Inv.getInt16 buffer (44 + 2 * i)
       = JS.trunc (Waveform.interpolate w position * 32767).
Proof.
  intros Hv Hr Hf Hi spc position.
  assert (Hspc : (0 < spc)%R) by (apply Rdiv_lt_0_compat; lra).
  pose proof (valid_pos w Hv) as Hn.
  assert (HN : (0 < IZR (Waveform.sampleRate w))%R) by (apply IZR_lt; exact Hn).
  destruct (interpolate_between w position Hv Hr) as (_ & _ & _ & Hb).
  unfold toWAV. cbv zeta. fold spc.
  rewrite (toWAV_audio w (44100 * 1)
             (fun i => (JS.fmod (IZR i) spc / spc
                        * IZR (Waveform.sampleRate w))%R)).
  set (audio := map _ _).
  assert (Hlen : length audio = Z.to_nat (44100 * 1))
    by (unfold audio; rewrite length_map, length_seq; reflexivity).
  assert (Hx : audio !! Z.to_nat i = Some (Waveform.interpolate w position)).
  { unfold audio. rewrite list_lookup_fmap, lookup_seq_lt by lia.
    simpl. rewrite Z2Nat.id by lia. reflexivity. }
  eexists. split; [apply createWAVBuffer_closed|].
  split; [rewrite length_app, header_length, pcm_length, Hlen; lia|].
  split.
  { assert (Hfm : (0 <= JS.fmod (IZR i) spc < spc)%R)
      by (apply fmod_nonneg; [apply IZR_le; lia | exact Hspc]).
    assert (Hq : (0 <= JS.fmod (IZR i) spc / spc < 1)%R).
    { split.
      - apply Rdiv_ge_by; lra.
      - apply Rdiv_lt_by; lra. }
    unfold position. nra. }
  split; [exact Hb|].
  pose proof (getInt16_sample
                (Inv.wav_header (Z.of_nat (length audio)) 44100)
                audio (Z.to_nat i) _ Hx) as Hget.
  rewrite Z2Nat.id in Hget by lia.
  etransitivity; [exact Hget|].
  unfold Inv.pcm16. rewrite clamp_inside by exact Hb. reflexivity.
Qed.

End Exporter.

(** ** WavetableEditor: undo and redo of an edit *)

Section Editor.

Import HistoryManager WavetableEditor.
Local Open Scope Z_scope.

(** After a push with room for one entry the snapshot is the last entry
    and the cursor is on it. *)
Lemma push_tail (h : HistoryManager.t) (s : State) (now : Z) :
  HistoryManager.wf h -> 1 <= maxHistory h ->
  exists l,
    fst (push h s now)
    = HistoryManager.mk (maxHistory h) (l ++ [cloneState s now])
                        (Z.of_nat (length l)).
Proof.
  intros Hwf Hm. rewrite (push_shape h s now Hwf). cbv zeta.
  destruct Hwf as [Hlo Hhi].
  assert (Hk : length (take (Z.to_nat (currentIndex h + 1)) (history h))
               = Z.to_nat (currentIndex h + 1))
    by (rewrite length_take; lia).
  destruct (decide (maxHistory h < currentIndex h + 2)) as [He|He].
  - destruct (take (Z.to_nat (currentIndex h + 1)) (history h))
      as [|x k] eqn:Hkept; [simpl in Hk; lia|].
    exists k. simpl. rewrite drop_0. f_equal. simpl in Hk. lia.
  - exists (take (Z.to_nat (currentIndex h + 1)) (history h)).
    f_equal. lia.
Qed.

(** A second push with room for two entries keeps the first snapshot just
    before the second. *)
Lemma push_tail2 (m : Z) (l : list State) (a s : State) (now : Z) :
  2 <= m ->
  exists l',
    fst (push (HistoryManager.mk m (l ++ [a]) (Z.of_nat (length l))) s now)
    = HistoryManager.mk m (l' ++ [a; cloneState s now])
                        (Z.of_nat (length l') + 1).
Proof.
  intros Hm.
  assert (Hwf : HistoryManager.wf
                  (HistoryManager.mk m (l ++ [a]) (Z.of_nat (length l)))).
  { unfold HistoryManager.wf. simpl. rewrite length_app. simpl. lia. }
  rewrite (push_shape _ s now Hwf). cbv zeta. simpl.
  replace (Z.to_nat (Z.of_nat (length l) + 1)) with (length (l ++ [a]))
    by (rewrite length_app; simpl; lia).
  rewrite firstn_all.
  destruct (decide (m < Z.of_nat (length l) + 2)) as [He|He].
  - destruct l as [|x l]; [simpl in He; lia|].
    exists l. simpl. rewrite drop_0, <- app_assoc. simpl.
    f_equal. lia.
  - exists l. rewrite <- app_assoc. reflexivity.
Qed.

(** initializeControlPoints reads inside the waveform it is given: it
    never throws. *)
Lemma updateFromWaveform_total (c : TimedomainCanvas.t) (w : Waveform.t) :
  exists points,
    TimedomainCanvas.updateFromWaveform c w
    = Ok (TimedomainCanvas.mk w points (TimedomainCanvas.displayWidth c)
                              (TimedomainCanvas.displayHeight c)).
Proof.
  unfold TimedomainCanvas.updateFromWaveform,
    TimedomainCanvas.initializeControlPoints. cbv zeta. simpl.
  set (N := Waveform.sampleRate w).
  rewrite for_loop_m_to_nat, initialize_prefix.
  - eexists. reflexivity.
  - intros j Hj. apply floor_bounds. rewrite INR_IZR_INZ.
    apply step_index_bounds; lia.
Qed.

(** restoreState in the time view, on a snapshot of a waveform the
    constructor admits. *)
Lemma restoreState_time (e : WavetableEditor.t) (w : Waveform.t)
      (hc : Z) (hs : list FrequencySpectrum.Harmonic) (ts : option Z) :
  Waveform.valid w -> activeView e = time ->
  exists points,
    restoreState e (Inv.snapshot w hc hs ts)
    = (WavetableEditor.mk w (FrequencySpectrum.mk hc 440 hs) (activeView e)
         (TimedomainCanvas.mk w points
            (TimedomainCanvas.displayWidth (timeCanvas e))
            (TimedomainCanvas.displayHeight (timeCanvas e)))
         (frequencyCanvas e) (historyManager e) false,
       Ok tt).
Proof.
  intros Hv Hview. unfold restoreState, Inv.snapshot. simpl.
  pose proof (clone_valid w Hv) as Hc. unfold Waveform.clone in Hc.
  destruct (Waveform.constructor (Waveform.sampleRate w)) as [w0|err];
    [|discriminate Hc].
  simpl in Hc |- *.
  destruct (JS.set (Waveform.samples w0) (Waveform.samples w)) as [s0|err];
    [|discriminate Hc].
  simpl in Hc |- *. injection Hc as Hsr Hs. rewrite Hsr, Hs.
  rewrite map_copy_harmonic.
  rewrite (bool_decide_eq_true_2 _ Hview).
  destruct (updateFromWaveform_total (timeCanvas e)
              (Waveform.mk (Waveform.sampleRate w) (Waveform.samples w)))
    as [points Hp].
  rewrite Hp. exists points. destruct w; reflexivity.
Qed.

(** restoreState in the other view: the frequency canvas takes the
    restored spectrum and draws its 32 bars. *)
Lemma restoreState_frequency (e : WavetableEditor.t) (w : Waveform.t)
      (hc : Z) (hs : list FrequencySpectrum.Harmonic) (ts : option Z) :
  Waveform.valid w -> activeView e <> time -> (0 <= hc)%Z ->
  restoreState e (Inv.snapshot w hc hs ts)
  = (WavetableEditor.mk w (FrequencySpectrum.mk hc 440 hs) (activeView e)
       (timeCanvas e)
       (FrequencyCanvas.mk (FrequencySpectrum.mk hc 440 hs)
          (FrequencyCanvas.displayWidth (frequencyCanvas e))
          (FrequencyCanvas.displayHeight (frequencyCanvas e)))
       (historyManager e) (negb (32 <=? hc)%Z),
     if (32 <=? hc)%Z then Ok tt else Throw (OutOfRange hc)).
Proof.
  intros Hv Hview Hhc. unfold restoreState, Inv.snapshot. simpl.
  pose proof (clone_valid w Hv) as Hc. unfold Waveform.clone in Hc.
  destruct (Waveform.constructor (Waveform.sampleRate w)) as [w0|err];
    [|discriminate Hc].
  simpl in Hc |- *.
  destruct (JS.set (Waveform.samples w0) (Waveform.samples w)) as [s0|err];
    [|discriminate Hc].
  simpl in Hc |- *. injection Hc as Hsr Hs. rewrite Hsr, Hs.
  rewrite map_copy_harmonic.
  rewrite (bool_decide_eq_false_2 _ Hview).
  unfold FrequencyCanvas.updateFromSpectrum. cbv zeta.
  rewrite render_outcome by (simpl; exact Hhc). simpl.
  unfold FrequencyCanvas.visibleHarmonics.
  destruct (32 <=? hc)%Z; destruct w; reflexivity.
Qed.

(** X29: undo and redo of an edit in the editor.  With recording on and
    room for two entries in a history that only its own methods have
    touched, record the current waveform and spectrum, replace them and
    record again.  In the time view, or with at least 32 harmonics in both
    spectra, undo brings back the first waveform, sample for sample, and
    the harmonics of the first spectrum, and redo brings back the second
    pair; the active canvas is given what was restored, neither call
    throws, both leave recording on, and the restored spectrum always has
    the fundamental frequency 440.  In the other view with fewer than 32
    harmonics in the first spectrum, undo restores the waveform and then
    throws the out-of-bounds error of the first bar the spectrum lacks; it
    leaves recording off, so that pushToHistory no longer records. *)
Theorem editor_undo_redo (e : WavetableEditor.t)
        (w1 : Waveform.t) (sp1 : FrequencySpectrum.t) (t1 t2 t3 t4 : Z) :
  isRestoringHistory e = false ->
  reachable (historyManager e) -> 2 <= maxHistory (historyManager e) ->
  Waveform.valid (currentWaveform e) -> Waveform.valid w1 ->
  let count := FrequencySpectrum.harmonicCount (currentSpectrum e) in
  let e1 := pushToHistory e t1 in
  let e2 :=
    pushToHistory
      (WavetableEditor.mk w1 sp1 (activeView e1) (timeCanvas e1)
                          (frequencyCanvas e1) (historyManager e1) false) t2 in
  (activeView e = time
   \/ (32 <= count /\ 32 <= FrequencySpectrum.harmonicCount sp1) ->
   exists e3 e4,
     undo e2 t3 = (e3, Ok tt)
     /\ currentWaveform e3 = currentWaveform e
     /\ currentSpectrum e3
        = FrequencySpectrum.mk count 440
            (FrequencySpectrum.harmonics (currentSpectrum e))
     /\ isRestoringHistory e3 = false
     /\ (activeView e = time ->
         TimedomainCanvas.waveform (timeCanvas e3) = currentWaveform e3
         /\ frequencyCanvas e3 = frequencyCanvas e)
     /\ (activeView e <> time ->
         FrequencyCanvas.spectrum (frequencyCanvas e3) = currentSpectrum e3
         /\ timeCanvas e3 = timeCanvas e)
     /\ redo e3 t4 = (e4, Ok tt)
     /\ currentWaveform e4 = w1
     /\ currentSpectrum e4
        = FrequencySpectrum.mk (FrequencySpectrum.harmonicCount sp1) 440
                               (FrequencySpectrum.harmonics sp1)
     /\ isRestoringHistory e4 = false
     /\ historyManager e4 = historyManager e2)
  /\ (activeView e <> time -> 0 <= count < 32 ->
      exists e3,
        undo e2 t3 = (e3, Throw (OutOfRange count))
        /\ currentWaveform e3 = currentWaveform e
        /\ isRestoringHistory e3 = true
        /\ forall t, pushToHistory e3 t = e3).
Proof.
  intros Hrec Hreach Hm Hv Hv1 count e1 e2.
  pose proof (reachable_wf _ Hreach) as Hwf.
  set (sA := mkState
               (mkW (Waveform.sampleRate (currentWaveform e))
                    (Waveform.samples (currentWaveform e)))
               (mkS (FrequencySpectrum.harmonicCount (currentSpectrum e))
                    (FrequencySpectrum.harmonics (currentSpectrum e)))
               None).
  set (sB := mkState
               (mkW (Waveform.sampleRate w1) (Waveform.samples w1))
               (mkS (FrequencySpectrum.harmonicCount sp1)
                    (FrequencySpectrum.harmonics sp1))
               None).
  destruct (push_tail (historyManager e) sA t1 Hwf ltac:(lia)) as [l Hl].
  assert (He1 : e1 = WavetableEditor.mk (currentWaveform e) (currentSpectrum e)
                  (activeView e) (timeCanvas e) (frequencyCanvas e)
                  (HistoryManager.mk (maxHistory (historyManager e))
                     (l ++ [cloneState sA t1]) (Z.of_nat (length l)))
                  false).
  { unfold e1, pushToHistory. rewrite Hrec. fold sA. rewrite Hl.
    reflexivity. }
  destruct (push_tail2 (maxHistory (historyManager e)) l (cloneState sA t1)
                       sB t2 Hm) as [l' Hl'].
  assert (He2 : e2 = WavetableEditor.mk w1 sp1 (activeView e) (timeCanvas e)
                  (frequencyCanvas e)
                  (HistoryManager.mk (maxHistory (historyManager e))
                     (l' ++ [cloneState sA t1; cloneState sB t2])
                     (Z.of_nat (length l') + 1))
                  false).
  { unfold e2. rewrite He1. unfold pushToHistory.
    cbn [isRestoringHistory currentWaveform currentSpectrum historyManager
         activeView timeCanvas frequencyCanvas].
    fold sB. rewrite Hl'. reflexivity. }
  set (m := maxHistory (historyManager e)) in *.
  set (hist := l' ++ [cloneState sA t1; cloneState sB t2]) in *.
  assert (Hlen : Z.of_nat (length hist) = Z.of_nat (length l') + 2)
    by (unfold hist; rewrite length_app; simpl; lia).
  assert (HA : hist !! length l' = Some (cloneState sA t1)).
  { unfold hist. rewrite lookup_app_r, Nat.sub_diag by lia. reflexivity. }
  assert (HB : hist !! S (length l') = Some (cloneState sB t2)).
  { unfold hist. rewrite lookup_app_r by lia.
    replace (S (length l') - length l')%nat with 1%nat by lia. reflexivity. }
  assert (HcA : cloneState (cloneState sA t1) t3
                = Inv.snapshot (currentWaveform e) count
                    (FrequencySpectrum.harmonics (currentSpectrum e))
                    (Some t3)).
  { unfold cloneState, sA, Inv.snapshot. simpl. rewrite !map_copy_harmonic.
    reflexivity. }
  assert (HcB : cloneState (cloneState sB t2) t4
                = Inv.snapshot w1 (FrequencySpectrum.harmonicCount sp1)
                    (FrequencySpectrum.harmonics sp1) (Some t4)).
  { unfold cloneState, sB, Inv.snapshot. simpl. rewrite !map_copy_harmonic.
    reflexivity. }
  (* undo *)
  assert (Hundo : HistoryManager.undo
                    (HistoryManager.mk m hist (Z.of_nat (length l') + 1)) t3
                  = Ok (HistoryManager.mk m hist (Z.of_nat (length l')),
                        Some (cloneState (cloneState sA t1) t3),
                        [dispatchHistoryChange
                           (HistoryManager.mk m hist (Z.of_nat (length l')))])).
  { unfold HistoryManager.undo, canUndo. simpl.
    destruct (Z.ltb_spec 0 (Z.of_nat (length l') + 1)); [|lia].
    replace (Z.of_nat (length l') + 1 - 1) with (Z.of_nat (length l')) by lia.
    unfold entry. simpl.
    destruct (Z.ltb_spec (Z.of_nat (length l')) 0); [lia|].
    rewrite Nat2Z.id, HA. reflexivity. }
  assert (Hredo : HistoryManager.redo
                    (HistoryManager.mk m hist (Z.of_nat (length l'))) t4
                  = Ok (HistoryManager.mk m hist (Z.of_nat (length l') + 1),
                        Some (cloneState (cloneState sB t2) t4),
                        [dispatchHistoryChange
                           (HistoryManager.mk m hist
                              (Z.of_nat (length l') + 1))])).
  { unfold HistoryManager.redo, canRedo. simpl.
    destruct (Z.ltb_spec (Z.of_nat (length l'))
                         (Z.of_nat (length hist) - 1)); [|lia].
    unfold entry. simpl.
    destruct (Z.ltb_spec (Z.of_nat (length l') + 1) 0); [lia|].
    replace (Z.to_nat (Z.of_nat (length l') + 1)) with (S (length l')) by lia.
    rewrite HB. reflexivity. }
  assert (Hundo2 : undo e2 t3
             = restoreState
                 (WavetableEditor.mk w1 sp1 (activeView e) (timeCanvas e)
                    (frequencyCanvas e)
                    (HistoryManager.mk m hist (Z.of_nat (length l'))) false)
                 (Inv.snapshot (currentWaveform e) count
                    (FrequencySpectrum.harmonics (currentSpectrum e))
                    (Some t3))).
  { rewrite He2. unfold undo. cbv zeta.
    cbn [historyManager currentWaveform currentSpectrum activeView timeCanvas
         frequencyCanvas isRestoringHistory].
    rewrite Hundo, HcA. reflexivity. }
  split.
  - intros Hview.
    destruct (decide (activeView e = time)) as [Htime|Hother].
    + destruct (restoreState_time
                  (WavetableEditor.mk w1 sp1 (activeView e) (timeCanvas e)
                     (frequencyCanvas e)
                     (HistoryManager.mk m hist (Z.of_nat (length l'))) false)
                  (currentWaveform e) count
                  (FrequencySpectrum.harmonics (currentSpectrum e))
                  (Some t3) Hv Htime) as [points Hr3].
      rewrite Hr3 in Hundo2.
      destruct (restoreState_time
                  (WavetableEditor.mk (currentWaveform e)
                     (FrequencySpectrum.mk count 440
                        (FrequencySpectrum.harmonics (currentSpectrum e)))
                     (activeView e)
                     (TimedomainCanvas.mk (currentWaveform e) points
                        (TimedomainCanvas.displayWidth (timeCanvas e))
                        (TimedomainCanvas.displayHeight (timeCanvas e)))
                     (frequencyCanvas e)
                     (HistoryManager.mk m hist (Z.of_nat (length l') + 1))
                     false)
                  w1 (FrequencySpectrum.harmonicCount sp1)
                  (FrequencySpectrum.harmonics sp1)
                  (Some t4) Hv1 Htime) as [points' Hr4].
      eexists. eexists. split; [exact Hundo2|].
      cbn [currentWaveform currentSpectrum isRestoringHistory timeCanvas
           frequencyCanvas historyManager activeView].
      split; [reflexivity|]. split; [reflexivity|]. split; [reflexivity|].
      split; [intros _; split; reflexivity|].
      split; [intros Hn; contradiction|].
      unfold redo. cbv zeta.
      cbn [historyManager currentWaveform currentSpectrum activeView timeCanvas
           frequencyCanvas isRestoringHistory].
      rewrite Hredo, HcB, Hr4.
      split; [reflexivity|]. split; [reflexivity|]. split; [reflexivity|].
      split; [reflexivity|]. rewrite He2. reflexivity.
    + destruct Hview as [Htime|[Hc1 Hc2]]; [contradiction|].
      rewrite restoreState_frequency in Hundo2
        by (try exact Hv; try exact Hother; cbn; lia).
      destruct (Z.leb_spec 32 count) as [_|Hlt]; [|lia].
      eexists. eexists. split; [exact Hundo2|].
      cbn [currentWaveform currentSpectrum isRestoringHistory timeCanvas
           frequencyCanvas historyManager activeView negb].
      split; [reflexivity|]. split; [reflexivity|]. split; [reflexivity|].
      split; [intros Hn; contradiction|].
      split; [intros _; split; reflexivity|].
      unfold redo. cbv zeta.
      cbn [historyManager currentWaveform currentSpectrum activeView timeCanvas
           frequencyCanvas isRestoringHistory].
      rewrite Hredo, HcB.
      rewrite restoreState_frequency
        by (try exact Hv1; try exact Hother; cbn; lia).
      destruct (Z.leb_spec 32 (FrequencySpectrum.harmonicCount sp1))
        as [_|Hlt]; [|lia].
      cbn [currentWaveform currentSpectrum isRestoringHistory timeCanvas
           frequencyCanvas historyManager activeView negb].
      split; [reflexivity|]. split; [reflexivity|]. split; [reflexivity|].
      split; [reflexivity|]. rewrite He2. reflexivity.
  - intros Hother Hcount.
    rewrite restoreState_frequency in Hundo2
      by (try exact Hv; try exact Hother; cbn; lia).
    destruct (Z.leb_spec 32 count) as [Hle|_]; [lia|].
    eexists. split; [exact Hundo2|].
    cbn [currentWaveform isRestoringHistory negb].
    split; [reflexivity|]. split; [reflexivity|].
    intros t. reflexivity.
Qed.

End Editor.

(** ** AudioPreview: the partials of the oscillator *)

Section Partials.

Import FrequencySpectrum WaveformTransform AudioPreview.
Local Open Scope R_scope.

Lemma for_range_S {S : Type} (start : Z) (n : nat) (body : Z -> S -> S) (s : S) :
  JS.for_range start (start + Z.of_nat (Datatypes.S n)) body s
  = body (start + Z.of_nat n)%Z
         (JS.for_range start (start + Z.of_nat n) body s).
Proof.
  unfold JS.for_range.
  replace (start + Z.of_nat (Datatypes.S n) - start)%Z
    with (Z.of_nat (Datatypes.S n)) by lia.
  replace (start + Z.of_nat n - start)%Z with (Z.of_nat n) by lia.
  rewrite !Nat2Z.id, seq_S, fold_left_app. reflexivity.
Qed.

(** The partials collected in the first [m] rounds: the amplitudes of the
    analysis, not clamped. *)
Lemma getPartials_prefix (w : Waveform.t) (m : nat) :
  let N := Waveform.sampleRate w in
  JS.for_range 1 (1 + Z.of_nat m)
    (fun k partials =>
       let '(real, imag) :=
         JS.for_loop N
           (fun n '(real, imag) =>
              let angle := -2 * PI * IZR k * IZR n / IZR N in
              let x := JS.get 0 (Waveform.samples w) n in
              (real + x * cos angle, imag + x * sin angle))
           (0, 0) in
       let real := real / IZR N in
       let imag := imag / IZR N in
       let amplitude := 2 * sqrt (real * real + imag * imag) in
       partials ++ [amplitude])
    []
  = map (fun j =>
           2 * sqrt (Spec.dft_real w (Z.of_nat j) * Spec.dft_real w (Z.of_nat j)
                     + Spec.dft_imag w (Z.of_nat j)
                       * Spec.dft_imag w (Z.of_nat j)))
        (seq 0 m).
Proof.
  intros N. induction m as [|m IH].
  - reflexivity.
  - rewrite for_range_S, IH, seq_S, map_app. simpl map.
    replace (1 + Z.of_nat m)%Z with (Z.of_nat m + 1)%Z by lia.
    pose proof (analysis_sums w (Z.of_nat m)) as Hsum. cbv zeta in Hsum.
    fold N in Hsum. cbv beta zeta. rewrite Hsum. reflexivity.
Qed.

(** X30: the partials of the audio preview are the amplitudes of the
    analysis before clamping: 32 non-negative numbers, and harmonic k of
    toFrequencyDomain, for any harmonic count above k, holds partial k cut
    off at 1. *)
Theorem getPartials_unclamped (w : Waveform.t) (hc k : Z) :
  (0 <= k < hc)%Z -> (k < 32)%Z ->
  exists sp h,
    toFrequencyDomain w hc = Ok sp
    /\ getHarmonic sp k = Ok h
    /\ amplitude h = Rmin 1 (JS.get 0 (getPartials w) k)
    /\ 0 <= JS.get 0 (getPartials w) k
    /\ length (getPartials w) = 32%nat.
Proof.
  intros Hk H32.
  destruct (toFrequencyDomain_harmonic w hc k Hk) as (sp & Hsp & _ & Hh).
  exists sp, (Spec.stored_harmonic w k).
  split; [exact Hsp|]. split; [exact Hh|].
  assert (Hp : getPartials w
               = map (fun j =>
                        2 * sqrt (Spec.dft_real w (Z.of_nat j)
                                  * Spec.dft_real w (Z.of_nat j)
                                  + Spec.dft_imag w (Z.of_nat j)
                                    * Spec.dft_imag w (Z.of_nat j)))
                     (seq 0 32)).
  { exact (getPartials_prefix w 32). }
  assert (Hget : JS.get 0 (getPartials w) k
                 = 2 * sqrt (Spec.dft_real w k * Spec.dft_real w k
                             + Spec.dft_imag w k * Spec.dft_imag w k)).
  { rewrite Hp. rewrite <- (Z2Nat.id k) at 1 by lia.
    erewrite get_lookup.
    2:{ rewrite list_lookup_fmap, lookup_seq_lt by lia. reflexivity. }
    simpl. rewrite Z2Nat.id by lia. reflexivity. }
  rewrite Hget. split; [reflexivity|]. split.
  - pose proof (sqrt_pos (Spec.dft_real w k * Spec.dft_real w k
                          + Spec.dft_imag w k * Spec.dft_imag w k)). lra.
  - rewrite Hp, length_map, length_seq. reflexivity.
Qed.

End Partials.

(** ** The added properties at concrete inputs *)

Section MoreWitnesses.

Import Examples.
Local Open Scope R_scope.

Lemma history_capacity_witness :
  HistoryManager.reachable two_pushes
  /\ ((Z.of_nat (length (HistoryManager.history two_pushes)) <= 0 `max`
    HistoryManager.maxHistory two_pushes)%Z
    /\ (HistoryManager.history two_pushes = [] <-> HistoryManager.currentIndex
      two_pushes = (-1)%Z)
    /\ (-1 <= HistoryManager.currentIndex two_pushes < Z.of_nat (length
      (HistoryManager.history two_pushes)))%Z).
Proof.
  assert (H1 : HistoryManager.reachable two_pushes)
    by (apply HistoryManager.reach_push, HistoryManager.reach_push, HistoryManager.reach_new).
  split; [exact H1|].
  exact ((history_capacity two_pushes) H1).
Defined.

Lemma push_then_getCurrentState_witness :
  HistoryManager.reachable two_pushes
  /\ (let h' := (HistoryManager.push two_pushes (state 1) 30).1 in ((1 <=
    HistoryManager.maxHistory two_pushes)%Z ->
      HistoryManager.currentIndex h' = (Z.of_nat (length
        (HistoryManager.history h')) - 1)%Z
      /\ HistoryManager.canRedo h' = false
      /\ exists s : HistoryManager.State, HistoryManager.getCurrentState h' 40
        = Ok (Some s)
      /\ HistoryManager.waveform s = HistoryManager.waveform (state 1)
      /\ HistoryManager.spectrum s = HistoryManager.spectrum (state 1)
      /\ HistoryManager.timestamp s = Some 40%Z)
    /\ ((HistoryManager.maxHistory two_pushes <= 0)%Z ->
      HistoryManager.history h' = []
      /\ HistoryManager.currentIndex h' = (-1)%Z
      /\ HistoryManager.getCurrentState h' 40 = Ok None)).
Proof.
  assert (H1 : HistoryManager.reachable two_pushes)
    by (apply HistoryManager.reach_push, HistoryManager.reach_push, HistoryManager.reach_new).
  split; [exact H1|].
  exact ((push_then_getCurrentState two_pushes (state 1) 30 40) H1).
Defined.

Lemma undo_redo_round_trip_witness :
  HistoryManager.reachable two_pushes
  /\ ((HistoryManager.canUndo two_pushes = true ->
      exists (h1 : HistoryManager.t) (r1 : option HistoryManager.State) (e1 :
        list HistoryManager.HistoryChange) (r2 : option HistoryManager.State)
        (e2 : list HistoryManager.HistoryChange), HistoryManager.undo
        two_pushes 30 = Ok (h1, r1, e1)
      /\ HistoryManager.redo h1 40 = Ok (two_pushes, r2, e2)
      /\ HistoryManager.getCurrentState two_pushes 40 = Ok r2)
    /\ (HistoryManager.canRedo two_pushes = true ->
      exists (h1 : HistoryManager.t) (r1 : option HistoryManager.State) (e1 :
        list HistoryManager.HistoryChange) (r2 : option HistoryManager.State)
        (e2 : list HistoryManager.HistoryChange), HistoryManager.redo
        two_pushes 30 = Ok (h1, r1, e1)
      /\ HistoryManager.undo h1 40 = Ok (two_pushes, r2, e2)
      /\ HistoryManager.getCurrentState two_pushes 40 = Ok r2)).
Proof.
  assert (H1 : HistoryManager.reachable two_pushes)
    by (apply HistoryManager.reach_push, HistoryManager.reach_push, HistoryManager.reach_new).
  split; [exact H1|].
  exact ((undo_redo_round_trip two_pushes 30 40) H1).
Defined.

Lemma getCurrentState_total_witness :
  HistoryManager.reachable two_pushes
  /\ ((HistoryManager.history two_pushes = [] ->
      HistoryManager.getCurrentState two_pushes 30 = Ok None)
    /\ (HistoryManager.history two_pushes <> [] ->
      exists s : HistoryManager.State, HistoryManager.entry two_pushes
        (HistoryManager.currentIndex two_pushes) = Some s
      /\ HistoryManager.getCurrentState two_pushes 30 = Ok (Some
        (HistoryManager.cloneState s 30)))
    /\ HistoryManager.getCurrentState (HistoryManager.clear two_pushes).1 30 =
      Ok None
    /\ HistoryManager.undo (HistoryManager.clear two_pushes).1 30 = Ok
      ((HistoryManager.clear two_pushes).1, None, [])
    /\ HistoryManager.redo (HistoryManager.clear two_pushes).1 30 = Ok
      ((HistoryManager.clear two_pushes).1, None, [])
    /\ (HistoryManager.clear two_pushes).2 = {| HistoryManager.ev_canUndo :=
      false; HistoryManager.ev_canRedo := false; HistoryManager.ev_historySize
      := 0; HistoryManager.ev_currentIndex := -1 |}).
Proof.
  assert (H1 : HistoryManager.reachable two_pushes)
    by (apply HistoryManager.reach_push, HistoryManager.reach_push, HistoryManager.reach_new).
  split; [exact H1|].
  exact ((getCurrentState_total two_pushes 30) H1).
Defined.


Lemma normalize_range_idempotent_witness :
  Waveform.wf quiet2
  /\ (Waveform.in_range (Waveform.normalize quiet2)
    /\ Waveform.wf (Waveform.normalize quiet2)
    /\ Waveform.sampleRate (Waveform.normalize quiet2) = Waveform.sampleRate
      quiet2
    /\ Waveform.normalize (Waveform.normalize quiet2) = Waveform.normalize
      quiet2).
Proof.
  assert (H1 : Waveform.wf quiet2)
    by reflexivity.
  split; [exact H1|].
  exact ((normalize_range_idempotent quiet2) H1).
Defined.

Lemma waveform_invariant_witness :
  Inv.public_waveform edited4
  /\ (Waveform.isPowerOfTwo (Waveform.sampleRate edited4) = true
      /\ Z.of_nat (length (Waveform.samples edited4))
         = Waveform.sampleRate edited4
      /\ Forall (fun x : R => -1 <= x <= 1) (Waveform.samples edited4)).
Proof.
  assert (H1 : Inv.public_waveform edited4).
  { unfold edited4. apply Inv.public_normalize_w.
    apply (Inv.public_smooth
             (Waveform.ensureContinuity
                (Waveform.mk 4
                   (JS.put [0; 0; 0; 0] 1 (Rmax (-1) (Rmin 1 3)))))
             (1 / 2)).
    - apply Inv.public_ensureContinuity.
      apply (Inv.public_setSample silence4 1 3).
      + apply (Inv.public_Waveform 4). reflexivity.
      + reflexivity.
    - apply smooth_spec. reflexivity. }
  split; [exact H1|].
  exact ((waveform_invariant edited4) H1).
Defined.


Lemma spectrum_normalize_scales_witness :
  FrequencySpectrum.wf two_harmonics
  /\ Forall (fun h : FrequencySpectrum.Harmonic =>
              0 <= FrequencySpectrum.amplitude h)
           (FrequencySpectrum.harmonics two_harmonics)
  /\ (let s := fold_left (fun s h => s + FrequencySpectrum.amplitude h)
                        (FrequencySpectrum.harmonics two_harmonics) 0 in
      (0 < s ->
       FrequencySpectrum.harmonics (FrequencySpectrum.normalize two_harmonics)
       = map (fun h : FrequencySpectrum.Harmonic =>
                FrequencySpectrum.mkH (FrequencySpectrum.amplitude h / s)
                                      (FrequencySpectrum.phase h))
             (FrequencySpectrum.harmonics two_harmonics)
       /\ Forall (fun h => 0 <= FrequencySpectrum.amplitude h <= 1)
                (FrequencySpectrum.harmonics
                   (FrequencySpectrum.normalize two_harmonics)))
      /\ (s = 0 \/ s = 1 ->
          FrequencySpectrum.normalize two_harmonics = two_harmonics)
      /\ FrequencySpectrum.harmonicCount
           (FrequencySpectrum.normalize two_harmonics)
         = FrequencySpectrum.harmonicCount two_harmonics
      /\ map FrequencySpectrum.phase
             (FrequencySpectrum.harmonics
                (FrequencySpectrum.normalize two_harmonics))
         = map FrequencySpectrum.phase
               (FrequencySpectrum.harmonics two_harmonics)).
Proof.
  assert (H1 : FrequencySpectrum.wf two_harmonics)
    by reflexivity.
  assert (H2 : Forall (fun h : FrequencySpectrum.Harmonic => 0 <=
    FrequencySpectrum.amplitude h) (FrequencySpectrum.harmonics
    two_harmonics))
    by (simpl; repeat constructor; simpl; lra).
  split; [exact H1|].
  split; [exact H2|].
  exact ((spectrum_normalize_scales two_harmonics) H1 H2).
Defined.

Lemma bandLimit_zeroes_from_cutoff_witness :
  FrequencySpectrum.wf two_harmonics
  /\ (((0 <= 1)%Z ->
      exists sp' : FrequencySpectrum.t, WaveformTransform.bandLimit
        two_harmonics 1 = Ok sp'
      /\ FrequencySpectrum.harmonicCount sp' = FrequencySpectrum.harmonicCount
        two_harmonics
      /\ FrequencySpectrum.fundamentalFrequency sp' =
        FrequencySpectrum.fundamentalFrequency two_harmonics
      /\ (forall i : Z, (0 <= i < FrequencySpectrum.harmonicCount
        two_harmonics)%Z ->
        (i < 1)%Z ->
        FrequencySpectrum.getHarmonic sp' i = FrequencySpectrum.getHarmonic
          two_harmonics i)
      /\ (forall i : Z, (0 <= i < FrequencySpectrum.harmonicCount
        two_harmonics)%Z ->
        (1 <= i)%Z ->
        FrequencySpectrum.getHarmonic sp' i = Ok {|
          FrequencySpectrum.amplitude := 0; FrequencySpectrum.phase := 0 |})
      /\ ((FrequencySpectrum.harmonicCount two_harmonics <= 1)%Z ->
        sp' = two_harmonics))
    /\ ((1 < 0)%Z ->
      (1 < FrequencySpectrum.harmonicCount two_harmonics)%Z ->
      WaveformTransform.bandLimit two_harmonics 1 = Throw (OutOfRange 1))).
Proof.
  assert (H1 : FrequencySpectrum.wf two_harmonics)
    by reflexivity.
  split; [exact H1|].
  exact ((bandLimit_zeroes_from_cutoff two_harmonics 1) H1).
Defined.

Lemma bandLimit_compose_witness :
  FrequencySpectrum.wf two_harmonics
  /\ (0 <= 1)%Z
  /\ (0 <= 2)%Z
  /\ ((sp1 <- WaveformTransform.bandLimit two_harmonics 1;;
    WaveformTransform.bandLimit sp1 2) = WaveformTransform.bandLimit
    two_harmonics (1 `min` 2)).
Proof.
  assert (H1 : FrequencySpectrum.wf two_harmonics)
    by reflexivity.
  assert (H2 : (0 <= 1)%Z)
    by lia.
  assert (H3 : (0 <= 2)%Z)
    by lia.
  split; [exact H1|].
  split; [exact H2|].
  split; [exact H3|].
  exact ((bandLimit_compose two_harmonics 1 2) H1 H2 H3).
Defined.

Lemma silence_round_trip_witness :
  Waveform.isPowerOfTwo 4 = true
  /\ (exists silence : Waveform.t, Waveform.constructor 4 = Ok silence
    /\ WaveformTransform.toFrequencyDomain silence 2 = Ok
      (FrequencySpectrum.constructor 2)
    /\ WaveformTransform.toTimeDomain (FrequencySpectrum.constructor 2) 4 = Ok
      silence).
Proof.
  assert (H1 : Waveform.isPowerOfTwo 4 = true)
    by (vm_compute; reflexivity).
  split; [exact H1|].
  exact ((silence_round_trip 4 2) H1).
Defined.

Lemma toTimeDomain_result_witness :
  FrequencySpectrum.wf two_harmonics
  /\ Forall (fun h : FrequencySpectrum.Harmonic => 0 <=
    FrequencySpectrum.amplitude h) (FrequencySpectrum.harmonics two_harmonics)
  /\ ((Waveform.isPowerOfTwo 4 = true ->
      exists w : Waveform.t, WaveformTransform.toTimeDomain two_harmonics 4 =
        Ok w
      /\ Waveform.sampleRate w = 4%Z
      /\ Waveform.wf w
      /\ Waveform.in_range w
      /\ (Spec.max_abs (Waveform.samples w) = 0 \/ Spec.max_abs
        (Waveform.samples w) = 1)
      /\ Waveform.normalize w = w)
    /\ (Waveform.isPowerOfTwo 4 = false ->
      WaveformTransform.toTimeDomain two_harmonics 4 = Throw InvalidLength)).
Proof.
  assert (H1 : FrequencySpectrum.wf two_harmonics)
    by reflexivity.
  assert (H2 : Forall (fun h : FrequencySpectrum.Harmonic => 0 <=
    FrequencySpectrum.amplitude h) (FrequencySpectrum.harmonics
    two_harmonics))
    by (simpl; repeat constructor; simpl; lra).
  split; [exact H1|].
  split; [exact H2|].
  exact ((toTimeDomain_result two_harmonics 4) H1 H2).
Defined.

Lemma sine_samples_witness :
  Waveform.isPowerOfTwo 4 = true
  /\ (exists w : Waveform.t, WaveformPresets.sine 4 = Ok w
      /\ Waveform.valid w
      /\ Waveform.in_range w
      /\ Waveform.getSample w 0 = Ok 0
      /\ (forall q : Z, 4%Z = (4 * q)%Z ->
            Waveform.getSample w q = Ok 1
            /\ Waveform.getSample w (3 * q) = Ok (-1)
            /\ Spec.max_abs (Waveform.samples w) = 1
            /\ Waveform.normalize w = w)).
Proof.
  assert (H1 : Waveform.isPowerOfTwo 4 = true)
    by (vm_compute; reflexivity).
  split; [exact H1|].
  exact ((proj1 (sine_samples 4)) H1).
Defined.

Lemma saw_samples_witness :
  Waveform.isPowerOfTwo 4 = true
  /\ (exists w : Waveform.t, WaveformPresets.saw 4 = Ok w
    /\ Waveform.valid w
    /\ Waveform.in_range w
    /\ (forall i : Z, (0 <= i < 4 - 1)%Z ->
      Waveform.getSample w i = Ok (IZR i / 4 * 2 - 1))
    /\ Waveform.getSample w (4 - 1) = Ok (-1)
    /\ ((2 <= 4)%Z ->
      forall (i : Z) (x : R), Waveform.getSample w i = Ok x ->
      x <= 1 - 4 / 4)).
Proof.
  assert (H1 : Waveform.isPowerOfTwo 4 = true)
    by (vm_compute; reflexivity).
  split; [exact H1|].
  exact ((saw_samples 4) H1).
Defined.

Lemma square_samples_witness :
  Waveform.isPowerOfTwo 4 = true
  /\ (exists w : Waveform.t, WaveformPresets.square 4 = Ok w
    /\ Waveform.valid w
    /\ Waveform.in_range w
    /\ (forall i : Z, (0 <= i < 4)%Z ->
      (2 * i < 4)%Z ->
      Waveform.getSample w i = Ok 1)
    /\ (forall i : Z, (0 <= i < 4)%Z ->
      (4 <= 2 * i)%Z ->
      Waveform.getSample w i = Ok (-1))
    /\ Waveform.normalize w = w).
Proof.
  assert (H1 : Waveform.isPowerOfTwo 4 = true)
    by (vm_compute; reflexivity).
  split; [exact H1|].
  exact ((square_samples 4) H1).
Defined.

Lemma triangle_shape_witness :
  Waveform.isPowerOfTwo 4 = true
  /\ 4%Z = (4 * 1)%Z
  /\ (exists w : Waveform.t, WaveformPresets.triangle 4 = Ok w
    /\ Waveform.valid w
    /\ Waveform.in_range w
    /\ Waveform.getSample w 0 = Ok 0
    /\ Waveform.getSample w 1 = Ok 1
    /\ Waveform.getSample w (2 * 1) = Ok 0
    /\ Waveform.getSample w (3 * 1) = Ok (-1)
    /\ forall (i : Z) (x y : R), (0 <= i < 4)%Z ->
    Waveform.getSample w i = Ok x ->
    Waveform.getSample w ((i + 1) `mod` 4) = Ok y ->
    Rabs (y - x) = 4 / 4).
Proof.
  assert (H1 : Waveform.isPowerOfTwo 4 = true)
    by (vm_compute; reflexivity).
  assert (H2 : 4%Z = (4 * 1)%Z)
    by reflexivity.
  split; [exact H1|].
  split; [exact H2|].
  exact ((triangle_shape 4 1) H1 H2).
Defined.

Lemma custom_default_is_sine_witness :
  Waveform.isPowerOfTwo 4 = true
  /\ (4 `mod` 4)%Z = 0%Z
  /\ (WaveformPresets.custom 4 [1] = WaveformPresets.sine 4).
Proof.
  assert (H1 : Waveform.isPowerOfTwo 4 = true)
    by (vm_compute; reflexivity).
  assert (H2 : (4 `mod` 4)%Z = 0%Z)
    by reflexivity.
  split; [exact H1|].
  split; [exact H2|].
  exact ((custom_default_is_sine 4) H1 H2).
Defined.

Lemma custom_result_witness :
  Waveform.isPowerOfTwo 4 = true
  /\ (exists w : Waveform.t, WaveformPresets.custom 4 [1; 1 / 2] = Ok w
      /\ Waveform.sampleRate w = 4%Z
      /\ Waveform.wf w
      /\ Waveform.in_range w
      /\ (Spec.max_abs (Waveform.samples w) = 0
          \/ Spec.max_abs (Waveform.samples w) = 1)
      /\ Waveform.normalize w = w
      /\ (Forall (fun a => a = 0) [1; 1 / 2] ->
          Waveform.constructor 4 = Ok w)).
Proof.
  assert (H1 : Waveform.isPowerOfTwo 4 = true)
    by (vm_compute; reflexivity).
  split; [exact H1|].
  exact ((proj1 (custom_result 4 [1; 1 / 2])) H1).
Defined.

Lemma initializeControlPoints_points_witness :
  Waveform.valid (TimedomainCanvas.waveform canvas4)
  /\ (let N := Waveform.sampleRate (TimedomainCanvas.waveform canvas4) in
    exists points : list TimedomainCanvas.ControlPoint,
    TimedomainCanvas.initializeControlPoints canvas4 = Ok {|
    TimedomainCanvas.waveform := TimedomainCanvas.waveform canvas4;
    TimedomainCanvas.controlPoints := points; TimedomainCanvas.displayWidth :=
    TimedomainCanvas.displayWidth canvas4; TimedomainCanvas.displayHeight :=
    TimedomainCanvas.displayHeight canvas4 |}
    /\ Z.of_nat (length points) = (64 `min` N)%Z
    /\ (forall (j : Z) (p : TimedomainCanvas.ControlPoint), JS.index points j
      = Some p ->
      (0 <= TimedomainCanvas.sampleIndex p < N)%Z
      /\ Waveform.getSample (TimedomainCanvas.waveform canvas4)
        (TimedomainCanvas.sampleIndex p) = Ok (TimedomainCanvas.value p)
      /\ TimedomainCanvas.sampleIndex p = JS.floor (IZR j * (IZR N / IZR (64
        `min` N)))
      /\ ((N <= 64)%Z ->
        TimedomainCanvas.sampleIndex p = j)
      /\ forall k : Z, N = (64 * k)%Z ->
      TimedomainCanvas.sampleIndex p = (j * k)%Z)
    /\ Inv.increasing points).
Proof.
  assert (H1 : Waveform.valid (TimedomainCanvas.waveform canvas4))
    by (split; [vm_compute; reflexivity | reflexivity]).
  split; [exact H1|].
  exact ((initializeControlPoints_points canvas4) H1).
Defined.

Lemma interpolatePointsAt_inside_witness :
  Inv.increasing two_points
  /\ ((forall (j : Z) (p : TimedomainCanvas.ControlPoint), JS.index two_points
    j = Some p ->
      TimedomainCanvas.interpolatePointsAt two_points
        (TimedomainCanvas.sampleIndex p) = Ok (TimedomainCanvas.value p))
    /\ forall (j : Z) (p p' : TimedomainCanvas.ControlPoint) (s : Z), JS.index
      two_points j = Some p ->
    JS.index two_points (j + 1) = Some p' ->
    (TimedomainCanvas.sampleIndex p < s < TimedomainCanvas.sampleIndex p')%Z
      ->
    let t := IZR (s - TimedomainCanvas.sampleIndex p) / IZR
      (TimedomainCanvas.sampleIndex p' - TimedomainCanvas.sampleIndex p) in
      TimedomainCanvas.interpolatePointsAt two_points s = Ok
      (TimedomainCanvas.value p * (1 - t) + TimedomainCanvas.value p' * t)
    /\ 0 < t < 1).
Proof.
  assert (H1 : Inv.increasing two_points)
    by (apply increasing_pair; simpl; lia).
  split; [exact H1|].
  exact ((interpolatePointsAt_inside two_points) H1).
Defined.

Lemma interpolatePointsAt_outside_witness :
  Inv.increasing two_points
  /\ JS.index two_points 0 = Some {| TimedomainCanvas.sampleIndex := 0;
    TimedomainCanvas.value := 1 |}
  /\ JS.index two_points (Z.of_nat (length two_points) - 1) = Some {|
    TimedomainCanvas.sampleIndex := 2; TimedomainCanvas.value := -1 |}
  /\ (2 <= length two_points)%nat
  /\ ((3 < TimedomainCanvas.sampleIndex {| TimedomainCanvas.sampleIndex := 0;
    TimedomainCanvas.value := 1 |})%Z \/ (TimedomainCanvas.sampleIndex {|
    TimedomainCanvas.sampleIndex := 2; TimedomainCanvas.value := -1 |} < 3)%Z)
  /\ (TimedomainCanvas.interpolatePointsAt two_points 3 = Ok
    (TimedomainCanvas.value {| TimedomainCanvas.sampleIndex := 0;
    TimedomainCanvas.value := 1 |} * (1 - IZR (3 -
    TimedomainCanvas.sampleIndex {| TimedomainCanvas.sampleIndex := 0;
    TimedomainCanvas.value := 1 |}) / IZR (TimedomainCanvas.sampleIndex {|
    TimedomainCanvas.sampleIndex := 2; TimedomainCanvas.value := -1 |} -
    TimedomainCanvas.sampleIndex {| TimedomainCanvas.sampleIndex := 0;
    TimedomainCanvas.value := 1 |})) + TimedomainCanvas.value {|
    TimedomainCanvas.sampleIndex := 2; TimedomainCanvas.value := -1 |} * (IZR
    (3 - TimedomainCanvas.sampleIndex {| TimedomainCanvas.sampleIndex := 0;
    TimedomainCanvas.value := 1 |}) / IZR (TimedomainCanvas.sampleIndex {|
    TimedomainCanvas.sampleIndex := 2; TimedomainCanvas.value := -1 |} -
    TimedomainCanvas.sampleIndex {| TimedomainCanvas.sampleIndex := 0;
    TimedomainCanvas.value := 1 |})))
    /\ ((TimedomainCanvas.sampleIndex {| TimedomainCanvas.sampleIndex := 2;
      TimedomainCanvas.value := -1 |} < 3)%Z ->
      1 < IZR (3 - TimedomainCanvas.sampleIndex {|
        TimedomainCanvas.sampleIndex := 0; TimedomainCanvas.value := 1 |}) /
        IZR (TimedomainCanvas.sampleIndex {| TimedomainCanvas.sampleIndex :=
        2; TimedomainCanvas.value := -1 |} - TimedomainCanvas.sampleIndex {|
        TimedomainCanvas.sampleIndex := 0; TimedomainCanvas.value := 1 |}))
    /\ ((3 < TimedomainCanvas.sampleIndex {| TimedomainCanvas.sampleIndex :=
      0; TimedomainCanvas.value := 1 |})%Z ->
      IZR (3 - TimedomainCanvas.sampleIndex {| TimedomainCanvas.sampleIndex :=
        0; TimedomainCanvas.value := 1 |}) / IZR (TimedomainCanvas.sampleIndex
        {| TimedomainCanvas.sampleIndex := 2; TimedomainCanvas.value := -1 |}
        - TimedomainCanvas.sampleIndex {| TimedomainCanvas.sampleIndex := 0;
        TimedomainCanvas.value := 1 |}) < 0)).
Proof.
  assert (H1 : Inv.increasing two_points)
    by (apply increasing_pair; simpl; lia).
  assert (H2 : JS.index two_points 0 = Some {| TimedomainCanvas.sampleIndex :=
    0; TimedomainCanvas.value := 1 |})
    by reflexivity.
  assert (H3 : JS.index two_points (Z.of_nat (length two_points) - 1) = Some
    {| TimedomainCanvas.sampleIndex := 2; TimedomainCanvas.value := -1 |})
    by reflexivity.
  assert (H4 : (2 <= length two_points)%nat)
    by (simpl; lia).
  assert (H5 : ((3 < TimedomainCanvas.sampleIndex {|
    TimedomainCanvas.sampleIndex := 0; TimedomainCanvas.value := 1 |})%Z \/
    (TimedomainCanvas.sampleIndex {| TimedomainCanvas.sampleIndex := 2;
    TimedomainCanvas.value := -1 |} < 3)%Z))
    by (right; simpl; lia).
  split; [exact H1|].
  split; [exact H2|].
  split; [exact H3|].
  split; [exact H4|].
  split; [exact H5|].
  exact ((fun H : Inv.increasing two_points => proj2
    (interpolatePointsAt_outside two_points 3) H (TimedomainCanvas.mkP 0 1)
    (TimedomainCanvas.mkP 2 (-1))) H1 H2 H3 H4 H5).
Defined.

Lemma redraw_keeps_control_points_witness :
  Waveform.valid (TimedomainCanvas.waveform canvas4)
  /\ Waveform.in_range (TimedomainCanvas.waveform canvas4)
  /\ (exists c1 c2 : TimedomainCanvas.t,
    TimedomainCanvas.initializeControlPoints canvas4 = Ok c1
    /\ TimedomainCanvas.updateWaveformFromPoints c1 = Ok c2
    /\ TimedomainCanvas.controlPoints c2 = TimedomainCanvas.controlPoints c1
    /\ Waveform.valid (TimedomainCanvas.waveform c2)
    /\ Waveform.in_range (TimedomainCanvas.waveform c2)
    /\ (forall (j : Z) (p : TimedomainCanvas.ControlPoint), JS.index
      (TimedomainCanvas.controlPoints c1) j = Some p ->
      Waveform.getSample (TimedomainCanvas.waveform c2)
        (TimedomainCanvas.sampleIndex p) = Waveform.getSample
        (TimedomainCanvas.waveform canvas4) (TimedomainCanvas.sampleIndex p))
    /\ ((Waveform.sampleRate (TimedomainCanvas.waveform canvas4) <= 64)%Z ->
      TimedomainCanvas.waveform c2 = TimedomainCanvas.waveform canvas4)).
Proof.
  assert (H1 : Waveform.valid (TimedomainCanvas.waveform canvas4))
    by (split; [vm_compute; reflexivity | reflexivity]).
  assert (H2 : Waveform.in_range (TimedomainCanvas.waveform canvas4))
    by (unfold Waveform.in_range; simpl; repeat constructor; lra).
  split; [exact H1|].
  split; [exact H2|].
  exact ((redraw_keeps_control_points canvas4) H1 H2).
Defined.

Lemma updateWaveformAtPosition_local_witness :
  Waveform.valid (TimedomainCanvas.waveform canvas4)
  /\ 0 < TimedomainCanvas.displayWidth canvas4
  /\ 0 < TimedomainCanvas.displayHeight canvas4
  /\ (let N := Waveform.sampleRate (TimedomainCanvas.waveform canvas4) in
      let k := JS.floor (TimedomainCanvas.screenToSample canvas4 100) in
      let v := TimedomainCanvas.screenToValue canvas4 50 in
      exists c' : TimedomainCanvas.t,
        TimedomainCanvas.updateWaveformAtPosition canvas4 100 50 = Ok c'
        /\ TimedomainCanvas.controlPoints c'
           = TimedomainCanvas.controlPoints canvas4
        /\ Waveform.valid (TimedomainCanvas.waveform c')
        /\ (Waveform.in_range (TimedomainCanvas.waveform canvas4) ->
            Waveform.in_range (TimedomainCanvas.waveform c'))
        /\ (~ (0 <= k < N)%Z -> c' = canvas4)
        /\ ((0 <= k < N)%Z ->
            Waveform.getSample (TimedomainCanvas.waveform c') k
            = (w <- Waveform.setSample (TimedomainCanvas.waveform canvas4) k v ;;
               Waveform.getSample w k)
            /\ (forall d : Z, d = (-2)%Z \/ d = (-1)%Z \/ d = 1%Z \/ d = 2%Z ->
                  (0 <= k + d < N)%Z ->
                  let weight := 1 - Rabs (IZR d) / 3 in
                  exists old : R,
                    Waveform.getSample (TimedomainCanvas.waveform canvas4)
                                       (k + d) = Ok old
                    /\ Waveform.getSample (TimedomainCanvas.waveform c') (k + d)
                       = (w <- Waveform.setSample
                                 (TimedomainCanvas.waveform canvas4) (k + d)
                                 (old * (1 - weight) + v * weight) ;;
                          Waveform.getSample w (k + d)))
            /\ forall j : Z, (j < k - 2)%Z \/ (k + 2 < j)%Z ->
                 Waveform.getSample (TimedomainCanvas.waveform c') j
                 = Waveform.getSample (TimedomainCanvas.waveform canvas4) j)).
Proof.
  assert (H1 : Waveform.valid (TimedomainCanvas.waveform canvas4))
    by (split; [vm_compute; reflexivity | reflexivity]).
  assert (H2 : 0 < TimedomainCanvas.displayWidth canvas4) by (simpl; lra).
  assert (H3 : 0 < TimedomainCanvas.displayHeight canvas4) by (simpl; lra).
  split; [exact H1|].
  split; [exact H2|].
  split; [exact H3|].
  exact ((updateWaveformAtPosition_local canvas4 100 50) H1 H2 H3).
Defined.

Lemma updateHarmonicAtPosition_sets_bar_witness :
  Spec.public_spectrum (FrequencyCanvas.spectrum bars64)
  /\ 0 < FrequencyCanvas.displayWidth bars64
  /\ 20 < FrequencyCanvas.displayHeight bars64 * 0.85
  /\ (let centerY := FrequencyCanvas.displayHeight bars64 * 0.85 in
      let count :=
        FrequencySpectrum.harmonicCount (FrequencyCanvas.spectrum bars64) in
      ((0 <= 1 < count)%Z ->
       exists (c' : FrequencyCanvas.t) (old new : FrequencySpectrum.Harmonic),
         FrequencyCanvas.updateHarmonicAtPosition bars64 1 100
         = (c', if (32 <=? count)%Z then Ok tt else Throw (OutOfRange count))
         /\ FrequencyCanvas.displayWidth c'
            = FrequencyCanvas.displayWidth bars64
         /\ FrequencyCanvas.displayHeight c'
            = FrequencyCanvas.displayHeight bars64
         /\ FrequencySpectrum.harmonicCount (FrequencyCanvas.spectrum c')
            = count
         /\ FrequencySpectrum.getHarmonic (FrequencyCanvas.spectrum bars64) 1
            = Ok old
         /\ FrequencySpectrum.getHarmonic (FrequencyCanvas.spectrum c') 1
            = Ok new
         /\ FrequencySpectrum.phase new = FrequencySpectrum.phase old
         /\ FrequencySpectrum.amplitude new
            = Spec.clamp ((centerY - 100) / (centerY - 20)) 0 1
         /\ (100 <= 20 -> FrequencySpectrum.amplitude new = 1)
         /\ (centerY <= 100 -> FrequencySpectrum.amplitude new = 0)
         /\ forall i : Z, i <> 1%Z ->
              FrequencySpectrum.getHarmonic (FrequencyCanvas.spectrum c') i
              = FrequencySpectrum.getHarmonic
                  (FrequencyCanvas.spectrum bars64) i)
      /\ (~ (0 <= 1 < count)%Z ->
          FrequencyCanvas.updateHarmonicAtPosition bars64 1 100
          = (bars64, Throw (OutOfRange 1)))
      /\ forall (x : R) (found : Z),
           FrequencyCanvas.findHarmonicAtPosition bars64 x 100 = Some found ->
           (0 <= found < 32)%Z /\ 100 <= centerY).
Proof.
  assert (H1 : Spec.public_spectrum (FrequencyCanvas.spectrum bars64))
    by apply Spec.public_new.
  assert (H2 : 0 < FrequencyCanvas.displayWidth bars64)
    by (simpl; lra).
  assert (H3 : 20 < FrequencyCanvas.displayHeight bars64 * 0.85)
    by (simpl; lra).
  split; [exact H1|].
  split; [exact H2|].
  split; [exact H3|].
  exact ((updateHarmonicAtPosition_sets_bar bars64 1 100) H1 H2 H3).
Defined.

Lemma createWAVBuffer_samples_witness :
  JS.index [1 / 2; -1] 1 = Some (-1)
  /\ (exists buffer : list Z, WaveformExporter.createWAVBuffer [1 / 2; -1]
    44100 = Ok buffer
    /\ Inv.getInt16 buffer (44 + 2 * 1) = JS.trunc (Rmax (-1) (Rmin 1 (-1)) *
      32767)
    /\ (-32767 <= Inv.getInt16 buffer (44 + 2 * 1) <= 32767)%Z
    /\ Rabs (IZR (Inv.getInt16 buffer (44 + 2 * 1)) - Rmax (-1) (Rmin 1 (-1))
      * 32767) < 1
    /\ (0 <= -1 ->
      (0 <= Inv.getInt16 buffer (44 + 2 * 1))%Z)
    /\ (-1 <= 0 ->
      (Inv.getInt16 buffer (44 + 2 * 1) <= 0)%Z)).
Proof.
  assert (H1 : JS.index [1 / 2; -1] 1 = Some (-1))
    by reflexivity.
  split; [exact H1|].
  exact ((createWAVBuffer_samples [1 / 2; -1] 44100 1 (-1)) H1).
Defined.

Lemma toWAV_never_clips_witness :
  Waveform.valid square4
  /\ Waveform.in_range square4
  /\ 0 < 440
  /\ (0 <= 3 < 44100)%Z
  /\ (let samplesPerCycle := 44100 / 440 in let position := JS.fmod 3
    samplesPerCycle / samplesPerCycle * IZR (Waveform.sampleRate square4) in
    exists buffer : list Z, WaveformExporter.toWAV square4 440 = Ok buffer
    /\ Z.of_nat (length buffer) = 88244%Z
    /\ 0 <= position < IZR (Waveform.sampleRate square4)
    /\ -1 <= Waveform.interpolate square4 position <= 1
    /\ Inv.getInt16 buffer (44 + 2 * 3) = JS.trunc (Waveform.interpolate
      square4 position * 32767)).
Proof.
  assert (H1 : Waveform.valid square4)
    by (split; [vm_compute; reflexivity | reflexivity]).
  assert (H2 : Waveform.in_range square4)
    by (unfold Waveform.in_range; simpl; repeat constructor; lra).
  assert (H3 : 0 < 440)
    by lra.
  assert (H4 : (0 <= 3 < 44100)%Z)
    by lia.
  split; [exact H1|].
  split; [exact H2|].
  split; [exact H3|].
  split; [exact H4|].
  exact ((toWAV_never_clips square4 440 3) H1 H2 H3 H4).
Defined.

Lemma editor_undo_redo_witness :
  WavetableEditor.isRestoringHistory editor0 = false
  /\ HistoryManager.reachable (WavetableEditor.historyManager editor0)
  /\ (2 <= HistoryManager.maxHistory (WavetableEditor.historyManager editor0))%Z
  /\ Waveform.valid (WavetableEditor.currentWaveform editor0)
  /\ Waveform.valid sine4
  /\ (let count :=
        FrequencySpectrum.harmonicCount
          (WavetableEditor.currentSpectrum editor0) in
      let e1 := WavetableEditor.pushToHistory editor0 1 in
      let e2 :=
        WavetableEditor.pushToHistory
          (WavetableEditor.mk sine4 two_harmonics
             (WavetableEditor.activeView e1) (WavetableEditor.timeCanvas e1)
             (WavetableEditor.frequencyCanvas e1)
             (WavetableEditor.historyManager e1) false) 2 in
      (WavetableEditor.activeView editor0 = WavetableEditor.time
       \/ ((32 <= count)%Z
           /\ (32 <= FrequencySpectrum.harmonicCount two_harmonics)%Z) ->
       exists e3 e4 : WavetableEditor.t,
         WavetableEditor.undo e2 3 = (e3, Ok tt)
         /\ WavetableEditor.currentWaveform e3
            = WavetableEditor.currentWaveform editor0
         /\ WavetableEditor.currentSpectrum e3
            = FrequencySpectrum.mk count 440
                (FrequencySpectrum.harmonics
                   (WavetableEditor.currentSpectrum editor0))
         /\ WavetableEditor.isRestoringHistory e3 = false
         /\ (WavetableEditor.activeView editor0 = WavetableEditor.time ->
             TimedomainCanvas.waveform (WavetableEditor.timeCanvas e3)
             = WavetableEditor.currentWaveform e3
             /\ WavetableEditor.frequencyCanvas e3
                = WavetableEditor.frequencyCanvas editor0)
         /\ (WavetableEditor.activeView editor0 <> WavetableEditor.time ->
             FrequencyCanvas.spectrum (WavetableEditor.frequencyCanvas e3)
             = WavetableEditor.currentSpectrum e3
             /\ WavetableEditor.timeCanvas e3
                = WavetableEditor.timeCanvas editor0)
         /\ WavetableEditor.redo e3 4 = (e4, Ok tt)
         /\ WavetableEditor.currentWaveform e4 = sine4
         /\ WavetableEditor.currentSpectrum e4
            = FrequencySpectrum.mk
                (FrequencySpectrum.harmonicCount two_harmonics) 440
                (FrequencySpectrum.harmonics two_harmonics)
         /\ WavetableEditor.isRestoringHistory e4 = false
         /\ WavetableEditor.historyManager e4
            = WavetableEditor.historyManager e2)
      /\ (WavetableEditor.activeView editor0 <> WavetableEditor.time ->
          (0 <= count < 32)%Z ->
          exists e3 : WavetableEditor.t,
            WavetableEditor.undo e2 3 = (e3, Throw (OutOfRange count))
            /\ WavetableEditor.currentWaveform e3
               = WavetableEditor.currentWaveform editor0
            /\ WavetableEditor.isRestoringHistory e3 = true
            /\ forall t : Z, WavetableEditor.pushToHistory e3 t = e3)).
Proof.
  assert (H1 : WavetableEditor.isRestoringHistory editor0 = false)
    by reflexivity.
  assert (H2 : HistoryManager.reachable (WavetableEditor.historyManager
    editor0))
    by apply HistoryManager.reach_new.
  assert (H3 : (2 <= HistoryManager.maxHistory (WavetableEditor.historyManager
    editor0))%Z)
    by (simpl; lia).
  assert (H4 : Waveform.valid (WavetableEditor.currentWaveform editor0))
    by (split; [vm_compute; reflexivity | reflexivity]).
  assert (H5 : Waveform.valid sine4)
    by (split; [vm_compute; reflexivity | reflexivity]).
  split; [exact H1|].
  split; [exact H2|].
  split; [exact H3|].
  split; [exact H4|].
  split; [exact H5|].
  exact ((editor_undo_redo editor0 sine4 two_harmonics 1 2 3 4) H1 H2 H3 H4
    H5).
Defined.

Lemma getPartials_unclamped_witness :
  (0 <= 1 < 2)%Z
  /\ (1 < 32)%Z
  /\ (exists (sp : FrequencySpectrum.t) (h : FrequencySpectrum.Harmonic),
    WaveformTransform.toFrequencyDomain square4 2 = Ok sp
    /\ FrequencySpectrum.getHarmonic sp 1 = Ok h
    /\ FrequencySpectrum.amplitude h = Rmin 1 (JS.get 0
      (AudioPreview.getPartials square4) 1)
    /\ 0 <= JS.get 0 (AudioPreview.getPartials square4) 1
    /\ length (AudioPreview.getPartials square4) = 32%nat).
Proof.
  assert (H1 : (0 <= 1 < 2)%Z)
    by lia.
  assert (H2 : (1 < 32)%Z)
    by lia.
  split; [exact H1|].
  split; [exact H2|].
  exact ((getPartials_unclamped square4 2 1) H1 H2).
Defined.

End MoreWitnesses.
